(** * InfrastructureCalibration: a shallow embedding and its properties

    The development follows [src/infrastr_calib/InfrastructureCalibration.cc]
    of camodocal.  The numerical collaborators of the class (Eigen, OpenCV,
    Ceres, the SURF matcher, the place recogniser and the camera models) are
    interfaces whose operations are taken as parameters; everything the
    class itself decides (control flow, containers, thresholds, sentinels,
    the shared Feature3D map) is written out. *)

From Stdlib Require Import ZArith List Bool Lia String.
From Stdlib Require Import Floats.SpecFloat Floats.PrimFloat Floats.FloatOps.
From stdpp Require Import base option list gmap.

Open Scope Z_scope.

(** ** IEEE-754 numbers

    [double] is binary64 and [float] is binary32, both as [spec_float]
    with the operations of [SpecFloat] at the matching precision. *)

Module IEEE.

Definition double := spec_float.
Definition float32 := spec_float.

Definition dprec : Z := 53.
Definition demax : Z := 1024.
Definition fprec : Z := 24.
Definition femax : Z := 128.

(** A binary64 literal, written as a primitive float. *)
Definition dbl (f : PrimFloat.float) : double := Prim2SF f.

Definition dzero : double := S754_zero false.
Definition dadd : double -> double -> double := SFadd dprec demax.
Definition ddiv : double -> double -> double := SFdiv dprec demax.
Definition dmul : double -> double -> double := SFmul dprec demax.

(** [std::numeric_limits<double>::max()] *)
Definition DBL_MAX : double := SFmax_float dprec demax.

(** [float / float] *)
Definition fdiv : float32 -> float32 -> float32 := SFdiv fprec femax.

(** The comparison operators of C++ on floating-point operands. *)
Definition flt (x y : spec_float) : bool := SFltb x y.
Definition fgt (x y : spec_float) : bool := SFltb y x.
Definition fge (x y : spec_float) : bool := SFleb y x.
Definition feq (x y : spec_float) : bool := SFeqb x y.
Definition fne (x y : spec_float) : bool := negb (SFeqb x y).

Definition is_nan (x : spec_float) : bool :=
  match x with S754_nan => true | _ => false end.

(** [size_t] to [double], used where the source divides by a count. *)
Definition double_of_nat (n : nat) : double :=
  binary_normalize dprec demax (Z.of_nat n) 0 false.

Ltac cmp_cases :=
  repeat match goal with
  | |- context [Z.compare ?a ?b] =>
      destruct (Z.compare_spec a b); subst; simpl
  | H : context [Z.compare ?a ?b] |- _ =>
      destruct (Z.compare_spec a b); subst; simpl in H
  | |- context [Pos.compare_cont Eq ?a ?b] =>
      change (Pos.compare_cont Eq a b) with (Pos.compare a b);
      destruct (Pos.compare_spec a b); subst; simpl
  | H : context [Pos.compare_cont Eq ?a ?b] |- _ =>
      change (Pos.compare_cont Eq a b) with (Pos.compare a b) in H;
      destruct (Pos.compare_spec a b); subst; simpl in H
  end.

Lemma SFcompare_Lt_trans x y z :
  SFcompare x y = Some Lt -> SFcompare y z = Some Lt ->
  SFcompare x z = Some Lt.
Proof.
  destruct x as [[]|[]| |[] mx ex], y as [[]|[]| |[] my ey],
           z as [[]|[]| |[] mz ez]; simpl; try congruence;
    intros Hxy Hyz; cmp_cases; try congruence; try lia; exfalso; lia.
Qed.

Lemma SFcompare_Lt_irrefl x : SFcompare x x <> Some Lt.
Proof.
  destruct x as [[]|[]| |[] m e]; simpl; try congruence;
    rewrite Z.compare_refl;
    change (Pos.compare_cont Eq m m) with (Pos.compare m m);
    rewrite Pos.compare_refl; simpl; congruence.
Qed.

Lemma SFcompare_Lt_antisym x y :
  SFcompare x y = Some Lt -> SFcompare y x = Some Gt.
Proof.
  destruct x as [[]|[]| |[] mx ex], y as [[]|[]| |[] my ey];
    simpl; try congruence; intros H; cmp_cases;
    try congruence; try lia; exfalso; lia.
Qed.

Lemma flt_irrefl x : flt x x = false.
Proof.
  unfold flt, SFltb. pose proof (SFcompare_Lt_irrefl x).
  destruct (SFcompare x x) as [[]|]; congruence.
Qed.

Lemma flt_trans x y z : flt x y = true -> flt y z = true -> flt x z = true.
Proof.
  unfold flt, SFltb. intros Hxy Hyz.
  destruct (SFcompare x y) as [[]|] eqn:E1; try discriminate.
  destruct (SFcompare y z) as [[]|] eqn:E2; try discriminate.
  now rewrite (SFcompare_Lt_trans x y z E1 E2).
Qed.

Lemma flt_not_fge x y : flt x y = true -> fge x y = false.
Proof.
  unfold flt, fge, SFltb, SFleb. intros H.
  destruct (SFcompare x y) as [[]|] eqn:E; try discriminate.
  now rewrite (SFcompare_Lt_antisym x y E).
Qed.

Lemma flt_not_feq x y : flt x y = true -> feq x y = false.
Proof.
  unfold flt, feq, SFltb, SFeqb.
  destruct (SFcompare x y) as [[]|]; congruence.
Qed.

Lemma flt_asym x y : flt x y = true -> flt y x = false.
Proof.
  intros H. destruct (flt y x) eqn:E; [|reflexivity].
  pose proof (flt_trans x y x H E) as C. now rewrite flt_irrefl in C.
Qed.

Lemma flt_not_nan x y : flt x y = true -> is_nan x = false /\ is_nan y = false.
Proof.
  unfold flt, SFltb. destruct x as [[]|[]| |[] mx ex], y as [[]|[]| |[] my ey];
    simpl; try discriminate; auto.
Qed.

Lemma SFcompare_Lt_le_trans x y z :
  SFcompare x y = Some Lt -> SFcompare z y <> Some Lt -> is_nan z = false ->
  SFcompare x z = Some Lt.
Proof.
  destruct x as [[]|[]| |[] mx ex], y as [[]|[]| |[] my ey],
           z as [[]|[]| |[] mz ez]; simpl; try congruence;
    intros Hxy Hzy _; cmp_cases; try congruence; try lia; exfalso;
    try (apply Hzy; reflexivity); try lia.
Qed.

(** [x < y] and not [z < y], for a number [z], give [x < z]. *)
Lemma flt_le_trans x y z :
  flt x y = true -> flt z y = false -> is_nan z = false -> flt x z = true.
Proof.
  unfold flt, SFltb. intros Hxy Hzy Hz.
  destruct (SFcompare x y) as [[]|] eqn:E1; try discriminate.
  rewrite (SFcompare_Lt_le_trans x y z E1); [reflexivity| |exact Hz].
  destruct (SFcompare z y) as [[]|]; congruence.
Qed.

Lemma feq_DBL_MAX : feq DBL_MAX DBL_MAX = true.
Proof. reflexivity. Qed.

Lemma is_nan_DBL_MAX : is_nan DBL_MAX = false.
Proof. reflexivity. Qed.

End IEEE.


(** ** Exceptions and bounds-checked access *)

(** [std::out_of_range], the dereference of a null pointer, and a fatal
    check of the Ceres library ([LOG(FATAL)]: the process aborts). *)
Inductive exn : Type :=
| std_out_of_range
| null_pointer
| ceres_fatal.

Inductive result (A : Type) : Type :=
| Ok (a : A)
| Throw (e : exn).
Arguments Ok {A} a.
Arguments Throw {A} e.

Global Instance result_ret : MRet result := fun A a => Ok a.
Global Instance result_bind : MBind result := fun A B f m =>
  match m with
  | Ok a => f a
  | Throw e => Throw e
  end.

(** [std::vector::at] with a [size_t] index. *)
Definition at_ {A} (v : list A) (i : nat) : result A :=
  match v !! i with
  | Some a => Ok a
  | None => Throw std_out_of_range
  end.

(** [std::vector::at] with an [int] index: a negative [int] converts to a
    [size_t] beyond every size. *)
Definition at_int {A} (v : list A) (i : Z) : result A :=
  if i <? 0 then Throw std_out_of_range else at_ v (Z.to_nat i).

(** The loop [for (i = 0; i < n; ++i) body(i)] over a vector, where the
    body may throw. *)
Fixpoint mapM {A B} (f : A -> result B) (l : list A) : result (list B) :=
  match l with
  | [] => Ok []
  | a :: l' => b ← f a; bs ← mapM f l'; Ok (b :: bs)
  end.

Lemma at_seq_Ok n i j : at_ (seq 0 n) i = Ok j -> j = i.
Proof.
  unfold at_. destruct (seq 0 n !! i) eqn:E; [|discriminate].
  apply lookup_seq in E. simpl in E. destruct E as [-> _]. congruence.
Qed.

(** ** OpenCV values *)

(** [cv::Mat]: the element rows together with [cols] and [type()]. *)
Record Mat : Type := mkMat {
  mat_data : list (list Z);
  cols : Z;
  type_ : Z
}.

Definition rows (m : Mat) : nat := length (mat_data m).

(** [cv::DMatch] *)
Record DMatch : Type := mkDMatch {
  queryIdx : Z;
  trainIdx : Z;
  imgIdx : Z;
  distance : IEEE.float32
}.

(** [FLT_MAX], the distance of a default-constructed [cv::DMatch]. *)
Definition FLT_MAX : IEEE.float32 := SFmax_float IEEE.fprec IEEE.femax.

Definition DMatch_default : DMatch :=
  {| queryIdx := -1; trainIdx := -1; imgIdx := -1; distance := FLT_MAX |}.

(** Addresses of heap objects ([Point3DFeature*]). *)
Definition addr := positive.

(** [Point2DFeature]: key point ([pt.x], [pt.y]), descriptor, index in its
    frame, and the (possibly null) pointer to its scene point. *)
Record Point2DFeature : Type := mkPoint2DFeature {
  keypoint : IEEE.float32 * IEEE.float32;
  descriptor : Mat;
  index : nat;
  feature3D : option addr
}.

(** ** Feature matcher: [buildDescriptorMat] and [matchFeatures] *)

Module Matcher.

(** [k_maxDistanceRatio(0.7f)]: the binary32 number nearest to 0.7. *)
Definition k_maxDistanceRatio : IEEE.float32 :=
  S754_finite false 11744051 (-24).

(** [InfrastructureCalibration::buildDescriptorMat].  The index vector is
    extended by [0 .. features.size()-1]; the matrix takes its width and
    type from [features.at(0)], which throws on an empty vector; row [i]
    receives the descriptor of [features.at(indices.at(i))]. *)
Definition buildDescriptorMat (features : list Point2DFeature)
    (indices : list nat) : result (Mat * list nat) :=
  let indices := indices ++ seq 0 (length features) in
  f0 ← at_ features 0;
  data ← mapM (fun idx => f ← at_ features idx;
                          Ok (concat (mat_data (descriptor f)))) indices;
  Ok ({| mat_data := data;
         cols := cols (descriptor f0);
         type_ := type_ (descriptor f0) |}, indices).

(** The ratio test applied to the two nearest neighbours of every row: the
    nearest one is kept when [distance0 / distance1 < k_maxDistanceRatio]. *)
Definition ratioTest (candidates : list (list DMatch)) : list (list DMatch) :=
  map (fun m =>
         match m with
         | m0 :: m1 :: _ =>
             let distanceRatio := IEEE.fdiv (distance m0) (distance m1) in
             if IEEE.flt distanceRatio k_maxDistanceRatio then [m0] else []
         | _ => []
         end) candidates.

(** The cross-check loop over [fwdMatches]. *)
Fixpoint crossCheck (fwdMatches revMatches : list (list DMatch))
    (queryIndices trainIndices : list nat) : result (list DMatch) :=
  match fwdMatches with
  | [] => Ok []
  | [] :: rest => crossCheck rest revMatches queryIndices trainIndices
  | (fwdMatch :: _) :: rest =>
      rev ← at_int revMatches (trainIdx fwdMatch);
      match rev with
      | [] => crossCheck rest revMatches queryIndices trainIndices
      | revMatch :: _ =>
          if (queryIdx fwdMatch =? trainIdx revMatch) &&
             (trainIdx fwdMatch =? queryIdx revMatch)
          then
            q ← at_int queryIndices (queryIdx fwdMatch);
            t ← at_int trainIndices (queryIdx revMatch);
            ms ← crossCheck rest revMatches queryIndices trainIndices;
            Ok ({| queryIdx := Z.of_nat q; trainIdx := Z.of_nat t;
                   imgIdx := imgIdx DMatch_default;
                   distance := distance DMatch_default |} :: ms)
          else crossCheck rest revMatches queryIndices trainIndices
      end
  end.

Section WithKnn.

(** [SurfGPU::knnMatch(query, train, matches, k)], the brute-force
    k-nearest-neighbour matcher of the features2d component. *)
Variable knnMatch : Mat -> Mat -> nat -> list (list DMatch).

(** [InfrastructureCalibration::matchFeatures]: the matches and the lines
    written to [std::cout]. *)
Definition matchFeatures (queryFeatures trainFeatures : list Point2DFeature)
    : result (list DMatch * list string) :=
  '(queryDtor, queryIndices) ← buildDescriptorMat queryFeatures [];
  '(trainDtor, trainIndices) ← buildDescriptorMat trainFeatures [];
  if negb (cols queryDtor =? cols trainDtor) then
    Ok ([], ["# WARNING: Descriptor lengths do not match."%string])
  else if negb (type_ queryDtor =? type_ trainDtor) then
    Ok ([], ["# WARNING: Descriptor types do not match."%string])
  else
    let candidateFwdMatches := knnMatch queryDtor trainDtor 2 in
    let candidateRevMatches := knnMatch trainDtor queryDtor 2 in
    let fwdMatches := ratioTest candidateFwdMatches in
    let revMatches := ratioTest candidateRevMatches in
    matches ← crossCheck fwdMatches revMatches queryIndices trainIndices;
    Ok (matches, []).

(** The two nearest neighbours, among the descriptors of [B], of every
    descriptor of [A]. *)
Definition nearestTwo (A B : list Point2DFeature) : list (list DMatch) :=
  match buildDescriptorMat A [], buildDescriptorMat B [] with
  | Ok (a, _), Ok (b, _) => knnMatch a b 2
  | _, _ => []
  end.

(** The ratio-passing nearest neighbour in [B] of the [i]-th feature of
    [A]: the index in [B] of its nearest neighbour when the nearest and
    second-nearest distances pass the ratio test, and nothing otherwise. *)
Definition ratioNearest (A B : list Point2DFeature) (i : Z) : option Z :=
  if i <? 0 then None else
  match ratioTest (nearestTwo A B) !! Z.to_nat i with
  | Some (m :: _) => Some (trainIdx m)
  | _ => None
  end.

(** The nearest / second-nearest distance ratio of the [i]-th feature of
    [A] against [B], when it has two neighbours. *)
Definition distanceRatio (A B : list Point2DFeature) (i : Z)
    : option IEEE.float32 :=
  if i <? 0 then None else
  match nearestTwo A B !! Z.to_nat i with
  | Some (m0 :: m1 :: _) => Some (IEEE.fdiv (distance m0) (distance m1))
  | _ => None
  end.

(** What [cv::DescriptorMatcher::knnMatch] promises about the indices it
    returns: entry [i] of the result lists matches of query row [i]. *)
Definition knn_indexed : Prop :=
  forall Q T k i ms m,
    knnMatch Q T k !! i = Some ms -> m ∈ ms -> queryIdx m = Z.of_nat i.

End WithKnn.

(** Modelled from the spec: [SurfGPU::knnMatch] lives in the features2d
    component, whose source is not part of this file.  Section 4.3 of the
    specification describes it as computing, for every query descriptor,
    its k nearest train descriptors.  The brute-force matcher below does
    that for the L1 distance on integer descriptors and serves as the
    matcher of the worked examples. *)
Definition l1_distance (a b : list Z) : Z :=
  foldr Z.add 0 (zip_with (fun x y => Z.abs (x - y)) a b).

Definition float32_of_Z (z : Z) : IEEE.float32 :=
  binary_normalize IEEE.fprec IEEE.femax z 0 false.

Fixpoint insert_by_distance (m : DMatch) (l : list DMatch) : list DMatch :=
  match l with
  | [] => [m]
  | x :: l' =>
      if IEEE.flt (distance m) (distance x) then m :: x :: l'
      else x :: insert_by_distance m l'
  end.

Definition sort_by_distance (l : list DMatch) : list DMatch :=
  foldr insert_by_distance [] l.

Definition bruteForceKnn (Q T : Mat) (k : nat) : list (list DMatch) :=
  imap (fun i q =>
          take k (sort_by_distance
                    (imap (fun j t =>
                             {| queryIdx := Z.of_nat i; trainIdx := Z.of_nat j;
                                imgIdx := 0;
                                distance := float32_of_Z (l1_distance q t) |})
                          (mat_data T))))
       (mat_data Q).

(** A feature with a one-dimensional descriptor, for the examples. *)
Definition feature1 (v : Z) (i : nat) : Point2DFeature :=
  {| keypoint := (S754_zero false, S754_zero false);
     descriptor := {| mat_data := [[v]]; cols := 1; type_ := 5 |};
     index := i;
     feature3D := None |}.

End Matcher.

(** ** The collaborators of the calibration class

    Eigen's fixed-size algebra, OpenCV's image routines, the SURF detector
    and matcher, the place recogniser, the camera models and the Ceres
    solver are used through their interfaces.  The class below collects
    the operations the calibration code calls; every definition that
    follows is parametric in it. *)

(** [FrameID] of the place recogniser. *)
Record FrameID : Type := mkFrameID {
  cameraIdx : nat;
  segmentIdx : nat;
  frameIdx : nat
}.

Inductive CeresBlock : Type :=
| ExtrinsicRotation (camera : nat)
| ExtrinsicTranslation (camera : nat)
| OdometryPosition (frameset : nat)
| OdometryAttitude (frameset : nat)
| ScenePoint (feature : addr).

Global Instance CeresBlock_eq_dec : EqDecision CeresBlock.
Proof. solve_decision. Defined.

Class Externals : Type := {
  (* Eigen *)
  Matrix4d : Type;
  Vector3d : Type;
  Quaterniond : Type;
  Matrix4d_Identity : Matrix4d;
  (* the content of a default-constructed [Eigen::Matrix4d] *)
  Matrix4d_uninitialized : Matrix4d;
  Matrix4d_mul : Matrix4d -> Matrix4d -> Matrix4d;
  Matrix4d_inverse : Matrix4d -> Matrix4d;
  (* [Eigen::Quaterniond(H.block<3,3>(0,0))] and [H.block<3,1>(0,3)] *)
  Matrix4d_rotation : Matrix4d -> Quaterniond;
  Matrix4d_translation : Matrix4d -> Vector3d;
  (* the homogeneous matrix of a rotation and a translation *)
  Matrix4d_of : Quaterniond -> Vector3d -> Matrix4d;
  Quaterniond_Identity : Quaterniond;
  Vector3d_Zero : Vector3d;
  Vector3d_add : Vector3d -> Vector3d -> Vector3d;
  Vector3d_sub : Vector3d -> Vector3d -> Vector3d;
  (* [v /= n] for a [size_t] count *)
  Vector3d_div : Vector3d -> nat -> Vector3d;
  Vector3d_norm : Vector3d -> IEEE.double;
  (* gpl/EigenUtils: [quaternionAvg], and [mat2RPY] of the rotation
     matrix of a quaternion packed as [Vector3d(yaw, pitch, roll)] *)
  quaternionAvg : list Quaterniond -> Quaterniond;
  yawPitchRoll : Quaterniond -> Vector3d;
  AngleAxisToQuaternion : Vector3d -> Quaterniond;
  (* [hypot] of the C library *)
  hypot : IEEE.double -> IEEE.double -> IEEE.double;
  (* camera models *)
  Camera : Type;
  (* [rectifyImagePoint]: [liftProjective] followed by the division by
     the third coordinate *)
  rectifyImagePoint : Camera -> IEEE.float32 * IEEE.float32 ->
                      IEEE.float32 * IEEE.float32;
  (* [camera->reprojectionError(P, q, t, observed)] *)
  Camera_reprojectionError :
    Camera -> Vector3d -> Quaterniond -> Vector3d ->
    IEEE.float32 * IEEE.float32 -> IEEE.double;
  (* the seven-argument [reprojectionError]: the camera-in-world pose
     composed from extrinsic and odometry, handed to the camera model *)
  reprojectionError_point :
    Camera -> Vector3d -> Quaterniond -> Vector3d -> Vector3d -> Vector3d ->
    IEEE.float32 * IEEE.float32 -> IEEE.double;
  (* OpenCV and SURF *)
  Image : Type;
  equalizeHist : Image -> Image;
  (* [surf->detect] then [surf->compute]: key points with descriptors *)
  surf_detectAndCompute :
    Image -> list ((IEEE.float32 * IEEE.float32) * Mat);
  surf_knnMatch : Mat -> Mat -> nat -> list (list DMatch);
  (* [m_locrec->knnMatch(frame, k, candidates)], set up on the reference
     map: the k map frames most similar to the query features *)
  locrec_knnMatch : list Point2DFeature -> nat -> list FrameID;
  (* [cv::solvePnPRansac(scene, image, ..., thresh, ..., inliers, CV_EPNP)]:
     the rotation vector, the translation and the inlier indices *)
  solvePnPRansac :
    list Vector3d -> list (IEEE.float32 * IEEE.float32) -> IEEE.double ->
    Vector3d * Vector3d * list Z
}.

Section DataModel.
Context {E : Externals}.

(** Modelled from the spec: the class [Pose] of the sparse-graph component
    is declared outside this file.  Section 3 of the specification: a
    rigid transform (unit quaternion rotation and translation) with an
    associated timestamp; [pose()] is its homogeneous matrix and
    [Pose(H)] reads rotation and translation off a matrix. *)
Record Pose : Type := mkPose {
  timeStamp : Z;
  rotation : Quaterniond;
  translation : Vector3d
}.

Definition Pose_default : Pose :=
  {| timeStamp := 0; rotation := Quaterniond_Identity;
     translation := Vector3d_Zero |}.

Definition Pose_pose (p : Pose) : Matrix4d :=
  Matrix4d_of (rotation p) (translation p).

Definition Pose_of_matrix (H : Matrix4d) : Pose :=
  {| timeStamp := 0; rotation := Matrix4d_rotation H;
     translation := Matrix4d_translation H |}.

(** Modelled from the spec: [Odometry] of the sparse-graph component, one
    fused rig pose: a timestamp, a position and a yaw/pitch/roll
    attitude. *)
Record Odometry : Type := mkOdometry {
  odo_timeStamp : Z;
  position : Vector3d;
  attitude : Vector3d
}.

Definition Odometry_default : Odometry :=
  {| odo_timeStamp := 0; position := Vector3d_Zero; attitude := Vector3d_Zero |}.

(** [Frame]: camera id, the estimated camera pose (null until the frame is
    localised), the odometry record shared by the frames of one set (null
    until [run] installs it), and the 2D features. *)
Record Frame : Type := mkFrame {
  cameraId : nat;
  camera : option Pose;
  odometry : option Odometry;
  features2D : list Point2DFeature
}.

(** [new Frame] *)
Definition Frame_new : Frame :=
  {| cameraId := 0; camera := None; odometry := None; features2D := [] |}.

Record FrameSet : Type := mkFrameSet {
  frames : list Frame;
  timestamp : Z
}.

(** The back-reference a scene point keeps to a 2D feature observing it:
    the camera and timestamp of the feature's frame and its index there. *)
Record Feature2DRef : Type := mkFeature2DRef {
  ref_camera : nat;
  ref_timestamp : Z;
  ref_index : nat
}.

(** [Point3DFeature]: the scene point and the 2D features attached to it. *)
Record Point3DFeature : Type := mkPoint3DFeature {
  point : Vector3d;
  observations : list Feature2DRef
}.

(** One item streamed to [std::cout]; a line is a list of items.
    [elapsed] stands for a difference of two clock readings. *)
Inductive printed : Type :=
| str (s : string)
| int (z : Z)
| num (d : IEEE.double)
| vec (v : Vector3d)
| elapsed.

(** Modelled from the spec: [SparseGraph] is declared outside this file; a
    graph of per-camera frame sequences, [frameSegments(i)] being the
    segments of camera [i]. *)
Definition SparseGraph : Type := list (list (list Frame)).

(** The state of an [InfrastructureCalibration] object, together with the
    heap of scene points its pointers refer to and the lines written to
    [std::cout].

    Modelled from the spec: [CameraRigExtrinsics] is declared outside this
    file; it holds one global pose per camera, written by
    [setGlobalCameraPose] and read by [getGlobalCameraPose]. *)
Record Calibration : Type := mkCalibration {
  m_cameras : list Camera;
  m_refGraph : SparseGraph;
  m_framesets : list FrameSet;
  m_feature3DMap : gmap addr addr;
  heap : gmap addr Point3DFeature;
  m_x_last : IEEE.double;
  m_y_last : IEEE.double;
  m_distance : IEEE.double;
  m_verbose : bool;
  m_extrinsics : list Matrix4d;
  cout : list (list printed)
}.

Definition set_framesets (s : Calibration) (fs : list FrameSet) : Calibration :=
  {| m_cameras := m_cameras s; m_refGraph := m_refGraph s; m_framesets := fs;
     m_feature3DMap := m_feature3DMap s; heap := heap s;
     m_x_last := m_x_last s; m_y_last := m_y_last s;
     m_distance := m_distance s; m_verbose := m_verbose s;
     m_extrinsics := m_extrinsics s; cout := cout s |}.

Definition set_extrinsics (s : Calibration) (e : list Matrix4d) : Calibration :=
  {| m_cameras := m_cameras s; m_refGraph := m_refGraph s;
     m_framesets := m_framesets s;
     m_feature3DMap := m_feature3DMap s; heap := heap s;
     m_x_last := m_x_last s; m_y_last := m_y_last s;
     m_distance := m_distance s; m_verbose := m_verbose s;
     m_extrinsics := e; cout := cout s |}.

Definition set_features (s : Calibration) (m : gmap addr addr)
    (h : gmap addr Point3DFeature) : Calibration :=
  {| m_cameras := m_cameras s; m_refGraph := m_refGraph s;
     m_framesets := m_framesets s;
     m_feature3DMap := m; heap := h;
     m_x_last := m_x_last s; m_y_last := m_y_last s;
     m_distance := m_distance s; m_verbose := m_verbose s;
     m_extrinsics := m_extrinsics s; cout := cout s |}.

Definition set_odometer (s : Calibration) (x y d : IEEE.double) : Calibration :=
  {| m_cameras := m_cameras s; m_refGraph := m_refGraph s;
     m_framesets := m_framesets s;
     m_feature3DMap := m_feature3DMap s; heap := heap s;
     m_x_last := x; m_y_last := y; m_distance := d;
     m_verbose := m_verbose s;
     m_extrinsics := m_extrinsics s; cout := cout s |}.

(** [std::cout << ... << std::endl] *)
Definition print (s : Calibration) (line : list printed) : Calibration :=
  {| m_cameras := m_cameras s; m_refGraph := m_refGraph s;
     m_framesets := m_framesets s;
     m_feature3DMap := m_feature3DMap s; heap := heap s;
     m_x_last := m_x_last s; m_y_last := m_y_last s;
     m_distance := m_distance s; m_verbose := m_verbose s;
     m_extrinsics := m_extrinsics s; cout := cout s ++ [line] |}.

(** The same, under [if (m_verbose)]. *)
Definition info (s : Calibration) (line : list printed) : Calibration :=
  if m_verbose s then print s line else s.

(** [m_extrinsics.setGlobalCameraPose(i, H)] and
    [m_extrinsics.getGlobalCameraPose(i)] *)
Definition setGlobalCameraPose (s : Calibration) (i : nat) (H : Matrix4d)
    : Calibration :=
  set_extrinsics s (<[i := H]> (m_extrinsics s)).

Definition getGlobalCameraPose (s : Calibration) (i : nat) : result Matrix4d :=
  at_ (m_extrinsics s) i.

(** The constants fixed by the constructor. *)
Definition k_minCorrespondences2D2D : nat := 20.
Definition k_minCorrespondences2D3D : nat := 25.
Definition k_minKeyFrameDistance : IEEE.double :=
  Eval vm_compute in IEEE.dbl 0x1.3333333333333p-2%float.
Definition k_nearestImageMatches : nat := 10.
Definition k_nominalFocalLength : IEEE.double :=
  Eval vm_compute in IEEE.dbl 300%float.
Definition k_reprojErrorThresh : IEEE.double :=
  Eval vm_compute in IEEE.dbl 2%float.

(** [InfrastructureCalibration::InfrastructureCalibration(cameras, verbose)]
    on an empty reference graph and heap. *)
Definition InfrastructureCalibration_new (cameras : list Camera)
    (verbose : bool) : Calibration :=
  {| m_cameras := cameras; m_refGraph := [];
     m_framesets := []; m_feature3DMap := ∅; heap := ∅;
     m_x_last := IEEE.dzero; m_y_last := IEEE.dzero;
     m_distance := IEEE.dzero; m_verbose := verbose;
     m_extrinsics := replicate (length cameras) Matrix4d_Identity;
     cout := [] |}.

(** [InfrastructureCalibration::reset] *)
Definition reset (s : Calibration) : Calibration :=
  {| m_cameras := m_cameras s; m_refGraph := m_refGraph s;
     m_framesets := []; m_feature3DMap := ∅; heap := heap s;
     m_x_last := IEEE.dzero; m_y_last := IEEE.dzero;
     m_distance := IEEE.dzero; m_verbose := m_verbose s;
     m_extrinsics := replicate (length (m_extrinsics s)) Matrix4d_Identity;
     cout := cout s |}.

(** [InfrastructureCalibration::addOdometry]; [yaw] and [timestamp] are
    not used by the body. *)
Definition addOdometry (s : Calibration) (x y yaw : IEEE.double)
    (timestamp : Z) : Calibration :=
  let d :=
    if IEEE.fne (m_x_last s) IEEE.dzero || IEEE.fne (m_y_last s) IEEE.dzero
    then IEEE.dadd (m_distance s)
                   (hypot (SFsub IEEE.dprec IEEE.demax x (m_x_last s))
                          (SFsub IEEE.dprec IEEE.demax y (m_y_last s)))
    else m_distance s in
  set_odometer s x y d.

(** A sequence of [addOdometry] calls, one per sample [(x, y, yaw, t)]. *)
Definition addOdometries (s : Calibration)
    (samples : list (IEEE.double * IEEE.double * IEEE.double * Z))
    : Calibration :=
  fold_left (fun s '(x, y, yaw, t) => addOdometry s x y yaw t) samples s.

(** The path length in the words of the specification: the sum of the
    Euclidean distances between consecutive [(x, y)] samples, the first
    sample contributing nothing. *)
Definition pathLength (samples : list (IEEE.double * IEEE.double))
    : IEEE.double :=
  match samples with
  | [] => IEEE.dzero
  | first :: rest =>
      fst (fold_left
             (fun '(d, (px, py)) '(x, y) =>
                (IEEE.dadd d (hypot (SFsub IEEE.dprec IEEE.demax x px)
                                    (SFsub IEEE.dprec IEEE.demax y py)),
                 (x, y)))
             rest (IEEE.dzero, first))
  end.

(** What the accumulator holds: the same sum without the segments that
    start at a sample equal to [(0, 0)]. *)
Definition pathLengthSkippingOrigin
    (samples : list (IEEE.double * IEEE.double)) : IEEE.double :=
  fst (fold_left
         (fun '(d, (px, py)) '(x, y) =>
            (if IEEE.fne px IEEE.dzero || IEEE.fne py IEEE.dzero
             then IEEE.dadd d (hypot (SFsub IEEE.dprec IEEE.demax x px)
                                     (SFsub IEEE.dprec IEEE.demax y py))
             else d,
             (x, y)))
         samples (IEEE.dzero, (IEEE.dzero, IEEE.dzero))).

(** *** Reprojection error statistics *)

(** [std::numeric_limits<double>::min()], the least positive normal
    number. *)
Definition DBL_MIN : IEEE.double := S754_finite false 4503599627370496 (-1074).

(** The four results [minError], [maxError], [avgError], [featureCount]. *)
Record Stats : Type := mkStats {
  minError : IEEE.double;
  maxError : IEEE.double;
  avgError : IEEE.double;
  featureCount : nat
}.

Definition Stats_zero : Stats :=
  {| minError := IEEE.dzero; maxError := IEEE.dzero;
     avgError := IEEE.dzero; featureCount := 0 |}.

(** The accumulation shared by the two [frameReprojectionError]
    overloads, over the errors of the features that have a scene point. *)
Definition frameStats (errors : list IEEE.double) : Stats :=
  let minE := fold_left (fun m e => if IEEE.fgt m e then e else m)
                        errors IEEE.DBL_MAX in
  let maxE := fold_left (fun m e => if IEEE.flt m e then e else m)
                        errors DBL_MIN in
  let totalError := fold_left IEEE.dadd errors IEEE.dzero in
  let count := length errors in
  if (count =? 0)%nat then Stats_zero
  else {| minError := minE; maxError := maxE;
          avgError := IEEE.ddiv totalError (IEEE.double_of_nat count);
          featureCount := count |}.

(** [p3D->point()]; a shared pointer is never dangling, an address outside
    the heap reads as the zero point. *)
Definition deref (h : gmap addr Point3DFeature) (a : addr) : Point3DFeature :=
  default {| point := Vector3d_Zero; observations := [] |} (h !! a).

(** The 2D features of a frame that have a scene point, with that point. *)
Definition observed (s : Calibration) (frame : Frame)
    : list (Point2DFeature * Vector3d) :=
  omap (fun f => match feature3D f with
                 | Some a => Some (f, point (deref (heap s) a))
                 | None => None
                 end) (features2D frame).

(** A null [PosePtr] or [OdometryPtr] is dereferenced: undefined
    behaviour, recorded as a failure of its own. *)
Definition deref_ptr {A} (p : option A) : result A :=
  match p with
  | Some a => Ok a
  | None => Throw null_pointer
  end.

(** [frameReprojectionError(frame, camera, T_cam_ref, ...)] *)
Definition frameReprojectionError_ref (s : Calibration) (frame : Frame)
    (cam : Camera) (T_cam_ref : Pose) : result Stats :=
  errors ← mapM (fun '(f, P) =>
                   odo ← deref_ptr (odometry frame);
                   Ok (reprojectionError_point cam P (rotation T_cam_ref)
                         (translation T_cam_ref) (position odo)
                         (attitude odo) (keypoint f)))
                (observed s frame);
  Ok (frameStats errors).

(** [frameReprojectionError(frame, camera, ...)], against the frame's own
    camera pose. *)
Definition frameReprojectionError (s : Calibration) (frame : Frame)
    (cam : Camera) : result Stats :=
  errors ← mapM (fun '(f, P) =>
                   pose ← deref_ptr (camera frame);
                   Ok (Camera_reprojectionError cam P (rotation pose)
                         (translation pose) (keypoint f)))
                (observed s frame);
  Ok (frameStats errors).

(** The frames of all frame sets, in the order of the two nested loops. *)
Definition allFrames (s : Calibration) : list Frame :=
  concat (map frames (m_framesets s)).

(** [reprojectionError(minError, maxError, avgError, featureCount)] over
    all frame sets. *)
Definition reprojectionError (s : Calibration) : result Stats :=
  per ← mapM (fun frame =>
                H ← getGlobalCameraPose s (cameraId frame);
                cam ← at_ (m_cameras s) (cameraId frame);
                frameReprojectionError_ref s frame cam (Pose_of_matrix H))
             (allFrames s);
  let minE := fold_left (fun m st => if IEEE.fgt m (minError st)
                                     then minError st else m)
                        per IEEE.DBL_MAX in
  let maxE := fold_left (fun m st => if IEEE.flt m (maxError st)
                                     then maxError st else m)
                        per DBL_MIN in
  let totalError :=
    fold_left (fun t st => IEEE.dadd t
                 (IEEE.dmul (avgError st)
                            (IEEE.double_of_nat (featureCount st))))
              per IEEE.dzero in
  let count := fold_left (fun c st => (c + featureCount st)%nat) per 0%nat in
  if (count =? 0)%nat then Ok Stats_zero
  else Ok {| minError := minE; maxError := maxE;
             avgError := IEEE.ddiv totalError (IEEE.double_of_nat count);
             featureCount := count |}.

(** *** Per-camera localisation: [estimateCameraPose] *)

Definition Frame_set_features (f : Frame) (fs : list Point2DFeature) : Frame :=
  {| cameraId := cameraId f; camera := camera f; odometry := odometry f;
     features2D := fs |}.

Definition Frame_set_camera (f : Frame) (p : option Pose) : Frame :=
  {| cameraId := cameraId f; camera := p; odometry := odometry f;
     features2D := features2D f |}.

Definition Frame_set_odometry (f : Frame) (o : option Odometry) : Frame :=
  {| cameraId := cameraId f; camera := camera f; odometry := o;
     features2D := features2D f |}.

Definition Point2DFeature_set_feature3D (f : Point2DFeature) (a : option addr)
    : Point2DFeature :=
  {| keypoint := keypoint f; descriptor := descriptor f; index := index f;
     feature3D := a |}.

(** The body of the loop "store inlier 2D-3D correspondences", executed
    under [m_feature3DMapMutex]: find the scene point of the map keyed by
    [p3D.get()], or create it with the point of [p3D] and insert it; then
    append the 2D feature to its observations.  The result is the scene
    point that the caller assigns to [p2D->feature3D()]. *)
Definition storeCorrespondence (s : Calibration) (p2D : Feature2DRef)
    (p3D : addr) : Calibration * addr :=
  let '(s1, feature3D) :=
    match m_feature3DMap s !! p3D with
    | None =>
        let feature3D := fresh (dom (heap s)) in
        (set_features s
           (<[p3D := feature3D]> (m_feature3DMap s))
           (<[feature3D := {| point := point (deref (heap s) p3D);
                              observations := [] |}]> (heap s)),
         feature3D)
    | Some feature3D => (s, feature3D)
    end in
  (set_features s1 (m_feature3DMap s1)
     (alter (fun o => {| point := point o;
                         observations := observations o ++ [p2D] |})
            feature3D (heap s1)),
   feature3D).

(** One iteration for the feature [q] of [frame]. *)
Definition storeStep (timestamp : Z) (st : Calibration * Frame)
    (c : nat * addr) : Calibration * Frame :=
  let '(s, frame) := st in
  let '(q, p3D) := c in
  let '(s', feature3D) :=
    storeCorrespondence s
      {| ref_camera := cameraId frame; ref_timestamp := timestamp;
         ref_index := q |} p3D in
  (s', Frame_set_features frame
         (alter (fun f => Point2DFeature_set_feature3D f (Some feature3D))
                q (features2D frame))).

(** The whole loop over [bestCorr2D3D]. *)
Definition storeCorrespondences (timestamp : Z) (s : Calibration)
    (frame : Frame) (bestCorr2D3D : list (nat * addr)) : Calibration * Frame :=
  fold_left (storeStep timestamp) bestCorr2D3D (s, frame).

(** The loops of several localiser threads running concurrently: thread
    [t] works on its own frame, [frames !! t], and every iteration of its
    loop holds the mutex, so an execution is a sequence of iterations
    [(t, q, p3D)] taken from the threads in any order. *)
Definition storeInterleaved (timestamp : Z) (st : Calibration * list Frame)
    (steps : list (nat * nat * addr)) : Calibration * list Frame :=
  fold_left
    (fun '(s, frames) '(t, q, p3D) =>
       match frames !! t with
       | Some frame =>
           let '(s', frame') := storeStep timestamp (s, frame) (q, p3D) in
           (s', <[t := frame']> frames)
       | None => (s, frames)
       end)
    steps st.

(** The scene point attached to feature [q] of frame [t]. *)
Definition attached (frames : list Frame) (t q : nat) : option addr :=
  frame ← frames !! t;
  f ← features2D frame !! q;
  feature3D f.

(** The best candidate seen so far: [bestInlierCount], [bestCorr2D3D],
    [best_rvec_cv], [best_tvec_cv]. *)
Record Best : Type := mkBest {
  bestInlierCount : nat;
  bestCorr2D3D : list (nat * addr);
  best_rvec : Vector3d;
  best_tvec : Vector3d
}.

(** The 2D-3D correspondences of the matches whose train feature has a
    scene point, with the rectified image points and the scene points. *)
Fixpoint correspondences (s : Calibration) (frame trainFrame : Frame)
    (rkeypoints : list (IEEE.float32 * IEEE.float32)) (matches : list DMatch)
    : result (list (nat * addr) * list (IEEE.float32 * IEEE.float32) *
              list Vector3d) :=
  match matches with
  | [] => Ok ([], [], [])
  | m :: rest =>
      _ ← at_int (features2D frame) (queryIdx m);
      t ← at_int (features2D trainFrame) (trainIdx m);
      match feature3D t with
      | None => correspondences s frame trainFrame rkeypoints rest
      | Some p3D =>
          ip ← at_int rkeypoints (queryIdx m);
          '(corr, imagePoints, scenePoints) ←
            correspondences s frame trainFrame rkeypoints rest;
          Ok ((Z.to_nat (queryIdx m), p3D) :: corr, ip :: imagePoints,
              point (deref (heap s) p3D) :: scenePoints)
      end
  end.

(** The body of the loop over the candidates of the place recogniser. *)
Definition tryCandidate (frame : Frame)
    (rkeypoints : list (IEEE.float32 * IEEE.float32))
    (scaledReprojErrorThresh : IEEE.double)
    (st : Calibration * Best) (fid : FrameID) : result (Calibration * Best) :=
  let '(s, best) := st in
  segments ← at_ (m_refGraph s) (cameraIdx fid);
  segment ← at_ segments (segmentIdx fid);
  trainFrame ← at_ segment (frameIdx fid);
  '(matches, warnings) ← Matcher.matchFeatures surf_knnMatch
                            (features2D frame) (features2D trainFrame);
  let s := fold_left (fun s w => print s [str w]) warnings s in
  if (length matches <? k_minCorrespondences2D3D)%nat then Ok (s, best) else
  '(corr2D3D, imagePoints, scenePoints) ←
    correspondences s frame trainFrame rkeypoints matches;
  if (length corr2D3D <? k_minCorrespondences2D3D)%nat then Ok (s, best) else
  let '(rvec, tvec, inliers) :=
    solvePnPRansac scenePoints imagePoints scaledReprojErrorThresh in
  let nInliers := length inliers in
  if (nInliers <? k_minCorrespondences2D3D)%nat then Ok (s, best) else
  if (bestInlierCount best <? nInliers)%nat then
    bestCorr ← mapM (fun j => at_int corr2D3D j) inliers;
    Ok (s, {| bestInlierCount := nInliers; bestCorr2D3D := bestCorr;
              best_rvec := rvec; best_tvec := tvec |})
  else Ok (s, best).

(** A loop whose body may throw, threading a state. *)
Fixpoint foldM {A B} (f : A -> B -> result A) (l : list B) (a : A)
    : result A :=
  match l with
  | [] => Ok a
  | b :: l' => a' ← f a b; foldM f l' a'
  end.

Definition has_feature3D (f : Point2DFeature) : bool :=
  match feature3D f with Some _ => true | None => false end.

Definition has_camera (f : Frame) : bool :=
  match camera f with Some _ => true | None => false end.

(** [InfrastructureCalibration::estimateCameraPose].  The pruning loop at
    its end erases the features without a scene point and keeps the order
    of the others. *)
Definition estimateCameraPose (s : Calibration) (image : Image)
    (timestamp : Z) (frame : Frame) (preprocess : bool)
    : result (Calibration * Frame) :=
  let scaledReprojErrorThresh :=
    IEEE.ddiv k_reprojErrorThresh k_nominalFocalLength in
  let imageProc := if preprocess then equalizeHist image else image in
  let detected := surf_detectAndCompute imageProc in
  let frame :=
    Frame_set_features frame
      (features2D frame ++
       imap (fun i kd => {| keypoint := fst kd; descriptor := snd kd;
                            index := i; feature3D := None |}) detected) in
  let candidates := locrec_knnMatch (features2D frame) k_nearestImageMatches in
  rkeypoints ← mapM (fun kd => cam ← at_ (m_cameras s) (cameraId frame);
                               Ok (rectifyImagePoint cam (fst kd))) detected;
  '(s, best) ← foldM (tryCandidate frame rkeypoints scaledReprojErrorThresh)
                  candidates
                  (s, {| bestInlierCount := 0; bestCorr2D3D := [];
                         best_rvec := Vector3d_Zero;
                         best_tvec := Vector3d_Zero |});
  if (bestInlierCount best <? k_minCorrespondences2D3D)%nat then Ok (s, frame)
  else
    let s := info s [str "# INFO: [Cam "; int (Z.of_nat (cameraId frame));
                     str "] Found "; int (Z.of_nat (bestInlierCount best));
                     str " inlier 2D-3D correspondences from nearest image."] in
    let pose := {| timeStamp := timestamp;
                   rotation := AngleAxisToQuaternion (best_rvec best);
                   translation := best_tvec best |} in
    let frame := Frame_set_camera frame (Some pose) in
    let '(s, frame) :=
      storeCorrespondences timestamp s frame (bestCorr2D3D best) in
    let frame :=
      Frame_set_features frame (List.filter has_feature3D (features2D frame)) in
    if m_verbose s then
      cam ← at_ (m_cameras s) (cameraId frame);
      st ← frameReprojectionError s frame cam;
      let s := print s [str "# INFO: [Cam "; int (Z.of_nat (cameraId frame));
                        str "] Estimated camera pose"] in
      let s := print s [str "           rvec: "; vec (best_rvec best)] in
      let s := print s [str "           tvec: "; vec (best_tvec best)] in
      let s := print s [str "           time: "; elapsed; str " s"] in
      let s := print s [str "          reproj: "; num (avgError st)] in
      let s := print s [str "              ts: "; int timestamp] in
      Ok (s, frame)
    else Ok (s, frame).

(** *** Frame-set manager: [addFrameSet] *)

(** [std::vector<FramePtr> v(n)] filled by [v.at(frame->cameraId()) = frame]. *)
Definition byCamera (n : nat) (fs : list Frame) : result (list (option Frame)) :=
  foldM (fun v f =>
           if (cameraId f <? length v)%nat
           then Ok (<[cameraId f := Some f]> v)
           else Throw std_out_of_range)
        fs (replicate n None).

(** The distance between the positions of two camera poses:
    [(curr.pose().inverse().block<3,1>(0,3) -
      prev.pose().inverse().block<3,1>(0,3)).norm()]. *)
Definition displacement (curr prev : Pose) : IEEE.double :=
  Vector3d_norm
    (Vector3d_sub (Matrix4d_translation (Matrix4d_inverse (Pose_pose curr)))
                  (Matrix4d_translation (Matrix4d_inverse (Pose_pose prev)))).

(** The loop computing [keyFrameDist]. *)
Definition keyFrameDistance (framePrev frameCurr : list (option Frame))
    : result IEEE.double :=
  foldM (fun keyFrameDist pc =>
           match pc with
           | (Some prev, Some curr) =>
               c ← deref_ptr (camera curr);
               p ← deref_ptr (camera prev);
               let d := displacement c p in
               Ok (if IEEE.flt d keyFrameDist then d else keyFrameDist)
           | _ => Ok keyFrameDist
           end)
        (zip framePrev frameCurr) IEEE.DBL_MAX.

(** The decision [addFrameSet] of the keyframe gate, with the state after
    the message it may print. *)
Definition keyFrameGate (s : Calibration) (frameset : FrameSet)
    : result (Calibration * bool) :=
  match last (m_framesets s) with
  | None => Ok (s, true)
  | Some back =>
      let n := length (m_cameras s) in
      framePrev ← byCamera n (frames back);
      frameCurr ← byCamera n (frames frameset);
      keyFrameDist ← keyFrameDistance framePrev frameCurr;
      if IEEE.fne keyFrameDist IEEE.DBL_MAX &&
         IEEE.fgt keyFrameDist k_minKeyFrameDistance
      then Ok (s, true)
      else Ok (info s [str "# INFO: Skipping frame set as inter-frame distance is too small."],
               false)
  end.

(** The displacements of the cameras present both in the previous frame
    set and in the new one, in the order of the cameras. *)
Definition sharedDisplacements (framePrev frameCurr : list (option Frame))
    : list IEEE.double :=
  omap (fun pc : option Frame * option Frame =>
          match pc with
          | (Some prev, Some curr) =>
              match camera curr, camera prev with
              | Some c, Some p => Some (displacement c p)
              | _, _ => None
              end
          | _ => None
          end)
       (zip framePrev frameCurr).

(** "Some camera is present in both sets, and the least displacement of
    such cameras exceeds [k_minKeyFrameDistance]." *)
Definition minDisplacementExceeds (ds : list IEEE.double) : Prop :=
  ds <> [] /\ forall d, d ∈ ds -> IEEE.fgt d k_minKeyFrameDistance = true.

(** The per-camera localisations.  The threads run concurrently and share
    only the scene-point map, which each of them updates under the mutex;
    they are taken here in the order of the cameras. *)
Definition localizeAll (s : Calibration) (images : list Image)
    (timestamp : Z) (preprocess : bool) : result (Calibration * list Frame) :=
  foldM (fun '(s, frames) i =>
           image ← at_ images i;
           '(s, frame) ← estimateCameraPose s image timestamp
                           {| cameraId := i; camera := None; odometry := None;
                              features2D := [] |} preprocess;
           Ok (s, frames ++ [frame]))
        (seq 0 (length (m_cameras s))) (s, []).

(** [InfrastructureCalibration::addFrameSet] *)
Definition addFrameSet (s : Calibration) (images : list Image)
    (timestamp : Z) (preprocess : bool) : result Calibration :=
  if negb (length images =? length (m_cameras s))%nat then
    Ok (print s [str "# WARNING: Number of images does not match camera count."])
  else
    '(s, localized) ← localizeAll s images timestamp preprocess;
    let frameset := {| frames := List.filter has_camera localized;
                       timestamp := timestamp |} in
    if (length (frames frameset) <? 2)%nat then Ok s else
    '(s, add) ← keyFrameGate s frameset;
    if negb add then Ok s else
    let s := set_framesets s (m_framesets s ++ [frameset]) in
    Ok (info s ([str "# INFO: Added frame set ";
                 int (Z.of_nat (length (m_framesets s))); str " [ "] ++
                concat (map (fun f => [int (Z.of_nat (cameraId f)); str " "])
                            (frames frameset)) ++
                [str "] ts = "; int timestamp])).

(** *** Persistence: [loadFrameSets] and [saveFrameSets] *)

(** [std::numeric_limits<uint64_t>::max()] *)
Definition UINT64_MAX : Z := 18446744073709551615.

(** The frame of camera [i] at position [mark[i]] of its first segment,
    unless [mark[i] >= graph.frameSegments(i).at(0).size()]. *)
Definition front (graph : SparseGraph) (mark : list nat) (i : nat)
    : result (option Frame) :=
  segments ← at_ graph i;
  segment ← at_ segments 0;
  let m := default 0%nat (mark !! i) in
  if (length segment <=? m)%nat then Ok None
  else frame ← at_ segment m; Ok (Some frame).

(** The smallest timestamp among the fronts. *)
Definition nextTimestamp (graph : SparseGraph) (mark : list nat) : result Z :=
  foldM (fun timestamp i =>
           fr ← front graph mark i;
           match fr with
           | None => Ok timestamp
           | Some frame =>
               pose ← deref_ptr (camera frame);
               Ok (if timeStamp pose <? timestamp then timeStamp pose
                   else timestamp)
           end)
        (seq 0 (length graph)) UINT64_MAX.

(** The fronts carrying [timestamp], which are taken and advanced. *)
Definition takeFronts (graph : SparseGraph) (mark : list nat) (ts : Z)
    : result (list Frame * list nat) :=
  foldM (fun '(taken, mark) i =>
           fr ← front graph mark i;
           match fr with
           | None => Ok (taken, mark)
           | Some frame =>
               pose ← deref_ptr (camera frame);
               if ts =? timeStamp pose
               then Ok (taken ++ [frame],
                        <[i := S (default 0%nat (mark !! i))]> mark)
               else Ok (taken, mark)
           end)
        (seq 0 (length graph)) ([], mark).

(** The test that ends the loop: no camera has a frame left. *)
Definition allTaken (graph : SparseGraph) (mark : list nat) : result bool :=
  foldM (fun (finished : bool) i =>
           if finished then
             segments ← at_ graph i;
             segment ← at_ segments 0;
             Ok (negb (default 0%nat (mark !! i) <? length segment)%nat)
           else Ok false)
        (seq 0 (length graph)) true.

(** The loop [while (!finished)]; its body runs at least once.  Every
    pass but the last takes a frame, so the number of frames bounds the
    number of passes; [None] is a pass count beyond [fuel]. *)
Fixpoint loadLoop (fuel : nat) (graph : SparseGraph) (mark : list nat)
    (framesets : list FrameSet) : result (option (list FrameSet)) :=
  match fuel with
  | O => Ok None
  | S fuel =>
      ts ← nextTimestamp graph mark;
      '(taken, mark) ← takeFronts graph mark ts;
      let framesets := framesets ++ [{| frames := taken; timestamp := ts |}] in
      finished ← allTaken graph mark;
      if (finished : bool) then Ok (Some framesets)
      else loadLoop fuel graph mark framesets
  end.

Definition frameCount (graph : SparseGraph) : nat :=
  length (concat (map (fun segments => default [] (segments !! 0%nat)) graph)).

(** [InfrastructureCalibration::loadFrameSets], on the graph read from the
    file. *)
Definition loadFrameSets (s : Calibration) (filename : string)
    (graph : SparseGraph) : result (option Calibration) :=
  let s := set_framesets s [] in
  let mark := replicate (length graph) 0%nat in
  loaded ← loadLoop (S (frameCount graph)) graph mark [];
  match loaded with
  | None => Ok None
  | Some framesets =>
      let s := set_framesets s framesets in
      Ok (Some (info s [str "# INFO: Loaded ";
                        int (Z.of_nat (length (m_framesets s)));
                        str " frame sets from "; str filename]))
  end.

(** [InfrastructureCalibration::saveFrameSets]: the graph handed to
    [writeToBinaryFile]. *)
Definition saveFrameSets (s : Calibration) : result SparseGraph :=
  foldM (fun graph frame =>
           segments ← at_ graph (cameraId frame);
           segment ← at_ segments 0;
           Ok (<[cameraId frame := <[0%nat := segment ++ [frame]]> segments]> graph))
        (allFrames s)
        (replicate (length (m_cameras s)) [[]]).

(** *** Trajectory estimation *)

(** The fused position and attitude of a frame set under the extrinsics
    [T_cam_ref]: the loop "estimate odometry". *)
Definition estimateOdometry (T_cam_ref : list Pose) (frameset : FrameSet)
    : result (Vector3d * Vector3d) :=
  '(pos, att) ←
    foldM (fun '(pos, att) frame =>
             cameraPose ← deref_ptr (camera frame);
             T ← at_ T_cam_ref (cameraId frame);
             let H := Matrix4d_mul (Matrix4d_inverse (Pose_pose cameraPose))
                                   (Matrix4d_inverse (Pose_pose T)) in
             Ok (Vector3d_add pos (Matrix4d_translation H),
                 att ++ [Matrix4d_rotation H]))
          (frames frameset) (Vector3d_Zero, []);
  let pos := Vector3d_div pos (length (frames frameset)) in
  Ok (pos, yawPitchRoll (quaternionAvg att)).

(** The trial odometry of a frame set: a new [Odometry] with the timestamp
    of the first frame's camera pose, given to every frame of the set. *)
Definition trialOdometry (T_cam_ref : list Pose) (frameset : FrameSet)
    : result FrameSet :=
  '(pos, att) ← estimateOdometry T_cam_ref frameset;
  frame0 ← at_ (frames frameset) 0;
  pose0 ← deref_ptr (camera frame0);
  let odo := {| odo_timeStamp := timeStamp pose0; position := pos;
                attitude := att |} in
  Ok {| frames := map (fun f => Frame_set_odometry f (Some odo))
                      (frames frameset);
        timestamp := timestamp frameset |}.

(** The final odometry of a frame set: the [Odometry] of the first frame
    receives position and attitude and is given to every frame of the
    set. *)
Definition finalOdometry (T_cam_ref : list Pose) (frameset : FrameSet)
    : result FrameSet :=
  '(pos, att) ← estimateOdometry T_cam_ref frameset;
  frame0 ← at_ (frames frameset) 0;
  odo0 ← deref_ptr (odometry frame0);
  let odo := {| odo_timeStamp := odo_timeStamp odo0; position := pos;
                attitude := att |} in
  Ok {| frames := map (fun f => Frame_set_odometry f (Some odo))
                      (frames frameset);
        timestamp := timestamp frameset |}.

(** *** Extrinsics initialisation: the first part of [run] *)

(** [poses.at(cameraIdx) = frame->camera()->pose()] for the frames of a
    set. *)
Definition cameraPoses (n : nat) (frameset : FrameSet)
    : result (list Matrix4d) :=
  foldM (fun poses frame =>
           if (cameraId frame <? length poses)%nat then
             pose ← deref_ptr (camera frame);
             Ok (<[cameraId frame := Pose_pose pose]> poses)
           else Throw std_out_of_range)
        (frames frameset) (replicate n Matrix4d_uninitialized).

(** [H_cam_ref = poses.at(0) * poses.at(j).inverse()] *)
Definition H_cam_ref (poses : list Matrix4d) (j : nat) : result Matrix4d :=
  p0 ← at_ poses 0;
  pj ← at_ poses j;
  Ok (Matrix4d_mul p0 (Matrix4d_inverse pj)).

(** The extrinsics hypothesis of a frame set: [T_cam_ref], with camera 0
    at the identity. *)
Definition hypothesis (n : nat) (frameset : FrameSet) : result (list Pose) :=
  poses ← cameraPoses n frameset;
  _ ← at_ (replicate n Pose_default) 0;
  rest ← mapM (fun j => H ← H_cam_ref poses j; Ok (Pose_of_matrix H))
              (seq 1 (n - 1));
  Ok ({| timeStamp := 0; rotation := Quaterniond_Identity;
         translation := Vector3d_Zero |} :: rest).

(** The body of the loop over the frame sets, for one that has passed
    the size test: the hypothesis is written to [m_extrinsics] (cameras 1 and up), the trial
    odometry of every frame set is computed under it, and the average
    reprojection error over all frame sets is measured. *)
Definition tryHypothesis (s : Calibration) (frameset : FrameSet)
    : result (Calibration * list Pose * IEEE.double) :=
  let n := length (m_cameras s) in
  poses ← cameraPoses n frameset;
  T_cam_ref ← hypothesis n frameset;
  s ← foldM (fun s j => H ← H_cam_ref poses j;
                        Ok (setGlobalCameraPose s j H))
            (seq 1 (n - 1)) s;
  framesets ← mapM (trialOdometry T_cam_ref) (m_framesets s);
  let s := set_framesets s framesets in
  stats ← reprojectionError s;
  Ok (s, T_cam_ref, avgError stats).

(** One pass of the loop: [minReprojError] and [best_T_cam_ref] are
    updated when the frame set has at least as many frames as the rig has
    cameras and its hypothesis has a strictly lower average error. *)
Definition initStep (st : Calibration * IEEE.double * list Pose) (i : nat)
    : result (Calibration * IEEE.double * list Pose) :=
  let '(s, minReprojError, best_T_cam_ref) := st in
  frameset ← at_ (m_framesets s) i;
  if (length (frames frameset) <? length (m_cameras s))%nat then Ok st else
  '(s, T_cam_ref, avgError) ← tryHypothesis s frameset;
  if IEEE.flt avgError minReprojError
  then Ok (s, avgError, T_cam_ref)
  else Ok (s, minReprojError, best_T_cam_ref).

(** The diagnostics printed at the start of [run] under [m_verbose]. *)
Definition reportFrameSets (s : Calibration) : result Calibration :=
  if m_verbose s then
    '(sumError, sumFeatureCount) ←
      foldM (fun '(sumError, sumFeatureCount) frame =>
               cam ← at_ (m_cameras s) (cameraId frame);
               st ← frameReprojectionError s frame cam;
               Ok (IEEE.dadd sumError
                     (IEEE.dmul (avgError st)
                                (IEEE.double_of_nat (featureCount st))),
                   (sumFeatureCount + featureCount st)%nat))
            (allFrames s) (IEEE.dzero, 0%nat);
    let s := print s [str "# INFO: Average reprojection error over all frames: ";
                      num (IEEE.ddiv sumError
                             (IEEE.double_of_nat sumFeatureCount));
                      str " px"] in
    let nFrames := length (allFrames s) in
    Ok (print s [str "# INFO: Average number of frames per set: ";
                 num (IEEE.ddiv (IEEE.double_of_nat nFrames)
                        (IEEE.double_of_nat (length (m_framesets s))))])
  else Ok s.

(** How the initialisation ends: with the message "No complete frame
    sets were found", printed when [minReprojError] is still [DBL_MAX]
    after the loop, or with the extrinsics seed and the final odometry
    installed. *)
Inductive Initialised : Type :=
| NoCompleteFrameSet (s : Calibration)
| Seeded (s : Calibration).

(** [run] up to the call of [optimize]. *)
Definition initialise (s : Calibration) : result Initialised :=
  s ← reportFrameSets s;
  let s := setGlobalCameraPose s 0 Matrix4d_Identity in
  '(s, minReprojError, best_T_cam_ref) ←
    foldM initStep (seq 0 (length (m_framesets s))) (s, IEEE.DBL_MAX, []);
  if IEEE.feq minReprojError IEEE.DBL_MAX then
    Ok (NoCompleteFrameSet
          (print s [str "# ERROR: No complete frame sets were found."]))
  else
    s ← foldM (fun s i => T ← at_ best_T_cam_ref i;
                          Ok (setGlobalCameraPose s i (Pose_pose T)))
              (seq 1 (length (m_cameras s) - 1)) s;
    framesets ← mapM (finalOdometry best_T_cam_ref) (m_framesets s);
    Ok (Seeded (set_framesets s framesets)).

(** The test by which [run] takes a frame set for a complete one
    ([frameset.frames.size() < m_cameras.size()] fails): the frame set has
    at least as many frames as the rig has cameras. *)
Definition enoughFrames (s : Calibration) (frameset : FrameSet) : Prop :=
  (length (m_cameras s) <= length (frames frameset))%nat.

(** In the words of the specification: "structurally complete", a frame
    set with a localized frame for every configured camera.  [run] does
    not test this. *)
Definition structurallyComplete (s : Calibration) (frameset : FrameSet)
    : Prop :=
  forall i, (i < length (m_cameras s))%nat ->
    exists f, f ∈ frames frameset /\ cameraId f = i /\ camera f <> None.

(** The average reprojection error over all frame sets under the
    hypothesis of [frameset]. *)
Definition trialError (s : Calibration) (frameset : FrameSet)
    : result IEEE.double :=
  '(_, _, e) ← tryHypothesis (setGlobalCameraPose s 0 Matrix4d_Identity)
                             frameset;
  Ok e.

(** The frames [addFrameSet] produces: a camera of the rig and a camera
    pose for every frame, no empty frame set. *)
Definition validFrameSet (n : nat) (frameset : FrameSet) : Prop :=
  frames frameset <> [] /\
  forall f, f ∈ frames frameset -> (cameraId f < n)%nat /\ camera f <> None.

(** A rig with at least one camera, an extrinsic pose per camera, and
    frame sets as [addFrameSet] produces them. *)
Definition wellFormed (s : Calibration) : Prop :=
  (1 <= length (m_cameras s))%nat /\
  length (m_extrinsics s) = length (m_cameras s) /\
  forall fs, fs ∈ m_framesets s -> validFrameSet (length (m_cameras s)) fs.

(** *** Joint refinement: [optimize] *)

(** A residual block: the camera and the observed key point of its cost
    function, the scene point when it is a constant of the cost function,
    and the parameter blocks it is attached to. *)
Record ResidualBlock : Type := mkResidualBlock {
  rb_camera : Camera;
  rb_observed : IEEE.float32 * IEEE.float32;
  rb_point : option Vector3d;
  rb_blocks : list CeresBlock
}.

(** [ceres::Problem] as [optimize] builds it: the residual blocks, the
    blocks given a quaternion parameterisation, and the blocks held
    constant. *)
Record Problem : Type := mkProblem {
  residualBlocks : list ResidualBlock;
  quaternionBlocks : list CeresBlock;
  constantBlocks : list CeresBlock
}.

(** The content of the parameter blocks: rotation and translation of
    [T_cam_ref] per camera, position and attitude of the odometry per
    frame set, and the scene points. *)
Record CeresValues : Type := mkCeresValues {
  val_rotation : list Quaterniond;
  val_translation : list Vector3d;
  val_position : list Vector3d;
  val_attitude : list Vector3d;
  val_point : gmap addr Vector3d
}.

(** [ceres::Solve(options, &problem, &summary)]: the values the solver
    computes for the blocks. *)
Class CeresSolver : Type := {
  Solve : Problem -> CeresValues -> CeresValues
}.

(** The solver varies the parameter blocks that some residual block is
    attached to and that are not held constant; it writes nowhere else. *)
Definition free (p : Problem) (b : CeresBlock) : bool :=
  bool_decide (b ∈ concat (map rb_blocks (residualBlocks p))) &&
  negb (bool_decide (b ∈ constantBlocks p)).

(** The residual blocks of one frame of frame set [i]: one for every 2D
    feature with a scene point. *)
Definition frameResiduals (s : Calibration) (T_cam_ref : list Pose)
    (optimizeScenePoints : bool) (i : nat) (frame : Frame)
    : result (list ResidualBlock) :=
  mapM (fun fa : Point2DFeature * addr =>
          cam ← at_ (m_cameras s) (cameraId frame);
          _ ← at_ T_cam_ref (cameraId frame);
          _ ← deref_ptr (odometry frame);
          Ok {| rb_camera := cam;
                rb_observed := keypoint (fst fa);
                rb_point := if optimizeScenePoints then None
                            else Some (point (deref (heap s) (snd fa)));
                rb_blocks :=
                  [ExtrinsicRotation (cameraId frame);
                   ExtrinsicTranslation (cameraId frame);
                   OdometryPosition i; OdometryAttitude i] ++
                  (if optimizeScenePoints then [ScenePoint (snd fa)] else []) |})
       (omap (fun f => match feature3D f with
                       | Some a => Some (f, a)
                       | None => None
                       end) (features2D frame)).

(** The three nested loops that fill the problem. *)
Definition buildResiduals (s : Calibration) (T_cam_ref : list Pose)
    (optimizeScenePoints : bool) : result (list ResidualBlock) :=
  per ← mapM (fun ifs : nat * FrameSet =>
                rs ← mapM (frameResiduals s T_cam_ref optimizeScenePoints
                             (fst ifs))
                          (frames (snd ifs));
                Ok (concat rs))
             (imap (fun i fs => (i, fs)) (m_framesets s));
  Ok (concat per).

(** The odometry record of a frame set, which its frames share. *)
Definition sharedOdometry (frameset : FrameSet) : Odometry :=
  match frames frameset with
  | frame :: _ => default Odometry_default (odometry frame)
  | [] => Odometry_default
  end.

(** [T_cam_ref.at(i) = Pose(m_extrinsics.getGlobalCameraPose(i))] *)
Definition extrinsicPoses (s : Calibration) : result (list Pose) :=
  mapM (fun i => H ← getGlobalCameraPose s i; Ok (Pose_of_matrix H))
       (seq 0 (length (m_cameras s))).

(** [problem.SetParameterization(T_cam_ref.at(i).rotationData(), ...)]:
    the block has to be a parameter block of the problem, that is, one
    that [AddResidualBlock] was given; Ceres aborts otherwise
    ("Parameter block not found"). *)
Definition SetParameterization (residuals : list ResidualBlock)
    (b : CeresBlock) : result CeresBlock :=
  if bool_decide (b ∈ concat (map rb_blocks residuals)) then Ok b
  else Throw ceres_fatal.

(** The problem handed to the solver: the residual blocks, a quaternion
    parameterisation for the rotation of every camera, and no constant
    block ([SetParameterBlockConstant] is never called). *)
Definition ceresProblem (s : Calibration) (T_cam_ref : list Pose)
    (optimizeScenePoints : bool) : result Problem :=
  residuals ← buildResiduals s T_cam_ref optimizeScenePoints;
  quaternions ← mapM (fun i => SetParameterization residuals
                                 (ExtrinsicRotation i))
                     (seq 0 (length (m_cameras s)));
  Ok {| residualBlocks := residuals;
        quaternionBlocks := quaternions;
        constantBlocks := [] |}.

(** The content of the blocks when the solver starts. *)
Definition ceresValues (s : Calibration) (T_cam_ref : list Pose)
    : CeresValues :=
  {| val_rotation := map rotation T_cam_ref;
     val_translation := map translation T_cam_ref;
     val_position := map (fun fs => position (sharedOdometry fs))
                         (m_framesets s);
     val_attitude := map (fun fs => attitude (sharedOdometry fs))
                         (m_framesets s);
     val_point := point <$> heap s |}.

(** The content of a block after the solve: the solver's value when the
    block is free in the problem, the old one otherwise. *)
Definition pick {A} (problem : Problem) (b : CeresBlock) (old : A)
    (new : option A) : A :=
  if free problem b then default old new else old.

(** [T_cam_ref.at(i)] after the solve. *)
Definition refinedPose (problem : Problem) (solved : CeresValues) (i : nat)
    (T : Pose) : Pose :=
  {| timeStamp := timeStamp T;
     rotation := pick problem (ExtrinsicRotation i) (rotation T)
                      (val_rotation solved !! i);
     translation := pick problem (ExtrinsicTranslation i) (translation T)
                         (val_translation solved !! i) |}.

(** The odometry of the frames of frame set [i] after the solve. *)
Definition refinedFrameSet (problem : Problem) (solved : CeresValues)
    (i : nat) (fs : FrameSet) : FrameSet :=
  {| frames :=
       map (fun f =>
              Frame_set_odometry f
                (o ← odometry f;
                 Some {| odo_timeStamp := odo_timeStamp o;
                         position := pick problem (OdometryPosition i)
                                          (position o)
                                          (val_position solved !! i);
                         attitude := pick problem (OdometryAttitude i)
                                          (attitude o)
                                          (val_attitude solved !! i) |}))
           (frames fs);
     timestamp := timestamp fs |}.

(** The scene points after the solve. *)
Definition refinedHeap (problem : Problem) (solved : CeresValues)
    (h : gmap addr Point3DFeature) : gmap addr Point3DFeature :=
  map_imap (fun a o =>
              Some {| point := pick problem (ScenePoint a) (point o)
                                    (val_point solved !! a);
                      observations := observations o |})
           h.

Context {C : CeresSolver}.

(** [InfrastructureCalibration::optimize].  [run] gives the frames of a
    set one shared [Odometry]; the solver updates it in place, and so
    does the model for every frame of the set. *)
Definition optimize (s : Calibration) (optimizeScenePoints : bool)
    : result Calibration :=
  T_cam_ref ← extrinsicPoses s;
  s ← (if m_verbose s then
         st ← reprojectionError s;
         Ok (print s [str "# INFO: Initial reprojection error: avg = ";
                      num (avgError st); str " px | max = ";
                      num (maxError st); str " px | count = ";
                      int (Z.of_nat (featureCount st))])
       else Ok s);
  problem ← ceresProblem s T_cam_ref optimizeScenePoints;
  let solved := Solve problem (ceresValues s T_cam_ref) in
  let T_cam_ref := imap (refinedPose problem solved) T_cam_ref in
  let s := set_features
             (set_framesets s (imap (refinedFrameSet problem solved)
                                    (m_framesets s)))
             (m_feature3DMap s) (refinedHeap problem solved (heap s)) in
  let s := info s [str "Ceres Solver Report"] in
  let s := info s [str "# INFO: Optimization took "; elapsed; str " s."] in
  s ← foldM (fun s i => T ← at_ T_cam_ref i;
                        Ok (setGlobalCameraPose s i (Pose_pose T)))
            (seq 0 (length (m_cameras s))) s;
  if m_verbose s then
    st ← reprojectionError s;
    Ok (print s [str "# INFO: Final reprojection error: avg = ";
                 num (avgError st); str " px | max = ";
                 num (maxError st); str " px | count = ";
                 int (Z.of_nat (featureCount st))])
  else Ok s.

(** [InfrastructureCalibration::run] *)
Definition run (s : Calibration) : result Calibration :=
  r ← initialise s;
  match r with
  | NoCompleteFrameSet s => Ok s
  | Seeded s =>
      s ← optimize s false;
      Ok (info s [str "# INFO: Odometry distance: "; num (m_distance s);
                  str " m"])
  end.

End DataModel.

(** ** A small instance of the collaborators

    Rigid transforms are pairs of integers (a heading and an abscissa)
    composed by addition, images are lists of integer descriptors, the
    matcher looks descriptors up on a grid, the place recogniser proposes
    the first frame of the map, and the pose solver accepts every
    correspondence and places the camera at the sum of the scene points.
    The instance makes the definitions above run on examples. *)

Module Toy.

Definition double_of_Z (z : Z) : IEEE.double :=
  binary_normalize IEEE.dprec IEEE.demax z 0 false.

Definition feature_of (v : Z) : (IEEE.float32 * IEEE.float32) * Mat :=
  ((S754_zero false, S754_zero false),
   {| mat_data := [[v]]; cols := 1; type_ := 5 |}).

(** The matcher of the instance.  Descriptors lie on a grid of step 1000:
    the nearest train row of a query row is the one in the same cell, at
    distance 1, followed by a neighbour at distance 4; a query row whose
    cell is outside the train rows has no neighbour. *)
Definition gridKnn (Q T : Mat) (k : nat) : list (list DMatch) :=
  let cell (row : list Z) := match row with v :: _ => v / 1000 | [] => 0 end in
  let t0 := match mat_data T with row :: _ => cell row | [] => 0 end in
  let nT := Z.of_nat (length (mat_data T)) in
  imap (fun i row =>
          let j := cell row - t0 in
          if (0 <=? j) && (j <? nT) then
            take k [ {| queryIdx := Z.of_nat i; trainIdx := j; imgIdx := 0;
                        distance := S754_finite false 8388608 (-23) |};
                     {| queryIdx := Z.of_nat i; trainIdx := (j + 1) mod nT;
                        imgIdx := 0;
                        distance := S754_finite false 8388608 (-21) |} ]
          else [])
       (mat_data Q).

Definition externals : Externals := {|
  Matrix4d := Z * Z;
  Vector3d := Z;
  Quaterniond := Z;
  Matrix4d_Identity := (0, 0);
  Matrix4d_uninitialized := (-1, -1);
  Matrix4d_mul := fun a b => (fst a + fst b, snd a + snd b);
  Matrix4d_inverse := fun a => (- fst a, - snd a);
  Matrix4d_rotation := fst;
  Matrix4d_translation := snd;
  Matrix4d_of := fun q t => (q, t);
  Quaterniond_Identity := 0;
  Vector3d_Zero := 0;
  Vector3d_add := Z.add;
  Vector3d_sub := Z.sub;
  Vector3d_div := fun v n => v / Z.of_nat n;
  Vector3d_norm := fun v => double_of_Z (Z.abs v);
  quaternionAvg := fun l => foldr Z.add 0 l / Z.of_nat (length l);
  yawPitchRoll := fun q => q;
  AngleAxisToQuaternion := fun v => v;
  hypot := fun x y =>
    SFsqrt IEEE.dprec IEEE.demax
      (IEEE.dadd (IEEE.dmul x x) (IEEE.dmul y y));
  Camera := nat;
  rectifyImagePoint := fun _ p => p;
  Camera_reprojectionError := fun _ P _ t _ => double_of_Z (Z.abs (P - t));
  reprojectionError_point := fun _ P q t p a _ =>
    double_of_Z (Z.abs (P - (p + t)) + Z.abs (q + a));
  Image := list Z;
  equalizeHist := fun i => i;
  surf_detectAndCompute := map feature_of;
  surf_knnMatch := gridKnn;
  locrec_knnMatch := fun _ _ => [{| cameraIdx := 0; segmentIdx := 0;
                                    frameIdx := 0 |}];
  solvePnPRansac := fun scene image _ =>
    (0, foldr Z.add 0 scene, map Z.of_nat (seq 0 (length scene)))
|}.

#[local] Existing Instance externals.

(** A solver that moves every block it is given by one unit. *)
Definition shifting : CeresSolver := {|
  Solve := fun _ v =>
    {| val_rotation := map (Z.add 1) (val_rotation v);
       val_translation := map (Z.add 1) (val_translation v);
       val_position := map (Z.add 1) (val_position v);
       val_attitude := map (Z.add 1) (val_attitude v);
       val_point := Z.add 1 <$> val_point v |}
|}.

(** A solver that leaves every block where it is. *)
Definition resting : CeresSolver := {| Solve := fun _ v => v |}.

(** A reference map with one frame of thirty features: feature [i] has
    the descriptor [1000 i + 1] and the scene point at address [i + 1],
    which lies at 0 for [i < 26] and at 10 beyond. *)
Definition mapFeature (i : nat) : Point2DFeature :=
  {| keypoint := (S754_zero false, S754_zero false);
     descriptor := {| mat_data := [[1000 * Z.of_nat i + 1]]; cols := 1;
                      type_ := 5 |};
     index := i;
     feature3D := Some (Pos.of_nat (S i)) |}.

Definition mapFrame : Frame :=
  {| cameraId := 0; camera := Some Pose_default; odometry := None;
     features2D := map mapFeature (seq 0 30) |}.

Definition mapHeap : gmap addr Point3DFeature :=
  list_to_map
    (map (fun i => (Pos.of_nat (S i),
                    {| point := if (i <? 26)%nat then 0 else 10;
                       observations := [] |}))
         (seq 0 30)).

(** A rig of two cameras on that map, before any frame set. *)
Definition start : Calibration :=
  {| m_cameras := [0%nat; 1%nat]; m_refGraph := [[[mapFrame]]];
     m_framesets := []; m_feature3DMap := ∅; heap := mapHeap;
     m_x_last := IEEE.dzero; m_y_last := IEEE.dzero;
     m_distance := IEEE.dzero; m_verbose := false;
     m_extrinsics := [Matrix4d_Identity; Matrix4d_Identity];
     cout := [] |}.

(** An image showing the map features [from .. from + 24]. *)
Definition view (from : nat) : Image :=
  map (fun i => 1000 * Z.of_nat i) (seq from 25).

(** The state after an operation that does not throw. *)
Definition after (r : result Calibration) : Calibration :=
  match r with
  | Ok s => s
  | Throw _ => start
  end.

(** The first frame set is taken at the view 0. *)
Definition first : Calibration :=
  Eval vm_compute in after (addFrameSet start [view 0; view 0] 0 false).

(** Then the rig looks at the view 1, without having moved, ... *)
Definition second : Calibration :=
  Eval vm_compute in after (addFrameSet first [view 1; view 1] 1 false).

(** ... or at the view 2, ten units away. *)
Definition third : Calibration :=
  Eval vm_compute in after (addFrameSet first [view 2; view 2] 2 false).

Definition localized2 : Calibration * list Frame :=
  Eval vm_compute in
    match localizeAll first [view 2; view 2] 2 false with
    | Ok r => r
    | Throw _ => (first, [])
    end.

(** A graph read from a file: camera 0 has one frame, at time 5, and
    camera 1 has one frame, at time 7. *)
Definition frameAt (cam : nat) (t : Z) : Frame :=
  {| cameraId := cam;
     camera := Some {| timeStamp := t; rotation := 0; translation := 0 |};
     odometry := None; features2D := [] |}.

Definition stored : SparseGraph := [[[frameAt 0 5]]; [[frameAt 1 7]]].

(** A frame of camera [cam] at abscissa [t] that sees the scene point at
    address [a]. *)
Definition shot (cam : nat) (t : Z) (a : positive) : Frame :=
  {| cameraId := cam;
     camera := Some {| timeStamp := 0; rotation := 0; translation := t |};
     odometry := None;
     features2D :=
       [ {| keypoint := (S754_zero false, S754_zero false);
            descriptor := {| mat_data := [[0]]; cols := 1; type_ := 5 |};
            index := 0; feature3D := Some a |} ] |}.

(** A rig of two cameras with four frame sets: in the three complete ones
    camera 1 stands at 3, 5 and 4 when camera 0 stands at 0; the second
    frame set has a frame of camera 1 only. *)
Definition rig : Calibration :=
  {| m_cameras := [0%nat; 1%nat]; m_refGraph := [];
     m_framesets :=
       [ {| frames := [shot 0 0 1; shot 1 3 2]; timestamp := 0 |};
         {| frames := [shot 1 4 2]; timestamp := 1 |};
         {| frames := [shot 0 0 1; shot 1 5 2]; timestamp := 2 |};
         {| frames := [shot 0 0 1; shot 1 4 2]; timestamp := 3 |} ];
     m_feature3DMap := ∅;
     heap := {[ 1%positive := {| point := 0; observations := [] |};
                2%positive := {| point := -5; observations := [] |} ]};
     m_x_last := IEEE.dzero; m_y_last := IEEE.dzero;
     m_distance := IEEE.dzero; m_verbose := true;
     m_extrinsics := [(0, 0); (7, 7)];
     cout := [] |}.

(** The rig after the extrinsics initialisation. *)
Definition seeded : Calibration :=
  Eval vm_compute in
    match initialise rig with
    | Ok (Seeded s) => s
    | _ => rig
    end.

(** The rig after the refinement by the solver that shifts, and after the
    whole of [run] with it. *)
Definition refined : Calibration :=
  Eval vm_compute in after (optimize (C := shifting) seeded false).

Definition calibrated : Calibration :=
  Eval vm_compute in after (run (C := shifting) rig).

(** A rig whose first frame set has two frames of camera 1 and none of
    camera 0. *)
Definition dup : Calibration :=
  {| m_cameras := [0%nat; 1%nat]; m_refGraph := [];
     m_framesets :=
       [ {| frames := [shot 1 4 2; shot 1 6 2]; timestamp := 0 |};
         {| frames := [shot 0 0 1]; timestamp := 1 |} ];
     m_feature3DMap := ∅;
     heap := {[ 1%positive := {| point := 0; observations := [] |};
                2%positive := {| point := -5; observations := [] |} ]};
     m_x_last := IEEE.dzero; m_y_last := IEEE.dzero;
     m_distance := IEEE.dzero; m_verbose := true;
     m_extrinsics := [(0, 0); (7, 7)];
     cout := [] |}.

Definition dupSeeded : Calibration :=
  Eval vm_compute in
    match initialise dup with
    | Ok (Seeded s) => s
    | _ => dup
    end.

Definition dupCalibrated : Calibration :=
  Eval vm_compute in after (run (C := shifting) dup).

(** A rig with two frame sets that have a frame of each camera, and a
    scene point so far away that its reprojection error is not
    representable: the average error is [+inf]. *)
Definition far : Calibration :=
  {| m_cameras := [0%nat; 1%nat]; m_refGraph := [];
     m_framesets :=
       [ {| frames := [shot 0 0 1; shot 1 3 2]; timestamp := 0 |};
         {| frames := [shot 0 0 1; shot 1 5 2]; timestamp := 2 |} ];
     m_feature3DMap := ∅;
     heap := {[ 1%positive := {| point := 0; observations := [] |};
                2%positive := {| point := 2 ^ 1100; observations := [] |} ]};
     m_x_last := IEEE.dzero; m_y_last := IEEE.dzero;
     m_distance := IEEE.dzero; m_verbose := false;
     m_extrinsics := [(0, 0); (7, 7)];
     cout := [] |}.

Definition farEnd : Calibration :=
  Eval vm_compute in
    match initialise far with
    | Ok (NoCompleteFrameSet s) => s
    | _ => far
    end.

(** The same rig when every frame set lacks a camera. *)
Definition partial : Calibration :=
  {| m_cameras := [0%nat; 1%nat]; m_refGraph := [];
     m_framesets :=
       [ {| frames := [shot 1 4 2]; timestamp := 1 |};
         {| frames := [shot 0 0 1]; timestamp := 2 |} ];
     m_feature3DMap := ∅;
     heap := {[ 1%positive := {| point := 0; observations := [] |};
                2%positive := {| point := -5; observations := [] |} ]};
     m_x_last := IEEE.dzero; m_y_last := IEEE.dzero;
     m_distance := IEEE.dzero; m_verbose := false;
     m_extrinsics := [(3, 3); (7, 7)];
     cout := [] |}.

(** A rig whose frames have no 2D feature: the initialisation installs a
    seed, no residual block is added, and [SetParameterization] is given
    a block that is not in the problem. *)
Definition bare : Calibration :=
  {| m_cameras := [0%nat; 1%nat]; m_refGraph := [];
     m_framesets :=
       [ {| frames := [frameAt 0 0; frameAt 1 0]; timestamp := 0 |} ];
     m_feature3DMap := ∅; heap := ∅;
     m_x_last := IEEE.dzero; m_y_last := IEEE.dzero;
     m_distance := IEEE.dzero; m_verbose := false;
     m_extrinsics := [(0, 0); (0, 0)];
     cout := [] |}.

End Toy.

(** * Properties *)

Module MatcherFacts.
Import Matcher.

Lemma mapM_Ok_map {A B} (f : A -> result B) (g : A -> B) (l : list A) :
  (forall a, a ∈ l -> f a = Ok (g a)) -> mapM f l = Ok (map g l).
Proof.
  induction l as [|a l IH]; intros H; simpl; [reflexivity|].
  rewrite (H a) by constructor. simpl.
  rewrite IH; [reflexivity|]. intros b Hb. apply H. now constructor.
Qed.

Lemma buildDescriptorMat_nil indices :
  buildDescriptorMat [] indices = Throw std_out_of_range.
Proof. reflexivity. Qed.

Lemma buildDescriptorMat_cons f0 fs :
  exists d,
    buildDescriptorMat (f0 :: fs) [] = Ok (d, seq 0 (S (length fs))) /\
    cols d = cols (descriptor f0) /\ type_ d = type_ (descriptor f0).
Proof.
  unfold buildDescriptorMat. cbn [app length at_ lookup list_lookup mbind result_bind].
  set (row := fun f : Point2DFeature => concat (mat_data (descriptor f))).
  rewrite (mapM_Ok_map _ (fun i => row (nth i (f0 :: fs) f0))).
  - eexists. split; [reflexivity|]. split; reflexivity.
  - intros i Hi. apply elem_of_seq in Hi. unfold at_.
    destruct ((f0 :: fs) !! i) as [f|] eqn:E.
    + simpl. f_equal. unfold row. f_equal. f_equal. f_equal.
      symmetry. apply nth_lookup_Some with (d := f0) in E. exact E.
    + apply lookup_ge_None in E. simpl in *. lia.
Qed.

Lemma ratioTest_lookup cand i m rest :
  ratioTest cand !! i = Some (m :: rest) ->
  exists m1 rest', cand !! i = Some (m :: m1 :: rest') /\ rest = [] /\
    IEEE.flt (IEEE.fdiv (distance m) (distance m1)) k_maxDistanceRatio = true.
Proof.
  unfold ratioTest. rewrite list_lookup_fmap.
  destruct (cand !! i) as [[|m0 [|m1 r]]|]; simpl; try discriminate.
  destruct (IEEE.flt _ _) eqn:E; [|discriminate].
  intros [= -> <-]. eauto.
Qed.

Lemma crossCheck_inv fwd rev qI tI ms m :
  crossCheck fwd rev qI tI = Ok ms -> m ∈ ms ->
  exists i fm rm r1 r2 q t,
    fwd !! i = Some (fm :: r1) /\ 0 <= trainIdx fm /\
    rev !! Z.to_nat (trainIdx fm) = Some (rm :: r2) /\
    queryIdx fm = trainIdx rm /\ trainIdx fm = queryIdx rm /\
    at_int qI (queryIdx fm) = Ok q /\ queryIdx m = Z.of_nat q /\
    at_int tI (queryIdx rm) = Ok t /\ trainIdx m = Z.of_nat t.
Proof.
  revert ms. induction fwd as [|e fwd IH]; intros ms H Hm; simpl in H.
  { injection H as <-. inversion Hm. }
  assert (Hshift : forall ms', crossCheck fwd rev qI tI = Ok ms' -> m ∈ ms' ->
    exists i fm rm r1 r2 q t,
      (e :: fwd) !! i = Some (fm :: r1) /\ 0 <= trainIdx fm /\
      rev !! Z.to_nat (trainIdx fm) = Some (rm :: r2) /\
      queryIdx fm = trainIdx rm /\ trainIdx fm = queryIdx rm /\
      at_int qI (queryIdx fm) = Ok q /\ queryIdx m = Z.of_nat q /\
      at_int tI (queryIdx rm) = Ok t /\ trainIdx m = Z.of_nat t).
  { intros ms' H' Hm'.
    destruct (IH ms' H' Hm') as (i & fm & rm & r1 & r2 & q & t & Hi & R).
    exists (S i), fm, rm, r1, r2, q, t. split; [exact Hi|exact R]. }
  destruct e as [|fm r1]; [eauto|].
  destruct (at_int rev (trainIdx fm)) as [rv|] eqn:Erev; simpl in H; [|discriminate].
  destruct rv as [|rm r2]; [eauto|].
  destruct ((queryIdx fm =? trainIdx rm) && (trainIdx fm =? queryIdx rm)) eqn:Ec;
    [|eauto].
  apply andb_true_iff in Ec as [E1%Z.eqb_eq E2%Z.eqb_eq].
  destruct (at_int qI (queryIdx fm)) as [q|] eqn:Eq; simpl in H; [|discriminate].
  destruct (at_int tI (queryIdx rm)) as [t|] eqn:Et; simpl in H; [|discriminate].
  destruct (crossCheck fwd rev qI tI) as [ms'|] eqn:Ers; simpl in H; [|discriminate].
  injection H as <-.
  apply elem_of_cons in Hm as [->|Hm]; [|eauto].
  exists 0%nat, fm, rm, r1, r2, q, t. simpl.
  unfold at_int in Erev. destruct (trainIdx fm <? 0) eqn:En; [discriminate|].
  apply Z.ltb_ge in En. unfold at_ in Erev.
  destruct (rev !! Z.to_nat (trainIdx fm)) eqn:El; [|discriminate].
  injection Erev as ->. repeat split; auto.
Qed.

Lemma at_int_seq_Ok n i q : at_int (seq 0 n) i = Ok q -> Z.of_nat q = i.
Proof.
  unfold at_int. destruct (i <? 0) eqn:E; [discriminate|].
  apply Z.ltb_ge in E. intros H%at_seq_Ok. subst. lia.
Qed.

Section WithKnn.

Variable knnMatch : Mat -> Mat -> nat -> list (list DMatch).

(** What a successful, non-trivial run of [matchFeatures] computed. *)
Lemma matchFeatures_inv A B ms log m :
  matchFeatures knnMatch A B = Ok (ms, log) -> m ∈ ms ->
  exists i fm rm m1 r1 m1' r2,
    nearestTwo knnMatch A B !! i = Some (fm :: m1 :: r1) /\
    IEEE.flt (IEEE.fdiv (distance fm) (distance m1)) k_maxDistanceRatio = true /\
    0 <= trainIdx fm /\
    nearestTwo knnMatch B A !! Z.to_nat (trainIdx fm) = Some (rm :: m1' :: r2) /\
    IEEE.flt (IEEE.fdiv (distance rm) (distance m1')) k_maxDistanceRatio = true /\
    0 <= queryIdx fm /\
    trainIdx rm = queryIdx fm /\
    queryIdx m = queryIdx fm /\ trainIdx m = trainIdx fm.
Proof.
  intros H Hm. unfold matchFeatures in H.
  destruct A as [|a0 A]; [discriminate|].
  destruct B as [|b0 B].
  { destruct (buildDescriptorMat_cons a0 A) as (d & E & _).
    rewrite E in H. discriminate. }
  unfold nearestTwo.
  destruct (buildDescriptorMat_cons a0 A) as (qd & Eq & _).
  destruct (buildDescriptorMat_cons b0 B) as (td & Et & _).
  rewrite Eq, Et in *. cbn [mbind result_bind] in H.
  destruct (negb (cols qd =? cols td)).
  { injection H as <- _. inversion Hm. }
  destruct (negb (type_ qd =? type_ td)).
  { injection H as <- _. inversion Hm. }
  destruct (crossCheck _ _ _ _) as [ms'|] eqn:Ec; [|discriminate].
  cbn [mbind result_bind] in H. injection H as <- _.
  destruct (crossCheck_inv _ _ _ _ _ _ Ec Hm)
    as (i & fm & rm & r1 & r2 & q & t & Hf & Hpos & Hr & E1 & E2 & Hq & Hmq & Ht & Hmt).
  apply ratioTest_lookup in Hf as (m1 & r1' & Hf & _ & Hfr).
  apply ratioTest_lookup in Hr as (m1' & r2' & Hr & _ & Hrr).
  apply at_int_seq_Ok in Hq. apply at_int_seq_Ok in Ht.
  exists i, fm, rm, m1, r1', m1', r2'. repeat split; auto; lia.
Qed.

Lemma ratioTest_pass cand i m0 m1 r :
  cand !! i = Some (m0 :: m1 :: r) ->
  IEEE.flt (IEEE.fdiv (distance m0) (distance m1)) k_maxDistanceRatio = true ->
  ratioTest cand !! i = Some [m0].
Proof.
  intros H Hr. unfold ratioTest. rewrite list_lookup_fmap, H. simpl.
  now rewrite Hr.
Qed.

Lemma nearestTwo_indexed A B i ms m :
  knn_indexed knnMatch ->
  nearestTwo knnMatch A B !! i = Some ms -> m ∈ ms -> queryIdx m = Z.of_nat i.
Proof.
  intros Hk. unfold nearestTwo.
  destruct (buildDescriptorMat A []) as [[a ?]|]; [|discriminate].
  destruct (buildDescriptorMat B []) as [[b ?]|]; [|discriminate].
  apply Hk.
Qed.

(** C7.  Every match returned by [matchFeatures] is mutually best: the
    ratio-passing nearest neighbour of its query feature among the train
    features is its train feature, and the ratio-passing nearest neighbour
    of that train feature among the query features is its query feature. *)
Theorem matchFeatures_mutually_best A B ms log m :
  knn_indexed knnMatch ->
  matchFeatures knnMatch A B = Ok (ms, log) -> m ∈ ms ->
  ratioNearest knnMatch A B (queryIdx m) = Some (trainIdx m) /\
  ratioNearest knnMatch B A (trainIdx m) = Some (queryIdx m).
Proof.
  intros Hk H Hm.
  destruct (matchFeatures_inv _ _ _ _ _ H Hm)
    as (i & fm & rm & m1 & r1 & m1' & r2 &
        Hf & Hfr & Hpos & Hr & Hrr & Hq & Ert & Emq & Emt).
  assert (Ei : queryIdx fm = Z.of_nat i).
  { eapply nearestTwo_indexed; [exact Hk|exact Hf|constructor]. }
  unfold ratioNearest. rewrite Emq, Emt. split.
  - rewrite Ei. destruct (Z.of_nat i <? 0) eqn:E; [apply Z.ltb_lt in E; lia|].
    rewrite Nat2Z.id, (ratioTest_pass _ _ _ _ _ Hf Hfr). reflexivity.
  - destruct (trainIdx fm <? 0) eqn:E; [apply Z.ltb_lt in E; lia|].
    rewrite (ratioTest_pass _ _ _ _ _ Hr Hrr). now rewrite Ert.
Qed.

(** C8.  Every match returned by [matchFeatures] has a forward and a
    reverse nearest / second-nearest distance ratio strictly below
    [k_maxDistanceRatio], so none has a ratio greater than or equal to it;
    and when every ratio equals the threshold no match is returned. *)
Theorem matchFeatures_ratio_strict A B ms log :
  knn_indexed knnMatch ->
  matchFeatures knnMatch A B = Ok (ms, log) ->
  (forall m, m ∈ ms ->
     exists r r',
       distanceRatio knnMatch A B (queryIdx m) = Some r /\
       IEEE.flt r k_maxDistanceRatio = true /\
       IEEE.fge r k_maxDistanceRatio = false /\
       distanceRatio knnMatch B A (trainIdx m) = Some r' /\
       IEEE.flt r' k_maxDistanceRatio = true /\
       IEEE.fge r' k_maxDistanceRatio = false) /\
  ((forall i r, distanceRatio knnMatch A B i = Some r ->
                IEEE.feq r k_maxDistanceRatio = true) ->
   ms = []).
Proof.
  intros Hk H. split.
  - intros m Hm.
    destruct (matchFeatures_inv _ _ _ _ _ H Hm)
      as (i & fm & rm & m1 & r1 & m1' & r2 &
          Hf & Hfr & Hpos & Hr & Hrr & Hq & Ert & Emq & Emt).
    assert (Ei : queryIdx fm = Z.of_nat i).
    { eapply nearestTwo_indexed; [exact Hk|exact Hf|constructor]. }
    eexists _, _. unfold distanceRatio. rewrite Emq, Emt, Ei.
    destruct (Z.of_nat i <? 0) eqn:E; [apply Z.ltb_lt in E; lia|].
    destruct (trainIdx fm <? 0) eqn:E'; [apply Z.ltb_lt in E'; lia|].
    rewrite Nat2Z.id, Hf, Hr.
    repeat split; auto using IEEE.flt_not_fge.
  - intros Hall. destruct ms as [|m ms]; [reflexivity|exfalso].
    destruct (matchFeatures_inv _ _ _ _ m H ltac:(constructor))
      as (i & fm & rm & m1 & r1 & m1' & r2 & Hf & Hfr & _).
    specialize (Hall (Z.of_nat i) (IEEE.fdiv (distance fm) (distance m1))).
    unfold distanceRatio in Hall.
    destruct (Z.of_nat i <? 0) eqn:E; [apply Z.ltb_lt in E; lia|].
    rewrite Nat2Z.id, Hf in Hall. specialize (Hall eq_refl).
    apply IEEE.flt_not_feq in Hfr. congruence.
Qed.

(** C9.  Two non-empty feature collections whose descriptors differ in
    length or in type are not matched: [matchFeatures] writes a warning
    and returns no match, without throwing. *)
Theorem matchFeatures_descriptor_mismatch A B ca ta cb tb :
  A <> [] -> B <> [] ->
  (forall f, f ∈ A -> cols (descriptor f) = ca /\ type_ (descriptor f) = ta) ->
  (forall f, f ∈ B -> cols (descriptor f) = cb /\ type_ (descriptor f) = tb) ->
  ca <> cb \/ ta <> tb ->
  matchFeatures knnMatch A B =
    Ok ([], [if negb (ca =? cb)
             then "# WARNING: Descriptor lengths do not match."%string
             else "# WARNING: Descriptor types do not match."%string]).
Proof.
  intros HA HB HcA HcB Hne.
  destruct A as [|a0 A]; [congruence|]. destruct B as [|b0 B]; [congruence|].
  destruct (HcA a0 ltac:(constructor)) as [<- <-].
  destruct (HcB b0 ltac:(constructor)) as [<- <-].
  unfold matchFeatures.
  destruct (buildDescriptorMat_cons a0 A) as (qd & -> & Eqc & Eqt).
  destruct (buildDescriptorMat_cons b0 B) as (td & -> & Etc & Ett).
  cbn [mbind result_bind]. rewrite Eqc, Etc, Eqt, Ett.
  destruct (cols (descriptor a0) =? cols (descriptor b0)) eqn:Ec; simpl;
    [|reflexivity].
  destruct (type_ (descriptor a0) =? type_ (descriptor b0)) eqn:Et; simpl;
    [|reflexivity].
  apply Z.eqb_eq in Ec, Et. destruct Hne; congruence.
Qed.

(** C10.  [matchFeatures] needs both collections to be non-empty:
    [buildDescriptorMat] reads [features.at(0)] unconditionally, so an
    empty query or train collection makes [matchFeatures] throw
    [std::out_of_range] instead of returning an empty list of matches. *)
Theorem matchFeatures_empty_throws A B :
  A = [] \/ B = [] ->
  matchFeatures knnMatch A B = Throw std_out_of_range.
Proof.
  intros [->| ->]; [reflexivity|].
  destruct A as [|a0 A]; [reflexivity|].
  unfold matchFeatures.
  destruct (buildDescriptorMat_cons a0 A) as (qd & -> & _). reflexivity.
Qed.

End WithKnn.

(** The brute-force matcher keeps the promise on indices. *)

Lemma elem_of_insert_by_distance m x l :
  m ∈ insert_by_distance x l -> m = x \/ m ∈ l.
Proof.
  induction l as [|y l IH]; simpl.
  - intros H%list_elem_of_singleton. now left.
  - destruct (IEEE.flt _ _).
    + intros [->|H]%elem_of_cons; auto.
    + intros [->|H]%elem_of_cons; [right; constructor|].
      destruct (IH H) as [->|]; [now left|right; now constructor].
Qed.

Lemma elem_of_sort_by_distance m l : m ∈ sort_by_distance l -> m ∈ l.
Proof.
  induction l as [|x l IH]; simpl; [trivial|].
  intros [->|H]%elem_of_insert_by_distance; [constructor|].
  constructor. now apply IH.
Qed.

Lemma bruteForceKnn_indexed : knn_indexed bruteForceKnn.
Proof.
  intros Q T k i ms m H Hm. unfold bruteForceKnn in H.
  rewrite list_lookup_imap in H.
  destruct (mat_data Q !! i) as [q|]; [|discriminate].
  injection H as <-.
  apply elem_of_take in Hm as (j & Hm & _).
  apply list_elem_of_lookup_2 in Hm.
  apply elem_of_sort_by_distance in Hm.
  apply list_elem_of_lookup in Hm as (j' & Hm).
  rewrite list_lookup_imap in Hm.
  destruct (mat_data T !! j'); [|discriminate].
  injection Hm as <-. reflexivity.
Qed.

(** Worked example: query descriptors 0 and 100 against train descriptors
    1 and 103 give the matches (0,0) and (1,1). *)
Definition exA : list Point2DFeature := [feature1 0 0; feature1 100 1].
Definition exB : list Point2DFeature := [feature1 1 0; feature1 103 1].
Definition exMatch (q t : Z) : DMatch :=
  {| queryIdx := q; trainIdx := t; imgIdx := -1; distance := FLT_MAX |}.

Example matchFeatures_exA_exB :
  matchFeatures bruteForceKnn exA exB = Ok ([exMatch 0 0; exMatch 1 1], []).
Proof. vm_compute. reflexivity. Qed.

Lemma matchFeatures_mutually_best_witness :
  ratioNearest bruteForceKnn exA exB 1 = Some 1 /\
  ratioNearest bruteForceKnn exB exA 1 = Some 1.
Proof.
  apply (matchFeatures_mutually_best bruteForceKnn exA exB
           [exMatch 0 0; exMatch 1 1] [] (exMatch 1 1)).
  - exact bruteForceKnn_indexed.
  - vm_compute. reflexivity.
  - apply list_elem_of_further, list_elem_of_here.
Defined.

Lemma matchFeatures_ratio_strict_witness :
  (forall m, m ∈ [exMatch 0 0; exMatch 1 1] ->
     exists r r',
       distanceRatio bruteForceKnn exA exB (queryIdx m) = Some r /\
       IEEE.flt r k_maxDistanceRatio = true /\
       IEEE.fge r k_maxDistanceRatio = false /\
       distanceRatio bruteForceKnn exB exA (trainIdx m) = Some r' /\
       IEEE.flt r' k_maxDistanceRatio = true /\
       IEEE.fge r' k_maxDistanceRatio = false) /\
  ((forall i r, distanceRatio bruteForceKnn exA exB i = Some r ->
                IEEE.feq r k_maxDistanceRatio = true) ->
   [exMatch 0 0; exMatch 1 1] = []).
Proof.
  apply (matchFeatures_ratio_strict bruteForceKnn exA exB _ []).
  - exact bruteForceKnn_indexed.
  - vm_compute. reflexivity.
Defined.

(** Descriptors of width 1 against descriptors of width 2. *)
Definition exWide : list Point2DFeature :=
  [{| keypoint := (S754_zero false, S754_zero false);
      descriptor := {| mat_data := [[1; 2]]; cols := 2; type_ := 5 |};
      index := 0%nat; feature3D := None |}].

Lemma matchFeatures_descriptor_mismatch_witness :
  matchFeatures bruteForceKnn exA exWide =
    Ok ([], ["# WARNING: Descriptor lengths do not match."%string]).
Proof.
  apply (matchFeatures_descriptor_mismatch bruteForceKnn exA exWide 1 5 2 5).
  - discriminate.
  - discriminate.
  - intros f Hf. repeat (apply elem_of_cons in Hf as [->|Hf]; [split; reflexivity|]).
    inversion Hf.
  - intros f Hf. repeat (apply elem_of_cons in Hf as [->|Hf]; [split; reflexivity|]).
    inversion Hf.
  - left. lia.
Defined.

Lemma matchFeatures_empty_throws_witness :
  matchFeatures bruteForceKnn exA [] = Throw std_out_of_range.
Proof.
  apply (matchFeatures_empty_throws bruteForceKnn exA []). right. reflexivity.
Defined.

End MatcherFacts.

(** ** The odometry accumulator *)

Module OdometryFacts.

Section Generic.
Context {E : Externals}.

Lemma addOdometries_state s samples d0 :
  m_distance s = d0 ->
  let r := fold_left
             (fun '(d, (px, py)) '(x, y) =>
                (if IEEE.fne px IEEE.dzero || IEEE.fne py IEEE.dzero
                 then IEEE.dadd d (hypot (SFsub IEEE.dprec IEEE.demax x px)
                                         (SFsub IEEE.dprec IEEE.demax y py))
                 else d,
                 (x, y)))
             (map (fun '(x, y, _, _) => (x, y)) samples)
             (d0, (m_x_last s, m_y_last s)) in
  m_distance (addOdometries s samples) = fst r /\
  (m_x_last (addOdometries s samples), m_y_last (addOdometries s samples)) = snd r.
Proof.
  revert s d0. induction samples as [|[[[x y] yaw] t] samples IH];
    intros s d0 Hd; simpl.
  - subst. auto.
  - specialize (IH (addOdometry s x y yaw t) (m_distance (addOdometry s x y yaw t)) eq_refl).
    simpl in IH. unfold addOdometries in *. simpl.
    subst d0. exact IH.
Qed.

(** The accumulator of a fresh object after any sequence of calls: the
    sum over the consecutive samples whose first one is not [(0, 0)]. *)
Lemma addOdometries_distance cameras verbose samples :
  m_distance (addOdometries (InfrastructureCalibration_new cameras verbose)
                            samples)
  = pathLengthSkippingOrigin (map (fun '(x, y, _, _) => (x, y)) samples).
Proof.
  pose proof (addOdometries_state
                (InfrastructureCalibration_new cameras verbose) samples
                IEEE.dzero eq_refl) as [H _].
  exact H.
Qed.

(** C3, at the samples (0,0) then (3,4).  The guard of [addOdometry]
    takes a previous sample equal to (0,0) for "no previous sample", so
    the segment from (0,0) to (3,4) adds nothing and the accumulator stays
    at 0, where the path length is [hypot 3 4]. *)
Theorem addOdometry_drops_segment_from_origin cameras verbose :
  let samples := [(IEEE.dzero, IEEE.dzero, IEEE.dzero, 0);
                  (IEEE.dbl 3, IEEE.dbl 4, IEEE.dzero, 1)] in
  m_distance (addOdometries (InfrastructureCalibration_new cameras verbose)
                            samples) = IEEE.dzero /\
  pathLength (map (fun '(x, y, _, _) => (x, y)) samples)
  = IEEE.dadd IEEE.dzero (hypot (IEEE.dbl 3) (IEEE.dbl 4)).
Proof. split; vm_compute; reflexivity. Qed.

End Generic.

(** With the Euclidean [hypot] the expected length is 5. *)
Example pathLength_3_4 :
  pathLength (E := Toy.externals)
    [(IEEE.dzero, IEEE.dzero); (IEEE.dbl 3, IEEE.dbl 4)] = IEEE.dbl 5.
Proof. vm_compute. reflexivity. Qed.

(** Away from the origin the accumulator is the path length. *)
Example addOdometries_1_1_4_5 :
  m_distance
    (addOdometries (E := Toy.externals)
       (InfrastructureCalibration_new [] false)
       [(IEEE.dbl 1, IEEE.dbl 1, IEEE.dzero, 0);
        (IEEE.dbl 4, IEEE.dbl 5, IEEE.dzero, 1)]) = IEEE.dbl 5.
Proof. vm_compute. reflexivity. Qed.

End OdometryFacts.

(** ** The shared scene-point map *)

Module FeatureMapFacts.

Section Generic.
Context {E : Externals}.

(** The map only grows, and after an iteration it holds the scene point
    the iteration returned. *)
Lemma storeCorrespondence_map s p2D p3D s' a :
  storeCorrespondence s p2D p3D = (s', a) ->
  m_feature3DMap s' !! p3D = Some a /\
  (forall k b, m_feature3DMap s !! k = Some b ->
               m_feature3DMap s' !! k = Some b).
Proof.
  unfold storeCorrespondence.
  destruct (m_feature3DMap s !! p3D) as [b|] eqn:El; intros [= <- <-]; simpl.
  - auto.
  - split; [apply lookup_insert_eq|].
    intros k b Hk. rewrite lookup_insert_ne; [exact Hk|].
    intros ->. rewrite El in Hk. discriminate.
Qed.

(** "Feature [q] of frame [t] exists." *)
Definition valid (frames : list Frame) (tq : nat * nat) : Prop :=
  exists frame, frames !! tq.1 = Some frame /\
                (tq.2 < length (features2D frame))%nat.

(** "Every iteration done so far left its feature attached to the scene
    point that the map holds for its key." *)
Definition consistent (st : Calibration * list Frame)
    (done : list (nat * nat * addr)) : Prop :=
  forall t q k, (t, q, k) ∈ done ->
    exists a, m_feature3DMap st.1 !! k = Some a /\ attached st.2 t q = Some a.

Lemma storeInterleaved_snoc ts st steps c :
  storeInterleaved ts st (steps ++ [c]) =
  storeInterleaved ts (storeInterleaved ts st steps) [c].
Proof. unfold storeInterleaved. now rewrite fold_left_app. Qed.

Lemma step_valid ts st c tq :
  valid st.2 tq -> valid (storeInterleaved ts st [c]).2 tq.
Proof.
  destruct st as [s frames], c as [[t q] k], tq as [t' q']. simpl.
  intros (frame' & Hf & Hq). simpl in *.
  destruct (frames !! t) as [frame|] eqn:Et; [|exists frame'; auto].
  unfold storeStep.
  destruct (storeCorrespondence _ _ _) as [s' a]. simpl.
  destruct (decide (t = t')) as [->|Hne].
  - rewrite Hf in Et. injection Et as ->.
    eexists. split.
    + apply list_lookup_insert_eq. now apply lookup_lt_Some in Hf.
    + simpl. now rewrite length_alter.
  - exists frame'. split; [|exact Hq].
    now rewrite list_lookup_insert_ne.
Qed.

Lemma step_consistent ts st done t q k :
  consistent st done -> valid st.2 (t, q) ->
  (forall k', (t, q, k') ∉ done) ->
  consistent (storeInterleaved ts st [(t, q, k)]) (done ++ [(t, q, k)]).
Proof.
  destruct st as [s frames]. intros Hc (frame & Hf & Hq) Hnew. simpl in *.
  rewrite Hf. unfold storeStep.
  destruct (storeCorrespondence _ _ _) as [s' a] eqn:Es. simpl.
  destruct (storeCorrespondence_map _ _ _ _ _ Es) as [Hk Hmono].
  assert (Ht : (t < length frames)%nat) by now apply lookup_lt_Some in Hf.
  intros t' q' k' [Hin|Hin%list_elem_of_singleton]%elem_of_app.
  - destruct (Hc _ _ _ Hin) as (b & Hb & Hatt). exists b. simpl in *.
    split; [now apply Hmono|].
    unfold attached in *.
    destruct (decide (t' = t)) as [->|Hne].
    + rewrite list_lookup_insert_eq by exact Ht. simpl.
      rewrite Hf in Hatt. simpl in Hatt.
      rewrite list_lookup_alter_ne; [exact Hatt|].
      intros ->. apply (Hnew k'). exact Hin.
    + now rewrite list_lookup_insert_ne.
  - injection Hin as -> -> ->. exists a. simpl. split; [exact Hk|].
    unfold attached. rewrite list_lookup_insert_eq by exact Ht. simpl.
    rewrite list_lookup_alter_eq.
    destruct (features2D frame !! q) as [f|] eqn:Eq; [reflexivity|].
    apply lookup_ge_None in Eq. lia.
Qed.

Lemma storeInterleaved_consistent ts st steps :
  NoDup (map fst steps) ->
  (forall tq, tq ∈ map fst steps -> valid st.2 tq) ->
  consistent (storeInterleaved ts st steps) steps /\
  (forall tq, valid st.2 tq -> valid (storeInterleaved ts st steps).2 tq).
Proof.
  induction steps as [|[[t q] k] steps IH] using rev_ind; intros Hnd Hv.
  - split; [intros t q k Hin; inversion Hin|auto].
  - rewrite map_app in Hnd, Hv. simpl in Hnd, Hv.
    apply NoDup_app in Hnd as (Hnd & Hdisj & _).
    destruct IH as [IHc IHv]; [exact Hnd| |].
    { intros tq Htq. apply Hv, elem_of_app. now left. }
    rewrite storeInterleaved_snoc. split.
    + apply step_consistent; [exact IHc| |].
      * apply IHv, Hv, elem_of_app. right. constructor.
      * intros k' Hin. apply (Hdisj (t, q)); [|constructor].
        apply list_elem_of_fmap. exists (t, q, k'). auto.
    + intros tq Htq. apply step_valid. now apply IHv.
Qed.

(** Whatever the order in which the localiser threads run the
    iterations of their store loops, two 2D features whose inlier
    correspondences name the same scene point of the reference map end up
    attached to the same [Point3DFeature] object, the one the shared map
    holds under that reference point. *)
Lemma storeInterleaved_shared_instance ts s frames steps t1 q1 t2 q2 p3D :
  NoDup (map fst steps) ->
  (forall tq, tq ∈ map fst steps -> valid frames tq) ->
  (t1, q1, p3D) ∈ steps -> (t2, q2, p3D) ∈ steps ->
  let st' := storeInterleaved ts (s, frames) steps in
  exists a,
    m_feature3DMap st'.1 !! p3D = Some a /\
    attached st'.2 t1 q1 = Some a /\
    attached st'.2 t2 q2 = Some a.
Proof.
  intros Hnd Hv H1 H2 st'.
  destruct (storeInterleaved_consistent ts (s, frames) steps Hnd Hv) as [Hc _].
  destruct (Hc _ _ _ H1) as (a & Ha & Hatt1).
  destruct (Hc _ _ _ H2) as (b & Hb & Hatt2).
  rewrite Ha in Hb. injection Hb as <-.
  exists a. repeat split; assumption.
Qed.

(** The store loop of one call of [estimateCameraPose] is the execution
    with a single thread. *)
Lemma storeCorrespondences_single ts s frame corr :
  storeInterleaved ts (s, [frame])
    (map (fun c : nat * addr => (0%nat, c.1, c.2)) corr)
  = ((storeCorrespondences ts s frame corr).1,
     [(storeCorrespondences ts s frame corr).2]).
Proof.
  unfold storeInterleaved, storeCorrespondences.
  revert s frame. induction corr as [|[q k] corr IH]; intros s frame.
  - reflexivity.
  - cbn [map fold_left fst snd].
    change ([frame] !! 0%nat) with (Some frame). cbv beta iota.
    destruct (storeStep ts (s, frame) (q, k)) as [s' frame'].
    apply IH.
Qed.

End Generic.

(** Two cameras, one feature each, both matched to the map point at
    address 1: a single new scene point, at address 2, serves both. *)
Definition exStore : Calibration (E := Toy.externals) :=
  set_features
    (InfrastructureCalibration_new (E := Toy.externals) [0%nat; 1%nat] false)
    ∅
    {[ 1%positive := mkPoint3DFeature (E := Toy.externals) 7 [] ]}.

Definition exFrame (i : nat) : Frame (E := Toy.externals) :=
  mkFrame (E := Toy.externals) i None None [Matcher.feature1 0 0].

Example storeInterleaved_two_cameras :
  let st := storeInterleaved 0 (exStore, [exFrame 0; exFrame 1])
              [(0%nat, 0%nat, 1%positive); (1%nat, 0%nat, 1%positive)] in
  attached st.2 0 0 = Some 2%positive /\
  attached st.2 1 0 = Some 2%positive /\
  observations (deref (heap st.1) 2%positive)
  = [ {| ref_camera := 0; ref_timestamp := 0; ref_index := 0 |};
      {| ref_camera := 1; ref_timestamp := 0; ref_index := 0 |} ].
Proof. vm_compute. auto. Qed.

Example storeInterleaved_shared_instance_two_cameras :
  let st := storeInterleaved 0 (exStore, [exFrame 0; exFrame 1])
              [(0%nat, 0%nat, 1%positive); (1%nat, 0%nat, 1%positive)] in
  exists a,
    m_feature3DMap st.1 !! 1%positive = Some a /\
    attached st.2 0 0 = Some a /\
    attached st.2 1 0 = Some a.
Proof.
  apply (storeInterleaved_shared_instance (E := Toy.externals) 0 exStore
           [exFrame 0; exFrame 1]
           [(0%nat, 0%nat, 1%positive); (1%nat, 0%nat, 1%positive)]).
  - apply (bool_decide_unpack _). vm_compute. reflexivity.
  - intros tq Htq. simpl in Htq.
    apply elem_of_cons in Htq as [->|Htq].
    { exists (exFrame 0). split; [reflexivity|simpl; lia]. }
    apply elem_of_cons in Htq as [->|Htq].
    { exists (exFrame 1). split; [reflexivity|simpl; lia]. }
    inversion Htq.
  - apply list_elem_of_here.
  - apply list_elem_of_further, list_elem_of_here.
Qed.

End FeatureMapFacts.

(** ** The frame-set manager *)

Module FrameSetFacts.

Ltac bind_in H :=
  match type of H with
  | mbind _ ?m = Ok _ =>
      let E := fresh "Eb" in
      destruct m eqn:E; cbn [mbind result_bind] in H; [|discriminate H]
  end.

Section Generic.
Context {E : Externals}.

(** What localisation leaves alone: everything but the scene-point map,
    the heap and the output. *)
Definition untouched (s s' : Calibration) : Prop :=
  m_framesets s' = m_framesets s /\ m_cameras s' = m_cameras s /\
  m_verbose s' = m_verbose s /\ m_extrinsics s' = m_extrinsics s /\
  m_refGraph s' = m_refGraph s.

Lemma untouched_refl s : untouched s s.
Proof. repeat split. Qed.

Lemma untouched_trans s1 s2 s3 :
  untouched s1 s2 -> untouched s2 s3 -> untouched s1 s3.
Proof. unfold untouched. intuition congruence. Qed.

Lemma print_untouched s line : untouched s (print s line).
Proof. repeat split. Qed.

Lemma info_untouched s line : untouched s (info s line).
Proof. unfold info. destruct (m_verbose s); [apply print_untouched|apply untouched_refl]. Qed.

Lemma foldM_invariant {A B} (P : A -> Prop) (f : A -> B -> result A) l a r :
  P a -> (forall a b a', P a -> f a b = Ok a' -> P a') ->
  foldM f l a = Ok r -> P r.
Proof.
  intros Ha Hf. revert a Ha. induction l as [|b l IH]; intros a Ha; simpl.
  - now intros [= <-].
  - destruct (f a b) as [a'|] eqn:Ef; simpl; [|discriminate].
    apply IH. eapply Hf; eauto.
Qed.

Lemma fold_left_invariant {A B} (P : A -> Prop) (f : A -> B -> A) l a :
  P a -> (forall a b, P a -> P (f a b)) -> P (fold_left f l a).
Proof.
  intros Ha Hf. revert a Ha. induction l as [|b l IH]; intros a Ha; simpl; auto.
Qed.

Lemma storeCorrespondence_untouched s p k :
  untouched s (storeCorrespondence s p k).1.
Proof.
  unfold storeCorrespondence.
  destruct (m_feature3DMap s !! k); simpl; repeat split.
Qed.

Lemma storeCorrespondences_untouched ts s frame corr :
  untouched s (storeCorrespondences ts s frame corr).1 /\
  cameraId (storeCorrespondences ts s frame corr).2 = cameraId frame /\
  camera (storeCorrespondences ts s frame corr).2 = camera frame.
Proof.
  unfold storeCorrespondences.
  apply (fold_left_invariant
           (fun st => untouched s st.1 /\ cameraId st.2 = cameraId frame /\
                      camera st.2 = camera frame)).
  - simpl. split; [apply untouched_refl|auto].
  - intros [s1 f1] [q k] (Hu & Hc & Hp). unfold storeStep.
    pose proof (storeCorrespondence_untouched s1
                  {| ref_camera := cameraId f1; ref_timestamp := ts;
                     ref_index := q |} k) as Hs.
    destruct (storeCorrespondence _ _ _) as [s2 a]. simpl in *.
    split; [eapply untouched_trans; eauto|auto].
Qed.

Lemma tryCandidate_untouched frame rk thr s best fid s' best' :
  tryCandidate frame rk thr (s, best) fid = Ok (s', best') -> untouched s s'.
Proof.
  unfold tryCandidate.
  destruct (at_ (m_refGraph s) (cameraIdx fid)) as [segments|]; [|discriminate].
  cbn [mbind result_bind].
  destruct (at_ segments (segmentIdx fid)) as [segment|]; [|discriminate].
  cbn [mbind result_bind].
  destruct (at_ segment (frameIdx fid)) as [trainFrame|]; [|discriminate].
  cbn [mbind result_bind].
  destruct (Matcher.matchFeatures _ _ _) as [[matches warnings]|]; [|discriminate].
  cbn [mbind result_bind].
  set (s1 := fold_left (fun s w => print s [str w]) warnings s).
  assert (Hs1 : untouched s s1).
  { subst s1. apply fold_left_invariant; [apply untouched_refl|].
    intros a w Ha. eapply untouched_trans; [exact Ha|apply print_untouched]. }
  destruct (_ <? _)%nat; [now intros [= <- _]|].
  destruct (correspondences _ _ _ _ _) as [[[corr ip] sp]|]; [|discriminate].
  cbn [mbind result_bind].
  destruct (_ <? _)%nat; [now intros [= <- _]|].
  destruct (solvePnPRansac _ _ _) as [[rvec tvec] inliers].
  destruct (_ <? _)%nat; [now intros [= <- _]|].
  destruct (_ <? _)%nat; [|now intros [= <- _]].
  destruct (mapM _ _); [|discriminate]. cbn [mbind result_bind].
  now intros [= <- _].
Qed.

Lemma estimateCameraPose_untouched s image ts frame pre s' frame' :
  estimateCameraPose s image ts frame pre = Ok (s', frame') ->
  untouched s s' /\ cameraId frame' = cameraId frame.
Proof.
  unfold estimateCameraPose. cbv zeta. intros H.
  bind_in H. bind_in H. destruct a0 as [s1 best].
  assert (Hs1 : untouched s s1).
  { change s1 with (s1, best).1.
    eapply (foldM_invariant (fun st => untouched s st.1)); [| |exact Eb0].
    - apply untouched_refl.
    - intros [sa ba] fid [sb bb] Ha Hf. simpl in *.
      eapply untouched_trans; [exact Ha|].
      eapply tryCandidate_untouched; exact Hf. }
  destruct (_ <? _)%nat.
  { injection H as <- <-. auto. }
  match type of H with
  | context [storeCorrespondences ts ?sa ?fa ?ca] =>
      pose proof (storeCorrespondences_untouched ts sa fa ca) as (Hu & Hc & _);
      destruct (storeCorrespondences ts sa fa ca) as [s2 frame2]
  end.
  simpl in Hu, Hc.
  assert (Hs2 : untouched s s2).
  { eapply untouched_trans; [exact Hs1|].
    eapply untouched_trans; [apply info_untouched|exact Hu]. }
  destruct (m_verbose s2).
  - bind_in H. bind_in H. injection H as <- <-. split; [|exact Hc].
    repeat (eapply untouched_trans; [|apply print_untouched]). exact Hs2.
  - injection H as <- <-. auto.
Qed.

Lemma localizeAll_spec s images ts pre s' localized :
  localizeAll s images ts pre = Ok (s', localized) ->
  untouched s s' /\ map cameraId localized = seq 0 (length (m_cameras s)).
Proof.
  unfold localizeAll.
  generalize (length (m_cameras s)) as n. intros n.
  assert (G : forall k l0 s0 r,
    foldM (fun '(s, frames) i =>
             image ← at_ images i;
             '(s, frame) ← estimateCameraPose s image ts
                             {| cameraId := i; camera := None;
                                odometry := None; features2D := [] |} pre;
             Ok (s, frames ++ [frame]))
          (seq k n) (s0, l0) = Ok r ->
    untouched s0 r.1 /\ map cameraId r.2 = map cameraId l0 ++ seq k n).
  { induction n as [|n IH]; intros k l0 s0 r; simpl.
    - intros [= <-]. simpl. split; [apply untouched_refl|now rewrite app_nil_r].
    - intros H. bind_in H. destruct a as [s1 l1].
      destruct (at_ images k) as [image|]; [|discriminate].
      cbn [mbind result_bind] in Eb.
      destruct (estimateCameraPose _ _ _ _ _) as [[s2 f2]|] eqn:Ee; [|discriminate].
      cbn [mbind result_bind] in Eb. injection Eb as <- <-.
      apply estimateCameraPose_untouched in Ee as [Hu Hc]. simpl in Hc.
      destruct (IH _ _ _ _ H) as [Hu' Hm]. split.
      + eapply untouched_trans; eauto.
      + rewrite Hm, map_app. simpl. rewrite Hc, <- app_assoc. reflexivity. }
  intros H. apply G in H. simpl in H. exact H.
Qed.

Lemma keyFrameGate_untouched s frameset s' b :
  keyFrameGate s frameset = Ok (s', b) -> untouched s s'.
Proof.
  unfold keyFrameGate. destruct (last (m_framesets s)) as [back|].
  - intros H. bind_in H. bind_in H. bind_in H.
    destruct (_ && _); injection H as <- _;
      [apply untouched_refl|apply info_untouched].
  - intros [= <- _]. apply untouched_refl.
Qed.

(** The step of the minimum loop. *)
Definition minStep (keyFrameDist d : IEEE.double) : IEEE.double :=
  if IEEE.flt d keyFrameDist then d else keyFrameDist.

Lemma minStep_fold ds k0 :
  IEEE.is_nan k0 = false ->
  let k := fold_left minStep ds k0 in
  IEEE.is_nan k = false /\
  (k = k0 \/ (k ∈ ds /\ IEEE.flt k k0 = true)) /\
  IEEE.flt k0 k = false /\
  (forall d, d ∈ ds -> IEEE.flt d k = false).
Proof.
  revert k0. induction ds as [|d ds IH]; intros k0 Hk0; simpl.
  - repeat split; auto using IEEE.flt_irrefl. intros d Hd. inversion Hd.
  - assert (Hk1 : IEEE.is_nan (minStep k0 d) = false).
    { unfold minStep. destruct (IEEE.flt d k0) eqn:Ed; [|exact Hk0].
      now apply IEEE.flt_not_nan in Ed. }
    destruct (IH _ Hk1) as (Hn & Hsel & Hle & Hall).
    set (k := fold_left minStep ds (minStep k0 d)) in *.
    unfold minStep in Hsel, Hle.
    split; [exact Hn|]. destruct (IEEE.flt d k0) eqn:Ed.
    + split; [|split].
      * right. destruct Hsel as [->|[Hin Hlt]].
        -- split; [constructor|exact Ed].
        -- split; [now constructor|]. eapply IEEE.flt_trans; eauto.
      * destruct (IEEE.flt k0 k) eqn:Ek; [|reflexivity].
        rewrite (IEEE.flt_trans _ _ _ Ed Ek) in Hle. discriminate.
      * intros d' [->|Hd']%elem_of_cons; auto.
    + split; [|split].
      * destruct Hsel as [->|[Hin Hlt]]; [now left|right].
        split; [now constructor|exact Hlt].
      * exact Hle.
      * intros d' Hd'. apply elem_of_cons in Hd' as [Heq|Hd']; [subst d'|auto].
        destruct (IEEE.flt d k) eqn:Ek; [|reflexivity].
        rewrite (IEEE.flt_le_trans _ _ _ Ek Hle Hk0) in Ed. discriminate.
Qed.

(** The gate's test on the minimum is the condition on all the shared
    displacements, when these are numbers below [DBL_MAX]. *)
Lemma gate_test_iff ds :
  (forall d, d ∈ ds -> IEEE.flt d IEEE.DBL_MAX = true) ->
  let k := fold_left minStep ds IEEE.DBL_MAX in
  IEEE.fne k IEEE.DBL_MAX && IEEE.fgt k k_minKeyFrameDistance = true <->
  minDisplacementExceeds ds.
Proof.
  intros Hfin k.
  destruct (minStep_fold ds IEEE.DBL_MAX IEEE.is_nan_DBL_MAX)
    as (Hn & Hsel & Hle & Hall).
  fold k in Hn, Hsel, Hle, Hall. unfold minDisplacementExceeds. split.
  - intros [Hne Hgt]%andb_true_iff.
    destruct Hsel as [Heq|[Hin Hlt]].
    { rewrite Heq in Hne. unfold IEEE.fne in Hne.
      change (SFeqb IEEE.DBL_MAX IEEE.DBL_MAX) with true in Hne. discriminate. }
    split; [intros ->; inversion Hin|].
    intros d Hd. unfold IEEE.fgt in *.
    apply (IEEE.flt_le_trans _ k); [exact Hgt|now apply Hall|].
    now apply Hfin, IEEE.flt_not_nan in Hd.
  - intros [Hne Hgt]. destruct Hsel as [Heq|[Hin Hlt]].
    { destruct ds as [|d ds]; [congruence|].
      specialize (Hall d ltac:(constructor)). rewrite Heq in Hall.
      rewrite Hfin in Hall by constructor. discriminate. }
    apply andb_true_iff. split.
    + unfold IEEE.fne. apply IEEE.flt_not_feq in Hlt. unfold IEEE.feq in Hlt.
      now rewrite Hlt.
    + now apply Hgt.
Qed.

Lemma byCamera_Ok n fs :
  (forall f, f ∈ fs -> (cameraId f < n)%nat) ->
  exists v, byCamera n fs = Ok v /\ length v = n.
Proof.
  unfold byCamera.
  assert (G : forall v, length v = n ->
    (forall f, f ∈ fs -> (cameraId f < n)%nat) ->
    exists v', foldM (fun v f =>
                if (cameraId f <? length v)%nat
                then Ok (<[cameraId f := Some f]> v)
                else Throw std_out_of_range) fs v = Ok v' /\ length v' = n).
  { induction fs as [|f fs IH]; intros v Hv Hfs; simpl; [eauto|].
    rewrite Hv. destruct (Nat.ltb_spec (cameraId f) n) as [Hlt|Hge].
    - cbn [mbind result_bind]. apply IH.
      + now rewrite length_insert.
      + intros g Hg. apply Hfs. now constructor.
    - specialize (Hfs f ltac:(constructor)). lia. }
  intros H. apply G; [apply length_replicate|exact H].
Qed.

Lemma keyFrameDistance_Ok framePrev frameCurr :
  (forall f, Some f ∈ framePrev -> camera f <> None) ->
  (forall f, Some f ∈ frameCurr -> camera f <> None) ->
  keyFrameDistance framePrev frameCurr =
    Ok (fold_left minStep (sharedDisplacements framePrev frameCurr)
                  IEEE.DBL_MAX).
Proof.
  unfold keyFrameDistance, sharedDisplacements.
  generalize IEEE.DBL_MAX as k0.
  revert frameCurr. induction framePrev as [|p ps IH]; intros [|c cs] k0 Hp Hc;
    try reflexivity.
  simpl zip. cbn [foldM omap list_omap].
  assert (Hps : forall f, Some f ∈ ps -> camera f <> None).
  { intros f Hf. apply Hp. now constructor. }
  assert (Hcs : forall f, Some f ∈ cs -> camera f <> None).
  { intros f Hf. apply Hc. now constructor. }
  destruct p as [prev|], c as [curr|]; cbn [mbind result_bind];
    try (simpl; now apply IH).
  specialize (Hp prev ltac:(constructor)).
  specialize (Hc curr ltac:(constructor)).
  destruct (camera curr) as [pc|]; [|congruence].
  destruct (camera prev) as [pp|]; [|congruence].
  exact (IH cs (minStep k0 (displacement pc pp)) Hps Hcs).
Qed.

Lemma byCamera_elem n fs v f :
  byCamera n fs = Ok v -> Some f ∈ v -> f ∈ fs.
Proof.
  unfold byCamera.
  assert (G : forall v0 v,
    foldM (fun v f =>
             if (cameraId f <? length v)%nat
             then Ok (<[cameraId f := Some f]> v)
             else Throw std_out_of_range) fs v0 = Ok v ->
    Some f ∈ v -> Some f ∈ v0 \/ f ∈ fs).
  { induction fs as [|g fs IH]; intros v0 v'; simpl.
    - intros [= <-]. auto.
    - destruct (_ <? _)%nat; [|discriminate]. cbn [mbind result_bind].
      intros H Hin. destruct (IH _ _ H Hin) as [Hi|Hi].
      + apply list_elem_of_lookup in Hi as (j & Hj).
        apply list_lookup_insert_Some in Hj as [(_ & Heq & _)|(_ & Hj)].
        * injection Heq as <-. right. constructor.
        * left. eapply list_elem_of_lookup_2; eauto.
      + right. now constructor. }
  intros H Hin. destruct (G _ _ H Hin) as [Hr|]; [|assumption].
  apply elem_of_replicate in Hr as [? _]. discriminate.
Qed.

Lemma has_camera_filter (l : list Frame) f :
  f ∈ List.filter has_camera l -> camera f <> None.
Proof.
  intros Hf%list_elem_of_In%filter_In. destruct Hf as [_ Hf].
  unfold has_camera in Hf. destruct (camera f); congruence.
Qed.

(** C2, for [addFrameSet].  A frame set appended by [addFrameSet] has at
    least two frames, each with a camera pose: after the call every frame
    set of the list was there before or is such a set.  ([loadFrameSets]
    rebuilds the list from a graph and applies no such test.) *)
Theorem addFrameSet_discards_small s images ts pre s' :
  addFrameSet s images ts pre = Ok s' ->
  forall fs, fs ∈ m_framesets s' ->
    fs ∈ m_framesets s \/
    ((2 <= length (frames fs))%nat /\
     forall f, f ∈ frames fs -> camera f <> None).
Proof.
  unfold addFrameSet. intros H.
  destruct (negb _). { injection H as <-. simpl. auto. }
  bind_in H. destruct a as [s1 localized].
  apply localizeAll_spec in Eb as [(Hfs & _) _].
  cbn [frames] in H.
  destruct (Nat.ltb_spec (length (List.filter has_camera localized)) 2) as [Hlt|Hge].
  { injection H as <-. rewrite Hfs. auto. }
  bind_in H. destruct a as [s2 add].
  apply keyFrameGate_untouched in Eb as (Hfs2 & _).
  destruct add; simpl in H; injection H as <-.
  - intros fs Hin. rewrite <- Hfs, <- Hfs2.
    assert (Hin' : fs ∈ m_framesets s2 ++
                     [{| frames := List.filter has_camera localized;
                         timestamp := ts |}]).
    { unfold info in Hin. destruct (m_verbose _); exact Hin. }
    apply elem_of_app in Hin' as [Hin'|Hin'%list_elem_of_singleton]; [now left|].
    right. subst fs. simpl. split; [exact Hge|apply has_camera_filter].
  - rewrite Hfs2, Hfs. auto.
Qed.

(** C4, on the list of frame sets.  A candidate with at least two
    localised frames is appended when the list is empty; otherwise it is
    appended exactly when some camera is present both in the last accepted
    set and in the candidate and the least displacement of such cameras
    exceeds [k_minKeyFrameDistance], and else the list is left as it
    was.  The displacements are numbers below [DBL_MAX]. *)
Theorem addFrameSet_keyframe_gate s images ts pre s1 localized :
  length images = length (m_cameras s) ->
  localizeAll s images ts pre = Ok (s1, localized) ->
  let frameset := {| frames := List.filter has_camera localized;
                     timestamp := ts |} in
  (2 <= length (frames frameset))%nat ->
  (m_framesets s = [] ->
   exists s', addFrameSet s images ts pre = Ok s' /\
              m_framesets s' = [frameset]) /\
  (forall back framePrev frameCurr,
     last (m_framesets s) = Some back ->
     byCamera (length (m_cameras s)) (frames back) = Ok framePrev ->
     byCamera (length (m_cameras s)) (frames frameset) = Ok frameCurr ->
     (forall f, f ∈ frames back -> camera f <> None) ->
     let ds := sharedDisplacements framePrev frameCurr in
     (forall d, d ∈ ds -> IEEE.flt d IEEE.DBL_MAX = true) ->
     exists s', addFrameSet s images ts pre = Ok s' /\
       (minDisplacementExceeds ds ->
        m_framesets s' = m_framesets s ++ [frameset]) /\
       (~ minDisplacementExceeds ds -> m_framesets s' = m_framesets s)).
Proof.
  intros Hlen Hloc frameset Hge.
  pose proof (localizeAll_spec _ _ _ _ _ _ Hloc) as [(Hfs & Hcam & _) _].
  assert (Hunf : addFrameSet s images ts pre =
    ('(s2, add) ← keyFrameGate s1 frameset;
     if negb add then Ok s2 else
     let s3 := set_framesets s2 (m_framesets s2 ++ [frameset]) in
     Ok (info s3 ([str "# INFO: Added frame set ";
                   int (Z.of_nat (length (m_framesets s3))); str " [ "] ++
                  concat (map (fun f => [int (Z.of_nat (cameraId f)); str " "])
                              (frames frameset)) ++
                  [str "] ts = "; int ts])))).
  { unfold addFrameSet. rewrite Hlen, Nat.eqb_refl. cbn [negb].
    rewrite Hloc. cbn [mbind result_bind].
    fold frameset.
    destruct (Nat.ltb_spec (length (frames frameset)) 2); [lia|reflexivity]. }
  split.
  - intros Hnil. rewrite Hunf. unfold keyFrameGate. rewrite Hfs, Hnil.
    cbn [last mbind result_bind negb].
    eexists. split; [reflexivity|].
    replace (m_framesets (info _ _)) with (m_framesets s1 ++ [frameset]).
    + now rewrite Hfs, Hnil.
    + unfold info. destruct (m_verbose _); reflexivity.
  - intros back framePrev frameCurr Hlast Hprev Hcurr Hback ds Hfin.
    rewrite Hunf. unfold keyFrameGate. rewrite Hfs, Hlast, Hcam, Hprev, Hcurr.
    cbn [mbind result_bind].
    rewrite keyFrameDistance_Ok.
    2:{ intros f Hf. apply Hback. eapply byCamera_elem; eauto. }
    2:{ intros f Hf. eapply has_camera_filter.
        eapply (byCamera_elem _ (frames frameset)); eauto. }
    cbn [mbind result_bind]. fold ds.
    pose proof (gate_test_iff ds Hfin) as Hiff. cbv zeta in Hiff.
    destruct (IEEE.fne _ _ && IEEE.fgt _ _).
    + cbn [negb]. eexists. split; [reflexivity|]. split.
      * intros _. rewrite <- Hfs.
        unfold info. destruct (m_verbose _); reflexivity.
      * intros Hn. exfalso. apply Hn, Hiff. reflexivity.
    + cbn [negb]. eexists. split; [reflexivity|]. split.
      * intros Hy. apply Hiff in Hy. discriminate.
      * intros _. rewrite <- Hfs.
        unfold info. destruct (m_verbose _); reflexivity.
Qed.

End Generic.

(** *** The rig of two cameras on the small map *)

(** An equation between closed terms, checked by evaluation. *)
Ltac by_evaluation :=
  match goal with
  | |- _ = ?y => vm_cast_no_check (@eq_refl _ y)
  end.

Example addFrameSet_first :
  addFrameSet (E := Toy.externals) Toy.start [Toy.view 0; Toy.view 0] 0 false
  = Ok Toy.first /\
  map (fun fs => map cameraId (frames fs)) (m_framesets Toy.first)
  = [[0%nat; 1%nat]].
Proof. split; by_evaluation. Qed.

Example addFrameSet_third :
  addFrameSet (E := Toy.externals) Toy.first [Toy.view 2; Toy.view 2] 2 false
  = Ok Toy.third /\
  map (fun fs => map cameraId (frames fs)) (m_framesets Toy.third)
  = [[0%nat; 1%nat]; [0%nat; 1%nat]].
Proof. split; by_evaluation. Qed.

(** A wrong number of images changes nothing but the output. *)
Example addFrameSet_wrong_count :
  addFrameSet (E := Toy.externals) Toy.first [Toy.view 2] 2 false
  = Ok (print Toy.first
          [str "# WARNING: Number of images does not match camera count."]).
Proof. by_evaluation. Qed.

Lemma addFrameSet_discards_small_witness :
  addFrameSet (E := Toy.externals) Toy.first [Toy.view 2; Toy.view 2] 2 false
    = Ok Toy.third /\
  forall fs, fs ∈ m_framesets Toy.third ->
    fs ∈ m_framesets Toy.first \/
    ((2 <= length (frames fs))%nat /\
     forall f, f ∈ frames fs -> camera f <> None).
Proof.
  assert (H : addFrameSet (E := Toy.externals) Toy.first
                [Toy.view 2; Toy.view 2] 2 false = Ok Toy.third)
    by by_evaluation.
  split; [exact H|].
  exact (addFrameSet_discards_small (E := Toy.externals) Toy.first
           [Toy.view 2; Toy.view 2] 2 false Toy.third H).
Defined.

(** C2, counterexample.  [loadFrameSets] on a graph in which the two
    cameras have no timestamp in common fills the list with two frame sets
    of one frame each. *)
Lemma loadFrameSets_keeps_single_frames :
  exists s,
    loadFrameSets (E := Toy.externals) Toy.start "sets.sg" Toy.stored
      = Ok (Some s) /\
    m_framesets s = [ {| frames := [Toy.frameAt 0 5]; timestamp := 5 |};
                      {| frames := [Toy.frameAt 1 7]; timestamp := 7 |} ] /\
    exists fs, fs ∈ m_framesets s /\ (length (frames fs) < 2)%nat.
Proof.
  exists (set_framesets Toy.start
            [ {| frames := [Toy.frameAt 0 5]; timestamp := 5 |};
              {| frames := [Toy.frameAt 1 7]; timestamp := 7 |} ]).
  split; [by_evaluation|]. split; [reflexivity|].
  eexists. split; [apply list_elem_of_here|]. simpl. lia.
Qed.

(** C4, counterexample.  The rig has not moved between the first frame
    set and the view 1: both cameras are localised, the least displacement
    is 0 and the candidate is dropped; but localising it has already put
    the map point at address 26 into the scene-point map, so the state is
    not the one before the call. *)
Lemma addFrameSet_dropped_set_changes_state :
  addFrameSet (E := Toy.externals) Toy.first [Toy.view 1; Toy.view 1] 1 false
    = Ok Toy.second /\
  m_framesets Toy.second = m_framesets Toy.first /\
  m_feature3DMap Toy.first !! 26%positive = None /\
  m_feature3DMap Toy.second !! 26%positive = Some 56%positive /\
  Toy.second <> Toy.first.
Proof.
  split; [by_evaluation|]. split; [by_evaluation|].
  split; [by_evaluation|]. split; [by_evaluation|].
  intros Heq.
  apply (f_equal (fun s => m_feature3DMap s !! 26%positive)) in Heq.
  vm_compute in Heq. discriminate.
Qed.

(** The frame set accepted first. *)
Definition firstSet : FrameSet (E := Toy.externals) :=
  Eval vm_compute in
    match m_framesets Toy.first with
    | fs :: _ => fs
    | [] => {| frames := []; timestamp := 0 |}
    end.

Lemma addFrameSet_keyframe_gate_witness :
  exists s',
    addFrameSet (E := Toy.externals) Toy.first [Toy.view 2; Toy.view 2] 2 false
      = Ok s' /\
    m_framesets s' =
      m_framesets Toy.first ++
      [ {| frames := List.filter has_camera Toy.localized2.2;
           timestamp := 2 |} ].
Proof.
  destruct (addFrameSet_keyframe_gate (E := Toy.externals) Toy.first
              [Toy.view 2; Toy.view 2] 2 false
              Toy.localized2.1 Toy.localized2.2)
    as [_ Hnext].
  - reflexivity.
  - by_evaluation.
  - vm_compute. lia.
  - destruct (Hnext firstSet
                (map Some (frames firstSet))
                (map Some (List.filter has_camera Toy.localized2.2)))
      as (s' & Hs' & Hyes & _).
    + by_evaluation.
    + by_evaluation.
    + by_evaluation.
    + intros f Hf.
      repeat (apply elem_of_cons in Hf as [->|Hf]; [discriminate|]).
      inversion Hf.
    + intros d Hd. vm_compute in Hd.
      repeat (apply elem_of_cons in Hd as [->|Hd]; [reflexivity|]).
      inversion Hd.
    + exists s'. split; [exact Hs'|]. apply Hyes. split.
      * vm_compute. discriminate.
      * intros d Hd. vm_compute in Hd.
        repeat (apply elem_of_cons in Hd as [->|Hd]; [reflexivity|]).
        inversion Hd.
Defined.

End FrameSetFacts.

(** ** The extrinsics initialisation *)

Module InitialisationFacts.
Import FrameSetFacts.

Section Generic.
Context {E : Externals}.

Lemma mapM_ext {A B} (f g : A -> result B) l :
  (forall a, a ∈ l -> f a = g a) -> mapM f l = mapM g l.
Proof.
  induction l as [|a l IH]; intros H; simpl; [reflexivity|].
  rewrite (H a) by constructor. rewrite IH; [reflexivity|].
  intros b Hb. apply H. now constructor.
Qed.

Lemma mapM_map {A B C} (f : B -> result C) (g : A -> B) l :
  mapM f (map g l) = mapM (fun a => f (g a)) l.
Proof.
  induction l as [|a l IH]; simpl; [reflexivity|]. now rewrite IH.
Qed.

Lemma mapM_Forall2 {A B} (f : A -> result B) l bs :
  mapM f l = Ok bs -> Forall2 (fun a b => f a = Ok b) l bs.
Proof.
  revert bs. induction l as [|a l IH]; intros bs; simpl.
  - intros [= <-]. constructor.
  - destruct (f a) as [b|] eqn:Ef; [|discriminate]. cbn [mbind result_bind].
    destruct (mapM f l) as [bs'|]; [|discriminate]. cbn [mbind result_bind].
    intros [= <-]. constructor; auto.
Qed.

Lemma mapM_total {A B} (f : A -> result B) l :
  (forall a, a ∈ l -> exists b, f a = Ok b) -> exists bs, mapM f l = Ok bs.
Proof.
  induction l as [|a l IH]; intros H; simpl; [eauto|].
  destruct (H a) as [b ->]; [constructor|]. cbn [mbind result_bind].
  destruct IH as [bs ->]; [|cbn [mbind result_bind]; eauto].
  intros c Hc. apply H. now constructor.
Qed.

Lemma foldM_total {A B} (P : A -> Prop) (f : A -> B -> result A) l a :
  P a ->
  (forall a b, P a -> b ∈ l -> exists a', f a b = Ok a' /\ P a') ->
  exists r, foldM f l a = Ok r /\ P r.
Proof.
  revert a. induction l as [|b l IH]; intros a Ha Hf; simpl; [eauto|].
  destruct (Hf a b Ha) as (a' & -> & Ha'); [constructor|].
  cbn [mbind result_bind]. apply IH; [exact Ha'|].
  intros a0 b0 H0 Hb0. apply Hf; [exact H0|now constructor].
Qed.

(** A frame set without its odometry records: what the trial of a
    hypothesis reads. *)
Definition withoutOdometry (fs : FrameSet) : FrameSet :=
  {| frames := map (fun f => Frame_set_odometry f None) (frames fs);
     timestamp := timestamp fs |}.

Lemma foldM_map {A B C} (f : A -> C -> result A) (g : B -> C) l a :
  foldM f (map g l) a = foldM (fun a b => f a (g b)) l a.
Proof.
  revert a. induction l as [|b l IH]; intros a; simpl; [reflexivity|].
  destruct (f a (g b)); simpl; auto.
Qed.

Lemma foldM_ext {A B} (f g : A -> B -> result A) l a :
  (forall a b, f a b = g a b) -> foldM f l a = foldM g l a.
Proof.
  intros H. revert a. induction l as [|b l IH]; intros a; simpl; [reflexivity|].
  rewrite H. destruct (g a b); simpl; auto.
Qed.

Lemma estimateOdometry_without T fs :
  estimateOdometry T (withoutOdometry fs) = estimateOdometry T fs.
Proof.
  unfold estimateOdometry, withoutOdometry. cbn [frames].
  rewrite foldM_map, length_map.
  erewrite foldM_ext; [reflexivity|]. now intros [pos att] frame.
Qed.

Lemma trialOdometry_without T fs :
  trialOdometry T (withoutOdometry fs) = trialOdometry T fs.
Proof.
  unfold trialOdometry. rewrite estimateOdometry_without.
  destruct (estimateOdometry T fs) as [[pos att]|]; [|reflexivity].
  cbn [mbind result_bind]. unfold withoutOdometry. cbn [frames timestamp].
  destruct (frames fs) as [|f0 fr]; [reflexivity|].
  cbn [map at_ lookup list_lookup mbind result_bind Frame_set_odometry camera].
  destruct (camera f0); [|reflexivity]. cbn [deref_ptr mbind result_bind].
  do 2 f_equal. f_equal. rewrite map_map. reflexivity.
Qed.

Lemma cameraPoses_without n fs :
  cameraPoses n (withoutOdometry fs) = cameraPoses n fs.
Proof.
  unfold cameraPoses, withoutOdometry. cbn [frames].
  rewrite foldM_map. now apply foldM_ext.
Qed.

Lemma hypothesis_without n fs :
  hypothesis n (withoutOdometry fs) = hypothesis n fs.
Proof. unfold hypothesis. now rewrite cameraPoses_without. Qed.

Lemma mapM_trialOdometry_without T l :
  mapM (trialOdometry T) (map withoutOdometry l) = mapM (trialOdometry T) l.
Proof.
  rewrite mapM_map. apply mapM_ext. intros fs _. apply trialOdometry_without.
Qed.

(** The poses written by a loop of [setGlobalCameraPose]. *)
Definition writeAll (js : list nat) (Hs : list Matrix4d) (e : list Matrix4d)
    : list Matrix4d :=
  fold_left (fun e jH => <[jH.1 := jH.2]> e) (zip js Hs) e.

Lemma set_extrinsics_id s : set_extrinsics s (m_extrinsics s) = s.
Proof. now destruct s. Qed.

Lemma setPoses_foldM (g : nat -> result Matrix4d) L s :
  foldM (fun s j => H ← g j; Ok (setGlobalCameraPose s j H)) L s
  = (Hs ← mapM g L;
     Ok (set_extrinsics s (writeAll L Hs (m_extrinsics s)))).
Proof.
  revert s. induction L as [|j L IH]; intros s; simpl.
  - now rewrite set_extrinsics_id.
  - destruct (g j) as [H|]; [|reflexivity]. cbn [mbind result_bind].
    rewrite IH. destruct (mapM g L) as [Hs|]; reflexivity.
Qed.

Lemma writeAll_seq k Hs e :
  (k + length Hs <= length e)%nat ->
  writeAll (seq k (length Hs)) Hs e
  = take k e ++ Hs ++ drop (k + length Hs) e.
Proof.
  unfold writeAll. revert k e. induction Hs as [|H Hs IH]; intros k e Hle.
  - simpl. now rewrite Nat.add_0_r, take_drop.
  - simpl in *. rewrite IH by (rewrite length_insert; lia).
    rewrite (take_S_r _ _ H) by (apply list_lookup_insert_eq; lia).
    rewrite take_insert_ge by lia.
    rewrite drop_insert_lt by lia.
    rewrite <- app_assoc. simpl.
    now replace (k + S (length Hs))%nat with (S (k + length Hs)) by lia.
Qed.

Lemma reprojectionError_ext s s' :
  m_cameras s' = m_cameras s -> heap s' = heap s ->
  m_extrinsics s' = m_extrinsics s -> m_framesets s' = m_framesets s ->
  reprojectionError s' = reprojectionError s.
Proof.
  intros Hc Hh He Hf.
  unfold reprojectionError, allFrames, getGlobalCameraPose,
    frameReprojectionError_ref, observed.
  now rewrite Hc, Hh, He, Hf.
Qed.

Lemma tryHypothesis_unfold s fs :
  tryHypothesis s fs =
  (let n := length (m_cameras s) in
   poses ← cameraPoses n fs;
   T ← hypothesis n fs;
   Hs ← mapM (H_cam_ref poses) (seq 1 (n - 1));
   framesets ← mapM (trialOdometry T) (m_framesets s);
   let s2 := set_framesets
               (set_extrinsics s (writeAll (seq 1 (n - 1)) Hs (m_extrinsics s)))
               framesets in
   stats ← reprojectionError s2;
   Ok (s2, T, avgError stats)).
Proof.
  unfold tryHypothesis. cbv zeta.
  destruct (cameraPoses _ fs) as [poses|]; [|reflexivity].
  cbn [mbind result_bind].
  destruct (hypothesis _ fs) as [T|]; [|reflexivity].
  cbn [mbind result_bind].
  rewrite setPoses_foldM.
  destruct (mapM (H_cam_ref poses) _) as [Hs|]; reflexivity.
Qed.

Lemma mapM_length {A B} (f : A -> result B) l bs :
  mapM f l = Ok bs -> length bs = length l.
Proof. intros H%mapM_Forall2. symmetry. eapply Forall2_length; eauto. Qed.

(** The states the loop of [run] goes through agree with the state [s1]
    at its entry on all that a trial reads. *)
Definition agrees (s1 s : Calibration) : Prop :=
  m_cameras s = m_cameras s1 /\ heap s = heap s1 /\
  length (m_extrinsics s) = length (m_extrinsics s1) /\
  m_extrinsics s !! 0%nat = m_extrinsics s1 !! 0%nat /\
  map withoutOdometry (m_framesets s) = map withoutOdometry (m_framesets s1).

Lemma agrees_refl s : agrees s s.
Proof. repeat split. Qed.

Lemma agrees_trans s1 s2 s3 : agrees s1 s2 -> agrees s2 s3 -> agrees s1 s3.
Proof. unfold agrees. intuition congruence. Qed.

Lemma agrees_sym s1 s2 : agrees s1 s2 -> agrees s2 s1.
Proof. unfold agrees. intuition congruence. Qed.

Lemma validFrameSet_without n fs fs' :
  withoutOdometry fs = withoutOdometry fs' ->
  validFrameSet n fs' -> validFrameSet n fs.
Proof.
  intros Hw [Hne Hall].
  assert (Hm : map (fun f => Frame_set_odometry f None) (frames fs)
             = map (fun f => Frame_set_odometry f None) (frames fs')).
  { now injection Hw. }
  split.
  - intros Hnil. rewrite Hnil in Hm. symmetry in Hm.
    apply map_eq_nil in Hm. contradiction.
  - intros f Hf.
    assert (Hg : Frame_set_odometry f None
                 ∈ map (fun f => Frame_set_odometry f None) (frames fs')).
    { rewrite <- Hm. apply list_elem_of_fmap. eauto. }
    apply list_elem_of_fmap in Hg as (f' & Heq & Hf').
    destruct (Hall f' Hf') as [Hid Hcam].
    assert (cameraId f = cameraId f') by (now injection Heq).
    assert (camera f = camera f') by (now injection Heq).
    split; congruence.
Qed.

Lemma without_lookup l l1 i fs :
  map withoutOdometry l = map withoutOdometry l1 ->
  l !! i = Some fs ->
  exists fs1, l1 !! i = Some fs1 /\ withoutOdometry fs = withoutOdometry fs1.
Proof.
  intros Hm Hi.
  assert (H : map withoutOdometry l1 !! i = Some (withoutOdometry fs)).
  { rewrite <- Hm, list_lookup_fmap, Hi. reflexivity. }
  rewrite list_lookup_fmap in H.
  destruct (l1 !! i) as [fs1|]; [|discriminate].
  exists fs1. split; [reflexivity|]. simpl in H. congruence.
Qed.

Lemma without_length fs fs' :
  withoutOdometry fs = withoutOdometry fs' ->
  length (frames fs) = length (frames fs').
Proof.
  intros H. apply (f_equal (fun x => length (frames x))) in H.
  unfold withoutOdometry in H. cbn [frames] in H.
  now rewrite !length_map in H.
Qed.

Lemma agrees_valid s1 s fs :
  (forall fs, fs ∈ m_framesets s1 ->
              validFrameSet (length (m_cameras s1)) fs) ->
  agrees s1 s -> fs ∈ m_framesets s ->
  validFrameSet (length (m_cameras s1)) fs.
Proof.
  intros Hv (_ & _ & _ & _ & Hm) Hin.
  apply list_elem_of_lookup in Hin as (i & Hi).
  destruct (without_lookup _ _ _ _ Hm Hi) as (fs1 & H1 & Hw).
  eapply validFrameSet_without; [exact Hw|].
  apply Hv. eapply list_elem_of_lookup_2; eauto.
Qed.

(** *** The trial of a hypothesis does not throw *)

Lemma at_lt {A} (l : list A) i :
  (i < length l)%nat -> exists a, at_ l i = Ok a.
Proof.
  intros H. unfold at_. destruct (l !! i) eqn:El; [eauto|].
  apply lookup_ge_None in El. lia.
Qed.

Lemma mapM_fmap {A B C} (f : A -> result B) (g : B -> C) l :
  mapM (fun a => b ← f a; Ok (g b)) l = (bs ← mapM f l; Ok (map g bs)).
Proof.
  induction l as [|a l IH]; simpl; [reflexivity|].
  destruct (f a) as [b|]; [|reflexivity]. cbn [mbind result_bind].
  rewrite IH. destruct (mapM f l); reflexivity.
Qed.

Lemma cameraPoses_total n fs :
  validFrameSet n fs ->
  exists poses, cameraPoses n fs = Ok poses /\ length poses = n.
Proof.
  intros [_ Hall]. unfold cameraPoses.
  apply (foldM_total (fun poses => length poses = n)).
  - apply length_replicate.
  - intros poses f Hlen Hf. destruct (Hall f Hf) as [Hid Hcam].
    rewrite Hlen. destruct (Nat.ltb_spec (cameraId f) n); [|lia].
    destruct (camera f) as [pose|]; [|congruence].
    cbn [deref_ptr mbind result_bind]. eexists. split; [reflexivity|].
    now rewrite length_insert.
Qed.

Lemma H_cam_ref_total poses j :
  (j < length poses)%nat -> exists H, H_cam_ref poses j = Ok H.
Proof.
  intros Hj. unfold H_cam_ref.
  destruct (at_lt poses 0) as [p0 ->]; [lia|].
  destruct (at_lt poses j) as [pj ->]; [lia|].
  cbn [mbind result_bind]. eauto.
Qed.

Lemma hypothesis_total n fs :
  (1 <= n)%nat -> validFrameSet n fs ->
  exists poses Hs,
    cameraPoses n fs = Ok poses /\ length poses = n /\
    mapM (H_cam_ref poses) (seq 1 (n - 1)) = Ok Hs /\
    length Hs = (n - 1)%nat /\
    hypothesis n fs =
      Ok ({| timeStamp := 0; rotation := Quaterniond_Identity;
             translation := Vector3d_Zero |} :: map Pose_of_matrix Hs).
Proof.
  intros Hn Hv. destruct (cameraPoses_total n fs Hv) as (poses & Hp & Hlen).
  destruct (mapM_total (H_cam_ref poses) (seq 1 (n - 1))) as [Hs HHs].
  { intros j Hj%elem_of_seq. apply H_cam_ref_total. lia. }
  exists poses, Hs. repeat split; auto.
  - apply mapM_length in HHs. now rewrite length_seq in HHs.
  - unfold hypothesis. rewrite Hp. cbn [mbind result_bind].
    destruct (at_lt (replicate n Pose_default) 0) as [p ->].
    { rewrite length_replicate. lia. }
    cbn [mbind result_bind]. rewrite mapM_fmap, HHs. reflexivity.
Qed.

Lemma estimateOdometry_total T fs n :
  validFrameSet n fs -> length T = n ->
  exists r, estimateOdometry T fs = Ok r.
Proof.
  intros [_ Hall] Hlen. unfold estimateOdometry.
  match goal with
  | |- context [foldM ?f ?l ?a] =>
      destruct (foldM_total (fun _ => True) f l a I) as ([pos att] & Hr & _)
  end.
  - intros [pos att] f _ Hf. destruct (Hall f Hf) as [Hid Hcam].
    destruct (camera f) as [pose|]; [|congruence].
    cbn [deref_ptr mbind result_bind].
    destruct (at_lt T (cameraId f)) as [T0 ->]; [lia|].
    cbn [mbind result_bind]. eauto.
  - rewrite Hr. cbn [mbind result_bind]. eauto.
Qed.

Lemma trialOdometry_total T fs n :
  validFrameSet n fs -> length T = n ->
  exists fs', trialOdometry T fs = Ok fs' /\
    withoutOdometry fs' = withoutOdometry fs /\
    (forall f, f ∈ frames fs' -> odometry f <> None).
Proof.
  intros Hv Hlen. unfold trialOdometry.
  destruct (estimateOdometry_total T fs n Hv Hlen) as ([pos att] & ->).
  cbn [mbind result_bind]. destruct Hv as [Hne Hall].
  destruct (frames fs) as [|f0 fr] eqn:Efr; [congruence|].
  cbn [at_ lookup list_lookup mbind result_bind].
  destruct (Hall f0 ltac:(constructor)) as [_ Hcam].
  destruct (camera f0) as [pose0|]; [|congruence].
  cbn [deref_ptr mbind result_bind].
  eexists. split; [reflexivity|]. split.
  - unfold withoutOdometry. cbn [frames timestamp]. rewrite Efr.
    f_equal. rewrite map_map. reflexivity.
  - cbn [frames]. intros f Hf.
    apply list_elem_of_fmap in Hf as (f' & -> & _). discriminate.
Qed.

Lemma reprojectionError_total s :
  length (m_extrinsics s) = length (m_cameras s) ->
  (forall fs f, fs ∈ m_framesets s -> f ∈ frames fs ->
     (cameraId f < length (m_cameras s))%nat /\ odometry f <> None) ->
  exists st, reprojectionError s = Ok st.
Proof.
  intros Hlen Hall. unfold reprojectionError.
  match goal with
  | |- context [mapM ?f ?l] => destruct (mapM_total f l) as [per ->]
  end.
  - intros f Hf. unfold allFrames in Hf.
    apply list_elem_of_In, in_concat in Hf as (fr & Hfr & Hf).
    apply list_elem_of_In in Hf.
    apply list_elem_of_In, list_elem_of_fmap in Hfr as (fs & -> & Hfs).
    destruct (Hall fs f Hfs Hf) as [Hid Hodo].
    unfold getGlobalCameraPose.
    destruct (at_lt (m_extrinsics s) (cameraId f)) as [H ->]; [lia|].
    destruct (at_lt (m_cameras s) (cameraId f)) as [cam ->]; [lia|].
    cbn [mbind result_bind]. unfold frameReprojectionError_ref.
    destruct (odometry f) as [odo|]; [|congruence].
    match goal with
    | |- context [mapM ?f ?l] => destruct (mapM_total f l) as [errors ->]
    end.
    + intros [f0 P] _. cbn [deref_ptr mbind result_bind]. eauto.
    + cbn [mbind result_bind]. eauto.
  - cbn [mbind result_bind]. destruct (_ =? _)%nat; eauto.
Qed.

Lemma trialOdometry_spec T fs fs' :
  trialOdometry T fs = Ok fs' ->
  withoutOdometry fs' = withoutOdometry fs /\
  (forall f, f ∈ frames fs' -> odometry f <> None).
Proof.
  unfold trialOdometry. intros H.
  bind_in H. destruct a as [pos att]. bind_in H. bind_in H.
  injection H as <-. split.
  - unfold withoutOdometry. cbn [frames timestamp].
    f_equal. rewrite map_map. reflexivity.
  - cbn [frames]. intros f Hf.
    apply list_elem_of_fmap in Hf as (f' & -> & _). discriminate.
Qed.

Lemma writeAll_length js Hs e : length (writeAll js Hs e) = length e.
Proof.
  unfold writeAll. generalize (zip js Hs) as l. intros l. revert e.
  induction l as [|[j H] l IH]; intros e; simpl; [reflexivity|].
  now rewrite IH, length_insert.
Qed.

Lemma writeAll_lookup_other js Hs e j0 :
  j0 ∉ js -> writeAll js Hs e !! j0 = e !! j0.
Proof.
  unfold writeAll. revert Hs e.
  induction js as [|j js IH]; intros Hs e Hn; [reflexivity|].
  destruct Hs as [|H Hs]; [reflexivity|]. simpl.
  rewrite IH by (intros Hin; apply Hn; now constructor).
  apply list_lookup_insert_ne. intros ->. apply Hn. constructor.
Qed.

Lemma writeAll_agree Hs e e' :
  length e = S (length Hs) -> length e' = S (length Hs) ->
  e !! 0%nat = e' !! 0%nat ->
  writeAll (seq 1 (length Hs)) Hs e = writeAll (seq 1 (length Hs)) Hs e'.
Proof.
  intros Hl Hl' H0. rewrite !writeAll_seq by lia.
  rewrite !drop_ge by lia.
  destruct e as [|x e], e' as [|x' e']; simpl in *; try discriminate.
  congruence.
Qed.

Section Loop.

(** The state at the entry of the loop: camera 0 is at the identity. *)
Variable s1 : Calibration.
Let n := length (m_cameras s1).
Hypothesis cameras_s1 : (1 <= n)%nat.
Hypothesis extrinsics_s1 : length (m_extrinsics s1) = n.
Hypothesis framesets_s1 :
  forall fs, fs ∈ m_framesets s1 -> validFrameSet n fs.

Lemma tryHypothesis_total s fs :
  agrees s1 s -> validFrameSet n fs ->
  exists s2 T e,
    tryHypothesis s fs = Ok (s2, T, e) /\
    hypothesis n fs = Ok T /\ length T = n /\ agrees s1 s2 /\
    (forall fs' f, fs' ∈ m_framesets s2 -> f ∈ frames fs' ->
                   odometry f <> None).
Proof.
  intros Hag Hv. pose proof Hag as (Hc & Hh & Hl & H0 & Hm).
  rewrite tryHypothesis_unfold. cbv zeta. rewrite Hc. fold n.
  destruct (hypothesis_total n fs cameras_s1 Hv)
    as (poses & Hs & Hp & Hpl & HHs & HsL & Hhyp).
  rewrite Hp. cbn [mbind result_bind]. rewrite Hhyp. cbn [mbind result_bind].
  rewrite HHs. cbn [mbind result_bind].
  set (T := _ :: map Pose_of_matrix Hs).
  assert (HT : length T = n).
  { subst T. simpl. rewrite length_map. lia. }
  destruct (mapM_total (trialOdometry T) (m_framesets s)) as [F HF].
  { intros a Ha.
    destruct (trialOdometry_total T a n) as (b & Hb & _); eauto.
    eapply agrees_valid; eauto. }
  rewrite HF. cbn [mbind result_bind].
  pose proof (mapM_Forall2 _ _ _ HF) as HF2.
  set (s2 := set_framesets (set_extrinsics s _) F).
  assert (Hodo : forall fs' f, fs' ∈ F -> f ∈ frames fs' ->
            (cameraId f < n)%nat /\ odometry f <> None).
  { intros fs' f Hfs' Hf.
    apply list_elem_of_lookup in Hfs' as (i & Hi).
    destruct (Forall2_lookup_r _ _ _ _ _ HF2 Hi) as (a & Ha & Hab).
    apply trialOdometry_spec in Hab as [Hw Hsome]. split; [|now apply Hsome].
    eapply validFrameSet_without; [exact Hw| |exact Hf].
    eapply agrees_valid; eauto. eapply list_elem_of_lookup_2; eauto. }
  destruct (reprojectionError_total s2) as [st Hst].
  { subst s2. cbn [m_extrinsics m_cameras set_framesets set_extrinsics].
    rewrite writeAll_length, Hl, Hc. exact extrinsics_s1. }
  { subst s2. cbn [m_framesets m_cameras set_framesets set_extrinsics].
    rewrite Hc. exact Hodo. }
  rewrite Hst. cbn [mbind result_bind].
  eexists _, _, _. split; [reflexivity|]. repeat split; auto.
  - subst s2. cbn. rewrite writeAll_length. exact Hl.
  - subst s2. cbn. rewrite writeAll_lookup_other; [exact H0|].
    intros Hin%elem_of_seq. lia.
  - subst s2. cbn [m_framesets set_framesets]. rewrite <- Hm.
    clear -HF2. induction HF2 as [|a b l l' Hab _ IH]; [reflexivity|].
    simpl. rewrite IH. f_equal. now apply trialOdometry_spec in Hab as [-> _].
  - intros fs' f Hfs' Hf. subst s2. cbn in Hfs'. now apply (Hodo fs' f).
Qed.

Lemma tryHypothesis_agree s s' fs fs' s2 T e :
  agrees s1 s -> agrees s1 s' ->
  withoutOdometry fs' = withoutOdometry fs ->
  tryHypothesis s fs = Ok (s2, T, e) ->
  exists s2', tryHypothesis s' fs' = Ok (s2', T, e).
Proof.
  intros (Hc & Hh & Hl & H0 & Hm) (Hc' & Hh' & Hl' & H0' & Hm') Hw.
  rewrite !tryHypothesis_unfold. cbv zeta. rewrite Hc, Hc'. fold n.
  rewrite <- (cameraPoses_without n fs), <- (cameraPoses_without n fs').
  rewrite <- (hypothesis_without n fs), <- (hypothesis_without n fs').
  rewrite Hw. intros H.
  bind_in H; cbn [mbind result_bind]. rename a into poses.
  bind_in H; cbn [mbind result_bind]. rename a into T0.
  bind_in H; cbn [mbind result_bind]. rename a into Hs.
  bind_in H. rename a into F.
  rewrite <- (mapM_trialOdometry_without _ (m_framesets s')), Hm', <- Hm,
    mapM_trialOdometry_without, Eb2.
  cbn [mbind result_bind].
  assert (HsL : length Hs = (n - 1)%nat).
  { apply mapM_length in Eb1. now rewrite length_seq in Eb1. }
  assert (Hext : writeAll (seq 1 (n - 1)) Hs (m_extrinsics s')
               = writeAll (seq 1 (n - 1)) Hs (m_extrinsics s)).
  { rewrite <- HsL. apply writeAll_agree; try lia. congruence. }
  match type of H with
  | mbind _ (reprojectionError ?sa) = _ =>
      match goal with
      | |- context [reprojectionError ?sb] =>
          rewrite (reprojectionError_ext sa sb)
      end
  end; cbn [m_cameras heap m_extrinsics m_framesets set_framesets
            set_extrinsics]; try congruence.
  bind_in H. injection H as <- <- <-. eauto.
Qed.

(** What the loop has established before it looks at frame set [k]:
    either no frame set with enough frames among the first [k] has an
    error below [DBL_MAX], or the minimum and the hypothesis are those of one of them
    and none of them has a lower error. *)
Definition selected (k : nat) (st : Calibration * IEEE.double * list Pose)
    : Prop :=
  agrees s1 st.1.1 /\
  ((st.1.2 = IEEE.DBL_MAX /\ st.2 = [] /\
    forall j fs s2 T e, (j < k)%nat -> m_framesets s1 !! j = Some fs ->
      enoughFrames s1 fs -> tryHypothesis s1 fs = Ok (s2, T, e) ->
      IEEE.flt e IEEE.DBL_MAX = false)
   \/
   (exists j fs s2, (j < k)%nat /\ m_framesets s1 !! j = Some fs /\
      enoughFrames s1 fs /\ tryHypothesis s1 fs = Ok (s2, st.2, st.1.2) /\
      IEEE.flt st.1.2 IEEE.DBL_MAX = true /\
      (forall fs' f, fs' ∈ m_framesets st.1.1 -> f ∈ frames fs' ->
                     odometry f <> None) /\
      forall j' fs' s2' T' e', (j' < k)%nat ->
        m_framesets s1 !! j' = Some fs' -> enoughFrames s1 fs' ->
        tryHypothesis s1 fs' = Ok (s2', T', e') ->
        IEEE.flt e' st.1.2 = false)).

Lemma initStep_selected k st :
  (k < length (m_framesets s1))%nat -> selected k st ->
  exists st', initStep st k = Ok st' /\ selected (S k) st'.
Proof.
  destruct st as [[s min] best]. intros Hk [Hag Hsel]. cbn [fst snd] in *.
  pose proof Hag as (Hc & Hh & Hl & H0 & Hm).
  assert (HN : length (m_framesets s) = length (m_framesets s1)).
  { apply (f_equal length) in Hm. now rewrite !length_map in Hm. }
  unfold initStep.
  destruct (at_lt (m_framesets s) k) as [fsk Hfsk]; [lia|].
  rewrite Hfsk. cbn [mbind result_bind].
  assert (Hlk : m_framesets s !! k = Some fsk).
  { unfold at_ in Hfsk. destruct (_ !! k); congruence. }
  destruct (without_lookup _ _ _ _ Hm Hlk) as (fs1 & Hfs1 & Hw).
  rewrite (without_length _ _ Hw), Hc. fold n.
  assert (Hsame : forall fs' s2' T' e' s2 T e,
            m_framesets s1 !! k = Some fs' ->
            tryHypothesis s1 fs' = Ok (s2', T', e') ->
            tryHypothesis s1 fs1 = Ok (s2, T, e) -> e' = e).
  { intros fs' s2' T' e' s2 T e Hfs' Ha Hb.
    rewrite Hfs1 in Hfs'. injection Hfs' as <-. congruence. }
  destruct (Nat.ltb_spec (length (frames fs1)) n) as [Hlt|Hge].
  - (* The frame set is not complete: it is skipped. *)
    eexists. split; [reflexivity|]. split; [exact Hag|]. cbn [fst snd].
    assert (Hnot : forall fs', m_framesets s1 !! k = Some fs' ->
                               ~ enoughFrames s1 fs').
    { intros fs' Hfs'. rewrite Hfs1 in Hfs'. injection Hfs' as <-.
      unfold enoughFrames. fold n. lia. }
    destruct Hsel as [(Hmin & Hbest & Hall)
                     |(j & fs & s2 & Hj & Hfs & Hcomp & Htry & HltM & Hodo & Hall)].
    + left. split; [exact Hmin|]. split; [exact Hbest|].
      intros j fs s2 T e Hj Hfs Hcomp.
      destruct (Nat.eq_dec j k) as [->|Hne].
      * now destruct (Hnot fs Hfs).
      * apply (Hall j fs s2 T e); auto. lia.
    + right. exists j, fs, s2.
      split; [lia|]. do 5 (split; [assumption|]).
      intros j' fs' s2' T' e' Hj' Hfs' Hcomp'.
      destruct (Nat.eq_dec j' k) as [->|Hne].
      * now destruct (Hnot fs' Hfs').
      * apply (Hall j' fs' s2' T' e'); auto. lia.
  - (* The frame set is complete: its hypothesis is tried. *)
    destruct (tryHypothesis_total s fsk Hag)
      as (s2 & T & e & Htry & Hhyp & HT & Hag2 & Hodo2).
    { eapply agrees_valid; [exact framesets_s1|exact Hag|].
      eapply list_elem_of_lookup_2; eauto. }
    rewrite Htry. cbn [mbind result_bind].
    destruct (tryHypothesis_agree s s1 fsk fs1 s2 T e Hag (agrees_refl s1))
      as [s2' Htry1]; [now symmetry|exact Htry|].
    assert (Hcomp1 : enoughFrames s1 fs1) by (unfold enoughFrames; fold n; lia).
    destruct (IEEE.flt e min) eqn:Hlt.
    + eexists. split; [reflexivity|]. split; [exact Hag2|]. cbn [fst snd].
      right. exists k, fs1, s2'.
      assert (HeM : IEEE.flt e IEEE.DBL_MAX = true).
      { destruct Hsel as [(Hmin & _)
                         |(j & fs & s3 & _ & _ & _ & _ & HltM & _)].
        - now rewrite <- Hmin.
        - eapply IEEE.flt_trans; eauto. }
      split; [lia|]. do 5 (split; [assumption|]).
      intros j' fs' s2'' T' e' Hj' Hfs' Hcomp' Htry'.
      destruct (Nat.eq_dec j' k) as [->|Hne].
      * rewrite (Hsame _ _ _ _ _ _ _ Hfs' Htry' Htry1). apply IEEE.flt_irrefl.
      * destruct (IEEE.flt e' e) eqn:Hee; [exfalso|reflexivity].
        pose proof (IEEE.flt_trans _ _ _ Hee Hlt) as Hem.
        destruct Hsel as [(Hmin & _ & Hall)
                         |(j & fs & s3 & _ & _ & _ & _ & _ & _ & Hall)].
        -- rewrite Hmin in Hem.
           rewrite (Hall j' fs' s2'' T' e') in Hem; auto; [discriminate|lia].
        -- rewrite (Hall j' fs' s2'' T' e') in Hem; auto; [discriminate|lia].
    + eexists. split; [reflexivity|]. split; [exact Hag2|]. cbn [fst snd].
      destruct Hsel as [(Hmin & Hbest & Hall)
                       |(j & fs & s3 & Hj & Hfs & Hcomp & Htry3 & HltM & Hodo & Hall)].
      * left. split; [exact Hmin|]. split; [exact Hbest|].
        intros j fs s3 T' e' Hj Hfs Hcomp Htry'.
        destruct (Nat.eq_dec j k) as [->|Hne].
        -- rewrite (Hsame _ _ _ _ _ _ _ Hfs Htry' Htry1). now rewrite <- Hmin.
        -- apply (Hall j fs s3 T' e'); auto. lia.
      * right. exists j, fs, s3.
        split; [lia|]. do 4 (split; [assumption|]). split; [exact Hodo2|].
        intros j' fs' s2'' T' e' Hj' Hfs' Hcomp' Htry'.
        destruct (Nat.eq_dec j' k) as [->|Hne].
        -- now rewrite (Hsame _ _ _ _ _ _ _ Hfs' Htry' Htry1).
        -- apply (Hall j' fs' s2'' T' e'); auto. lia.
Qed.

Lemma foldM_seq_total {A} (P : nat -> A -> Prop) (f : A -> nat -> result A)
    N m a0 st :
  (a0 + m <= N)%nat -> P a0 st ->
  (forall k st, (k < N)%nat -> P k st ->
                exists st', f st k = Ok st' /\ P (S k) st') ->
  exists st', foldM f (seq a0 m) st = Ok st' /\ P (a0 + m)%nat st'.
Proof.
  intros Hle HP Hf. revert a0 st Hle HP.
  induction m as [|m IH]; intros a0 st Hle HP; simpl.
  - rewrite Nat.add_0_r. eauto.
  - destruct (Hf a0 st) as (st1 & -> & HP1); [lia|exact HP|].
    cbn [mbind result_bind].
    destruct (IH (S a0) st1) as (st' & Hr & HP'); [lia|exact HP1|].
    exists st'. split; [exact Hr|].
    now replace (a0 + S m)%nat with (S a0 + m)%nat by lia.
Qed.

Lemma loop_selected :
  exists st, foldM initStep (seq 0 (length (m_framesets s1)))
                   (s1, IEEE.DBL_MAX, []) = Ok st /\
             selected (length (m_framesets s1)) st.
Proof.
  apply (foldM_seq_total selected initStep (length (m_framesets s1))).
  - lia.
  - split; [apply agrees_refl|]. left. cbn [fst snd].
    split; [reflexivity|]. split; [reflexivity|]. intros. lia.
  - intros k st Hk. now apply initStep_selected.
Qed.

End Loop.

(** *** Before and after the loop *)

Lemma reportFrameSets_total s :
  wellFormed s ->
  exists s', reportFrameSets s = Ok s' /\
    m_cameras s' = m_cameras s /\ heap s' = heap s /\
    m_extrinsics s' = m_extrinsics s /\ m_framesets s' = m_framesets s.
Proof.
  intros (Hn & He & Hv). unfold reportFrameSets.
  destruct (m_verbose s); [|eauto 6].
  match goal with
  | |- context [foldM ?f ?l ?a] =>
      destruct (foldM_total (fun _ => True) f l a I) as ([sumE sumC] & -> & _)
  end.
  - intros [sumE sumC] f _ Hf. unfold allFrames in Hf.
    apply list_elem_of_In, in_concat in Hf as (fr & Hfr & Hf).
    apply list_elem_of_In in Hf.
    apply list_elem_of_In, list_elem_of_fmap in Hfr as (fs & -> & Hfs).
    destruct (Hv fs Hfs) as [_ Hall]. destruct (Hall f Hf) as [Hid Hcam].
    destruct (at_lt (m_cameras s) (cameraId f)) as [cam ->]; [lia|].
    cbn [mbind result_bind]. unfold frameReprojectionError.
    match goal with
    | |- context [mapM ?f ?l] => destruct (mapM_total f l) as [errors ->]
    end.
    + intros [f0 P] _. destruct (camera f); [|congruence].
      cbn [deref_ptr mbind result_bind]. eauto.
    + cbn [mbind result_bind]. eauto.
  - cbn [mbind result_bind]. eexists. split; [reflexivity|]. repeat split.
Qed.

Lemma finalOdometry_total T fs n :
  validFrameSet n fs -> length T = n ->
  (forall f, f ∈ frames fs -> odometry f <> None) ->
  exists fs', finalOdometry T fs = Ok fs'.
Proof.
  intros Hv Hlen Hodo. unfold finalOdometry.
  destruct (estimateOdometry_total T fs n Hv Hlen) as ([pos att] & ->).
  cbn [mbind result_bind]. destruct Hv as [Hne Hall].
  destruct (frames fs) as [|f0 fr] eqn:Efr; [congruence|].
  cbn [at_ lookup list_lookup mbind result_bind].
  destruct (odometry f0) as [odo0|] eqn:Eo.
  - cbn [deref_ptr mbind result_bind]. eauto.
  - destruct (Hodo f0); [constructor|exact Eo].
Qed.

Lemma mapM_at_seq {A B} (g : A -> B) (l : list A) m k :
  (k + m)%nat = length l ->
  mapM (fun i => a ← at_ l i; Ok (g a)) (seq k m) = Ok (map g (drop k l)).
Proof.
  revert k. induction m as [|m IH]; intros k Hk.
  - simpl. now rewrite drop_ge by lia.
  - destruct (lookup_lt_is_Some_2 l k) as [a Ha]; [lia|].
    assert (Hat : at_ l k = Ok a) by (unfold at_; now rewrite Ha).
    cbn [seq mapM]. rewrite Hat. cbn [mbind result_bind].
    rewrite IH by lia. cbn [mbind result_bind].
    now rewrite (drop_S _ _ _ Ha).
Qed.

(** When no frame set has enough frames the loop leaves everything as it
    is. *)
Lemma loop_skips L s m b :
  (forall i, i ∈ L -> exists fs, m_framesets s !! i = Some fs /\
               (length (frames fs) < length (m_cameras s))%nat) ->
  foldM initStep L (s, m, b) = Ok (s, m, b).
Proof.
  induction L as [|i L IH]; intros H; simpl; [reflexivity|].
  destruct (H i) as (fs & Hfs & Hlt); [constructor|].
  unfold at_. rewrite Hfs. cbn [mbind result_bind].
  destruct (Nat.ltb_spec (length (frames fs)) (length (m_cameras s))); [|lia].
  cbn [mbind result_bind]. apply IH.
  intros j Hj. apply H. now constructor.
Qed.

Lemma seedPoses_foldM (best : list Pose) L s :
  foldM (fun s i => T ← at_ best i;
                    Ok (setGlobalCameraPose s i (Pose_pose T))) L s
  = (Hs ← mapM (fun i => T ← at_ best i; Ok (Pose_pose T)) L;
     Ok (set_extrinsics s (writeAll L Hs (m_extrinsics s)))).
Proof.
  rewrite <- setPoses_foldM. apply foldM_ext.
  intros s0 i. now destruct (at_ best i).
Qed.

(** The state [s1] at the entry of the loop, and the rest of the
    initialisation from there. *)
Lemma initialise_entry s :
  wellFormed s ->
  exists s1,
    m_cameras s1 = m_cameras s /\ m_framesets s1 = m_framesets s /\
    m_extrinsics s1 = <[0%nat := Matrix4d_Identity]> (m_extrinsics s) /\
    heap s1 = heap s /\
    initialise s =
      ('(s, minReprojError, best_T_cam_ref) ←
         foldM initStep (seq 0 (length (m_framesets s1)))
               (s1, IEEE.DBL_MAX, []);
       if IEEE.feq minReprojError IEEE.DBL_MAX then
         Ok (NoCompleteFrameSet
               (print s [str "# ERROR: No complete frame sets were found."]))
       else
         s ← foldM (fun s i => T ← at_ best_T_cam_ref i;
                               Ok (setGlobalCameraPose s i (Pose_pose T)))
                   (seq 1 (length (m_cameras s) - 1)) s;
         framesets ← mapM (finalOdometry best_T_cam_ref) (m_framesets s);
         Ok (Seeded (set_framesets s framesets))).
Proof.
  intros WF.
  destruct (reportFrameSets_total s WF) as (sr & Hr & Hc & Hh & Hx & Hf).
  exists (setGlobalCameraPose sr 0 Matrix4d_Identity).
  unfold setGlobalCameraPose at 1 2 3 4.
  cbn [m_cameras heap m_extrinsics m_framesets set_extrinsics].
  rewrite Hx. do 2 (split; [assumption|]). split; [reflexivity|].
  split; [assumption|].
  unfold initialise. rewrite Hr. reflexivity.
Qed.

(** The state the initialisation ends in. *)
Definition state_of (r : Initialised) : Calibration :=
  match r with
  | NoCompleteFrameSet s => s
  | Seeded s => s
  end.

(** The extrinsics after the seed has been installed. *)
Lemma seeded_extrinsics (best : list Pose) s2 :
  length best = length (m_cameras s2) ->
  length (m_extrinsics s2) = length (m_cameras s2) ->
  m_extrinsics s2 !! 0%nat = Some Matrix4d_Identity ->
  foldM (fun s i => T ← at_ best i;
                    Ok (setGlobalCameraPose s i (Pose_pose T)))
        (seq 1 (length (m_cameras s2) - 1)) s2
  = Ok (set_extrinsics s2 (Matrix4d_Identity :: map Pose_pose (drop 1 best))).
Proof.
  intros HT He H0.
  assert (Hn : (1 <= length (m_extrinsics s2))%nat).
  { destruct (m_extrinsics s2); [discriminate|simpl; lia]. }
  rewrite seedPoses_foldM, (mapM_at_seq Pose_pose best) by lia.
  cbn [mbind result_bind]. do 2 f_equal.
  assert (Hlen : length (map Pose_pose (drop 1 best))
                 = (length (m_cameras s2) - 1)%nat).
  { rewrite length_map, length_drop, HT. reflexivity. }
  rewrite <- Hlen. rewrite writeAll_seq by lia.
  rewrite (drop_ge (m_extrinsics s2)) by lia.
  rewrite app_nil_r.
  destruct (m_extrinsics s2) as [|x xs]; [discriminate|].
  injection H0 as ->. reflexivity.
Qed.

(** On a well-formed rig the initialisation does not throw, and it leaves
    camera 0 at the identity whichever way it ends. *)
Lemma initialise_total s :
  wellFormed s ->
  exists r, initialise s = Ok r /\
    getGlobalCameraPose (state_of r) 0 = Ok Matrix4d_Identity /\
    m_cameras (state_of r) = m_cameras s.
Proof.
  intros WF. pose proof WF as (Hn & He & Hv).
  destruct (initialise_entry s WF) as (s1 & Hc1 & Hf1 & Hx1 & Hh1 & Hinit).
  assert (Hn1 : (1 <= length (m_cameras s1))%nat) by (now rewrite Hc1).
  assert (He1 : length (m_extrinsics s1) = length (m_cameras s1)).
  { now rewrite Hx1, length_insert, Hc1. }
  assert (Hv1 : forall fs, fs ∈ m_framesets s1 ->
                           validFrameSet (length (m_cameras s1)) fs).
  { now rewrite Hf1, Hc1. }
  destruct (loop_selected s1 Hn1 He1 Hv1)
    as ([[s2 min] best] & Hfold & Hag & Hsel).
  cbn [fst snd] in *. pose proof Hag as (Hc2 & Hh2 & Hl2 & H02 & Hm2).
  assert (H0 : m_extrinsics s2 !! 0%nat = Some Matrix4d_Identity).
  { rewrite H02, Hx1. apply list_lookup_insert_eq. lia. }
  rewrite Hinit, Hfold. cbn [mbind result_bind].
  destruct Hsel as [(-> & _)
                   |(jb & fsb & sb & Hjb & Hfsb & Hcompb & Htryb & HltM
                      & Hodo & Hall)].
  - rewrite IEEE.feq_DBL_MAX. eexists. split; [reflexivity|].
    cbn [state_of]. unfold getGlobalCameraPose, at_.
    cbn [m_extrinsics m_cameras print]. rewrite H0. split; congruence.
  - rewrite (IEEE.flt_not_feq _ _ HltM).
    destruct (tryHypothesis_total s1 Hn1 He1 Hv1 s1 fsb (agrees_refl s1))
      as (sb' & Tb & eb & Htryb' & Hhyp & HTlen & _).
    { apply Hv1. eapply list_elem_of_lookup_2; eauto. }
    rewrite Htryb in Htryb'. injection Htryb' as <- <- <-.
    rewrite seeded_extrinsics by congruence.
    cbn [mbind result_bind m_framesets set_extrinsics].
    destruct (mapM_total (finalOdometry best) (m_framesets s2)) as [F ->].
    { intros a Ha.
      apply (finalOdometry_total best a (length (m_cameras s1))).
      - eapply agrees_valid; eauto.
      - exact HTlen.
      - intros f Hf0. now apply (Hodo a f). }
    cbn [mbind result_bind]. eexists. split; [reflexivity|].
    cbn [state_of]. split; [reflexivity|].
    cbn [m_cameras set_framesets set_extrinsics]. congruence.
Qed.

(** With pairwise different camera ids of the rig, as many frames as
    cameras means a frame of every camera. *)
Lemma enoughFrames_covers s fs :
  (forall f, f ∈ frames fs ->
     (cameraId f < length (m_cameras s))%nat /\ camera f <> None) ->
  NoDup (map cameraId (frames fs)) ->
  enoughFrames s fs <-> structurallyComplete s fs.
Proof.
  intros Hall Hnd. unfold enoughFrames, structurallyComplete.
  set (n := length (m_cameras s)) in *.
  assert (Hids : forall i, i ∈ map cameraId (frames fs) -> i ∈ seq 0 n).
  { intros i (f & -> & Hf)%list_elem_of_fmap. apply elem_of_seq.
    destruct (Hall f Hf). lia. }
  split.
  - intros Hlen i Hi.
    assert (Hp : map cameraId (frames fs) ≡ₚ seq 0 n).
    { apply submseteq_length_Permutation.
      - now apply NoDup_submseteq.
      - rewrite length_seq, length_map. exact Hlen. }
    assert (Hin : i ∈ map cameraId (frames fs)).
    { rewrite Hp. apply elem_of_seq. lia. }
    apply list_elem_of_fmap in Hin as (f & -> & Hf).
    exists f. split; [exact Hf|]. split; [reflexivity|].
    now destruct (Hall f Hf).
  - intros Hcov.
    assert (Hsub : seq 0 n ⊆+ map cameraId (frames fs)).
    { apply NoDup_submseteq; [apply NoDup_seq|].
      intros i Hi%elem_of_seq. destruct (Hcov i) as (f & Hf & <- & _); [lia|].
      apply list_elem_of_fmap. eauto. }
    apply submseteq_length in Hsub.
    now rewrite length_seq, length_map in Hsub.
Qed.

Section Run.
Context {C : CeresSolver}.

(** C5, as the code has it.  On a rig with an extrinsic pose per camera
    and frame sets whose frames carry a camera pose and a camera id of
    the rig: (1) [run] takes a frame set for a complete one when it has
    at least as many frames as the rig has cameras; for a frame set whose
    frames have pairwise different camera ids, as [addFrameSet] builds
    them, that is a localized frame for every camera; (2) the hypothesis
    of every frame set with that many frames is evaluated, that is, its
    average reprojection error over all frame sets is obtained; (3) when
    no frame set has that many frames, the initialisation ends with the
    error message, [run] returns that state without calling [optimize],
    and the extrinsics are the entry ones with camera 0 at the identity;
    (4) when some frame set with that many frames has an error below
    [DBL_MAX], the initialisation installs the hypothesis of such a frame
    set than which no such frame set has a strictly lower error. *)
Theorem initialise_selects_lowest_error s :
  wellFormed s ->
  (forall fs, fs ∈ m_framesets s -> NoDup (map cameraId (frames fs)) ->
     (enoughFrames s fs <-> structurallyComplete s fs)) /\
  (forall fs, fs ∈ m_framesets s -> enoughFrames s fs ->
     exists e, trialError s fs = Ok e) /\
  ((forall fs, fs ∈ m_framesets s -> ~ enoughFrames s fs) ->
     exists s', initialise s = Ok (NoCompleteFrameSet s') /\
       run s = Ok s' /\
       m_extrinsics s' = <[0%nat := Matrix4d_Identity]> (m_extrinsics s) /\
       last (cout s')
         = Some [str "# ERROR: No complete frame sets were found."]) /\
  (forall fs e, fs ∈ m_framesets s -> enoughFrames s fs ->
     trialError s fs = Ok e -> IEEE.flt e IEEE.DBL_MAX = true ->
     exists s' best T emin,
       initialise s = Ok (Seeded s') /\
       best ∈ m_framesets s /\ enoughFrames s best /\
       hypothesis (length (m_cameras s)) best = Ok T /\
       trialError s best = Ok emin /\
       (forall fs' e', fs' ∈ m_framesets s -> enoughFrames s fs' ->
          trialError s fs' = Ok e' -> IEEE.flt e' emin = false) /\
       m_extrinsics s' = Matrix4d_Identity :: map Pose_pose (drop 1 T)).
Proof.
  intros WF. pose proof WF as (Hn & He & Hv).
  destruct (initialise_entry s WF) as (s1 & Hc1 & Hf1 & Hx1 & Hh1 & Hinit).
  assert (Hn1 : (1 <= length (m_cameras s1))%nat) by (now rewrite Hc1).
  assert (He1 : length (m_extrinsics s1) = length (m_cameras s1)).
  { now rewrite Hx1, length_insert, Hc1. }
  assert (Hv1 : forall fs, fs ∈ m_framesets s1 ->
                           validFrameSet (length (m_cameras s1)) fs).
  { now rewrite Hf1, Hc1. }
  assert (HsT : agrees s1 (setGlobalCameraPose s 0 Matrix4d_Identity)).
  { unfold agrees, setGlobalCameraPose.
    cbn [m_cameras heap m_extrinsics m_framesets set_extrinsics].
    now rewrite Hc1, Hh1, Hx1, Hf1. }
  assert (Hiff : forall fs e, trialError s fs = Ok e <->
                   exists s2 T, tryHypothesis s1 fs = Ok (s2, T, e)).
  { intros fs e. unfold trialError. split.
    - intros H. bind_in H. destruct a as [[s2 T] e0]. injection H as ->.
      destruct (tryHypothesis_agree s1 Hn1 He1 _ s1 fs fs s2 T e HsT
                  (agrees_refl s1) eq_refl Eb) as [s2' H'].
      eauto.
    - intros (s2 & T & H).
      destruct (tryHypothesis_agree s1 Hn1 He1 s1 _ fs fs s2 T e
                  (agrees_refl s1) HsT eq_refl H) as [s2' ->].
      reflexivity. }
  split; [|split; [|split]].
  - (* the size test and the coverage of the cameras *)
    intros fs Hfs Hnd. apply enoughFrames_covers; [|exact Hnd].
    intros f Hf. now apply (Hv fs Hfs).
  - (* every frame set with enough frames is tried *)
    intros fs Hfs Hcomp.
    destruct (tryHypothesis_total s1 Hn1 He1 Hv1 s1 fs (agrees_refl s1))
      as (s2 & T & e & Htry & _).
    { apply Hv1. now rewrite Hf1. }
    exists e. apply Hiff. eauto.
  - (* no frame set with enough frames *)
    intros Hnone.
    assert (Hi : initialise s = Ok (NoCompleteFrameSet
                   (print s1 [str "# ERROR: No complete frame sets were found."]))).
    { rewrite Hinit, loop_skips; [reflexivity|].
      intros i Hi%elem_of_seq.
      destruct (lookup_lt_is_Some_2 (m_framesets s1) i) as [fs Hfs]; [lia|].
      exists fs. split; [exact Hfs|].
      assert (Hin : fs ∈ m_framesets s).
      { rewrite <- Hf1. eapply list_elem_of_lookup_2; eauto. }
      specialize (Hnone fs Hin). unfold enoughFrames in Hnone.
      rewrite Hc1. lia. }
    eexists. split; [exact Hi|]. split; [|split].
    + unfold run. now rewrite Hi.
    + exact Hx1.
    + cbn [cout print]. apply last_snoc.
  - (* some frame set with enough frames has an error below DBL_MAX *)
    intros fs e Hfs Hcomp Htrial Hlt.
    destruct (loop_selected s1 Hn1 He1 Hv1) as ([[s2 min] best] & Hfold & Hsel).
    destruct Hsel as [Hag Hsel]. cbn [fst snd] in *.
    apply Hiff in Htrial as (s3 & T3 & Htry3).
    assert (Hj : exists j, m_framesets s1 !! j = Some fs /\
                           (j < length (m_framesets s1))%nat).
    { rewrite Hf1. apply list_elem_of_lookup in Hfs as [j Hj].
      exists j. split; [exact Hj|]. eapply lookup_lt_Some; eauto. }
    destruct Hj as (j & Hj & Hjlt).
    assert (Hcomp1 : forall fs', enoughFrames s fs' <-> enoughFrames s1 fs').
    { intros fs'. unfold enoughFrames. now rewrite Hc1. }
    destruct Hsel as [(Hmin & Hbest & Hall)
                     |(jb & fsb & sb & Hjb & Hfsb & Hcompb & Htryb & HltM
                        & Hodo & Hall)].
    { rewrite (Hall j fs s3 T3 e) in Hlt; auto; [discriminate|].
      now apply Hcomp1. }
    pose proof Hag as (Hc2 & Hh2 & Hl2 & H02 & Hm2).
    destruct (tryHypothesis_total s1 Hn1 He1 Hv1 s1 fsb (agrees_refl s1))
      as (sb' & Tb & eb & Htryb' & Hhyp & HTlen & _).
    { apply Hv1. eapply list_elem_of_lookup_2; eauto. }
    rewrite Htryb in Htryb'. injection Htryb' as <- <- <-.
    assert (Hseed : mapM (fun i => T ← at_ best i; Ok (Pose_pose T))
                      (seq 1 (length (m_cameras s2) - 1))
                    = Ok (map Pose_pose (drop 1 best))).
    { apply mapM_at_seq. rewrite Hc2, HTlen. lia. }
    assert (Hfinal : exists F, mapM (finalOdometry best) (m_framesets s2)
                               = Ok F).
    { apply mapM_total. intros a Ha.
      apply (finalOdometry_total best a (length (m_cameras s1))).
      - eapply agrees_valid; eauto.
      - exact HTlen.
      - intros f Hf0. now apply (Hodo a f). }
    destruct Hfinal as [F HF].
    eexists _, fsb, best, min.
    split; [|split; [|split; [|split; [|split; [|split]]]]].
    + rewrite Hinit, Hfold. cbn [mbind result_bind].
      rewrite (IEEE.flt_not_feq _ _ HltM).
      rewrite seedPoses_foldM, Hseed. cbn [mbind result_bind].
      cbn [m_framesets set_extrinsics]. rewrite HF. reflexivity.
    + rewrite <- Hf1. eapply list_elem_of_lookup_2; eauto.
    + now apply Hcomp1.
    + now rewrite <- Hc1.
    + apply Hiff. eauto.
    + intros fs' e' Hfs' Hcomp' Htrial'.
      apply Hiff in Htrial' as (s4 & T4 & Htry4).
      rewrite <- Hf1 in Hfs'. apply list_elem_of_lookup in Hfs' as [j' Hj'].
      apply (Hall j' fs' s4 T4 e'); auto.
      * eapply lookup_lt_Some; eauto.
      * now apply Hcomp1.
    + cbn [m_extrinsics set_framesets set_extrinsics].
      assert (Hlen : length (map Pose_pose (drop 1 best))
                     = (length (m_cameras s2) - 1)%nat).
      { rewrite length_map, length_drop, Hc2, HTlen. reflexivity. }
      assert (Hext : length (m_extrinsics s2)
                     = S (length (map Pose_pose (drop 1 best)))).
      { rewrite Hlen, Hl2, He1, Hc2. lia. }
      rewrite <- Hlen. rewrite writeAll_seq by lia.
      rewrite (drop_ge (m_extrinsics s2)) by lia.
      rewrite app_nil_r.
      assert (H0 : m_extrinsics s2 !! 0%nat = Some Matrix4d_Identity).
      { rewrite H02, Hx1. apply list_lookup_insert_eq. lia. }
      destruct (m_extrinsics s2) as [|x xs]; [discriminate|].
      injection H0 as ->. reflexivity.
Qed.

End Run.

End Generic.

(** The three frame sets of [Toy.rig] with two frames have the errors
    1, 3/7 and 4/7: the hypothesis of the third frame set, camera 1 at -5, is
    installed. *)
Example initialise_rig :
  map (trialError (E := Toy.externals) Toy.rig) (m_framesets Toy.rig)
  = [ Ok (S754_finite false 4503599627370496 (-52));
      Ok (S754_finite false 7720456504063707 (-53));
      Ok (S754_finite false 7720456504063707 (-54));
      Ok (S754_finite false 5146971002709138 (-53)) ] /\
  initialise (E := Toy.externals) Toy.rig = Ok (Seeded Toy.seeded) /\
  m_extrinsics Toy.seeded = [(0, 0); (0, -5)].
Proof. repeat split; by_evaluation. Qed.

(** When no frame set has enough frames [run] stops after the message:
    the solver is not called, and camera 1 keeps the pose it had. *)
Example run_partial :
  run (E := Toy.externals) (C := Toy.shifting) Toy.partial
  = Ok (print (setGlobalCameraPose Toy.partial 0 Matrix4d_Identity)
          [str "# ERROR: No complete frame sets were found."%string]).
Proof. by_evaluation. Qed.

(** [wellFormed] of a rig that is written out. *)
Ltac wellFormed_by_cases :=
  split; [simpl; lia|]; split; [reflexivity|];
  let fs := fresh "fs" in
  let Hfs := fresh "Hfs" in
  let f := fresh "f" in
  let Hf := fresh "Hf" in
  intros fs Hfs; cbn [m_framesets] in Hfs;
  repeat (apply elem_of_cons in Hfs as [->|Hfs]);
  try (apply elem_of_nil in Hfs; contradiction);
  (split; [discriminate|]; intros f Hf; cbn [frames] in Hf;
   repeat (apply elem_of_cons in Hf as [->|Hf]);
   try (apply elem_of_nil in Hf; contradiction);
   (split; [simpl; lia|discriminate])).

Lemma initialise_selects_lowest_error_witness :
  wellFormed (E := Toy.externals) Toy.rig /\
  exists s' best T emin,
    initialise (E := Toy.externals) Toy.rig = Ok (Seeded s') /\
    best ∈ m_framesets Toy.rig /\ enoughFrames Toy.rig best /\
    hypothesis (length (m_cameras Toy.rig)) best = Ok T /\
    trialError Toy.rig best = Ok emin /\
    (forall fs' e', fs' ∈ m_framesets Toy.rig -> enoughFrames Toy.rig fs' ->
       trialError Toy.rig fs' = Ok e' -> IEEE.flt e' emin = false) /\
    m_extrinsics s' = Matrix4d_Identity :: map Pose_pose (drop 1 T).
Proof.
  assert (WF : wellFormed (E := Toy.externals) Toy.rig)
    by (unfold Toy.rig; wellFormed_by_cases).
  split; [exact WF|].
  apply (proj2 (proj2 (proj2 (initialise_selects_lowest_error
                                (E := Toy.externals) (C := Toy.resting)
                                Toy.rig WF)))
           {| frames := [Toy.shot 0 0 1; Toy.shot 1 3 2]; timestamp := 0 |}
           (S754_finite false 4503599627370496 (-52))).
  - apply list_elem_of_here.
  - unfold enoughFrames. simpl. lia.
  - by_evaluation.
  - reflexivity.
Defined.

(** C5, counterexample.  (a) No frame set of [Toy.dup] has a frame of
    camera 0, but the first one has two frames, as many as there are
    cameras: the initialisation reports no error and installs for camera 1
    a pose computed from the placeholder for the missing pose of camera 0,
    and [run] goes on to the refinement.  (b) Both frame sets of [Toy.far]
    have a frame of each camera, and their average errors are [+inf], not
    below [DBL_MAX]: no hypothesis is retained, the error message is
    printed, and the pose of camera 1 has been overwritten by the
    hypothesis tried last. *)
Lemma initialise_by_size_and_sentinel :
  (initialise (E := Toy.externals) Toy.dup = Ok (Seeded Toy.dupSeeded) /\
   wellFormed Toy.dup /\
   (forall fs, fs ∈ m_framesets Toy.dup -> ~ structurallyComplete Toy.dup fs) /\
   m_extrinsics Toy.dupSeeded = [(0, 0); (-1, -7)] /\
   cout Toy.dupSeeded = cout (Toy.after (reportFrameSets Toy.dup)) /\
   run (E := Toy.externals) (C := Toy.shifting) Toy.dup
     = Ok Toy.dupCalibrated /\
   m_extrinsics Toy.dupCalibrated = [(1, 1); (0, -6)]) /\
  (wellFormed Toy.far /\
   (forall fs, fs ∈ m_framesets Toy.far -> structurallyComplete Toy.far fs) /\
   map (trialError (E := Toy.externals) Toy.far) (m_framesets Toy.far)
     = [Ok (S754_infinity false); Ok (S754_infinity false)] /\
   initialise (E := Toy.externals) Toy.far
     = Ok (NoCompleteFrameSet Toy.farEnd) /\
   cout Toy.farEnd
     = [[str "# ERROR: No complete frame sets were found."%string]] /\
   m_extrinsics Toy.far = [(0, 0); (7, 7)] /\
   m_extrinsics Toy.farEnd = [(0, 0); (0, -5)]).
Proof.
  split.
  - split; [by_evaluation|]. split; [unfold Toy.dup; wellFormed_by_cases|].
    split; [|repeat split; by_evaluation].
    intros fs Hfs Hcov. cbn [m_framesets Toy.dup] in Hfs.
    apply elem_of_cons in Hfs as [->|Hfs].
    { destruct (Hcov 0%nat) as (f & Hf & Hid & _); [simpl; lia|].
      cbn [frames] in Hf.
      repeat (apply elem_of_cons in Hf as [->|Hf]; [discriminate Hid|]).
      inversion Hf. }
    apply elem_of_cons in Hfs as [->|Hfs]; [|inversion Hfs].
    destruct (Hcov 1%nat) as (f & Hf & Hid & _); [simpl; lia|].
    cbn [frames] in Hf.
    repeat (apply elem_of_cons in Hf as [->|Hf]; [discriminate Hid|]).
    inversion Hf.
  - split; [unfold Toy.far; wellFormed_by_cases|].
    split; [|repeat split; by_evaluation].
    intros fs Hfs i Hi. cbn [m_framesets Toy.far] in Hfs.
    cbn in Hi.
    repeat (apply elem_of_cons in Hfs as [->|Hfs]);
      try (inversion Hfs; fail);
      (destruct i as [|[|i]]; [| |lia]); cbn [frames];
      ((eexists; split;
          [apply list_elem_of_here|split; [reflexivity|discriminate]])
       || (eexists; split;
             [apply list_elem_of_further, list_elem_of_here
             |split; [reflexivity|discriminate]])).
Qed.

End InitialisationFacts.

(** ** The joint refinement *)

Module RefinementFacts.
Import FrameSetFacts InitialisationFacts.

Section Generic.
Context {E : Externals} {C : CeresSolver}.

Lemma mapM_elem {A B} (f : A -> result B) l bs a :
  mapM f l = Ok bs -> a ∈ l -> exists b, b ∈ bs /\ f a = Ok b.
Proof.
  intros H%mapM_Forall2 Ha. apply list_elem_of_lookup in Ha as [i Hi].
  destruct (Forall2_lookup_l _ _ _ _ _ H Hi) as (b & Hb & Hab).
  exists b. split; [eapply list_elem_of_lookup_2; eauto|exact Hab].
Qed.

Lemma elem_of_concat {A} (x : A) l ls : x ∈ l -> l ∈ ls -> x ∈ concat ls.
Proof.
  rewrite !list_elem_of_In. intros Hx Hl. apply in_concat. eauto.
Qed.

(** Every 2D feature with a scene point contributes a residual block
    attached to the extrinsic blocks of the camera of its frame. *)
Lemma frameResiduals_blocks s T opt i f rs p a :
  frameResiduals s T opt i f = Ok rs ->
  p ∈ features2D f -> feature3D p = Some a ->
  exists rb, rb ∈ rs /\
    ExtrinsicRotation (cameraId f) ∈ rb_blocks rb /\
    ExtrinsicTranslation (cameraId f) ∈ rb_blocks rb.
Proof.
  unfold frameResiduals. intros H Hp Ha.
  destruct (mapM_elem _ _ _ (p, a) H) as (rb & Hrb & Heq).
  { apply list_elem_of_omap. exists p. split; [exact Hp|]. now rewrite Ha. }
  exists rb. split; [exact Hrb|].
  cbn [fst snd] in Heq.
  destruct (at_ (m_cameras s) (cameraId f)) as [cam|]; [|discriminate].
  destruct (at_ T (cameraId f)) as [T0|]; [|discriminate].
  destruct (deref_ptr (odometry f)) as [odo|]; [|discriminate].
  cbn [mbind result_bind] in Heq. injection Heq as <-. cbn [rb_blocks].
  split; repeat constructor.
Qed.

Lemma buildResiduals_blocks s T opt rs fs f p a :
  buildResiduals s T opt = Ok rs ->
  fs ∈ m_framesets s -> f ∈ frames fs ->
  p ∈ features2D f -> feature3D p = Some a ->
  ExtrinsicRotation (cameraId f) ∈ concat (map rb_blocks rs) /\
  ExtrinsicTranslation (cameraId f) ∈ concat (map rb_blocks rs).
Proof.
  unfold buildResiduals. intros H Hfs Hf Hp Ha.
  destruct (mapM _ (imap _ _)) as [per|] eqn:Eper; [|discriminate].
  cbn [mbind result_bind] in H. injection H as <-.
  apply list_elem_of_lookup in Hfs as [i Hi].
  destruct (mapM_elem _ _ _ (i, fs) Eper) as (b & Hb & Heq).
  { apply (elem_of_lookup_imap_2 (fun i fs => (i, fs)) _ _ _ Hi). }
  cbn [fst snd] in Heq.
  destruct (mapM _ (frames fs)) as [rss|] eqn:Erss; [|discriminate].
  cbn [mbind result_bind] in Heq. injection Heq as <-.
  destruct (mapM_elem _ _ _ f Erss Hf) as (rsf & Hrsf & Hfr).
  destruct (frameResiduals_blocks _ _ _ _ _ _ _ _ Hfr Hp Ha)
    as (rb & Hrb & Hrot & Htr).
  assert (Hin : rb_blocks rb ∈ map rb_blocks (concat per)).
  { apply list_elem_of_fmap. exists rb. split; [reflexivity|].
    eapply elem_of_concat; [|exact Hb]. eapply elem_of_concat; eauto. }
  split; eapply elem_of_concat; eauto.
Qed.

(** No block of the problem is constant, and the extrinsic blocks of a
    camera that observes a scene point are free. *)
Lemma ceresProblem_free s T opt problem :
  ceresProblem s T opt = Ok problem ->
  constantBlocks problem = [] /\
  forall fs f p a,
    fs ∈ m_framesets s -> f ∈ frames fs ->
    p ∈ features2D f -> feature3D p = Some a ->
    free problem (ExtrinsicRotation (cameraId f)) = true /\
    free problem (ExtrinsicTranslation (cameraId f)) = true.
Proof.
  unfold ceresProblem. intros H.
  destruct (buildResiduals s T opt) as [rs|] eqn:Ers; [|discriminate].
  cbn [mbind result_bind] in H.
  destruct (mapM _ (seq 0 _)) as [qs|]; [|discriminate].
  cbn [mbind result_bind] in H. injection H as <-.
  split; [reflexivity|]. intros fs f p a Hfs Hf Hp Ha.
  destruct (buildResiduals_blocks _ _ _ _ _ _ _ _ Ers Hfs Hf Hp Ha)
    as [Hrot Htr].
  unfold free. cbn [residualBlocks constantBlocks].
  rewrite !(bool_decide_eq_false_2 (_ ∈ [])) by apply not_elem_of_nil.
  now rewrite !bool_decide_eq_true_2.
Qed.

Lemma extrinsicPoses_length s T :
  extrinsicPoses s = Ok T ->
  length T = length (m_cameras s) /\
  (length (m_cameras s) <= length (m_extrinsics s))%nat.
Proof.
  unfold extrinsicPoses. intros H.
  pose proof (mapM_length _ _ _ H) as Hlen. rewrite length_seq in Hlen.
  split; [exact Hlen|].
  destruct (length (m_cameras s)) as [|n] eqn:En; [lia|].
  destruct (mapM_elem _ _ _ n H) as (b & _ & Hb).
  { apply elem_of_seq. lia. }
  unfold getGlobalCameraPose, at_ in Hb.
  destruct (m_extrinsics s !! n) eqn:El; [|discriminate].
  apply lookup_lt_Some in El. lia.
Qed.

(** [optimize] stores, for every camera, the pose that the solver leaves
    in the blocks of that camera. *)
Lemma optimize_writes_back s opt s' :
  optimize s opt = Ok s' ->
  exists T problem,
    extrinsicPoses s = Ok T /\ ceresProblem s T opt = Ok problem /\
    m_extrinsics s' =
      map Pose_pose
          (imap (refinedPose problem (Solve problem (ceresValues s T))) T)
      ++ drop (length (m_cameras s)) (m_extrinsics s).
Proof.
  unfold optimize. intros H.
  destruct (extrinsicPoses s) as [T|] eqn:ET; [|discriminate].
  cbn [mbind result_bind] in H.
  destruct (extrinsicPoses_length s T ET) as [HT Hle].
  bind_in H. rename a into sv.
  assert (Hsv : sv = s \/ exists l, sv = print s l).
  { destruct (m_verbose s).
    - bind_in Eb. injection Eb as <-. eauto.
    - injection Eb as <-. auto. }
  assert (Hp : ceresProblem sv T opt = ceresProblem s T opt).
  { destruct Hsv as [->|[l ->]]; reflexivity. }
  assert (Hval : ceresValues sv T = ceresValues s T).
  { destruct Hsv as [->|[l ->]]; reflexivity. }
  assert (Hcv : m_cameras sv = m_cameras s).
  { destruct Hsv as [->|[l ->]]; reflexivity. }
  assert (Hev : m_extrinsics sv = m_extrinsics s).
  { destruct Hsv as [->|[l ->]]; reflexivity. }
  rewrite Hp in H. bind_in H. rename a into problem.
  cbv zeta in H. rewrite Hval in H.
  exists T, problem. split; [reflexivity|]. split; [assumption|].
  set (T' := imap (refinedPose problem (Solve problem (ceresValues s T))) T)
    in *.
  match type of H with
  | context [foldM _ (seq 0 (length (m_cameras ?x))) ?x] =>
      remember x as s3 eqn:Es3
  end.
  assert (H3 : m_cameras s3 = m_cameras s /\ m_extrinsics s3 = m_extrinsics s).
  { subst s3.
    match goal with
    | |- context [info (info ?x ?l1) ?l2] =>
        destruct (info_untouched (info x l1) l2) as (_ & -> & _ & -> & _);
        destruct (info_untouched x l1) as (_ & -> & _ & -> & _)
    end.
    cbn [m_cameras m_extrinsics set_features set_framesets]. auto. }
  destruct H3 as [Hc3 He3].
  rewrite seedPoses_foldM in H.
  rewrite (mapM_at_seq Pose_pose T') in H
    by (subst T'; rewrite length_imap, Hc3, HT; reflexivity).
  cbn [mbind result_bind] in H. change (drop 0 T') with T' in H.
  assert (Hext : m_extrinsics s' =
                 writeAll (seq 0 (length (m_cameras s3))) (map Pose_pose T')
                          (m_extrinsics s3)).
  { match type of H with
    | (if m_verbose ?x then _ else _) = _ => destruct (m_verbose x)
    end.
    - bind_in H. injection H as <-. reflexivity.
    - injection H as <-. reflexivity. }
  rewrite Hext, Hc3, He3.
  assert (Hlen : length (map Pose_pose T') = length (m_cameras s)).
  { subst T'. now rewrite length_map, length_imap. }
  rewrite <- Hlen. rewrite writeAll_seq by (simpl; lia).
  reflexivity.
Qed.

(** C1, as the code has it.  On a well-formed rig the initialisation
    returns with camera 0 at the identity.  [optimize] holds no block
    constant: the extrinsic rotation and translation of every camera that
    observes a scene point, camera 0 like the others, are free blocks of
    the problem, and the pose stored for every camera, camera 0 like the
    others, is the one the solver leaves in the blocks of that camera. *)
Theorem camera_0_identity_until_refinement :
  (forall s, wellFormed s ->
     exists r, initialise s = Ok r /\
       getGlobalCameraPose (state_of r) 0 = Ok Matrix4d_Identity) /\
  (forall s opt s', optimize s opt = Ok s' ->
     exists T problem,
       extrinsicPoses s = Ok T /\ ceresProblem s T opt = Ok problem /\
       constantBlocks problem = [] /\
       (forall fs f p a,
          fs ∈ m_framesets s -> f ∈ frames fs ->
          p ∈ features2D f -> feature3D p = Some a ->
          free problem (ExtrinsicRotation (cameraId f)) = true /\
          free problem (ExtrinsicTranslation (cameraId f)) = true) /\
       (forall i Ti, T !! i = Some Ti ->
          getGlobalCameraPose s' i =
            Ok (Pose_pose
                  (refinedPose problem (Solve problem (ceresValues s T))
                               i Ti)))).
Proof.
  split.
  - intros s WF. destruct (initialise_total s WF) as (r & Hr & H0 & _).
    eauto.
  - intros s opt s' H.
    destruct (optimize_writes_back s opt s' H) as (T & problem & HT & Hp & Hx).
    destruct (ceresProblem_free s T opt problem Hp) as [Hconst Hfree].
    exists T, problem. do 4 (split; [assumption|]).
    intros i Ti Hi. unfold getGlobalCameraPose, at_. rewrite Hx.
    rewrite lookup_app_l.
    + now rewrite list_lookup_fmap, list_lookup_imap, Hi.
    + rewrite length_map, length_imap. eapply lookup_lt_Some; eauto.
Qed.

End Generic.

(** C1, counterexample.  The initialisation of [Toy.rig] puts camera 0 at
    the identity.  The problem that [optimize] builds from there has the
    extrinsic blocks of camera 0 among its free blocks and no constant
    block, so a solver that moves the blocks it is given moves camera 0:
    after [run] its pose is (1, 1), not the identity (0, 0). *)
Lemma optimize_moves_camera_0 :
  initialise (E := Toy.externals) Toy.rig = Ok (Seeded Toy.seeded) /\
  getGlobalCameraPose Toy.seeded 0 = Ok Matrix4d_Identity /\
  (T ← extrinsicPoses Toy.seeded;
   problem ← ceresProblem Toy.seeded T false;
   Ok (free problem (ExtrinsicRotation 0),
       free problem (ExtrinsicTranslation 0),
       constantBlocks problem)) = Ok (true, true, []) /\
  run (E := Toy.externals) (C := Toy.shifting) Toy.rig = Ok Toy.calibrated /\
  getGlobalCameraPose Toy.calibrated 0 = Ok (1, 1) /\
  getGlobalCameraPose Toy.calibrated 0 <> Ok Matrix4d_Identity.
Proof.
  do 5 (split; [by_evaluation|]).
  intros H.
  assert (H1 : getGlobalCameraPose (E := Toy.externals) Toy.calibrated 0
               = Ok (1, 1)) by by_evaluation.
  rewrite H1 in H. discriminate H.
Qed.

Lemma camera_0_identity_until_refinement_witness :
  (exists r, initialise (E := Toy.externals) Toy.rig = Ok r /\
     getGlobalCameraPose (state_of r) 0 = Ok Matrix4d_Identity) /\
  (exists T problem,
     extrinsicPoses Toy.seeded = Ok T /\
     ceresProblem Toy.seeded T false = Ok problem /\
     constantBlocks problem = [] /\
     (forall fs f p a,
        fs ∈ m_framesets Toy.seeded -> f ∈ frames fs ->
        p ∈ features2D f -> feature3D p = Some a ->
        free problem (ExtrinsicRotation (cameraId f)) = true /\
        free problem (ExtrinsicTranslation (cameraId f)) = true) /\
     (forall i Ti, T !! i = Some Ti ->
        getGlobalCameraPose Toy.refined i =
          Ok (Pose_pose
                (refinedPose problem
                   (Solve (CeresSolver := Toy.shifting) problem
                          (ceresValues Toy.seeded T))
                   i Ti)))).
Proof.
  split.
  - apply (proj1 (camera_0_identity_until_refinement
                    (E := Toy.externals) (C := Toy.shifting)) Toy.rig).
    unfold Toy.rig. wellFormed_by_cases.
  - apply (proj2 (camera_0_identity_until_refinement
                    (E := Toy.externals) (C := Toy.shifting))
             Toy.seeded false Toy.refined).
    by_evaluation.
Defined.

End RefinementFacts.

(** ** The matcher: order, ranges, and when it throws *)

Module MatchOrderFacts.
Import Matcher MatcherFacts.

(** What the cross-check loop knows about the match it emits for the
    forward row [i]. *)
Definition emitted (fwd rev : list (list DMatch)) (qI tI : list nat)
    (i : nat) (m : DMatch) : Prop :=
  exists fm rm r1 r2 q t,
    fwd !! i = Some (fm :: r1) /\ 0 <= trainIdx fm /\
    rev !! Z.to_nat (trainIdx fm) = Some (rm :: r2) /\
    queryIdx fm = trainIdx rm /\ trainIdx fm = queryIdx rm /\
    at_int qI (queryIdx fm) = Ok q /\ queryIdx m = Z.of_nat q /\
    at_int tI (queryIdx rm) = Ok t /\ trainIdx m = Z.of_nat t.

(** Row numbers in increasing order. *)
Definition increasing (rows : list nat) : Prop :=
  forall a b i j, rows !! a = Some i -> rows !! b = Some j ->
                  (a < b)%nat -> (i < j)%nat.

Lemma increasing_shift rows :
  increasing rows -> increasing (0%nat :: map S rows).
Proof.
  intros H [|a] [|b] i j Ha Hb Hab; simpl in *; try lia.
  - injection Ha as <-. rewrite list_lookup_fmap in Hb.
    destruct (rows !! b); [|discriminate]. injection Hb as <-. lia.
  - rewrite list_lookup_fmap in Ha, Hb.
    destruct (rows !! a) as [i'|] eqn:Ea; [|discriminate].
    destruct (rows !! b) as [j'|] eqn:Eb; [|discriminate].
    injection Ha as <-. injection Hb as <-.
    assert (i' < j')%nat by (eapply H; eauto; lia). lia.
Qed.

Lemma increasing_map_S rows : increasing rows -> increasing (map S rows).
Proof.
  intros H a b i j Ha Hb Hab.
  apply (increasing_shift rows H (S a) (S b)); simpl; auto. lia.
Qed.

(** The matches come out in the order of the forward rows, at most one
    per row. *)
Lemma crossCheck_rows fwd rev qI tI ms :
  crossCheck fwd rev qI tI = Ok ms ->
  exists rows, increasing rows /\ Forall2 (emitted fwd rev qI tI) rows ms.
Proof.
  revert ms. induction fwd as [|e fwd IH]; intros ms H; simpl in H.
  { injection H as <-. exists []. split; [|constructor].
    intros a b i j Ha. discriminate. }
  assert (Hskip : forall ms', crossCheck fwd rev qI tI = Ok ms' ->
    exists rows, increasing rows /\
                 Forall2 (emitted (e :: fwd) rev qI tI) rows ms').
  { intros ms' H'. destruct (IH ms' H') as (rows & Hinc & Hall).
    exists (map S rows). split; [now apply increasing_map_S|].
    apply Forall2_fmap_l. eapply Forall2_impl; [exact Hall|].
    intros i m (fm & rm & r1 & r2 & q & t & Hi & R).
    exists fm, rm, r1, r2, q, t. split; [exact Hi|exact R]. }
  destruct e as [|fm r1]; [eauto|].
  destruct (at_int rev (trainIdx fm)) as [rv|] eqn:Erev; simpl in H;
    [|discriminate].
  destruct rv as [|rm r2]; [eauto|].
  destruct ((queryIdx fm =? trainIdx rm) && (trainIdx fm =? queryIdx rm))
    eqn:Ec; [|eauto].
  apply andb_true_iff in Ec as [E1%Z.eqb_eq E2%Z.eqb_eq].
  destruct (at_int qI (queryIdx fm)) as [q|] eqn:Eq; simpl in H; [|discriminate].
  destruct (at_int tI (queryIdx rm)) as [t|] eqn:Et; simpl in H; [|discriminate].
  destruct (crossCheck fwd rev qI tI) as [ms'|] eqn:Ers; simpl in H;
    [|discriminate].
  injection H as <-.
  destruct (IH ms' eq_refl) as (rows & Hinc & Hall).
  exists (0%nat :: map S rows). split; [now apply increasing_shift|].
  constructor.
  - exists fm, rm, r1, r2, q, t. simpl.
    unfold at_int in Erev. destruct (trainIdx fm <? 0) eqn:En; [discriminate|].
    apply Z.ltb_ge in En. unfold at_ in Erev.
    destruct (rev !! Z.to_nat (trainIdx fm)) eqn:El; [|discriminate].
    injection Erev as ->. repeat split; auto.
  - apply Forall2_fmap_l. eapply Forall2_impl; [exact Hall|].
    intros i m (fm' & rm' & r1' & r2' & q' & t' & Hi & R).
    exists fm', rm', r1', r2', q', t'. split; [exact Hi|exact R].
Qed.

Lemma at_int_seq_lt n i q : at_int (seq 0 n) i = Ok q -> (q < n)%nat.
Proof.
  unfold at_int, at_. destruct (i <? 0); [discriminate|].
  destruct (seq 0 n !! Z.to_nat i) eqn:E; [|discriminate].
  intros [= <-]. apply lookup_seq in E. lia.
Qed.

Section WithKnn.

Variable knnMatch : Mat -> Mat -> nat -> list (list DMatch).

(** A run of [matchFeatures] that returns matches went through the
    cross-check of the two ratio-tested neighbour lists. *)
Lemma matchFeatures_crossCheck A B ms log :
  matchFeatures knnMatch A B = Ok (ms, log) ->
  ms = [] \/
  crossCheck (ratioTest (nearestTwo knnMatch A B))
             (ratioTest (nearestTwo knnMatch B A))
             (seq 0 (length A)) (seq 0 (length B)) = Ok ms.
Proof.
  intros H. unfold matchFeatures in H.
  destruct A as [|a0 A]; [discriminate|].
  destruct B as [|b0 B].
  { destruct (buildDescriptorMat_cons a0 A) as (d & E & _).
    rewrite E in H. discriminate. }
  unfold nearestTwo.
  destruct (buildDescriptorMat_cons a0 A) as (qd & Eq & _).
  destruct (buildDescriptorMat_cons b0 B) as (td & Et & _).
  rewrite Eq, Et in *. cbn [mbind result_bind] in H.
  destruct (negb (cols qd =? cols td)). { injection H as <- _. now left. }
  destruct (negb (type_ qd =? type_ td)). { injection H as <- _. now left. }
  destruct (crossCheck _ _ _ _) as [ms'|] eqn:Ec; [|discriminate].
  cbn [mbind result_bind] in H. injection H as <- _. right. reflexivity.
Qed.

(** X1.  The matches returned by [matchFeatures] form a one-to-one
    pairing of existing features: every query and train index is within
    its collection, the query indices increase strictly along the result,
    and no train index occurs twice. *)
Theorem matchFeatures_one_to_one A B ms log :
  knn_indexed knnMatch ->
  matchFeatures knnMatch A B = Ok (ms, log) ->
  (forall m, m ∈ ms ->
     0 <= queryIdx m < Z.of_nat (length A) /\
     0 <= trainIdx m < Z.of_nat (length B)) /\
  (forall a b ma mb, ms !! a = Some ma -> ms !! b = Some mb ->
     (a < b)%nat -> queryIdx ma < queryIdx mb) /\
  (forall a b ma mb, ms !! a = Some ma -> ms !! b = Some mb ->
     trainIdx ma = trainIdx mb -> a = b).
Proof.
  intros Hk H.
  destruct (matchFeatures_crossCheck _ _ _ _ H) as [->|Hc].
  { split; [intros m Hm; inversion Hm|]. split; intros a b ma mb Ha; discriminate. }
  destruct (crossCheck_rows _ _ _ _ _ Hc) as (rows & Hinc & Hall).
  assert (Hrow : forall a ma, ms !! a = Some ma ->
            exists i fm rm r2,
              rows !! a = Some i /\
              queryIdx ma = Z.of_nat i /\ (i < length A)%nat /\
              0 <= trainIdx ma < Z.of_nat (length B) /\
              trainIdx fm = trainIdx ma /\
              ratioTest (nearestTwo knnMatch B A) !! Z.to_nat (trainIdx ma)
                = Some (rm :: r2) /\
              trainIdx rm = Z.of_nat i).
  { intros a ma Ha.
    destruct (Forall2_lookup_r _ _ _ _ _ Hall Ha)
      as (i & Hi & fm & rm & r1 & r2 & q & t &
          Hf & Hpos & Hr & E1 & E2 & Hq & Hmq & Ht & Hmt).
    assert (Ei : queryIdx fm = Z.of_nat i).
    { apply ratioTest_lookup in Hf as (m1 & r1' & Hf & _ & _).
      eapply nearestTwo_indexed; [exact Hk|exact Hf|constructor]. }
    pose proof (at_int_seq_Ok _ _ _ Hq) as Hq'.
    pose proof (at_int_seq_lt _ _ _ Hq) as Hq''.
    pose proof (at_int_seq_Ok _ _ _ Ht) as Ht'.
    pose proof (at_int_seq_lt _ _ _ Ht) as Ht''.
    assert (Hqi : q = i) by lia. subst q.
    exists i, fm, rm, r2. split; [exact Hi|]. split; [exact Hmq|].
    split; [exact Hq''|]. split; [lia|]. split; [lia|].
    split; [|congruence].
    replace (trainIdx ma) with (trainIdx fm) by lia. exact Hr. }
  split; [|split].
  - intros m Hm. apply list_elem_of_lookup in Hm as (a & Ha).
    destruct (Hrow a m Ha) as (i & fm & rm & r2 & _ & Hq & Hlt & Ht & _).
    split; [lia|exact Ht].
  - intros a b ma mb Ha Hb Hab.
    destruct (Hrow a ma Ha) as (i & _ & _ & _ & Hi & Hqa & _).
    destruct (Hrow b mb Hb) as (j & _ & _ & _ & Hj & Hqb & _).
    pose proof (Hinc a b i j Hi Hj Hab). lia.
  - intros a b ma mb Ha Hb Heq.
    destruct (Hrow a ma Ha) as (i & _ & rma & r2a & Hi & _ & _ & _ & _ & Hra & Hia).
    destruct (Hrow b mb Hb) as (j & _ & rmb & r2b & Hj & _ & _ & _ & _ & Hrb & Hjb).
    rewrite Heq, Hrb in Hra. injection Hra as <- _.
    assert (Hij : i = j) by lia. subst j.
    destruct (Nat.lt_trichotomy a b) as [Hlt|[Heq'|Hgt]]; [|exact Heq'|].
    + pose proof (Hinc a b i i Hi Hj Hlt). lia.
    + pose proof (Hinc b a i i Hj Hi Hgt). lia.
Qed.

(** What [cv::DescriptorMatcher::knnMatch] promises besides: one entry
    per query row, and train indices that are rows of the train matrix. *)
Definition knn_in_range : Prop :=
  (forall Q T k, length (knnMatch Q T k) = rows Q) /\
  (forall Q T k i ms m, knnMatch Q T k !! i = Some ms -> m ∈ ms ->
                        0 <= trainIdx m < Z.of_nat (rows T)).

Lemma at_int_in_range {A} (l : list A) i :
  0 <= i < Z.of_nat (length l) -> exists a, at_int l i = Ok a.
Proof.
  intros Hi. unfold at_int, at_.
  destruct (Z.ltb_spec i 0) as [|_]; [lia|].
  destruct (lookup_lt_is_Some_2 l (Z.to_nat i)) as [a ->]; [lia|]. eauto.
Qed.

Lemma crossCheck_total fwd rev qI tI :
  (forall i fm r, fwd !! i = Some (fm :: r) ->
     0 <= trainIdx fm < Z.of_nat (length rev) /\
     0 <= queryIdx fm < Z.of_nat (length qI)) ->
  (length rev <= length tI)%nat ->
  exists ms, crossCheck fwd rev qI tI = Ok ms.
Proof.
  intros Hf Hlen. induction fwd as [|e fwd IH]; simpl; [eauto|].
  assert (IH' : exists ms, crossCheck fwd rev qI tI = Ok ms).
  { apply IH. intros i fm r Hi. apply (Hf (S i) fm r). exact Hi. }
  destruct e as [|fm r1]; [exact IH'|].
  destruct (Hf 0%nat fm r1 eq_refl) as [Ht Hq].
  destruct (at_int_in_range rev (trainIdx fm) Ht) as [rv ->].
  cbn [mbind result_bind].
  destruct rv as [|rm r2]; [exact IH'|].
  destruct ((queryIdx fm =? trainIdx rm) && (trainIdx fm =? queryIdx rm))
    eqn:Ec; [|exact IH'].
  apply andb_true_iff in Ec as [E1%Z.eqb_eq E2%Z.eqb_eq].
  destruct (at_int_in_range qI (queryIdx fm) Hq) as [q ->].
  cbn [mbind result_bind].
  destruct (at_int_in_range tI (queryIdx rm)) as [t ->]; [lia|].
  cbn [mbind result_bind].
  destruct IH' as [ms ->]. cbn [mbind result_bind]. eauto.
Qed.

Lemma buildDescriptorMat_rows A d idx :
  buildDescriptorMat A [] = Ok (d, idx) -> rows d = length A.
Proof.
  unfold buildDescriptorMat. cbn [app].
  destruct (at_ A 0) as [f0|]; [|discriminate]. cbn [mbind result_bind].
  destruct (mapM _ _) as [data|] eqn:Ed; [|discriminate].
  cbn [mbind result_bind]. intros [= <- _]. unfold rows. cbn [mat_data].
  apply InitialisationFacts.mapM_length in Ed. now rewrite length_seq in Ed.
Qed.

Lemma ratioTest_length cand : length (ratioTest cand) = length cand.
Proof. unfold ratioTest. apply length_map. Qed.

(** X2.  With a matcher that returns one entry per query row, indexed by
    the row, and train indices that are rows of the train matrix,
    [matchFeatures] throws for no pair of non-empty collections: the
    accesses of the cross-check stay within bounds. *)
Theorem matchFeatures_nonempty_returns A B :
  knn_indexed knnMatch -> knn_in_range ->
  A <> [] -> B <> [] ->
  exists ms log, matchFeatures knnMatch A B = Ok (ms, log).
Proof.
  intros Hk [Hlen Hrange] HA HB.
  destruct A as [|a0 A]; [congruence|]. destruct B as [|b0 B]; [congruence|].
  unfold matchFeatures.
  destruct (buildDescriptorMat_cons a0 A) as (qd & Eq & _).
  destruct (buildDescriptorMat_cons b0 B) as (td & Et & _).
  pose proof (buildDescriptorMat_rows _ _ _ Eq) as Hqd.
  pose proof (buildDescriptorMat_rows _ _ _ Et) as Htd.
  rewrite Eq, Et. cbn [mbind result_bind].
  destruct (negb (cols qd =? cols td)); [eauto|].
  destruct (negb (type_ qd =? type_ td)); [eauto|].
  destruct (crossCheck_total (ratioTest (knnMatch qd td 2))
              (ratioTest (knnMatch td qd 2))
              (seq 0 (S (length A))) (seq 0 (S (length B)))) as [ms Hms].
  - intros i fm r Hi.
    apply ratioTest_lookup in Hi as (m1 & r' & Hi & _ & _).
    rewrite ratioTest_length, Hlen, Htd, length_seq.
    split.
    + rewrite <- Htd. eapply Hrange; [exact Hi|constructor].
    + rewrite (Hk _ _ _ _ _ fm Hi) by constructor.
      apply lookup_lt_Some in Hi. rewrite Hlen, Hqd in Hi. simpl in *. lia.
  - rewrite ratioTest_length, Hlen, Htd, length_seq. reflexivity.
  - rewrite Hms. cbn [mbind result_bind]. eauto.
Qed.

End WithKnn.

Lemma bruteForceKnn_in_range : knn_in_range bruteForceKnn.
Proof.
  split.
  - intros Q T k. unfold bruteForceKnn. now rewrite length_imap.
  - intros Q T k i ms m H Hm. unfold bruteForceKnn in H.
    rewrite list_lookup_imap in H.
    destruct (mat_data Q !! i) as [q|]; [|discriminate].
    injection H as <-.
    apply elem_of_take in Hm as (j & Hm & _).
    apply list_elem_of_lookup_2 in Hm.
    apply elem_of_sort_by_distance in Hm.
    apply list_elem_of_lookup in Hm as (j' & Hm).
    rewrite list_lookup_imap in Hm.
    destruct (mat_data T !! j') eqn:Ej; [|discriminate].
    injection Hm as <-. simpl. apply lookup_lt_Some in Ej. unfold rows. lia.
Qed.

Lemma matchFeatures_nonempty_returns_witness :
  exists ms log, matchFeatures bruteForceKnn exA exB = Ok (ms, log).
Proof.
  apply (matchFeatures_nonempty_returns bruteForceKnn exA exB).
  - exact bruteForceKnn_indexed.
  - exact bruteForceKnn_in_range.
  - discriminate.
  - discriminate.
Defined.

Lemma matchFeatures_one_to_one_witness :
  (forall m, m ∈ [exMatch 0 0; exMatch 1 1] ->
     0 <= queryIdx m < Z.of_nat (length exA) /\
     0 <= trainIdx m < Z.of_nat (length exB)) /\
  (forall a b ma mb, [exMatch 0 0; exMatch 1 1] !! a = Some ma ->
     [exMatch 0 0; exMatch 1 1] !! b = Some mb ->
     (a < b)%nat -> queryIdx ma < queryIdx mb) /\
  (forall a b ma mb, [exMatch 0 0; exMatch 1 1] !! a = Some ma ->
     [exMatch 0 0; exMatch 1 1] !! b = Some mb ->
     trainIdx ma = trainIdx mb -> a = b).
Proof.
  apply (matchFeatures_one_to_one bruteForceKnn exA exB _ []).
  - exact bruteForceKnn_indexed.
  - vm_compute. reflexivity.
Defined.

End MatchOrderFacts.

(** ** The scene points created by the localisation *)

Module SceneMapFacts.
Import FrameSetFacts FeatureMapFacts.

Section Generic.
Context {E : Externals}.

(** [feature3D->features2D().push_back(p2D)] *)
Definition observe (p2D : Feature2DRef) (o : Point3DFeature) : Point3DFeature :=
  {| point := point o; observations := observations o ++ [p2D] |}.

Lemma fresh_unallocated {A} (h : gmap addr A) : h !! fresh (dom h) = None.
Proof.
  destruct (h !! fresh (dom h)) as [x|] eqn:El; [exfalso|reflexivity].
  apply (is_fresh (dom h)), elem_of_dom. eauto.
Qed.

(** The two ways an iteration of the store loop can go: the map has the
    reference point [p3D], or a scene point is created for it at a new
    address. *)
Lemma storeCorrespondence_cases s p2D p3D :
  (exists a, m_feature3DMap s !! p3D = Some a /\
     storeCorrespondence s p2D p3D =
       (set_features s (m_feature3DMap s)
          (alter (observe p2D) a (heap s)), a)) \/
  (m_feature3DMap s !! p3D = None /\
   storeCorrespondence s p2D p3D =
     (set_features s (<[p3D := fresh (dom (heap s))]> (m_feature3DMap s))
        (<[fresh (dom (heap s)) :=
             {| point := point (deref (heap s) p3D);
                observations := [p2D] |}]> (heap s)),
      fresh (dom (heap s)))).
Proof.
  unfold storeCorrespondence.
  destruct (m_feature3DMap s !! p3D) as [a|] eqn:El.
  - left. exists a. split; [reflexivity|]. destruct s; reflexivity.
  - right. split; [reflexivity|]. cbn [m_feature3DMap heap set_features].
    f_equal. unfold set_features. cbn. f_equal.
    rewrite alter_alt, lookup_insert_eq. now rewrite insert_insert_eq.
Qed.

(** "Every scene point the map hands out is allocated, and no two
    reference points are served by the same one." *)
Definition distinctInstances (s : Calibration) : Prop :=
  (forall k a, m_feature3DMap s !! k = Some a -> is_Some (heap s !! a)) /\
  (forall k1 k2 a, m_feature3DMap s !! k1 = Some a ->
                   m_feature3DMap s !! k2 = Some a -> k1 = k2).

Lemma storeCorrespondence_distinct s p2D p3D :
  distinctInstances s -> distinctInstances (storeCorrespondence s p2D p3D).1.
Proof.
  intros [Hal Hinj].
  destruct (storeCorrespondence_cases s p2D p3D)
    as [(a & Ha & ->)|(Hnone & ->)]; unfold distinctInstances;
    cbn [fst m_feature3DMap heap set_features].
  - split; [|exact Hinj]. intros k b Hk.
    apply lookup_alter_is_Some. eauto.
  - pose proof (fresh_unallocated (heap s)) as Hfresh. split.
    + intros k b Hk. destruct (decide (k = p3D)) as [->|Hne].
      * rewrite lookup_insert_eq in Hk. injection Hk as <-.
        rewrite lookup_insert_eq. eauto.
      * rewrite lookup_insert_ne in Hk by congruence.
        destruct (Hal k b Hk) as [o Ho].
        rewrite lookup_insert_ne; [eauto|]. intros <-. congruence.
    + assert (Hold : forall k b, k <> p3D -> m_feature3DMap s !! k = Some b ->
                                 b <> fresh (dom (heap s))).
      { intros k b _ Hk ->. destruct (Hal k _ Hk) as [o Ho]. congruence. }
      intros k1 k2 b H1 H2.
      destruct (decide (k1 = p3D)) as [->|Hn1],
               (decide (k2 = p3D)) as [->|Hn2]; [reflexivity| | |].
      * rewrite lookup_insert_eq in H1. injection H1 as <-.
        rewrite lookup_insert_ne in H2 by congruence.
        now destruct (Hold k2 _ Hn2 H2).
      * rewrite lookup_insert_eq in H2. injection H2 as <-.
        rewrite lookup_insert_ne in H1 by congruence.
        now destruct (Hold k1 _ Hn1 H1).
      * rewrite lookup_insert_ne in H1, H2 by congruence. eauto.
Qed.

Lemma storeCorrespondences_distinct ts s frame corr :
  distinctInstances s ->
  distinctInstances (storeCorrespondences ts s frame corr).1.
Proof.
  intros H. unfold storeCorrespondences.
  apply (fold_left_invariant (fun st => distinctInstances st.1)); [exact H|].
  intros [s1 f1] [q k] H1. unfold storeStep. cbn [fst] in *.
  pose proof (storeCorrespondence_distinct s1
                {| ref_camera := cameraId f1; ref_timestamp := ts;
                   ref_index := q |} k H1) as H2.
  destruct (storeCorrespondence _ _ _) as [s2 a]. exact H2.
Qed.

(** The concurrent executions of the store loops keep it as well. *)
Lemma storeInterleaved_distinct ts s frames steps :
  distinctInstances s ->
  distinctInstances (storeInterleaved ts (s, frames) steps).1.
Proof.
  intros H. unfold storeInterleaved.
  apply (fold_left_invariant (fun st => distinctInstances st.1)); [exact H|].
  intros [s1 fr] [[t q] k] H1. cbn [fst] in *.
  destruct (fr !! t) as [frame|]; [|exact H1].
  unfold storeStep.
  pose proof (storeCorrespondence_distinct s1
                {| ref_camera := cameraId frame; ref_timestamp := ts;
                   ref_index := q |} k H1) as H2.
  destruct (storeCorrespondence _ _ _) as [s2 a]. exact H2.
Qed.

(** What only writes to [std::cout] leaves the scene as it is. *)
Definition sameScene (s s' : Calibration) : Prop :=
  m_feature3DMap s' = m_feature3DMap s /\ heap s' = heap s.

Lemma sameScene_refl s : sameScene s s.
Proof. split; reflexivity. Qed.

Lemma sameScene_trans s1 s2 s3 :
  sameScene s1 s2 -> sameScene s2 s3 -> sameScene s1 s3.
Proof. unfold sameScene. intuition congruence. Qed.

Lemma print_sameScene s line : sameScene s (print s line).
Proof. split; reflexivity. Qed.

Lemma info_sameScene s line : sameScene s (info s line).
Proof.
  unfold info. destruct (m_verbose s);
    [apply print_sameScene|apply sameScene_refl].
Qed.

Lemma sameScene_distinct s s' :
  sameScene s s' -> distinctInstances s -> distinctInstances s'.
Proof. intros [Hm Hh]. unfold distinctInstances. now rewrite Hm, Hh. Qed.

Lemma tryCandidate_sameScene frame rk thr s best fid s' best' :
  tryCandidate frame rk thr (s, best) fid = Ok (s', best') -> sameScene s s'.
Proof.
  unfold tryCandidate.
  destruct (at_ (m_refGraph s) (cameraIdx fid)) as [segments|]; [|discriminate].
  cbn [mbind result_bind].
  destruct (at_ segments (segmentIdx fid)) as [segment|]; [|discriminate].
  cbn [mbind result_bind].
  destruct (at_ segment (frameIdx fid)) as [trainFrame|]; [|discriminate].
  cbn [mbind result_bind].
  destruct (Matcher.matchFeatures _ _ _) as [[matches warnings]|]; [|discriminate].
  cbn [mbind result_bind].
  set (s1 := fold_left (fun s w => print s [str w]) warnings s).
  assert (Hs1 : sameScene s s1).
  { subst s1. apply fold_left_invariant; [apply sameScene_refl|].
    intros a w Ha. eapply sameScene_trans; [exact Ha|apply print_sameScene]. }
  destruct (_ <? _)%nat; [now intros [= <- _]|].
  destruct (correspondences _ _ _ _ _) as [[[corr ip] sp]|]; [|discriminate].
  cbn [mbind result_bind].
  destruct (_ <? _)%nat; [now intros [= <- _]|].
  destruct (solvePnPRansac _ _ _) as [[rvec tvec] inliers].
  destruct (_ <? _)%nat; [now intros [= <- _]|].
  destruct (_ <? _)%nat; [|now intros [= <- _]].
  destruct (mapM _ _); [|discriminate]. cbn [mbind result_bind].
  now intros [= <- _].
Qed.

Lemma candidates_sameScene frame rk thr cands s best s' best' :
  foldM (tryCandidate frame rk thr) cands (s, best) = Ok (s', best') ->
  sameScene s s'.
Proof.
  intros H. change s' with (s', best').1.
  eapply (foldM_invariant (fun st => sameScene s st.1)); [| |exact H].
  - apply sameScene_refl.
  - intros [sa ba] fid [sb bb] Ha Hf. cbn [fst] in *.
    eapply sameScene_trans; [exact Ha|].
    eapply tryCandidate_sameScene; exact Hf.
Qed.

Lemma estimateCameraPose_distinct s image ts frame pre s' frame' :
  estimateCameraPose s image ts frame pre = Ok (s', frame') ->
  distinctInstances s -> distinctInstances s'.
Proof.
  unfold estimateCameraPose. cbv zeta. intros H Hd.
  bind_in H. bind_in H. destruct a0 as [s1 best].
  apply candidates_sameScene in Eb0.
  pose proof (sameScene_distinct _ _ Eb0 Hd) as Hd1.
  destruct (_ <? _)%nat.
  { injection H as <- <-. exact Hd1. }
  match type of H with
  | context [storeCorrespondences ts ?sa ?fa ?ca] =>
      pose proof (storeCorrespondences_distinct ts sa fa ca
                    (sameScene_distinct _ _ (info_sameScene _ _) Hd1)) as Hd2;
      destruct (storeCorrespondences ts sa fa ca) as [s2 frame2]
  end.
  cbn [fst] in Hd2.
  destruct (m_verbose s2).
  - bind_in H. bind_in H. injection H as <- <-.
    repeat (eapply sameScene_distinct; [apply print_sameScene|]). exact Hd2.
  - injection H as <- <-. exact Hd2.
Qed.

Lemma localizeAll_distinct s images ts pre s' localized :
  localizeAll s images ts pre = Ok (s', localized) ->
  distinctInstances s -> distinctInstances s'.
Proof.
  unfold localizeAll. intros H Hd. change s' with (s', localized).1.
  eapply (foldM_invariant (fun st => distinctInstances st.1)); [| |exact H].
  - exact Hd.
  - intros [sa la] i [sb lb] Ha Hf. cbn [fst] in *.
    bind_in Hf. bind_in Hf. destruct a0 as [s2 f2].
    injection Hf as <- _. eapply estimateCameraPose_distinct; eauto.
Qed.

(** "The scene points of [s0] are still there in [s] with their
    coordinates, and every scene point the map of [s] hands out has the
    coordinates that its reference point had in [s0]." *)
Definition settled (s0 s : Calibration) : Prop :=
  (forall x o, heap s0 !! x = Some o ->
     exists o', heap s !! x = Some o' /\ point o' = point o) /\
  (forall k a, m_feature3DMap s !! k = Some a ->
     is_Some (heap s0 !! k) /\
     exists o, heap s !! a = Some o /\ point o = point (deref (heap s0) k)).

Lemma storeCorrespondence_settled s0 s p2D p3D :
  settled s0 s -> is_Some (heap s0 !! p3D) ->
  settled s0 (storeCorrespondence s p2D p3D).1.
Proof.
  intros [Hkeep Hmap] [o0 Ho0].
  destruct (storeCorrespondence_cases s p2D p3D)
    as [(a & Ha & ->)|(Hnone & ->)]; unfold settled;
    cbn [fst m_feature3DMap heap set_features].
  - assert (Halter : forall x o, heap s !! x = Some o ->
              exists o', alter (observe p2D) a (heap s) !! x = Some o' /\
                         point o' = point o).
    { intros x o Hx. destruct (decide (a = x)) as [->|Hne].
      - rewrite lookup_alter_eq, Hx. simpl. eauto.
      - rewrite lookup_alter_ne by exact Hne. eauto. }
    split.
    + intros x o Hx. destruct (Hkeep x o Hx) as (o' & Ho' & Hp).
      destruct (Halter x o' Ho') as (o'' & Ho'' & Hp'). exists o''.
      split; [exact Ho''|congruence].
    + intros k b Hk. destruct (Hmap k b Hk) as (Hk0 & o & Ho & Hp).
      split; [exact Hk0|].
      destruct (Halter b o Ho) as (o' & Ho' & Hp'). exists o'.
      split; [exact Ho'|congruence].
  - pose proof (fresh_unallocated (heap s)) as Hfresh.
    assert (Hins : forall x o, heap s !! x = Some o ->
              <[fresh (dom (heap s)) :=
                  {| point := point (deref (heap s) p3D);
                     observations := [p2D] |}]> (heap s) !! x = Some o).
    { intros x o Hx. rewrite lookup_insert_ne; [exact Hx|].
      intros <-. congruence. }
    split.
    + intros x o Hx. destruct (Hkeep x o Hx) as (o' & Ho' & Hp).
      exists o'. split; [now apply Hins|exact Hp].
    + intros k b Hk. destruct (decide (k = p3D)) as [->|Hne].
      * rewrite lookup_insert_eq in Hk. injection Hk as <-.
        split; [eauto|]. rewrite lookup_insert_eq. eexists.
        split; [reflexivity|]. cbn [point].
        destruct (Hkeep p3D o0 Ho0) as (o' & Ho' & Hp).
        unfold deref. now rewrite Ho', Ho0.
      * rewrite lookup_insert_ne in Hk by congruence.
        destruct (Hmap k b Hk) as (Hk0 & o & Ho & Hp).
        split; [exact Hk0|]. exists o. split; [now apply Hins|exact Hp].
Qed.

(** "Every iteration done so far has left its 2D feature in the
    observation list of the scene point that the map holds for its
    reference point." *)
Definition listed (frames0 : list Frame) (ts : Z) (s : Calibration)
    (done : list (nat * nat * addr)) : Prop :=
  forall t q k, (t, q, k) ∈ done ->
    exists fr a o,
      frames0 !! t = Some fr /\ m_feature3DMap s !! k = Some a /\
      heap s !! a = Some o /\
      {| ref_camera := cameraId fr; ref_timestamp := ts; ref_index := q |}
        ∈ observations o.

(** What an iteration does to the observation lists: the one of the
    scene point it returns gains the 2D feature, and none loses
    anything. *)
Lemma storeCorrespondence_observations s0 s p2D p3D :
  settled s0 s ->
  let r := storeCorrespondence s p2D p3D in
  (exists o, heap r.1 !! r.2 = Some o /\ p2D ∈ observations o) /\
  (forall x o p, heap s !! x = Some o -> p ∈ observations o ->
     exists o', heap r.1 !! x = Some o' /\ p ∈ observations o').
Proof.
  intros [Hkeep Hmap].
  destruct (storeCorrespondence_cases s p2D p3D)
    as [(a & Ha & ->)|(Hnone & ->)]; cbv zeta;
    cbn [fst snd m_feature3DMap heap set_features].
  - destruct (Hmap _ _ Ha) as (_ & o & Ho & _). split.
    + rewrite lookup_alter_eq, Ho. simpl. eexists. split; [reflexivity|].
      cbn [observations]. apply elem_of_app. right. constructor.
    + intros x o1 p Hx Hp. destruct (decide (a = x)) as [->|Hne].
      * rewrite lookup_alter_eq, Hx. simpl. eexists. split; [reflexivity|].
        cbn [observations]. apply elem_of_app. now left.
      * rewrite lookup_alter_ne by exact Hne. eauto.
  - pose proof (fresh_unallocated (heap s)) as Hfresh. split.
    + rewrite lookup_insert_eq. eexists. split; [reflexivity|]. constructor.
    + intros x o1 p Hx Hp. rewrite lookup_insert_ne; [eauto|].
      intros <-. congruence.
Qed.

Lemma storeInterleaved_scene ts s0 frames0 steps :
  settled s0 s0 ->
  (forall t q k, (t, q, k) ∈ steps ->
     is_Some (heap s0 !! k) /\ is_Some (frames0 !! t)) ->
  let st' := storeInterleaved ts (s0, frames0) steps in
  settled s0 st'.1 /\ listed frames0 ts st'.1 steps /\
  map cameraId st'.2 = map cameraId frames0.
Proof.
  intros H0. induction steps as [|[[t q] k] steps IH] using rev_ind;
    intros Hsteps; cbv zeta.
  { split; [exact H0|]. split; [|reflexivity].
    intros t q k Hin. inversion Hin. }
  destruct IH as (Hset & Hlist & Hcam).
  { intros t' q' k' Hin. apply (Hsteps t' q' k'), elem_of_app. now left. }
  destruct (Hsteps t q k) as [Hk [fr0 Hfr0]].
  { apply elem_of_app. right. constructor. }
  rewrite storeInterleaved_snoc.
  destruct (storeInterleaved ts (s0, frames0) steps) as [s1 fr1].
  cbn [fst snd] in *.
  assert (Hfr1 : exists frame, fr1 !! t = Some frame /\
                               cameraId frame = cameraId fr0).
  { assert (Hl : map cameraId fr1 !! t = Some (cameraId fr0)).
    { rewrite Hcam, list_lookup_fmap, Hfr0. reflexivity. }
    rewrite list_lookup_fmap in Hl.
    destruct (fr1 !! t) as [frame|]; [|discriminate].
    injection Hl as Hl. eauto. }
  destruct Hfr1 as (frame & Hframe & Hid).
  cbn [storeInterleaved fold_left]. rewrite Hframe. unfold storeStep.
  pose proof (storeCorrespondence_settled s0 s1
                {| ref_camera := cameraId frame; ref_timestamp := ts;
                   ref_index := q |} k Hset Hk) as Hset2.
  pose proof (storeCorrespondence_observations s0 s1
                {| ref_camera := cameraId frame; ref_timestamp := ts;
                   ref_index := q |} k Hset) as Hobs.
  pose proof (storeCorrespondence_map s1
                {| ref_camera := cameraId frame; ref_timestamp := ts;
                   ref_index := q |} k) as Hmap.
  destruct (storeCorrespondence _ _ _) as [s2 a]. cbv zeta in Hobs.
  cbn [fst snd] in *. destruct (Hmap s2 a eq_refl) as [Hka Hmono].
  destruct Hobs as [(o & Ho & Hin) Hmore].
  split; [exact Hset2|]. split.
  - intros t' q' k' [Hold|Hnew%list_elem_of_singleton]%elem_of_app.
    + destruct (Hlist t' q' k' Hold) as (fr & b & ob & Hfr & Hb & Hob & Hp).
      destruct (Hmore b ob _ Hob Hp) as (ob' & Hob' & Hp').
      exists fr, b, ob'. auto.
    + injection Hnew as -> -> ->. exists fr0, a, o.
      rewrite <- Hid. auto.
  - rewrite <- Hcam. apply list_eq. intros i.
    rewrite !list_lookup_fmap.
    destruct (decide (i = t)) as [->|Hne].
    + rewrite list_lookup_insert_eq by (eapply lookup_lt_Some; eauto).
      now rewrite Hframe.
    + now rewrite list_lookup_insert_ne.
Qed.

(** X4.  Whatever the interleaving of the store loops, a 2D feature whose
    correspondence was stored is attached to a scene point that has the
    coordinates of the point of the reference map it was matched to and
    that lists the feature among its observations. *)
Theorem stored_feature_linked ts s frames steps t q k :
  settled s s ->
  NoDup (map fst steps) ->
  (forall tq, tq ∈ map fst steps -> valid frames tq) ->
  (forall t q k, (t, q, k) ∈ steps -> is_Some (heap s !! k)) ->
  (t, q, k) ∈ steps ->
  let st' := storeInterleaved ts (s, frames) steps in
  exists fr a o,
    frames !! t = Some fr /\
    attached st'.2 t q = Some a /\ heap st'.1 !! a = Some o /\
    point o = point (deref (heap s) k) /\
    {| ref_camera := cameraId fr; ref_timestamp := ts; ref_index := q |}
      ∈ observations o.
Proof.
  intros H0 Hnd Hv Hk Hin st'.
  destruct (storeInterleaved_consistent ts (s, frames) steps Hnd Hv)
    as [Hc _].
  destruct (storeInterleaved_scene ts s frames steps H0)
    as (Hset & Hlist & _).
  { intros t' q' k' Hin'. split; [eapply Hk; eauto|].
    destruct (Hv (t', q')) as (fr & Hfr & _); [|eauto].
    apply list_elem_of_fmap. exists (t', q', k'). auto. }
  fold st' in Hc, Hset, Hlist.
  destruct (Hc _ _ _ Hin) as (a & Ha & Hatt).
  destruct (Hlist _ _ _ Hin) as (fr & b & o & Hfr & Hb & Ho & Hp).
  rewrite Ha in Hb. injection Hb as <-.
  destruct Hset as [_ Hmap].
  destruct (Hmap _ _ Ha) as (_ & o' & Ho' & Hpt).
  rewrite Ho in Ho'. injection Ho' as <-.
  exists fr, a, o. auto.
Qed.

(** X3.  Different points of the reference map are never served by the
    same scene point: the scene-point map is injective and hands out
    allocated scene points only.  This holds for a new object and after
    [reset], and every [addFrameSet] keeps it. *)
Theorem addFrameSet_distinct_instances :
  (forall cameras verbose,
     distinctInstances (InfrastructureCalibration_new cameras verbose)) /\
  (forall s, distinctInstances (reset s)) /\
  (forall s images ts pre s',
     distinctInstances s -> addFrameSet s images ts pre = Ok s' ->
     distinctInstances s').
Proof.
  assert (Hempty : forall s, m_feature3DMap s = ∅ -> distinctInstances s).
  { intros s Hs. split; intros *; rewrite Hs, lookup_empty; discriminate. }
  split; [|split].
  - intros cameras verbose. now apply Hempty.
  - intros s. now apply Hempty.
  - intros s images ts pre s' Hd H. unfold addFrameSet in H.
    destruct (negb _).
    { injection H as <-. eapply sameScene_distinct; [apply print_sameScene|].
      exact Hd. }
    bind_in H. destruct a as [s1 localized].
    apply localizeAll_distinct in Eb; [|exact Hd].
    destruct (_ <? _)%nat. { now injection H as <-. }
    bind_in H. destruct a as [s2 add].
    assert (Hd2 : distinctInstances s2).
    { unfold keyFrameGate in Eb0. destruct (last (m_framesets s1)).
      - bind_in Eb0. bind_in Eb0. bind_in Eb0.
        destruct (_ && _); injection Eb0 as <- _; [exact Eb|].
        eapply sameScene_distinct; [apply info_sameScene|exact Eb].
      - injection Eb0 as <- _. exact Eb. }
    destruct add; cbn [negb] in H; injection H as <-; [|exact Hd2].
    eapply sameScene_distinct; [apply info_sameScene|]. exact Hd2.
Qed.

End Generic.

Lemma addFrameSet_distinct_instances_witness :
  distinctInstances (E := Toy.externals) Toy.start /\
  addFrameSet (E := Toy.externals) Toy.start [Toy.view 0; Toy.view 0] 0 false
    = Ok Toy.first /\
  distinctInstances (E := Toy.externals) Toy.first.
Proof.
  assert (H0 : distinctInstances (E := Toy.externals) Toy.start).
  { split; intros *; unfold Toy.start; cbn [m_feature3DMap];
      rewrite lookup_empty; discriminate. }
  assert (H1 : addFrameSet (E := Toy.externals) Toy.start
                 [Toy.view 0; Toy.view 0] 0 false = Ok Toy.first)
    by by_evaluation.
  split; [exact H0|]. split; [exact H1|].
  exact (proj2 (proj2 (addFrameSet_distinct_instances (E := Toy.externals)))
           Toy.start [Toy.view 0; Toy.view 0] 0 false Toy.first H0 H1).
Defined.

Lemma stored_feature_linked_witness :
  let st := storeInterleaved 0 (exStore, [exFrame 0; exFrame 1])
              [(0%nat, 0%nat, 1%positive); (1%nat, 0%nat, 1%positive)] in
  exists fr a o,
    [exFrame 0; exFrame 1] !! 1%nat = Some fr /\
    attached st.2 1 0 = Some a /\ heap st.1 !! a = Some o /\
    point o = point (deref (heap exStore) 1%positive) /\
    {| ref_camera := cameraId fr; ref_timestamp := 0; ref_index := 0 |}
      ∈ observations o.
Proof.
  apply (stored_feature_linked (E := Toy.externals) 0 exStore
           [exFrame 0; exFrame 1]
           [(0%nat, 0%nat, 1%positive); (1%nat, 0%nat, 1%positive)]).
  - split.
    + intros x o Hx. eauto.
    + intros k a Hk. unfold exStore in Hk. cbn in Hk.
      rewrite lookup_empty in Hk. discriminate.
  - apply (bool_decide_unpack _). vm_compute. reflexivity.
  - intros tq Htq. simpl in Htq.
    apply elem_of_cons in Htq as [->|Htq].
    { exists (exFrame 0). split; [reflexivity|simpl; lia]. }
    apply elem_of_cons in Htq as [->|Htq].
    { exists (exFrame 1). split; [reflexivity|simpl; lia]. }
    inversion Htq.
  - intros t q k Hin.
    repeat (apply elem_of_cons in Hin as [Heq|Hin];
            [injection Heq as -> -> ->; eexists; reflexivity|]).
    inversion Hin.
  - apply list_elem_of_further, list_elem_of_here.
Defined.

End SceneMapFacts.

(** ** What localisation and [addFrameSet] leave behind *)

Module LocalisationFacts.
Import FrameSetFacts.

Section Generic.
Context {E : Externals}.

(** A 2D feature without its scene point. *)
Definition detection (f : Point2DFeature)
    : IEEE.float32 * IEEE.float32 * Mat * nat :=
  (keypoint f, descriptor f, index f).

(** The features a frame holds once [estimateCameraPose] has filled it
    from the image: those it had, then one per key point, numbered from
    0, without a scene point. *)
Definition detectedFeatures (frame : Frame) (image : Image)
    (preprocess : bool) : list Point2DFeature :=
  features2D frame ++
  imap (fun i kd => {| keypoint := fst kd; descriptor := snd kd;
                       index := i; feature3D := None |})
       (surf_detectAndCompute
          (if preprocess then equalizeHist image else image)).

Lemma map_alter_same {A B} (f : A -> B) (g : A -> A) i (l : list A) :
  (forall x, f (g x) = f x) -> map f (alter g i l) = map f l.
Proof.
  intros H. revert i. induction l as [|x l IH]; intros [|i]; simpl;
    try reflexivity.
  - now rewrite H.
  - f_equal. apply IH.
Qed.

Lemma storeCorrespondences_features ts s frame corr :
  map detection (features2D (storeCorrespondences ts s frame corr).2)
    = map detection (features2D frame) /\
  odometry (storeCorrespondences ts s frame corr).2 = odometry frame.
Proof.
  unfold storeCorrespondences.
  apply (fold_left_invariant
           (fun st => map detection (features2D st.2)
                        = map detection (features2D frame) /\
                      odometry st.2 = odometry frame)).
  - auto.
  - intros [s1 f1] [q k] [Hf Ho]. unfold storeStep.
    destruct (storeCorrespondence _ _ _) as [s2 a]. cbn [fst snd] in *.
    cbn [features2D odometry Frame_set_features]. split; [|exact Ho].
    rewrite map_alter_same; [exact Hf|]. reflexivity.
Qed.

(** How a call of [estimateCameraPose] can end. *)
Lemma estimateCameraPose_post s image ts frame pre s' frame' :
  estimateCameraPose s image ts frame pre = Ok (s', frame') ->
  cameraId frame' = cameraId frame /\ odometry frame' = odometry frame /\
  ((camera frame' = camera frame /\
    features2D frame' = detectedFeatures frame image pre) \/
   (exists pose stored,
      camera frame' = Some pose /\ timeStamp pose = ts /\
      map detection stored
        = map detection (detectedFeatures frame image pre) /\
      features2D frame' = List.filter has_feature3D stored)).
Proof.
  unfold estimateCameraPose, detectedFeatures. cbv zeta. intros H.
  bind_in H. bind_in H. destruct a0 as [s1 best].
  destruct (_ <? _)%nat.
  { injection H as <- <-. cbn. auto. }
  match type of H with
  | context [storeCorrespondences ts ?sa ?fa ?ca] =>
      pose proof (storeCorrespondences_untouched ts sa fa ca)
        as (_ & Hid & Hcam);
      pose proof (storeCorrespondences_features ts sa fa ca) as (Hfeat & Hodo);
      destruct (storeCorrespondences ts sa fa ca) as [s2 frame2]
  end.
  cbn [fst snd cameraId camera odometry features2D
       Frame_set_camera Frame_set_features] in Hid, Hcam, Hfeat, Hodo.
  assert (Hfr : frame' = Frame_set_features frame2
                  (List.filter has_feature3D (features2D frame2))).
  { destruct (m_verbose s2).
    - bind_in H. bind_in H. now injection H as <- <-.
    - now injection H as <- <-. }
  subst frame'. cbn [cameraId camera odometry features2D Frame_set_features].
  split; [exact Hid|]. split; [exact Hodo|]. right.
  eexists _, (features2D frame2). split; [exact Hcam|].
  split; [reflexivity|]. split; [exact Hfeat|reflexivity].
Qed.

(** X5.  [estimateCameraPose] either leaves the frame without a pose,
    holding every detected feature, or gives it a pose stamped with the
    timestamp of the call and keeps, in their order, exactly the detected
    features that received a scene point.  Camera id and odometry are not
    touched. *)
Theorem estimateCameraPose_prunes s image ts frame pre s' frame' :
  estimateCameraPose s image ts frame pre = Ok (s', frame') ->
  cameraId frame' = cameraId frame /\ odometry frame' = odometry frame /\
  ((camera frame' = camera frame /\
    features2D frame' = detectedFeatures frame image pre) \/
   (exists pose stored,
      camera frame' = Some pose /\ timeStamp pose = ts /\
      map detection stored
        = map detection (detectedFeatures frame image pre) /\
      features2D frame' = List.filter has_feature3D stored /\
      forall f, f ∈ features2D frame' -> feature3D f <> None)).
Proof.
  intros H.
  destruct (estimateCameraPose_post _ _ _ _ _ _ _ H)
    as (Hid & Hodo & [Hno|(pose & stored & Hc & Hts & Hd & Hf)]).
  - auto.
  - split; [exact Hid|]. split; [exact Hodo|]. right.
    exists pose, stored. do 4 (split; [assumption|]).
    intros f Hin. rewrite Hf in Hin.
    apply list_elem_of_In, filter_In in Hin as [_ Hin].
    unfold has_feature3D in Hin. destruct (feature3D f); congruence.
Qed.

(** A frame as [addFrameSet] may put it into a frame set. *)
Definition localisedAt (ts : Z) (f : Frame) : Prop :=
  (exists pose, camera f = Some pose /\ timeStamp pose = ts) /\
  odometry f = None /\
  forall p, p ∈ features2D f -> feature3D p <> None.

Lemma localizeAll_frames s images ts pre s' localized :
  localizeAll s images ts pre = Ok (s', localized) ->
  forall f, f ∈ localized -> camera f <> None -> localisedAt ts f.
Proof.
  unfold localizeAll. intros H.
  change localized with (s', localized).2.
  eapply (foldM_invariant
            (fun st => forall f, f ∈ st.2 -> camera f <> None ->
                                 localisedAt ts f)); [| |exact H].
  - intros f Hf. inversion Hf.
  - intros [sa la] i [sb lb] Ha Hf. cbn [snd] in *.
    bind_in Hf. bind_in Hf. destruct a0 as [s2 f2].
    injection Hf as _ <-.
    intros f [Hin|Hin%list_elem_of_singleton]%elem_of_app; [now apply Ha|].
    subst f. intros Hcam.
    destruct (estimateCameraPose_post _ _ _ _ _ _ _ Eb0)
      as (_ & Hodo & [[Hno _]|(pose & stored & Hc & Hts & _ & Hfe)]).
    + cbn in Hno. congruence.
    + split; [eauto|]. split; [exact Hodo|].
      intros p Hp. rewrite Hfe in Hp.
      apply list_elem_of_In, filter_In in Hp as [_ Hp].
      unfold has_feature3D in Hp. destruct (feature3D p); congruence.
Qed.

Lemma filter_map_sublist {A B} (g : A -> B) (p : A -> bool) (l : list A) :
  map g (List.filter p l) `sublist_of` map g l.
Proof.
  induction l as [|x l IH]; simpl; [constructor|].
  destruct (p x); simpl; now constructor.
Qed.

(** What [addFrameSet] does besides localising. *)
Lemma addFrameSet_cases s images ts pre s' :
  addFrameSet s images ts pre = Ok s' ->
  untouched s (set_framesets s' (m_framesets s)) /\
  (m_framesets s' = m_framesets s \/
   exists s1 localized,
     localizeAll s images ts pre = Ok (s1, localized) /\
     (2 <= length (List.filter has_camera localized))%nat /\
     m_framesets s' =
       m_framesets s ++ [{| frames := List.filter has_camera localized;
                            timestamp := ts |}]).
Proof.
  unfold addFrameSet. intros H.
  destruct (negb _).
  { injection H as <-. split; [repeat split|now left]. }
  bind_in H. destruct a as [s1 localized].
  pose proof (localizeAll_spec _ _ _ _ _ _ Eb) as [Hu _].
  cbn [frames] in H.
  destruct (Nat.ltb_spec (length (List.filter has_camera localized)) 2)
    as [Hlt|Hge].
  { injection H as <-. destruct Hu as (Hf & Hc & Hv & He & Hr).
    split; [repeat split; assumption|now left]. }
  bind_in H. destruct a as [s2 add].
  pose proof (keyFrameGate_untouched _ _ _ _ Eb0) as Hu2.
  pose proof (untouched_trans _ _ _ Hu Hu2) as (Hf & Hc & Hv & He & Hr).
  destruct add; cbn [negb] in H; injection H as <-.
  - assert (Hi : forall x l, untouched x (info x l) /\
                             m_framesets (info x l) = m_framesets x).
    { intros x l. split; [apply info_untouched|].
      unfold info. destruct (m_verbose x); reflexivity. }
    match goal with
    | |- context [info ?x ?l] =>
        destruct (Hi x l) as [(_ & Hc' & Hv' & He' & Hr') Hf'];
        remember (info x l) as s3 eqn:Es3
    end.
    clear Es3.
    cbn [m_framesets m_cameras m_verbose m_extrinsics m_refGraph
         set_framesets] in Hc', Hv', He', Hr', Hf'.
    split.
    + repeat split; cbn [m_framesets m_cameras m_verbose m_extrinsics
                         m_refGraph set_framesets]; congruence.
    + right. exists s1, localized. split; [reflexivity|]. split; [exact Hge|].
      rewrite Hf'. now rewrite Hf.
  - split; [repeat split; assumption|now left].
Qed.

(** X6.  [addFrameSet] only ever appends: the frame sets held before the
    call are kept, in their order, followed by at most one new frame set,
    which carries the timestamp of the call.  Cameras, extrinsics,
    reference map and verbosity are left as they were. *)
Theorem addFrameSet_appends s images ts pre s' :
  addFrameSet s images ts pre = Ok s' ->
  m_cameras s' = m_cameras s /\ m_extrinsics s' = m_extrinsics s /\
  m_refGraph s' = m_refGraph s /\ m_verbose s' = m_verbose s /\
  (m_framesets s' = m_framesets s \/
   exists fs, m_framesets s' = m_framesets s ++ [fs] /\ timestamp fs = ts).
Proof.
  intros H.
  destruct (addFrameSet_cases _ _ _ _ _ H)
    as [(_ & Hc & Hv & He & Hr) Hfs].
  do 4 (split; [assumption|]).
  destruct Hfs as [Hsame|(s1 & localized & _ & _ & Happ)]; [now left|].
  right. eexists. split; [exact Happ|reflexivity].
Qed.

(** X7.  A frame set appended by [addFrameSet] holds at most one frame per
    camera, in the order of the cameras: its camera ids are a subsequence
    of [0 .. cameras - 1] without repetition.  Each of its frames has a
    pose stamped with the timestamp of the set, no odometry yet, and only
    features with a scene point. *)
Theorem addFrameSet_accepted_set s images ts pre s' fs :
  addFrameSet s images ts pre = Ok s' ->
  m_framesets s' = m_framesets s ++ [fs] ->
  map cameraId (frames fs) `sublist_of` seq 0 (length (m_cameras s)) /\
  NoDup (map cameraId (frames fs)) /\
  timestamp fs = ts /\
  forall f, f ∈ frames fs -> localisedAt ts f.
Proof.
  intros H Hs'.
  destruct (addFrameSet_cases _ _ _ _ _ H)
    as [_ [Hsame|(s1 & localized & Hloc & _ & Happ)]].
  { rewrite Hsame in Hs'. apply (f_equal length) in Hs'.
    rewrite length_app in Hs'. simpl in Hs'. lia. }
  rewrite Happ in Hs'. apply app_inj_tail in Hs' as [_ <-]. cbn [frames timestamp].
  pose proof (localizeAll_spec _ _ _ _ _ _ Hloc) as [_ Hids].
  assert (Hsub : map cameraId (List.filter has_camera localized)
                  `sublist_of` seq 0 (length (m_cameras s))).
  { rewrite <- Hids. apply filter_map_sublist. }
  split; [exact Hsub|]. split.
  - eapply sublist_NoDup; [apply NoDup_seq|exact Hsub].
  - split; [reflexivity|]. intros f Hf.
    pose proof (has_camera_filter _ _ Hf) as Hcam.
    apply list_elem_of_In, filter_In in Hf as [Hf _].
    apply list_elem_of_In in Hf.
    eapply localizeAll_frames; eauto.
Qed.

End Generic.

Lemma estimateCameraPose_prunes_witness :
  exists s' frame',
    estimateCameraPose (E := Toy.externals) Toy.start (Toy.view 0) 0
      {| cameraId := 0; camera := None; odometry := None; features2D := [] |}
      false = Ok (s', frame') /\
    exists pose, camera frame' = Some pose /\ timeStamp pose = 0 /\
      forall f, f ∈ features2D frame' -> feature3D f <> None.
Proof.
  destruct (estimateCameraPose (E := Toy.externals) Toy.start (Toy.view 0) 0
              {| cameraId := 0; camera := None; odometry := None;
                 features2D := [] |} false) as [[s' frame']|e] eqn:He.
  - exists s', frame'. split; [reflexivity|].
    destruct (estimateCameraPose_prunes (E := Toy.externals) _ _ _ _ _ _ _ He)
      as (_ & _ & [[Hno _]|(pose & stored & Hc & Hts & _ & _ & Hall)]).
    + exfalso. revert Hno.
      assert (Hcam : has_camera frame' = true).
      { change frame' with (s', frame').2.
        change (s', frame') with
          (match Ok (s', frame') with Ok r => r | Throw _ => (s', frame') end).
        rewrite <- He. by_evaluation. }
      unfold has_camera in Hcam. cbn [camera].
      destruct (camera frame'); [discriminate|discriminate].
    + exists pose. auto.
  - exfalso.
    assert (Hok : match estimateCameraPose (E := Toy.externals) Toy.start
                          (Toy.view 0) 0
                          {| cameraId := 0; camera := None; odometry := None;
                             features2D := [] |} false with
                  | Ok _ => true | Throw _ => false end = true)
      by by_evaluation.
    rewrite He in Hok. discriminate.
Defined.

Lemma addFrameSet_appends_witness :
  m_cameras Toy.third = m_cameras Toy.first /\
  m_extrinsics Toy.third = m_extrinsics Toy.first /\
  m_refGraph Toy.third = m_refGraph Toy.first /\
  m_verbose Toy.third = m_verbose Toy.first /\
  (m_framesets Toy.third = m_framesets Toy.first \/
   exists fs, m_framesets Toy.third = m_framesets Toy.first ++ [fs] /\
              timestamp fs = 2).
Proof.
  apply (addFrameSet_appends (E := Toy.externals) Toy.first
           [Toy.view 2; Toy.view 2] 2 false Toy.third).
  by_evaluation.
Defined.

Lemma addFrameSet_accepted_set_witness :
  exists fs,
    m_framesets Toy.third = m_framesets Toy.first ++ [fs] /\
    map cameraId (frames fs) `sublist_of` seq 0 (length (m_cameras Toy.first)) /\
    NoDup (map cameraId (frames fs)) /\
    timestamp fs = 2 /\
    forall f, f ∈ frames fs -> localisedAt 2 f.
Proof.
  exists {| frames := List.filter has_camera Toy.localized2.2;
            timestamp := 2 |}.
  assert (Happ : m_framesets Toy.third
                 = m_framesets Toy.first ++
                   [{| frames := List.filter has_camera Toy.localized2.2;
                       timestamp := 2 |}]) by by_evaluation.
  split; [exact Happ|].
  apply (addFrameSet_accepted_set (E := Toy.externals) Toy.first
           [Toy.view 2; Toy.view 2] 2 false Toy.third).
  - by_evaluation.
  - exact Happ.
Defined.

End LocalisationFacts.

(** ** The reprojection-error statistics *)

Module StatisticsFacts.
Import FrameSetFacts.

Lemma SFcompare_le_Lt_trans x y z :
  SFcompare y x <> Some Lt -> SFcompare y z = Some Lt ->
  IEEE.is_nan x = false -> SFcompare x z = Some Lt.
Proof.
  destruct x as [[]|[]| |[] mx ex], y as [[]|[]| |[] my ey],
           z as [[]|[]| |[] mz ez]; simpl; try congruence;
    intros Hyx Hyz _; IEEE.cmp_cases; try congruence; try lia; exfalso;
    try (apply Hyx; reflexivity); try lia.
Qed.

(** Not [y < x], for a number [x], and [y < z] give [x < z]. *)
Lemma fle_lt_trans x y z :
  IEEE.flt y x = false -> IEEE.flt y z = true -> IEEE.is_nan x = false ->
  IEEE.flt x z = true.
Proof.
  unfold IEEE.flt, SFltb. intros Hyx Hyz Hx.
  destruct (SFcompare y z) as [[]|] eqn:E1; try discriminate.
  rewrite (SFcompare_le_Lt_trans x y z); [reflexivity| |exact E1|exact Hx].
  destruct (SFcompare y x) as [[]|]; congruence.
Qed.

(** The step of the maximum loop. *)
Definition maxStep (m e : IEEE.double) : IEEE.double :=
  if IEEE.flt m e then e else m.

Lemma maxStep_fold es k0 :
  IEEE.is_nan k0 = false ->
  let k := fold_left maxStep es k0 in
  IEEE.is_nan k = false /\
  (k = k0 \/ (k ∈ es /\ IEEE.flt k0 k = true)) /\
  IEEE.flt k k0 = false /\
  (forall e, e ∈ es -> IEEE.flt k e = false).
Proof.
  revert k0. induction es as [|e es IH]; intros k0 Hk0; simpl.
  - repeat split; auto using IEEE.flt_irrefl. intros e He. inversion He.
  - assert (Hk1 : IEEE.is_nan (maxStep k0 e) = false).
    { unfold maxStep. destruct (IEEE.flt k0 e) eqn:Ee; [|exact Hk0].
      now apply IEEE.flt_not_nan in Ee. }
    destruct (IH _ Hk1) as (Hn & Hsel & Hge & Hall).
    set (k := fold_left maxStep es (maxStep k0 e)) in *.
    unfold maxStep in Hsel, Hge.
    split; [exact Hn|]. destruct (IEEE.flt k0 e) eqn:Ee.
    + split; [|split].
      * right. destruct Hsel as [->|[Hin Hlt]].
        -- split; [constructor|exact Ee].
        -- split; [now constructor|]. eapply IEEE.flt_trans; eauto.
      * destruct (IEEE.flt k k0) eqn:Ek; [|reflexivity].
        rewrite (IEEE.flt_trans _ _ _ Ek Ee) in Hge. discriminate.
      * intros e' He'. apply elem_of_cons in He' as [Heq|He']; [subst e'|auto].
        exact Hge.
    + split; [|split].
      * destruct Hsel as [->|[Hin Hlt]]; [now left|right].
        split; [now constructor|exact Hlt].
      * exact Hge.
      * intros e' He'. apply elem_of_cons in He' as [Heq|He']; [subst e'|auto].
        destruct (IEEE.flt k e) eqn:Ek; [|reflexivity].
        rewrite (fle_lt_trans _ _ _ Hge Ek Hk0) in Ee. discriminate.
Qed.

Section Generic.
Context {E : Externals}.

(** What the accumulation returns for at least one error. *)
Lemma frameStats_bounds errors :
  errors <> [] ->
  let st := frameStats errors in
  featureCount st = length errors /\
  avgError st = IEEE.ddiv (fold_left IEEE.dadd errors IEEE.dzero)
                          (IEEE.double_of_nat (length errors)) /\
  (forall e, e ∈ errors ->
     IEEE.flt e (minError st) = false /\ IEEE.flt (maxError st) e = false) /\
  (minError st = IEEE.DBL_MAX \/ minError st ∈ errors) /\
  (maxError st = DBL_MIN \/ maxError st ∈ errors) /\
  IEEE.flt (maxError st) DBL_MIN = false.
Proof.
  intros Hne. unfold frameStats. cbv zeta.
  destruct (Nat.eqb_spec (length errors) 0) as [H0|_].
  { destruct errors; [congruence|discriminate]. }
  cbn [featureCount avgError minError maxError].
  change (fold_left (fun m e => if IEEE.fgt m e then e else m) errors
            IEEE.DBL_MAX) with (fold_left minStep errors IEEE.DBL_MAX).
  change (fold_left (fun m e => if IEEE.flt m e then e else m) errors
            DBL_MIN) with (fold_left maxStep errors DBL_MIN).
  destruct (minStep_fold errors IEEE.DBL_MAX IEEE.is_nan_DBL_MAX)
    as (_ & Hmin & _ & Hlow).
  destruct (maxStep_fold errors DBL_MIN eq_refl) as (_ & Hmax & Hge & Hup).
  split; [reflexivity|]. split; [reflexivity|]. split; [|split; [|split]].
  - intros e He. split; [now apply Hlow|now apply Hup].
  - destruct Hmin as [->|[Hin _]]; auto.
  - destruct Hmax as [->|[Hin _]]; auto.
  - exact Hge.
Qed.

(** The errors of the features of a frame that have a scene point,
    against the pose [pose] of the frame. *)
Definition poseErrors (s : Calibration) (frame : Frame) (cam : Camera)
    (pose : Pose) : list IEEE.double :=
  map (fun fP : Point2DFeature * Vector3d =>
         Camera_reprojectionError cam (snd fP) (rotation pose)
           (translation pose) (keypoint (fst fP)))
      (observed s frame).

Lemma frameReprojectionError_eq s frame cam st :
  frameReprojectionError s frame cam = Ok st ->
  (observed s frame = [] /\ st = Stats_zero) \/
  (observed s frame <> [] /\
   exists pose, camera frame = Some pose /\
                st = frameStats (poseErrors s frame cam pose)).
Proof.
  unfold frameReprojectionError, poseErrors.
  destruct (observed s frame) as [|[f P] obs] eqn:Eobs.
  { simpl. intros [= <-]. now left. }
  destruct (camera frame) as [pose|]; [|discriminate].
  rewrite (MatcherFacts.mapM_Ok_map _
             (fun fP : Point2DFeature * Vector3d =>
                Camera_reprojectionError cam (snd fP) (rotation pose)
                  (translation pose) (keypoint (fst fP)))).
  - cbn [mbind result_bind]. intros [= <-]. right.
    split; [discriminate|]. eauto.
  - intros [f' P'] _. reflexivity.
Qed.

(** X8.  [frameReprojectionError] counts the features that have a scene
    point; without any it returns zeros.  Otherwise no error is below the
    reported minimum or above the reported maximum, and the mean is the
    sum divided by the count; but the maximum starts from the least
    positive normal number [DBL_MIN], not from the lowest one, so the
    reported maximum is never below [DBL_MIN]: when every error is
    smaller, it is [DBL_MIN] and not one of the errors. *)
Theorem frameReprojectionError_bounds s frame cam st :
  frameReprojectionError s frame cam = Ok st ->
  featureCount st = length (observed s frame) /\
  (observed s frame = [] -> st = Stats_zero) /\
  (observed s frame <> [] ->
   exists pose, camera frame = Some pose /\
     let errors := poseErrors s frame cam pose in
     avgError st = IEEE.ddiv (fold_left IEEE.dadd errors IEEE.dzero)
                             (IEEE.double_of_nat (length errors)) /\
     (forall e, e ∈ errors ->
        IEEE.flt e (minError st) = false /\
        IEEE.flt (maxError st) e = false) /\
     (minError st = IEEE.DBL_MAX \/ minError st ∈ errors) /\
     (maxError st = DBL_MIN \/ maxError st ∈ errors) /\
     IEEE.flt (maxError st) DBL_MIN = false /\
     ((forall e, e ∈ errors -> IEEE.flt e DBL_MIN = true) ->
      maxError st = DBL_MIN)).
Proof.
  intros H.
  destruct (frameReprojectionError_eq _ _ _ _ H)
    as [[Hnil ->]|(Hne & pose & Hpose & ->)].
  { rewrite Hnil. split; [reflexivity|]. split; [reflexivity|congruence]. }
  assert (Hne' : poseErrors s frame cam pose <> []).
  { unfold poseErrors. intros Hnil. apply map_eq_nil in Hnil. congruence. }
  destruct (frameStats_bounds _ Hne')
    as (Hcount & Havg & Hbound & Hmin & Hmax & Hge).
  split. { rewrite Hcount. unfold poseErrors. apply length_map. }
  split; [congruence|]. intros _. exists pose. split; [exact Hpose|].
  cbv zeta. do 5 (split; [assumption|]).
  intros Hsmall. destruct Hmax as [Heq|Hin]; [exact Heq|].
  apply Hsmall in Hin. congruence.
Qed.

End Generic.

(** A frame whose only error is 0: the reported maximum is [DBL_MIN]. *)
Example frameReprojectionError_zero_error :
  frameReprojectionError (E := Toy.externals) Toy.rig (Toy.shot 0 0 1) 0%nat
  = Ok {| minError := IEEE.dzero; maxError := DBL_MIN;
          avgError := IEEE.dzero; featureCount := 1 |}.
Proof. by_evaluation. Qed.

Lemma frameReprojectionError_bounds_witness :
  let st := {| minError := IEEE.dzero; maxError := DBL_MIN;
               avgError := IEEE.dzero; featureCount := 1 |} in
  featureCount st = length (observed Toy.rig (Toy.shot 0 0 1)) /\
  (observed Toy.rig (Toy.shot 0 0 1) = [] -> st = Stats_zero) /\
  (observed Toy.rig (Toy.shot 0 0 1) <> [] ->
   exists pose, camera (Toy.shot 0 0 1) = Some pose /\
     let errors := poseErrors Toy.rig (Toy.shot 0 0 1) 0%nat pose in
     avgError st = IEEE.ddiv (fold_left IEEE.dadd errors IEEE.dzero)
                             (IEEE.double_of_nat (length errors)) /\
     (forall e, e ∈ errors ->
        IEEE.flt e (minError st) = false /\
        IEEE.flt (maxError st) e = false) /\
     (minError st = IEEE.DBL_MAX \/ minError st ∈ errors) /\
     (maxError st = DBL_MIN \/ maxError st ∈ errors) /\
     IEEE.flt (maxError st) DBL_MIN = false /\
     ((forall e, e ∈ errors -> IEEE.flt e DBL_MIN = true) ->
      maxError st = DBL_MIN)).
Proof.
  apply (frameReprojectionError_bounds (E := Toy.externals) Toy.rig
           (Toy.shot 0 0 1) 0%nat).
  by_evaluation.
Defined.

End StatisticsFacts.

(** ** Persistence: the stored graph and the frame sets *)

Module PersistenceFacts.
Import FrameSetFacts.

Lemma concat_map_cons_at {A B} `{EqDecision A} (F F' : A -> list B) (l : list A) i b :
  NoDup l -> i ∈ l ->
  (forall j, j <> i -> F j = F' j) -> F i = b :: F' i ->
  concat (map F l) ≡ₚ b :: concat (map F' l).
Proof.
  intros Hnd Hi Hother Hat. induction l as [|a l IH]; [inversion Hi|].
  apply NoDup_cons in Hnd as [Ha Hnd]. simpl.
  destruct (decide (a = i)) as [->|Hne].
  - rewrite Hat. simpl.
    replace (map F l) with (map F' l); [reflexivity|].
    apply map_ext_in. intros j Hj. symmetry. apply Hother. intros ->.
    apply Ha. now apply list_elem_of_In.
  - apply elem_of_cons in Hi as [Heq|Hi]; [congruence|].
    rewrite (Hother a Hne), (IH Hnd Hi). symmetry. apply Permutation_middle.
Qed.

Lemma concat_map_nil {A B} (F : A -> list B) (l : list A) :
  concat (map F l) = [] <-> forall a, a ∈ l -> F a = [].
Proof.
  induction l as [|a l IH]; simpl.
  - split; [intros _ a Ha; inversion Ha|reflexivity].
  - rewrite app_nil, IH. split.
    + intros [Ha Hl] b Hb. apply elem_of_cons in Hb as [->|Hb]; auto.
    + intros H. split; [apply H; constructor|].
      intros b Hb. apply H. now constructor.
Qed.

Lemma omap_one {A B} (g : A -> option B) (a : A) :
  omap g [a] = match g a with Some b => [b] | None => [] end.
Proof. reflexivity. Qed.

Lemma omap_length_le {A B} (g : A -> option B) (l : list A) :
  (length (omap g l) <= length l)%nat.
Proof.
  induction l as [|a l IH]; [reflexivity|].
  change (a :: l) with ([a] ++ l) at 1. rewrite omap_app, omap_one.
  rewrite length_app. destruct (g a); simpl; lia.
Qed.

(** A counted loop that keeps an invariant indexed by the counter. *)
Lemma foldM_counted {A} (P : nat -> A -> Prop) (f : A -> nat -> result A)
    n a :
  P 0%nat a ->
  (forall k a, (k < n)%nat -> P k a -> exists a', f a k = Ok a' /\ P (S k) a') ->
  exists r, foldM f (seq 0 n) a = Ok r /\ P n r.
Proof.
  intros Ha Hf.
  assert (H : forall m k a, (k + m <= n)%nat -> P k a ->
                exists r, foldM f (seq k m) a = Ok r /\ P (k + m)%nat r).
  { induction m as [|m IH]; intros k a0 Hle HP; simpl.
    - rewrite Nat.add_0_r. eauto.
    - destruct (Hf k a0) as (a1 & -> & HP1); [lia|exact HP|].
      cbn [mbind result_bind].
      destruct (IH (S k) a1) as (r & Hr & HP'); [lia|exact HP1|].
      exists r. split; [exact Hr|].
      now replace (k + S m)%nat with (S k + m)%nat by lia. }
  apply (H n 0%nat a); [lia|exact Ha].
Qed.

Section Generic.
Context {E : Externals}.

(** The first segment of camera [i]: [graph.frameSegments(i).at(0)]. *)
Definition firstSegment (graph : SparseGraph) (i : nat) : list Frame :=
  default [] (default [] (graph !! i) !! 0%nat).

Definition markOf (mark : list nat) (i : nat) : nat :=
  default 0%nat (mark !! i).

(** The frames of the first segments, camera after camera. *)
Definition storedFrames (graph : SparseGraph) : list Frame :=
  concat (map (firstSegment graph) (seq 0 (length graph))).

(** The frames at and after the marks. *)
Definition rest (graph : SparseGraph) (mark : list nat) : list Frame :=
  concat (map (fun i => drop (markOf mark i) (firstSegment graph i))
              (seq 0 (length graph))).

(** The frame has a camera pose, with the time stamp [ts]. *)
Definition stamped (ts : Z) (f : Frame) : Prop :=
  exists pose, camera f = Some pose /\ timeStamp pose = ts.

(** A graph on which the reading loop meets no missing segment and no
    null pose: every camera has a first segment, whose frames carry a
    camera pose with a [uint64_t] time stamp. *)
Definition readable (graph : SparseGraph) : Prop :=
  forall i segments, graph !! i = Some segments ->
    segments <> [] /\
    forall f, f ∈ default [] (segments !! 0%nat) ->
      exists pose, camera f = Some pose /\ 0 <= timeStamp pose <= UINT64_MAX.

Lemma frameCount_stored graph : frameCount graph = length (storedFrames graph).
Proof.
  unfold frameCount, storedFrames, SparseGraph in *. do 2 f_equal.
  apply list_eq. intros i. rewrite !list_lookup_fmap.
  destruct (decide (i < length graph)%nat) as [Hi|Hi].
  - destruct (lookup_lt_is_Some_2 graph i Hi) as [segments Ei].
    rewrite lookup_seq_lt by exact Hi. rewrite Ei.
    cbn [fmap option_fmap option_map Nat.add].
    unfold firstSegment, SparseGraph. rewrite Ei. reflexivity.
  - rewrite lookup_seq_ge by lia. rewrite lookup_ge_None_2 by lia. reflexivity.
Qed.

Lemma rest_start graph :
  rest graph (replicate (length graph) 0%nat) = storedFrames graph.
Proof.
  unfold rest, storedFrames. f_equal. apply map_ext_in. intros i Hi.
  apply in_seq in Hi. unfold markOf.
  rewrite lookup_replicate_2 by lia. reflexivity.
Qed.

Lemma rest_nil graph mark :
  rest graph mark = [] <->
  forall i, (i < length graph)%nat ->
            (length (firstSegment graph i) <= markOf mark i)%nat.
Proof.
  unfold rest. rewrite concat_map_nil. split.
  - intros H i Hi.
    assert (Hd : drop (markOf mark i) (firstSegment graph i) = []).
    { apply H. apply elem_of_seq. lia. }
    apply (f_equal length) in Hd. rewrite length_drop in Hd. simpl in Hd. lia.
  - intros H i Hi. apply elem_of_seq in Hi. apply drop_ge. apply H. lia.
Qed.

Lemma markOf_insert_eq mark i m :
  (i < length mark)%nat -> markOf (<[i := m]> mark) i = m.
Proof. intros Hi. unfold markOf. now rewrite list_lookup_insert_eq. Qed.

Lemma markOf_insert_ne mark i j m :
  i <> j -> markOf (<[i := m]> mark) j = markOf mark j.
Proof. intros Hi. unfold markOf. now rewrite list_lookup_insert_ne. Qed.

Lemma rest_advance graph mark i f :
  length mark = length graph -> (i < length graph)%nat ->
  firstSegment graph i !! markOf mark i = Some f ->
  rest graph mark ≡ₚ f :: rest graph (<[i := S (markOf mark i)]> mark).
Proof.
  intros Hlen Hi Hf. unfold rest.
  apply (concat_map_cons_at _ _ _ i); cbv beta.
  - apply NoDup_seq.
  - apply elem_of_seq. lia.
  - intros j Hj. rewrite markOf_insert_ne by congruence. reflexivity.
  - rewrite markOf_insert_eq by lia. now apply drop_S.
Qed.

Lemma firstSegment_readable graph i f :
  readable graph -> f ∈ firstSegment graph i ->
  exists pose, camera f = Some pose /\ 0 <= timeStamp pose <= UINT64_MAX.
Proof.
  intros Hg. unfold firstSegment, SparseGraph in *.
  destruct (graph !! i) as [segments|] eqn:Ei; simpl.
  - now apply (Hg i segments Ei).
  - intros Hf. inversion Hf.
Qed.

Lemma front_readable graph mark i :
  readable graph -> (i < length graph)%nat ->
  front graph mark i = Ok (firstSegment graph i !! markOf mark i).
Proof.
  intros Hg Hi. unfold front, firstSegment, at_, SparseGraph in *.
  destruct (lookup_lt_is_Some_2 graph i Hi) as [segments Es].
  rewrite Es. cbn [mbind result_bind default].
  destruct (Hg i segments Es) as [Hne _].
  destruct segments as [|segment segments]; [congruence|].
  cbn [lookup list_lookup mbind result_bind default]. fold (markOf mark i).
  destruct (Nat.leb_spec (length segment) (markOf mark i)) as [Hle|Hlt].
  - simpl. now rewrite lookup_ge_None_2.
  - destruct (lookup_lt_is_Some_2 segment _ Hlt) as [f Ef]. simpl.
    now rewrite Ef.
Qed.

(** The first inner loop: the least time stamp among the fronts. *)
Lemma nextTimestamp_spec graph mark :
  readable graph ->
  exists ts, nextTimestamp graph mark = Ok ts /\
    (forall i f, (i < length graph)%nat ->
       firstSegment graph i !! markOf mark i = Some f ->
       exists pose, camera f = Some pose /\ ts <= timeStamp pose) /\
    (ts = UINT64_MAX \/
     exists i f, (i < length graph)%nat /\
       firstSegment graph i !! markOf mark i = Some f /\ stamped ts f).
Proof.
  intros Hg. unfold nextTimestamp.
  destruct (foldM_counted
    (fun k ts =>
       (forall i f, (i < k)%nat ->
          firstSegment graph i !! markOf mark i = Some f ->
          exists pose, camera f = Some pose /\ ts <= timeStamp pose) /\
       (ts = UINT64_MAX \/
        exists i f, (i < k)%nat /\
          firstSegment graph i !! markOf mark i = Some f /\ stamped ts f))
    (fun timestamp i =>
       fr ← front graph mark i;
       match fr with
       | None => Ok timestamp
       | Some frame =>
           pose ← deref_ptr (camera frame);
           Ok (if timeStamp pose <? timestamp then timeStamp pose
               else timestamp)
       end)
    (length graph) UINT64_MAX) as (ts & Hts & HP).
  - split; [intros; lia|now left].
  - intros k ts Hk [Hlow Hsel]. rewrite (front_readable _ _ _ Hg Hk).
    cbn [mbind result_bind].
    destruct (firstSegment graph k !! markOf mark k) as [f|] eqn:Ef.
    + destruct (firstSegment_readable graph k f Hg) as (pose & Hp & Hr).
      { eapply list_elem_of_lookup_2; eauto. }
      rewrite Hp. cbn [deref_ptr mbind result_bind]. eexists. split; [reflexivity|].
      destruct (Z.ltb_spec (timeStamp pose) ts) as [Hlt|Hge]; split.
      * intros i f' Hi Hf'. destruct (decide (i = k)) as [->|Hne].
        -- exists pose. rewrite Ef in Hf'. injection Hf' as <-. split; [auto|lia].
        -- destruct (Hlow i f') as (p' & Hp' & Hle); [lia|auto|].
           exists p'. split; [auto|lia].
      * right. exists k, f. split; [lia|]. split; [auto|]. now exists pose.
      * intros i f' Hi Hf'. destruct (decide (i = k)) as [->|Hne].
        -- exists pose. rewrite Ef in Hf'. injection Hf' as <-. split; [auto|lia].
        -- apply (Hlow i f'); [lia|auto].
      * destruct Hsel as [->|(i & f' & Hi & Hf' & Hst)]; [now left|right].
        exists i, f'. split; [lia|auto].
    + eexists. split; [reflexivity|]. split.
      * intros i f' Hi Hf'. destruct (decide (i = k)) as [->|Hne]; [congruence|].
        apply (Hlow i f'); [lia|auto].
      * destruct Hsel as [->|(i & f' & Hi & Hf' & Hst)]; [now left|right].
        exists i, f'. split; [lia|auto].
  - exists ts. split; [exact Hts|]. exact HP.
Qed.

(** The front of camera [i], when it carries the time stamp [ts]. *)
Definition hit (graph : SparseGraph) (mark : list nat) (ts : Z) (i : nat)
    : option Frame :=
  match firstSegment graph i !! markOf mark i with
  | Some f =>
      match camera f with
      | Some pose => if ts =? timeStamp pose then Some f else None
      | None => None
      end
  | None => None
  end.

Definition advanced (graph : SparseGraph) (mark : list nat) (ts : Z)
    (i : nat) : nat :=
  match hit graph mark ts i with
  | Some _ => S (markOf mark i)
  | None => markOf mark i
  end.

(** The second inner loop: the fronts that carry the time stamp are taken,
    in the order of the cameras, and their marks advanced. *)
Lemma takeFronts_spec graph mark ts :
  readable graph -> length mark = length graph ->
  exists taken mark',
    takeFronts graph mark ts = Ok (taken, mark') /\
    length mark' = length graph /\
    taken = omap (hit graph mark ts) (seq 0 (length graph)) /\
    (forall i, (i < length graph)%nat ->
               markOf mark' i = advanced graph mark ts i) /\
    rest graph mark ≡ₚ taken ++ rest graph mark' /\
    (taken = [] -> mark' = mark).
Proof.
  intros Hg Hlen. unfold takeFronts.
  destruct (foldM_counted
    (fun k (st : list Frame * list nat) =>
       length st.2 = length graph /\
       (forall i, (k <= i)%nat -> st.2 !! i = mark !! i) /\
       st.1 = omap (hit graph mark ts) (seq 0 k) /\
       (forall i, (i < k)%nat -> markOf st.2 i = advanced graph mark ts i) /\
       rest graph mark ≡ₚ st.1 ++ rest graph st.2 /\
       (st.1 = [] -> st.2 = mark))
    (fun '(taken, mark) i =>
       fr ← front graph mark i;
       match fr with
       | None => Ok (taken, mark)
       | Some frame =>
           pose ← deref_ptr (camera frame);
           if ts =? timeStamp pose
           then Ok (taken ++ [frame],
                    <[i := S (default 0%nat (mark !! i))]> mark)
           else Ok (taken, mark)
       end)
    (length graph) ([], mark))
    as ([taken mark'] & Hr & HP).
  - cbn [fst snd]. split; [exact Hlen|]. split; [reflexivity|].
    split; [reflexivity|]. split; [intros; lia|].
    split; [reflexivity|]. reflexivity.
  - intros k [taken m] Hk (Hl & Hsame & Htaken & Hadv & Hperm & Hnil).
    cbn [fst snd] in *. rewrite (front_readable _ _ _ Hg Hk).
    cbn [mbind result_bind]. fold (markOf m k).
    assert (Hmk : markOf m k = markOf mark k).
    { unfold markOf. now rewrite Hsame. }
    assert (Hkeep : forall i, (i < S k)%nat -> i <> k ->
                      markOf m i = advanced graph mark ts i).
    { intros i Hi Hik. apply Hadv. lia. }
    rewrite seq_S, omap_app, omap_one. cbn [Nat.add]. unfold advanced in *.
    destruct (firstSegment graph k !! markOf m k) as [f|] eqn:Ef.
    + destruct (firstSegment_readable graph k f Hg) as (pose & Hp & _).
      { eapply list_elem_of_lookup_2; eauto. }
      rewrite Hp. cbn [deref_ptr mbind result_bind].
      destruct (Z.eqb_spec ts (timeStamp pose)) as [Heq|Hne].
      * assert (Hk' : hit graph mark ts k = Some f).
        { unfold hit. rewrite <- Hmk, Ef, Hp, <- Heq, Z.eqb_refl. reflexivity. }
        eexists. split; [reflexivity|]. cbn [fst snd]. rewrite Hk'.
        split; [now rewrite length_insert|].
        split. { intros i Hi. rewrite list_lookup_insert_ne by lia.
                 apply Hsame. lia. }
        split; [now rewrite Htaken|].
        split. { intros i Hi. destruct (decide (i = k)) as [->|Hik].
                 - rewrite markOf_insert_eq by lia. now rewrite Hk', Hmk.
                 - rewrite markOf_insert_ne by congruence. now apply Hkeep. }
        split. { rewrite Hperm, (rest_advance graph m k f Hl Hk Ef).
                 rewrite <- app_assoc. reflexivity. }
        intros Habs. now apply app_eq_nil in Habs as [_ Habs].
      * assert (Hk' : hit graph mark ts k = None).
        { unfold hit. rewrite <- Hmk, Ef, Hp.
          destruct (Z.eqb_spec ts (timeStamp pose)); [contradiction|reflexivity]. }
        eexists. split; [reflexivity|]. cbn [fst snd]. rewrite Hk', app_nil_r.
        split; [exact Hl|]. split; [intros i Hi; apply Hsame; lia|].
        split; [exact Htaken|].
        split. { intros i Hi. destruct (decide (i = k)) as [->|Hik].
                 - now rewrite Hk'.
                 - now apply Hkeep. }
        split; [exact Hperm|exact Hnil].
    + assert (Hk' : hit graph mark ts k = None).
      { unfold hit. now rewrite <- Hmk, Ef. }
      eexists. split; [reflexivity|]. cbn [fst snd]. rewrite Hk', app_nil_r.
      split; [exact Hl|]. split; [intros i Hi; apply Hsame; lia|].
      split; [exact Htaken|].
      split. { intros i Hi. destruct (decide (i = k)) as [->|Hik].
               - now rewrite Hk'.
               - now apply Hkeep. }
      split; [exact Hperm|exact Hnil].
  - cbn [fst snd] in HP.
    destruct HP as (Hl & _ & Htaken & Hadv & Hperm & Hnil).
    exists taken, mark'. repeat (split; [assumption|]). exact Hnil.
Qed.

Lemma hit_front graph mark ts i f :
  hit graph mark ts i = Some f <->
  firstSegment graph i !! markOf mark i = Some f /\ stamped ts f.
Proof.
  unfold hit, stamped.
  destruct (firstSegment graph i !! markOf mark i) as [f'|]; [|split].
  - destruct (camera f') as [pose|] eqn:Hp.
    + destruct (Z.eqb_spec ts (timeStamp pose)) as [Heq|Hne]; split.
      * intros [= <-]. split; [reflexivity|]. now exists pose.
      * now intros [[= <-] _].
      * discriminate.
      * intros [[= <-] (p' & Hp' & Hts)]. congruence.
    + split; [discriminate|]. intros [[= <-] (p' & Hp' & _)]. congruence.
  - discriminate.
  - now intros [? _].
Qed.

Lemma omap_elem {A B} (g : A -> option B) (l : list A) b :
  b ∈ omap g l <-> exists a, a ∈ l /\ g a = Some b.
Proof. apply list_elem_of_omap. Qed.

(** The third inner loop: the test that no camera has a frame left. *)
Lemma allTaken_spec graph mark :
  readable graph ->
  exists b, allTaken graph mark = Ok b /\
            (b = true <-> rest graph mark = []).
Proof.
  intros Hg. unfold allTaken.
  destruct (foldM_counted
    (fun k (b : bool) =>
       b = true <->
       forall i, (i < k)%nat ->
                 (length (firstSegment graph i) <= markOf mark i)%nat)
    (fun (finished : bool) i =>
       if finished then
         segments ← at_ graph i;
         segment ← at_ segments 0;
         Ok (negb (default 0%nat (mark !! i) <? length segment)%nat)
       else Ok false)
    (length graph) true) as (b & Hb & HP).
  - split; [intros; lia|reflexivity].
  - intros k b Hk HP. destruct b.
    + unfold at_. destruct (lookup_lt_is_Some_2 graph k Hk) as [segments Es].
      rewrite Es. cbn [mbind result_bind].
      destruct (Hg k segments Es) as [Hne _].
      destruct segments as [|segment segments]; [congruence|].
      cbn [lookup list_lookup mbind result_bind].
      assert (Hseg : firstSegment graph k = segment).
      { unfold firstSegment, SparseGraph in *. now rewrite Es. }
      eexists. split; [reflexivity|]. fold (markOf mark k).
      destruct (Nat.ltb_spec (markOf mark k) (length segment)) as [Hlt|Hge];
        simpl; split; try discriminate; try reflexivity.
      * intros H. specialize (H k). rewrite Hseg in H. lia.
      * intros _ i Hi. destruct (decide (i = k)) as [->|Hik].
        -- now rewrite Hseg.
        -- apply HP; [reflexivity|lia].
    + eexists. split; [reflexivity|]. split; [discriminate|].
      intros H. apply HP. intros i Hi. apply H. lia.
  - exists b. split; [exact Hb|]. now rewrite rest_nil.
Qed.

(** The sets the loop appends, from the marks [mark] on. *)
Definition regrouped (graph : SparseGraph) (pending : list Frame)
    (sets : list FrameSet) : Prop :=
  sets <> [] /\
  concat (map frames sets) ≡ₚ pending /\
  (forall fs, fs ∈ sets ->
     (length (frames fs) <= length graph)%nat /\
     forall f, f ∈ frames fs -> stamped (timestamp fs) f) /\
  (pending = [] -> sets = [{| frames := []; timestamp := UINT64_MAX |}]) /\
  (pending <> [] -> forall fs, fs ∈ sets -> frames fs <> []).

Lemma loadLoop_regroups fuel graph mark framesets :
  readable graph -> length mark = length graph ->
  (length (rest graph mark) < fuel)%nat ->
  exists sets,
    loadLoop fuel graph mark framesets = Ok (Some (framesets ++ sets)) /\
    regrouped graph (rest graph mark) sets.
Proof.
  intros Hg. revert mark framesets.
  induction fuel as [|fuel IH]; intros mark framesets Hlen Hfuel; [lia|].
  cbn [loadLoop].
  destruct (nextTimestamp_spec graph mark Hg) as (ts & -> & Hlow & Hsel).
  cbn [mbind result_bind].
  destruct (takeFronts_spec graph mark ts Hg Hlen)
    as (taken & mark' & -> & Hlen' & Htaken & _ & Hperm & Hnil).
  cbn [mbind result_bind].
  assert (Hst : forall f, f ∈ taken -> stamped ts f).
  { intros f Hf. rewrite Htaken in Hf.
    apply omap_elem in Hf as (i & _ & Hi). now apply hit_front in Hi. }
  assert (Hcount : (length taken <= length graph)%nat).
  { rewrite Htaken. etransitivity; [apply omap_length_le|].
    now rewrite length_seq. }
  assert (Hhit : forall i f, (i < length graph)%nat ->
            firstSegment graph i !! markOf mark i = Some f -> stamped ts f ->
            taken <> []).
  { intros i f Hi Hf Hs Habs.
    assert (Hin : f ∈ taken).
    { rewrite Htaken. apply omap_elem. exists i.
      split; [apply elem_of_seq; lia|]. now apply hit_front. }
    rewrite Habs in Hin. inversion Hin. }
  destruct (allTaken_spec graph mark' Hg) as (b & -> & Hb).
  cbn [mbind result_bind].
  assert (Hset : (length taken <= length graph)%nat /\
                 forall f, f ∈ taken -> stamped ts f).
  { split; [exact Hcount|exact Hst]. }
  assert (Hempty : taken = [] -> rest graph mark = [] /\ ts = UINT64_MAX).
  { intros ->. assert (Hnone : forall i, (i < length graph)%nat ->
                         firstSegment graph i !! markOf mark i = None).
    { intros i Hi.
      destruct (firstSegment graph i !! markOf mark i) as [f|] eqn:Ef;
        [exfalso|reflexivity].
      destruct (Hlow i f Hi Ef) as (pose & Hp & Hle).
      destruct (firstSegment_readable graph i f Hg) as (p' & Hp' & Hr).
      { eapply list_elem_of_lookup_2; eauto. }
      assert (p' = pose) by congruence. subst p'.
      destruct Hsel as [->|(i' & f' & Hi' & Hf' & Hst')].
      - apply (Hhit i f Hi Ef); [|reflexivity]. exists pose. split; [auto|lia].
      - now apply (Hhit i' f' Hi' Hf' Hst'). }
    split.
    - apply rest_nil. intros i Hi. now apply lookup_ge_None, Hnone.
    - destruct Hsel as [->|(i & f & Hi & Hf & _)]; [reflexivity|].
      rewrite Hnone in Hf by assumption. discriminate. }
  destruct b.
  - (* finished *)
    assert (Hrest : rest graph mark' = []) by now apply Hb.
    rewrite Hrest, app_nil_r in Hperm.
    exists [{| frames := taken; timestamp := ts |}]. split; [reflexivity|].
    split; [discriminate|]. split; [simpl; now rewrite app_nil_r|].
    split. { intros fs Hfs. apply list_elem_of_singleton in Hfs as ->. exact Hset. }
    split.
    + intros Hp. rewrite Hp in Hperm. apply Permutation_nil in Hperm.
      destruct (Hempty Hperm) as [_ ->]. now rewrite Hperm.
    + intros Hp fs Hfs. apply list_elem_of_singleton in Hfs as ->. simpl.
      intros ->. now apply Hp, Hempty.
  - (* another pass *)
    assert (Hrest : rest graph mark' <> []).
    { intros Habs. apply Hb in Habs. discriminate. }
    assert (Hsome : taken <> []).
    { intros Habs. apply Hrest. rewrite (Hnil Habs).
      now apply Hempty. }
    destruct (IH mark' (framesets ++ [{| frames := taken; timestamp := ts |}]))
      as (sets & -> & Hne & Hp' & Hall & _ & Hfull); [exact Hlen'| |].
    { apply Permutation_length in Hperm. rewrite length_app in Hperm.
      destruct taken; [congruence|]. simpl in Hperm. lia. }
    exists ({| frames := taken; timestamp := ts |} :: sets).
    split; [now rewrite <- app_assoc|].
    split; [discriminate|]. split; [simpl; now rewrite Hperm, Hp'|].
    split.
    { intros fs Hfs. apply elem_of_cons in Hfs as [->|Hfs]; [exact Hset|auto]. }
    split.
    + intros Hp. rewrite Hp in Hperm.
      apply Permutation_nil in Hperm. now apply app_eq_nil in Hperm as [? _].
    + intros _ fs Hfs. apply elem_of_cons in Hfs as [->|Hfs]; [exact Hsome|].
      now apply Hfull.
Qed.

(** X9.  [loadFrameSets] on a readable graph ends and replaces the frame
    sets by a regrouping of the stored frames: every frame of the first
    segments is in exactly one set, every frame of a set carries the time
    stamp of the set, and a set has at most one frame per camera of the
    graph.  A graph without frames gives one empty set with the time stamp
    [UINT64_MAX]; otherwise no set is empty.  Nothing else changes. *)
Theorem loadFrameSets_regroups s filename graph :
  readable graph ->
  exists s',
    loadFrameSets s filename graph = Ok (Some s') /\
    m_cameras s' = m_cameras s /\ m_extrinsics s' = m_extrinsics s /\
    m_feature3DMap s' = m_feature3DMap s /\ heap s' = heap s /\
    regrouped graph (storedFrames graph) (m_framesets s').
Proof.
  intros Hg. unfold loadFrameSets. cbv zeta.
  destruct (loadLoop_regroups (S (frameCount graph)) graph
              (replicate (length graph) 0%nat) [] Hg)
    as (sets & -> & Hsets).
  - apply length_replicate.
  - rewrite rest_start, frameCount_stored. lia.
  - rewrite rest_start in Hsets. cbn [mbind result_bind app].
    eexists. split; [reflexivity|]. unfold info.
    destruct (m_verbose _); cbn; auto.
Qed.


(** *** Saving *)

(** The frames of camera [i] in a list, in the order of the list. *)
Definition framesOf (i : nat) (l : list Frame) : list Frame :=
  List.filter (fun f => (cameraId f =? i)%nat) l.

Lemma framesOf_elem i l f : f ∈ framesOf i l <-> f ∈ l /\ cameraId f = i.
Proof.
  unfold framesOf. now rewrite !list_elem_of_In, filter_In, Nat.eqb_eq.
Qed.

Lemma framesOf_app i l l' : framesOf i (l ++ l') = framesOf i l ++ framesOf i l'.
Proof. apply List.filter_app. Qed.

Lemma framesOf_cons i f l :
  framesOf i (f :: l) =
  if (cameraId f =? i)%nat then f :: framesOf i l else framesOf i l.
Proof. reflexivity. Qed.

Lemma framesOf_none i l :
  (forall f, f ∈ l -> cameraId f <> i) -> framesOf i l = [].
Proof.
  intros H. destruct (framesOf i l) as [|f tl] eqn:Ef; [reflexivity|].
  assert (Hf : f ∈ framesOf i l) by (rewrite Ef; constructor).
  apply framesOf_elem in Hf as [Hf Hi]. now apply H in Hf.
Qed.

(** Every camera of the graph has exactly one segment. *)
Definition oneSegment (g : SparseGraph) : Prop :=
  forall i segments, g !! i = Some segments -> exists seg, segments = [seg].

Lemma saveLoop_spec l : forall g : list (list (list Frame)),
  (forall f, f ∈ l -> (cameraId f < length g)%nat) -> oneSegment g ->
  exists g' : list (list (list Frame)),
    foldM (fun graph frame =>
             segments ← at_ graph (cameraId frame);
             segment ← at_ segments 0;
             Ok (<[cameraId frame := <[0%nat := segment ++ [frame]]> segments]>
                   graph))
          l g = Ok g' /\
    length g' = length g /\ oneSegment g' /\
    forall i, firstSegment g' i = firstSegment g i ++ framesOf i l.
Proof.
  induction l as [|f l IH]; intros g Hcam Hone; cbn [foldM].
  - exists g. split; [reflexivity|]. split; [reflexivity|].
    split; [exact Hone|]. intros i. unfold framesOf. simpl.
    now rewrite app_nil_r.
  - assert (Hc : (cameraId f < length g)%nat) by (apply Hcam; constructor).
    unfold SparseGraph in *.
    destruct (lookup_lt_is_Some_2 g _ Hc) as [segments Es].
    destruct (Hone _ _ Es) as [seg ->].
    assert (Hat : at_ g (cameraId f) = Ok [seg]).
    { unfold at_. now rewrite Es. }
    rewrite Hat. cbn [mbind result_bind].
    change (at_ [seg] 0%nat) with (Ok seg). cbn [mbind result_bind].
    change (<[0%nat := seg ++ [f]]> [seg]) with [seg ++ [f]].
    set (g1 := <[cameraId f := [seg ++ [f]]]> g).
    destruct (IH g1) as (g' & Hg' & Hlen & Hone' & Hseg).
    + intros f' Hf'. unfold g1. rewrite length_insert. apply Hcam.
      now constructor.
    + intros i segments Hi. unfold g1, SparseGraph in Hi.
      destruct (decide (i = cameraId f)) as [->|Hne].
      * rewrite list_lookup_insert_eq in Hi by exact Hc. injection Hi as <-.
        eauto.
      * rewrite list_lookup_insert_ne in Hi by congruence. eauto.
    + exists g'. split; [exact Hg'|].
      split; [now rewrite Hlen; unfold g1; rewrite length_insert|].
      split; [exact Hone'|]. intros i. rewrite Hseg, framesOf_cons.
      unfold firstSegment, g1, SparseGraph.
      destruct (Nat.eqb_spec (cameraId f) i) as [<-|Hne].
      * rewrite list_lookup_insert_eq by exact Hc. rewrite Es. simpl.
        now rewrite <- app_assoc.
      * now rewrite list_lookup_insert_ne by congruence.
Qed.

Lemma saveFrameSets_graph s :
  (forall f, f ∈ allFrames s -> (cameraId f < length (m_cameras s))%nat) ->
  saveFrameSets s =
  Ok (map (fun i => [framesOf i (allFrames s)])
          (seq 0 (length (m_cameras s)))).
Proof.
  intros Hcam. unfold saveFrameSets.
  destruct (saveLoop_spec (allFrames s)
              (replicate (length (m_cameras s)) [[]]))
    as (g' & -> & Hlen & Hone & Hseg).
  - intros f Hf. rewrite length_replicate. now apply Hcam.
  - intros i segments Hi. apply lookup_replicate in Hi as [-> _]. eauto.
  - f_equal. rewrite length_replicate in Hlen. unfold SparseGraph in *.
    apply list_eq. intros i. rewrite list_lookup_fmap.
    destruct (decide (i < length (m_cameras s))%nat) as [Hi|Hi].
    + rewrite lookup_seq_lt by exact Hi. cbn [fmap option_fmap option_map Nat.add].
      destruct (lookup_lt_is_Some_2 g' i) as [segments Es]; [lia|].
      rewrite Es. destruct (Hone _ _ Es) as [seg ->]. do 2 f_equal.
      specialize (Hseg i). unfold firstSegment, SparseGraph in Hseg.
      rewrite Es in Hseg. simpl in Hseg. rewrite Hseg.
      rewrite lookup_replicate_2 by exact Hi. reflexivity.
    + rewrite lookup_seq_ge by lia. rewrite lookup_ge_None_2 by lia.
      reflexivity.
Qed.

Lemma firstSegment_saved n l i :
  (i < n)%nat ->
  firstSegment (map (fun i => [framesOf i l]) (seq 0 n)) i = framesOf i l.
Proof.
  intros Hi. unfold firstSegment, SparseGraph.
  rewrite list_lookup_fmap, lookup_seq_lt by exact Hi. reflexivity.
Qed.

(** Sorting the frames by camera loses and repeats none. *)
Lemma framesOf_partition n l :
  (forall f, f ∈ l -> (cameraId f < n)%nat) ->
  concat (map (fun i => framesOf i l) (seq 0 n)) ≡ₚ l.
Proof.
  induction l as [|f l IH]; intros H.
  - rewrite (proj2 (concat_map_nil _ _)); [reflexivity|]. reflexivity.
  - rewrite (concat_map_cons_at (fun i => framesOf i (f :: l))
               (fun i => framesOf i l) (seq 0 n) (cameraId f) f).
    + constructor. apply IH. intros f' Hf'. apply H. now constructor.
    + apply NoDup_seq.
    + apply elem_of_seq. specialize (H f (list_elem_of_here _ _)). lia.
    + intros j Hj. rewrite framesOf_cons.
      destruct (Nat.eqb_spec (cameraId f) j); [congruence|reflexivity].
    + now rewrite framesOf_cons, Nat.eqb_refl.
Qed.

(** X10.  When every frame of the frame sets has a camera id of the rig,
    [saveFrameSets] hands over a graph with one segment per camera, which
    holds the frames of that camera in the order of the frame sets; every
    frame of the frame sets is stored once. *)
Theorem saveFrameSets_by_camera s :
  (forall f, f ∈ allFrames s -> (cameraId f < length (m_cameras s))%nat) ->
  exists graph,
    saveFrameSets s = Ok graph /\
    graph = map (fun i => [framesOf i (allFrames s)])
                (seq 0 (length (m_cameras s))) /\
    storedFrames graph ≡ₚ allFrames s.
Proof.
  intros Hcam. eexists. split; [now apply saveFrameSets_graph|].
  split; [reflexivity|]. unfold storedFrames.
  rewrite length_map, length_seq.
  etransitivity; [|exact (framesOf_partition _ _ Hcam)].
  replace (map (firstSegment _) (seq 0 (length (m_cameras s))))
    with (map (fun i => framesOf i (allFrames s))
              (seq 0 (length (m_cameras s)))); [reflexivity|].
  apply map_ext_in. intros i Hi. apply in_seq in Hi. symmetry.
  apply firstSegment_saved. lia.
Qed.

(** *** Saving, then loading *)

Lemma omap_ext_in {A B} (g h : A -> option B) (l : list A) :
  (forall a, a ∈ l -> g a = h a) -> omap g l = omap h l.
Proof.
  induction l as [|a l IH]; intros H; [reflexivity|].
  change (a :: l) with ([a] ++ l). rewrite !omap_app, !omap_one.
  rewrite (H a) by constructor. f_equal. apply IH.
  intros b Hb. apply H. now constructor.
Qed.

Lemma omap_none {A B} (g : A -> option B) (l : list A) :
  (forall a, a ∈ l -> g a = None) -> omap g l = [].
Proof.
  induction l as [|a l IH]; intros H; [reflexivity|].
  change (a :: l) with ([a] ++ l). rewrite omap_app, omap_one.
  rewrite (H a) by constructor. apply IH.
  intros b Hb. apply H. now constructor.
Qed.

(** Each element stands in the relation [R] to all later ones. *)
Fixpoint ascending {A} (R : A -> A -> Prop) (l : list A) : Prop :=
  match l with
  | [] => True
  | a :: l' => Forall (R a) l' /\ ascending R l'
  end.

Lemma ascending_cameras f l :
  ascending lt (map cameraId (f :: l)) ->
  forall f', f' ∈ l -> (cameraId f < cameraId f')%nat.
Proof.
  intros [H _] f' Hf'. rewrite Forall_forall in H. apply H.
  apply list_elem_of_fmap. eauto.
Qed.

(** With increasing camera ids, a list has at most one frame per camera. *)
Lemma framesOf_head i l :
  ascending lt (map cameraId l) ->
  framesOf i l = match head (framesOf i l) with Some f => [f] | None => [] end.
Proof.
  induction l as [|f l IH]; intros Hl; [reflexivity|].
  rewrite framesOf_cons. destruct (Nat.eqb_spec (cameraId f) i) as [Hi|Hi].
  - cbn [head]. f_equal. apply framesOf_none. intros f' Hf'.
    pose proof (ascending_cameras f l Hl f' Hf'). lia.
  - apply IH. apply Hl.
Qed.

(** Going through the cameras in order gives the list back. *)
Lemma omap_head_framesOf m : forall a l,
  ascending lt (map cameraId l) ->
  (forall f, f ∈ l -> (a <= cameraId f < a + m)%nat) ->
  omap (fun i => head (framesOf i l)) (seq a m) = l.
Proof.
  induction m as [|m IH]; intros a l Hl Hr.
  - destruct l as [|f l]; [reflexivity|].
    specialize (Hr f (list_elem_of_here _ _)). lia.
  - cbn [seq]. change (a :: seq (S a) m) with ([a] ++ seq (S a) m).
    rewrite omap_app, omap_one. destruct l as [|f l].
    + cbn [framesOf List.filter head app]. now apply omap_none.
    + rewrite framesOf_cons.
      destruct (Nat.eqb_spec (cameraId f) a) as [Ha|Ha].
      * cbn [head app]. f_equal.
        rewrite (omap_ext_in _ (fun i => head (framesOf i l))).
        -- apply IH; [apply Hl|]. intros f' Hf'.
           pose proof (ascending_cameras f l Hl f' Hf').
           specialize (Hr f' (list_elem_of_further _ _ _ Hf')). lia.
        -- intros i Hi. apply elem_of_seq in Hi. rewrite framesOf_cons.
           destruct (Nat.eqb_spec (cameraId f) i); [lia|reflexivity].
      * assert (Hlow : forall f', f' ∈ f :: l -> (S a <= cameraId f')%nat).
        { intros f' Hf'. pose proof (Hr f (list_elem_of_here _ _)).
          apply elem_of_cons in Hf' as [->|Hf']; [lia|].
          pose proof (ascending_cameras f l Hl f' Hf'). lia. }
        rewrite (framesOf_none a l).
        -- cbn [head app]. apply IH; [exact Hl|]. intros f' Hf'.
           specialize (Hr f' Hf'). specialize (Hlow f' Hf'). lia.
        -- intros f' Hf'.
           specialize (Hlow f' (list_elem_of_further _ _ _ Hf')). lia.
Qed.

(** Frame sets that a graph keeps apart: increasing time stamps, and in
    each set at least one frame, increasing camera ids below [n], and the
    time stamp of the set on every frame. *)
Definition restorable (n : nat) (sets : list FrameSet) : Prop :=
  ascending (fun a b => timestamp a < timestamp b) sets /\
  forall fs, fs ∈ sets ->
    frames fs <> [] /\ 0 <= timestamp fs <= UINT64_MAX /\
    ascending lt (map cameraId (frames fs)) /\
    forall f, f ∈ frames fs -> (cameraId f < n)%nat /\ stamped (timestamp fs) f.

Lemma restorable_tail n fs sets :
  restorable n (fs :: sets) -> restorable n sets.
Proof.
  intros [[_ Hs] Hall]. split; [exact Hs|].
  intros fs' Hfs'. apply Hall. now constructor.
Qed.

Lemma concat_frames_elem (sets : list FrameSet) f :
  f ∈ concat (map frames sets) -> exists fs, fs ∈ sets /\ f ∈ frames fs.
Proof.
  induction sets as [|fs sets IH]; simpl; [intros H; inversion H|].
  intros H. apply elem_of_app in H as [H|H].
  - exists fs. split; [constructor|exact H].
  - destruct (IH H) as (fs' & Hfs' & Hf). exists fs'.
    split; [now constructor|exact Hf].
Qed.

Lemma loadLoop_restores graph todo : forall fuel mark framesets,
  readable graph -> length mark = length graph ->
  restorable (length graph) todo -> todo <> [] ->
  (forall i, (i < length graph)%nat ->
     drop (markOf mark i) (firstSegment graph i)
     = framesOf i (concat (map frames todo))) ->
  (length (rest graph mark) < fuel)%nat ->
  loadLoop fuel graph mark framesets = Ok (Some (framesets ++ todo)).
Proof.
  induction todo as [|fs todo IH]; [congruence|].
  intros fuel mark framesets Hg Hlen Hres _ Hdrop Hfuel.
  destruct fuel as [|fuel]; [lia|]. cbn [loadLoop].
  destruct Hres as [[Hlater Hsorted] Hall].
  rewrite Forall_forall in Hlater.
  destruct (Hall fs (list_elem_of_here _ _)) as (Hne & Hrange & Hasc & Hfs).
  (* the fronts *)
  assert (Hfront : forall i, (i < length graph)%nat ->
            firstSegment graph i !! markOf mark i
            = head (framesOf i (frames fs)
                    ++ framesOf i (concat (map frames todo)))).
  { intros i Hi. rewrite head_lookup, <- framesOf_app.
    change (frames fs ++ concat (map frames todo))
      with (concat (map frames (fs :: todo))).
    rewrite <- (Hdrop i Hi), lookup_drop, Nat.add_0_r. reflexivity. }
  assert (Hlate : forall f, f ∈ concat (map frames todo) ->
            exists pose, camera f = Some pose /\ timestamp fs < timeStamp pose).
  { intros f Hf. apply concat_frames_elem in Hf as (fs' & Hfs' & Hf).
    destruct (Hall fs' (list_elem_of_further _ _ _ Hfs')) as (_ & _ & _ & Hs).
    destruct (Hs f Hf) as (_ & pose & Hp & Hts). exists pose.
    split; [exact Hp|]. rewrite Hts. now apply Hlater. }
  (* the time stamp *)
  destruct (nextTimestamp_spec graph mark Hg) as (ts & -> & Hlow & Hsel).
  cbn [mbind result_bind].
  assert (Hts : ts = timestamp fs).
  { destruct (frames fs) as [|f0 tl] eqn:Efs; [congruence|].
    destruct (Hfs f0 (list_elem_of_here _ _)) as (Hc0 & p0 & Hp0 & Hts0).
    assert (Hf0 : firstSegment graph (cameraId f0) !! markOf mark (cameraId f0)
                  = Some f0).
    { rewrite (Hfront _ Hc0), framesOf_cons, Nat.eqb_refl. reflexivity. }
    destruct (Hlow _ _ Hc0 Hf0) as (p & Hp & Hle).
    assert (p = p0) by congruence. subst p.
    destruct Hsel as [->|(i & f & Hi & Hf & pf & Hpf & Htsf)]; [lia|].
    rewrite (Hfront i Hi) in Hf.
    assert (Hin : f ∈ framesOf i (f0 :: tl)
                      ++ framesOf i (concat (map frames todo))).
    { destruct (framesOf i (f0 :: tl)
                ++ framesOf i (concat (map frames todo))) as [|x xs];
        [discriminate|]. injection Hf as ->. constructor. }
    apply elem_of_app in Hin as [Hin|Hin]; apply framesOf_elem in Hin as [Hin _].
    - destruct (Hfs f Hin) as (_ & p' & Hp' & Hts'). congruence.
    - destruct (Hlate f Hin) as (p' & Hp' & Hlt).
      assert (p' = pf) by congruence. subst p'. lia. }
  subst ts.
  (* the frames taken *)
  destruct (takeFronts_spec graph mark (timestamp fs) Hg Hlen)
    as (taken & mark' & -> & Hlen' & Htaken & Hadv & Hperm & _).
  cbn [mbind result_bind].
  assert (Hhit : forall i, (i < length graph)%nat ->
            hit graph mark (timestamp fs) i = head (framesOf i (frames fs))).
  { intros i Hi. unfold hit. rewrite (Hfront i Hi).
    destruct (framesOf i (frames fs)) as [|f tl] eqn:Ef; cbn [app head].
    - destruct (framesOf i (concat (map frames todo))) as [|f tl] eqn:Et;
        [reflexivity|]. cbn [head].
      destruct (Hlate f) as (p & -> & Hlt).
      { assert (Hin : f ∈ framesOf i (concat (map frames todo)))
          by (rewrite Et; constructor).
        now apply framesOf_elem in Hin as [Hin _]. }
      destruct (Z.eqb_spec (timestamp fs) (timeStamp p)); [lia|reflexivity].
    - assert (Hin : f ∈ framesOf i (frames fs)) by (rewrite Ef; constructor).
      apply framesOf_elem in Hin as [Hin _].
      destruct (Hfs f Hin) as (_ & p & -> & <-). now rewrite Z.eqb_refl. }
  assert (Htaken' : taken = frames fs).
  { rewrite Htaken.
    rewrite (omap_ext_in _ (fun i => head (framesOf i (frames fs)))).
    - apply omap_head_framesOf; [exact Hasc|].
      intros f Hf. destruct (Hfs f Hf) as [Hc _]. lia.
    - intros i Hi. apply elem_of_seq in Hi. apply Hhit. lia. }
  assert (Hdrop' : forall i, (i < length graph)%nat ->
            drop (markOf mark' i) (firstSegment graph i)
            = framesOf i (concat (map frames todo))).
  { intros i Hi. rewrite (Hadv i Hi). unfold advanced. rewrite (Hhit i Hi).
    specialize (Hdrop i Hi). cbn [map concat] in Hdrop.
    rewrite framesOf_app, (framesOf_head i (frames fs) Hasc) in Hdrop.
    destruct (head (framesOf i (frames fs))) as [f|].
    - replace (S (markOf mark i)) with (markOf mark i + 1)%nat by lia.
      rewrite <- drop_drop, Hdrop. reflexivity.
    - exact Hdrop. }
  assert (Hfs' : {| frames := taken; timestamp := timestamp fs |} = fs).
  { rewrite Htaken'. now destruct fs. }
  rewrite Hfs'.
  destruct (allTaken_spec graph mark' Hg) as (b & -> & Hb).
  cbn [mbind result_bind].
  destruct todo as [|fs' todo'].
  - (* the last set *)
    assert (Hrest : rest graph mark' = []).
    { unfold rest. apply concat_map_nil. intros i Hi.
      apply elem_of_seq in Hi. now rewrite Hdrop' by lia. }
    apply Hb in Hrest. now rewrite Hrest.
  - (* another pass *)
    assert (Hrest : rest graph mark' <> []).
    { destruct (Hall fs') as (Hne' & _ & _ & Hfs'').
      { apply list_elem_of_further. constructor. }
      destruct (frames fs') as [|f tl] eqn:Ef; [congruence|].
      destruct (Hfs'' f (list_elem_of_here _ _)) as [Hc _].
      unfold rest. rewrite concat_map_nil. intros Habs.
      specialize (Habs (cameraId f)). rewrite Hdrop' in Habs by exact Hc.
      assert (Hin : f ∈ framesOf (cameraId f)
                          (concat (map frames (fs' :: todo')))).
      { apply framesOf_elem. split; [|reflexivity]. cbn [map concat].
        rewrite Ef. constructor. }
      rewrite Habs in Hin; [inversion Hin|]. apply elem_of_seq. lia. }
    destruct b; [now destruct Hrest; apply Hb|].
    rewrite (IH fuel mark' (framesets ++ [fs])).
    + now rewrite <- app_assoc.
    + exact Hg.
    + exact Hlen'.
    + split; [exact Hsorted|]. intros x Hx. apply Hall. now constructor.
    + discriminate.
    + exact Hdrop'.
    + apply Permutation_length in Hperm. rewrite length_app, Htaken' in Hperm.
      destruct (frames fs); [congruence|]. simpl in Hperm. lia.
Qed.

(** X11.  Saving and loading again gives the frame sets back, when there
    is at least one and they are as a graph keeps them apart: increasing
    time stamps, and in each set at least one frame, increasing camera ids
    of the rig, and the time stamp of the set on every frame. *)
Theorem saveFrameSets_loadFrameSets s s0 filename :
  m_framesets s <> [] ->
  restorable (length (m_cameras s)) (m_framesets s) ->
  exists graph s',
    saveFrameSets s = Ok graph /\
    loadFrameSets s0 filename graph = Ok (Some s') /\
    m_framesets s' = m_framesets s.
Proof.
  intros Hne Hres.
  assert (Hcam : forall f, f ∈ allFrames s ->
            (cameraId f < length (m_cameras s))%nat /\
            exists pose, camera f = Some pose /\
                         0 <= timeStamp pose <= UINT64_MAX).
  { intros f Hf. apply concat_frames_elem in Hf as (fs & Hfs & Hf).
    destruct Hres as [_ Hall].
    destruct (Hall fs Hfs) as (_ & Hrange & _ & Hs).
    destruct (Hs f Hf) as (Hc & pose & Hp & Hts).
    split; [exact Hc|]. exists pose. split; [exact Hp|]. now rewrite Hts. }
  set (graph := map (fun i => [framesOf i (allFrames s)])
                    (seq 0 (length (m_cameras s)))).
  assert (Hlen : length graph = length (m_cameras s)).
  { unfold graph. now rewrite length_map, length_seq. }
  assert (Hseg : forall i, (i < length (m_cameras s))%nat ->
            firstSegment graph i = framesOf i (allFrames s)).
  { intros i Hi. now apply firstSegment_saved. }
  assert (Hg : readable graph).
  { intros i segments Hi. unfold graph, SparseGraph in Hi.
    rewrite list_lookup_fmap in Hi.
    destruct (seq 0 (length (m_cameras s)) !! i) as [j|] eqn:Ej;
      [|discriminate].
    injection Hi as <-. split; [discriminate|]. intros f Hf. simpl in Hf.
    apply framesOf_elem in Hf as [Hf _]. now apply Hcam. }
  exists graph. unfold loadFrameSets. cbv zeta.
  rewrite (loadLoop_restores graph (m_framesets s)); try assumption.
  - cbn [mbind result_bind app]. eexists.
    split; [apply saveFrameSets_graph; intros f Hf; now apply Hcam|].
    split; [reflexivity|]. unfold info. now destruct (m_verbose _).
  - apply length_replicate.
  - now rewrite Hlen.
  - intros i Hi. unfold markOf. rewrite lookup_replicate_2 by exact Hi.
    apply Hseg. lia.
  - rewrite rest_start, frameCount_stored. lia.
Qed.

End Generic.

(** A rig whose frame sets are as a graph keeps them apart. *)
Definition exSaved : Calibration (E := Toy.externals) :=
  set_framesets Toy.start
    [ {| frames := [Toy.frameAt 0 5; Toy.frameAt 1 5]; timestamp := 5 |};
      {| frames := [Toy.frameAt 1 7]; timestamp := 7 |} ].

Lemma readable_stored : readable (E := Toy.externals) Toy.stored.
Proof.
  intros i segments Hi.
  destruct i as [|[|i]]; simpl in Hi; try discriminate; injection Hi as <-;
    (split; [discriminate|]); intros f Hf;
    apply list_elem_of_singleton in Hf as ->;
    (eexists; split; [reflexivity|]); unfold UINT64_MAX; simpl; lia.
Qed.

Lemma loadFrameSets_regroups_witness :
  exists s',
    loadFrameSets (E := Toy.externals) Toy.start "sets.sg" Toy.stored
      = Ok (Some s') /\
    m_cameras s' = m_cameras Toy.start /\
    m_extrinsics s' = m_extrinsics Toy.start /\
    m_feature3DMap s' = m_feature3DMap Toy.start /\
    heap s' = heap Toy.start /\
    regrouped Toy.stored (storedFrames Toy.stored) (m_framesets s').
Proof.
  apply (loadFrameSets_regroups (E := Toy.externals) Toy.start "sets.sg"
           Toy.stored).
  exact readable_stored.
Defined.

Lemma saveFrameSets_by_camera_witness :
  exists graph,
    saveFrameSets exSaved = Ok graph /\
    graph = map (fun i => [framesOf i (allFrames exSaved)])
                (seq 0 (length (m_cameras exSaved))) /\
    storedFrames graph ≡ₚ allFrames exSaved.
Proof.
  apply (saveFrameSets_by_camera exSaved).
  intros f Hf. unfold exSaved, allFrames in Hf. simpl in Hf.
  repeat (apply elem_of_cons in Hf as [->|Hf]; [simpl; lia|]).
  inversion Hf.
Defined.

Lemma saveFrameSets_loadFrameSets_witness :
  exists graph s',
    saveFrameSets exSaved = Ok graph /\
    loadFrameSets Toy.rig "sets.sg" graph = Ok (Some s') /\
    m_framesets s' = m_framesets exSaved.
Proof.
  apply (saveFrameSets_loadFrameSets exSaved Toy.rig "sets.sg").
  - discriminate.
  - split.
    + simpl. repeat split; repeat constructor.
    + intros fs Hfs. unfold exSaved in Hfs. simpl in Hfs.
      repeat (apply elem_of_cons in Hfs as [->|Hfs];
              [split; [discriminate|]; split; [unfold UINT64_MAX; simpl; lia|];
               split; [simpl; repeat split; repeat constructor|];
               intros f Hf; simpl in Hf;
               repeat (apply elem_of_cons in Hf as [->|Hf];
                       [split; [simpl; lia|]; eexists; split; reflexivity|]);
               inversion Hf|]).
      inversion Hfs.
Defined.

End PersistenceFacts.

(** ** What the refinement and [run] leave alone *)

Module RunFacts.
Import FrameSetFacts InitialisationFacts.

Section Generic.
Context {E : Externals} {C : CeresSolver}.

Lemma mapM_elem_inv {A B} (f : A -> result B) l bs b :
  mapM f l = Ok bs -> b ∈ bs -> exists a, a ∈ l /\ f a = Ok b.
Proof.
  intros H%mapM_Forall2 Hb. apply list_elem_of_lookup in Hb as [i Hi].
  destruct (Forall2_lookup_r _ _ _ _ _ H Hi) as (a & Ha & Hab).
  exists a. split; [eapply list_elem_of_lookup_2; eauto|exact Hab].
Qed.

Lemma concat_elem {A} (x : A) ls :
  x ∈ concat ls -> exists l, l ∈ ls /\ x ∈ l.
Proof.
  rewrite list_elem_of_In, in_concat. intros (l & Hl & Hx).
  exists l. now rewrite !list_elem_of_In.
Qed.

(** Without [optimizeScenePoints] no residual block is attached to a scene
    point. *)
Lemma frameResiduals_fixed_points s T i f rs rb a :
  frameResiduals s T false i f = Ok rs -> rb ∈ rs ->
  ScenePoint a ∉ rb_blocks rb.
Proof.
  unfold frameResiduals. intros H Hrb.
  destruct (mapM_elem_inv _ _ _ _ H Hrb) as ([p a'] & _ & Heq).
  cbn [fst snd] in Heq.
  destruct (at_ (m_cameras s) (cameraId f)) as [cam|]; [|discriminate].
  destruct (at_ T (cameraId f)) as [T0|]; [|discriminate].
  destruct (deref_ptr (odometry f)) as [odo|]; [|discriminate].
  cbn [mbind result_bind] in Heq. injection Heq as <-. cbn [rb_blocks app].
  intros Hin. repeat (apply elem_of_cons in Hin as [Hin|Hin]; [discriminate|]).
  inversion Hin.
Qed.

Lemma ceresProblem_fixed_points s T problem a :
  ceresProblem s T false = Ok problem -> free problem (ScenePoint a) = false.
Proof.
  unfold ceresProblem, buildResiduals. intros H.
  destruct (mapM _ (imap _ _)) as [per|] eqn:Eper; [|discriminate].
  cbn [mbind result_bind] in H.
  destruct (mapM _ (seq 0 _)) as [qs|]; [|discriminate].
  cbn [mbind result_bind] in H. injection H as <-.
  unfold free. cbn [residualBlocks constantBlocks].
  rewrite bool_decide_eq_false_2; [reflexivity|]. intros Hin.
  apply concat_elem in Hin as (bl & Hbl & Ha).
  apply list_elem_of_fmap in Hbl as (rb & -> & Hrb).
  apply concat_elem in Hrb as (rs & Hrs & Hrb).
  destruct (mapM_elem_inv _ _ _ _ Eper Hrs) as ([i fs] & _ & Heq).
  cbn [fst snd] in Heq.
  destruct (mapM _ (frames fs)) as [rss|] eqn:Erss; [|discriminate].
  cbn [mbind result_bind] in Heq. injection Heq as <-.
  apply concat_elem in Hrb as (rsf & Hrsf & Hrb).
  destruct (mapM_elem_inv _ _ _ _ Erss Hrsf) as (f & _ & Hf).
  exact (frameResiduals_fixed_points _ _ _ _ _ _ _ Hf Hrb Ha).
Qed.

Lemma refinedHeap_lookup problem solved h a :
  refinedHeap problem solved h !! a =
  (fun o => {| point := pick problem (ScenePoint a) (point o)
                             (val_point solved !! a);
               observations := observations o |}) <$> h !! a.
Proof.
  unfold refinedHeap. rewrite map_lookup_imap.
  now destruct (h !! a).
Qed.

Lemma refinedHeap_fixed problem solved h :
  (forall a, free problem (ScenePoint a) = false) ->
  refinedHeap problem solved h = h.
Proof.
  intros Hfix. apply map_eq. intros a. rewrite refinedHeap_lookup.
  destruct (h !! a) as [o|]; [|reflexivity]. simpl. f_equal.
  unfold pick. rewrite Hfix. now destruct o.
Qed.

Lemma refinedFrameSet_without problem solved i fs :
  withoutOdometry (refinedFrameSet problem solved i fs) = withoutOdometry fs.
Proof.
  unfold withoutOdometry, refinedFrameSet. cbn [frames timestamp].
  f_equal. rewrite map_map. reflexivity.
Qed.

Lemma refinedFrameSets_without problem solved sets :
  map withoutOdometry (imap (refinedFrameSet problem solved) sets)
  = map withoutOdometry sets.
Proof.
  apply list_eq. intros i. rewrite !list_lookup_fmap, list_lookup_imap.
  destruct (sets !! i) as [fs|]; [|reflexivity]. simpl.
  now rewrite refinedFrameSet_without.
Qed.

(** The fields no operation of [run] writes. *)
Definition sameRig (s s' : Calibration) : Prop :=
  m_cameras s' = m_cameras s /\ m_refGraph s' = m_refGraph s /\
  m_feature3DMap s' = m_feature3DMap s /\
  m_x_last s' = m_x_last s /\ m_y_last s' = m_y_last s /\
  m_distance s' = m_distance s /\ m_verbose s' = m_verbose s /\
  length (m_extrinsics s') = length (m_extrinsics s).

Lemma sameRig_refl s : sameRig s s.
Proof. repeat split. Qed.

Lemma sameRig_trans s1 s2 s3 : sameRig s1 s2 -> sameRig s2 s3 -> sameRig s1 s3.
Proof. unfold sameRig. intuition congruence. Qed.

Lemma print_sameRig s line : sameRig s (print s line).
Proof. repeat split. Qed.

Lemma info_sameRig s line : sameRig s (info s line).
Proof.
  unfold info. destruct (m_verbose s); [apply print_sameRig|apply sameRig_refl].
Qed.

Lemma set_framesets_sameRig s sets : sameRig s (set_framesets s sets).
Proof. repeat split. Qed.

Lemma setGlobalCameraPose_sameRig s i H : sameRig s (setGlobalCameraPose s i H).
Proof.
  unfold sameRig, setGlobalCameraPose. cbn. rewrite length_insert.
  repeat split.
Qed.

(** What [optimize] does to the frame sets and to the scene points. *)
Lemma optimize_shape s opt s' :
  optimize s opt = Ok s' ->
  exists T problem solved,
    ceresProblem s T opt = Ok problem /\
    sameRig s s' /\
    m_framesets s' = imap (refinedFrameSet problem solved) (m_framesets s) /\
    heap s' = refinedHeap problem solved (heap s).
Proof.
  unfold optimize. intros H.
  destruct (extrinsicPoses s) as [T|] eqn:ET; [|discriminate].
  cbn [mbind result_bind] in H.
  bind_in H. rename a into sv.
  assert (Hsv : sv = s \/ exists l, sv = print s l).
  { destruct (m_verbose s).
    - bind_in Eb. injection Eb as <-. eauto.
    - injection Eb as <-. auto. }
  assert (Hp : ceresProblem sv T opt = ceresProblem s T opt).
  { destruct Hsv as [->|[l ->]]; reflexivity. }
  assert (Hrv : sameRig s sv /\ m_framesets sv = m_framesets s
                /\ heap sv = heap s).
  { destruct Hsv as [->|[l ->]]; repeat split. }
  destruct Hrv as (Hrv & Hfv & Hhv).
  rewrite Hp in H. bind_in H. rename a into problem.
  cbv zeta in H.
  exists T, problem, (Solve problem (ceresValues sv T)).
  split; [assumption|].
  set (solved := Solve problem (ceresValues sv T)) in *.
  match type of H with
  | context [foldM _ (seq 0 (length (m_cameras ?x))) ?x] =>
      remember x as s3 eqn:Es3
  end.
  assert (H3 : sameRig s s3 /\
               m_framesets s3 = imap (refinedFrameSet problem solved)
                                     (m_framesets s) /\
               heap s3 = refinedHeap problem solved (heap s)).
  { subst s3. rewrite <- Hfv, <- Hhv. split; [|split].
    - eapply sameRig_trans; [exact Hrv|].
      eapply sameRig_trans; [|apply info_sameRig].
      eapply sameRig_trans; [|apply info_sameRig]. repeat split.
    - unfold info. repeat destruct (m_verbose _); reflexivity.
    - unfold info. repeat destruct (m_verbose _); reflexivity. }
  clear Es3. destruct H3 as (Hr3 & Hf3 & Hh3).
  bind_in H. rename a into s4.
  assert (H4 : sameRig s3 s4 /\ m_framesets s4 = m_framesets s3
                /\ heap s4 = heap s3).
  { revert Eb1. apply (foldM_invariant
             (fun x => sameRig s3 x /\ m_framesets x = m_framesets s3
                       /\ heap x = heap s3)).
    - split; [apply sameRig_refl|]. split; reflexivity.
    - intros a j a' (Hr & Hf & Hh) Hj. bind_in Hj. injection Hj as <-.
      split; [|split; assumption].
      eapply sameRig_trans; [exact Hr|apply setGlobalCameraPose_sameRig]. }
  destruct H4 as (Hr4 & Hf4 & Hh4).
  assert (Hfin : sameRig s4 s' /\ m_framesets s' = m_framesets s4
                 /\ heap s' = heap s4).
  { destruct (m_verbose s4).
    - bind_in H. injection H as <-. repeat split.
    - injection H as <-. repeat split. }
  destruct Hfin as (Hr5 & Hf5 & Hh5).
  split; [|split].
  - eauto using sameRig_trans.
  - congruence.
  - congruence.
Qed.


Lemma bind_total {A B} (P : A -> Prop) (m : result A) (k : A -> result B) :
  (exists a, m = Ok a /\ P a) -> (forall a, P a -> exists b, k a = Ok b) ->
  exists b, m ≫= k = Ok b.
Proof. intros (a & -> & Ha) Hk. cbn [mbind result_bind]. now apply Hk. Qed.

(** Every frame has a camera of the rig and an odometry record. *)
Definition tracked (s : Calibration) : Prop :=
  length (m_extrinsics s) = length (m_cameras s) /\
  forall fs f, fs ∈ m_framesets s -> f ∈ frames fs ->
    (cameraId f < length (m_cameras s))%nat /\ odometry f <> None.

(** Every camera of the rig has, in some frame set, a frame with a 2D
    feature that has a scene point: its extrinsic blocks are then blocks
    of the problem. *)
Definition observed (s : Calibration) : Prop :=
  forall i, (i < length (m_cameras s))%nat ->
    exists fs f p a,
      fs ∈ m_framesets s /\ f ∈ frames fs /\ cameraId f = i /\
      p ∈ features2D f /\ feature3D p = Some a.

Lemma buildResiduals_total s T opt :
  tracked s -> length T = length (m_cameras s) ->
  exists residuals, buildResiduals s T opt = Ok residuals.
Proof.
  intros [_ Hall] HT. unfold buildResiduals.
  match goal with
  | |- context [mapM ?f (imap ?g ?l)] =>
      destruct (mapM_total f (imap g l)) as [per ->]
  end.
  - intros [i fs] Hifs. cbn [fst snd].
    apply elem_of_lookup_imap in Hifs as (i' & fs' & [= -> ->] & Hfs).
    apply list_elem_of_lookup_2 in Hfs.
    match goal with
    | |- context [mapM ?f ?l] => destruct (mapM_total f l) as [rs ->]
    end; [|cbn [mbind result_bind]; eauto].
    intros f Hf. destruct (Hall fs' f Hfs Hf) as [Hc Ho].
    unfold frameResiduals. apply mapM_total. intros [p a] _.
    destruct (at_lt (m_cameras s) (cameraId f) Hc) as [cam ->].
    destruct (at_lt T (cameraId f)) as [T0 ->]; [lia|].
    destruct (odometry f); [|congruence].
    cbn [deref_ptr mbind result_bind]. eauto.
  - cbn [mbind result_bind]. eauto.
Qed.

(** The problem is built without a failure when, besides, every camera is
    observed; a camera that is not makes [SetParameterization] abort. *)
Lemma ceresProblem_total s T opt :
  tracked s -> observed s -> length T = length (m_cameras s) ->
  exists problem, ceresProblem s T opt = Ok problem.
Proof.
  intros Htr Hobs HT. unfold ceresProblem.
  destruct (buildResiduals_total s T opt Htr HT) as [residuals Hres].
  rewrite Hres. cbn [mbind result_bind].
  match goal with
  | |- context [mapM ?f ?l] => destruct (mapM_total f l) as [qs ->]
  end; [|cbn [mbind result_bind]; eauto].
  intros i Hi%elem_of_seq.
  destruct (Hobs i) as (fs & f & p & a & Hfs & Hf & <- & Hp & Ha); [lia|].
  destruct (RefinementFacts.buildResiduals_blocks _ _ _ _ _ _ _ _
              Hres Hfs Hf Hp Ha) as [Hrot _].
  unfold SetParameterization. rewrite bool_decide_eq_true_2 by exact Hrot.
  eauto.
Qed.

Lemma ceresProblem_unobserved s T opt i :
  (i < length (m_cameras s))%nat ->
  (forall fs f, fs ∈ m_framesets s -> f ∈ frames fs -> cameraId f = i ->
     forall p, p ∈ features2D f -> feature3D p = None) ->
  forall problem, ceresProblem s T opt <> Ok problem.
Proof.
  intros Hi Hnone problem H. unfold ceresProblem in H.
  destruct (buildResiduals s T opt) as [rs|] eqn:Ers; [|discriminate].
  cbn [mbind result_bind] in H.
  destruct (mapM _ (seq 0 _)) as [qs|] eqn:Eqs; [|discriminate].
  destruct (RefinementFacts.mapM_elem _ _ _ i Eqs) as (b & _ & Hb).
  { apply elem_of_seq. lia. }
  unfold SetParameterization in Hb.
  destruct (bool_decide_reflect
              (ExtrinsicRotation i ∈ concat (map rb_blocks rs)))
    as [Hin|]; [|discriminate].
  clear -Ers Hin Hnone. unfold buildResiduals in Ers.
  destruct (mapM _ (imap _ _)) as [per|] eqn:Eper; [|discriminate].
  cbn [mbind result_bind] in Ers. injection Ers as <-.
  apply concat_elem in Hin as (bl & Hbl & Hb).
  apply list_elem_of_fmap in Hbl as (rb & -> & Hrb).
  apply concat_elem in Hrb as (rs & Hrs & Hrb).
  destruct (mapM_elem_inv _ _ _ _ Eper Hrs) as ([j fs] & Hjfs & Heq).
  apply elem_of_lookup_imap in Hjfs as (j' & fs' & [= -> ->] & Hfs).
  apply list_elem_of_lookup_2 in Hfs.
  cbn [fst snd] in Heq.
  destruct (mapM _ (frames fs')) as [rss|] eqn:Erss; [|discriminate].
  cbn [mbind result_bind] in Heq. injection Heq as <-.
  apply concat_elem in Hrb as (rsf & Hrsf & Hrb).
  destruct (mapM_elem_inv _ _ _ _ Erss Hrsf) as (f & Hf & Hfr).
  unfold frameResiduals in Hfr.
  destruct (mapM_elem_inv _ _ _ _ Hfr Hrb) as ([p a] & Hpa & Hrbeq).
  apply list_elem_of_omap in Hpa as (p' & Hp' & Hsome).
  destruct (feature3D p') as [a'|] eqn:Ea; [|discriminate].
  cbn [fst snd] in Hrbeq.
  destruct (at_ (m_cameras s) (cameraId f)) as [cam|]; [|discriminate].
  destruct (at_ T (cameraId f)) as [T0|]; [|discriminate].
  destruct (deref_ptr (odometry f)) as [odo|]; [|discriminate].
  cbn [mbind result_bind] in Hrbeq. injection Hrbeq as <-.
  cbn [rb_blocks app] in Hb.
  assert (Hid : cameraId f = i).
  { apply elem_of_cons in Hb as [Hb|Hb]; [now injection Hb|].
    repeat (apply elem_of_cons in Hb as [Hb|Hb]; [discriminate|]).
    destruct opt; [|inversion Hb].
    apply elem_of_cons in Hb as [Hb|Hb]; [discriminate|inversion Hb]. }
  rewrite (Hnone fs' f Hfs Hf Hid p' Hp') in Ea. discriminate.
Qed.

Lemma refined_tracked problem solved s s' :
  tracked s ->
  m_cameras s' = m_cameras s ->
  length (m_extrinsics s') = length (m_extrinsics s) ->
  m_framesets s' = imap (refinedFrameSet problem solved) (m_framesets s) ->
  tracked s'.
Proof.
  intros [Hlen Hall] Hc He Hf. split; [congruence|].
  intros fs' f' Hfs' Hf'. rewrite Hf in Hfs'.
  apply elem_of_lookup_imap in Hfs' as (i & fs & -> & Hfs).
  apply list_elem_of_lookup_2 in Hfs. cbn [refinedFrameSet frames] in Hf'.
  apply list_elem_of_fmap in Hf' as (f & -> & Hin).
  destruct (Hall fs f Hfs Hin) as [Hcam Hodo].
  cbn [Frame_set_odometry cameraId odometry]. rewrite Hc.
  split; [exact Hcam|]. now destruct (odometry f).
Qed.

(** [optimize] does not throw when every frame has an odometry record and
    a camera of the rig, the rig an extrinsic pose per camera, and every
    camera is observed. *)
Lemma optimize_total s opt :
  tracked s -> observed s -> exists s', optimize s opt = Ok s'.
Proof.
  intros Htr Hobs. pose proof Htr as [Hlen Hall]. unfold optimize.
  destruct (mapM_total
              (fun i => H ← getGlobalCameraPose s i; Ok (Pose_of_matrix H))
              (seq 0 (length (m_cameras s)))) as [T HT].
  { intros i Hi%elem_of_seq. unfold getGlobalCameraPose.
    destruct (at_lt (m_extrinsics s) i) as [H ->]; [lia|].
    cbn [mbind result_bind]. eauto. }
  assert (HTl : length T = length (m_cameras s)).
  { apply mapM_length in HT. now rewrite length_seq in HT. }
  unfold extrinsicPoses. rewrite HT. cbn [mbind result_bind].
  apply (bind_total (fun sv => sv = s \/ exists l, sv = print s l)).
  { destruct (m_verbose s); [|eauto].
    destruct (reprojectionError_total s Hlen Hall) as [st ->].
    cbn [mbind result_bind]. eauto. }
  intros sv Hsv.
  assert (Hv : tracked sv /\ observed sv /\ m_cameras sv = m_cameras s).
  { destruct Hsv as [->|[l ->]];
      (split; [exact Htr|split; [exact Hobs|reflexivity]]). }
  destruct Hv as (Htrv & Hobsv & Hcv).
  destruct (ceresProblem_total sv T opt Htrv Hobsv) as [problem ->];
    [congruence|].
  cbn [mbind result_bind]. cbv zeta.
  set (solved := Solve problem (ceresValues sv T)).
  set (T' := imap (refinedPose problem solved) T).
  match goal with
  | |- context [foldM _ (seq 0 (length (m_cameras ?x))) ?x] =>
      remember x as s3 eqn:Es3
  end.
  assert (H3 : m_cameras s3 = m_cameras sv /\
               m_extrinsics s3 = m_extrinsics sv /\
               m_framesets s3 = imap (refinedFrameSet problem solved)
                                     (m_framesets sv)).
  { subst s3. unfold info. repeat destruct (m_verbose _); repeat split. }
  clear Es3. destruct H3 as (Hc3 & He3 & Hf3).
  rewrite seedPoses_foldM.
  rewrite (mapM_at_seq Pose_pose T')
    by (subst T'; rewrite length_imap, Hc3, Hcv, HTl; reflexivity).
  cbn [mbind result_bind].
  match goal with
  | |- context [m_verbose ?x] => remember x as s4 eqn:Es4
  end.
  assert (H4 : tracked s4).
  { apply (refined_tracked problem solved sv); [exact Htrv| | |].
    - subst s4. cbn [m_cameras set_extrinsics]. exact Hc3.
    - subst s4. cbn [m_extrinsics set_extrinsics].
      now rewrite writeAll_length, He3.
    - subst s4. cbn [m_framesets set_extrinsics]. exact Hf3. }
  destruct (m_verbose s4); [|eauto].
  destruct H4 as [Hl4 Ha4].
  destruct (reprojectionError_total s4 Hl4 Ha4) as [st ->].
  cbn [mbind result_bind]. eauto.
Qed.

(** X12.  [optimize] changes the frame sets only in the position and the
    attitude of the odometry of their frames, and the scene points only in
    their coordinates: it keeps the cameras, the Feature3D map, the number
    of extrinsic poses, the distance travelled, the time stamp, the camera
    pose and the 2D features of every frame, and the observations of every
    scene point.  Without [optimizeScenePoints] the scene points are not
    changed at all. *)
Theorem optimize_keeps s opt s' :
  optimize s opt = Ok s' ->
  sameRig s s' /\
  map withoutOdometry (m_framesets s') = map withoutOdometry (m_framesets s) /\
  Forall2 (fun fs fs' =>
             Forall2 (fun f f' => odo_timeStamp <$> odometry f'
                                  = odo_timeStamp <$> odometry f)
                     (frames fs) (frames fs'))
          (m_framesets s) (m_framesets s') /\
  (forall a, observations <$> heap s' !! a = observations <$> heap s !! a) /\
  (opt = false -> heap s' = heap s).
Proof.
  intros H.
  destruct (optimize_shape s opt s' H)
    as (T & problem & solved & Hp & Hrig & Hsets & Hheap).
  split; [exact Hrig|]. split; [|split; [|split]].
  - rewrite Hsets. apply refinedFrameSets_without.
  - rewrite Hsets. apply Forall2_same_length_lookup. split.
    + now rewrite length_imap.
    + intros i fs fs' Hfs Hfs'. rewrite list_lookup_imap, Hfs in Hfs'.
      injection Hfs' as <-. cbn [refinedFrameSet frames].
      apply Forall2_fmap_r, Forall_Forall2_diag, Forall_forall.
      intros f _. unfold compose. cbn [Frame_set_odometry odometry].
      now destruct (odometry f).
  - intros a. rewrite Hheap, refinedHeap_lookup.
    now destruct (heap s !! a).
  - intros ->. rewrite Hheap. apply refinedHeap_fixed.
    intros a. eapply ceresProblem_fixed_points; eauto.
Qed.


(** *** [run] *)

Lemma tryHypothesis_sameRig s fs s' T e :
  tryHypothesis s fs = Ok (s', T, e) -> sameRig s s'.
Proof.
  rewrite tryHypothesis_unfold. cbv zeta. intros H.
  do 5 bind_in H. injection H as <- _ _.
  unfold sameRig. cbn [m_cameras m_refGraph m_feature3DMap m_x_last m_y_last
    m_distance m_verbose m_extrinsics set_framesets set_extrinsics].
  rewrite writeAll_length. repeat split.
Qed.

Lemma initStep_sameRig s0 st i st' :
  sameRig s0 st.1.1 -> initStep st i = Ok st' -> sameRig s0 st'.1.1.
Proof.
  destruct st as [[s m] b]. unfold initStep. cbn [fst snd]. intros Hr H.
  bind_in H. destruct (_ <? _)%nat.
  - injection H as <-. exact Hr.
  - bind_in H. destruct a0 as [[sx Tx] ex].
    apply tryHypothesis_sameRig in Eb0.
    destruct (IEEE.flt ex m); injection H as <-; cbn [fst snd];
      eapply sameRig_trans; eauto.
Qed.

(** The initialisation writes the extrinsic poses, the odometry of the
    frames and the console, and nothing else. *)
Lemma initialise_sameRig s r :
  initialise s = Ok r -> sameRig s (state_of r).
Proof.
  unfold initialise. intros H. bind_in H. rename a into sr.
  assert (Hsr : sameRig s sr).
  { unfold reportFrameSets in Eb. destruct (m_verbose s).
    - bind_in Eb. destruct a as [sumE sumC]. injection Eb as <-.
      repeat split.
    - injection Eb as <-. apply sameRig_refl. }
  cbv zeta in H. bind_in H. destruct a as [[s2 m] best].
  assert (H2 : sameRig s s2).
  { change s2 with (s2, m, best).1.1. revert Eb0.
    apply (foldM_invariant (fun st => sameRig s st.1.1)).
    - cbn [fst snd]. eapply sameRig_trans; [exact Hsr|].
      apply setGlobalCameraPose_sameRig.
    - intros st i st'. apply initStep_sameRig. }
  destruct (IEEE.feq m IEEE.DBL_MAX).
  - injection H as <-. cbn [state_of].
    eapply sameRig_trans; [exact H2|apply print_sameRig].
  - bind_in H. rename a into s3. bind_in H. injection H as <-.
    cbn [state_of]. eapply sameRig_trans; [exact H2|].
    eapply sameRig_trans; [|apply set_framesets_sameRig].
    revert Eb1. apply (foldM_invariant (fun x => sameRig s2 x)).
    + apply sameRig_refl.
    + intros x j x' Hr Hj. bind_in Hj. injection Hj as <-.
      eapply sameRig_trans; [exact Hr|apply setGlobalCameraPose_sameRig].
Qed.

(** The frames of a frame set share one odometry record. *)
Definition sharedRecord (fs : FrameSet) : Prop :=
  exists odo, forall f, f ∈ frames fs -> odometry f = Some odo.

Lemma finalOdometry_shape T fs fs' :
  finalOdometry T fs = Ok fs' ->
  withoutOdometry fs' = withoutOdometry fs /\ sharedRecord fs'.
Proof.
  unfold finalOdometry. intros H. bind_in H. destruct a as [pos att].
  do 2 bind_in H. injection H as <-. split.
  - unfold withoutOdometry. cbn [frames timestamp]. f_equal.
    rewrite map_map. reflexivity.
  - eexists. intros f Hf. cbn [frames] in Hf.
    apply list_elem_of_fmap in Hf as (f0 & -> & _). reflexivity.
Qed.

Lemma refinedFrameSet_shared problem solved i fs :
  sharedRecord fs -> sharedRecord (refinedFrameSet problem solved i fs).
Proof.
  intros [odo Hodo]. eexists. intros f Hf. cbn [refinedFrameSet frames] in Hf.
  apply list_elem_of_fmap in Hf as (f0 & -> & Hf0).
  cbn [Frame_set_odometry odometry]. rewrite (Hodo f0 Hf0). reflexivity.
Qed.

Lemma without_valid n sets sets' fs' :
  map withoutOdometry sets' = map withoutOdometry sets ->
  (forall fs, fs ∈ sets -> validFrameSet n fs) ->
  fs' ∈ sets' -> validFrameSet n fs'.
Proof.
  intros Hm Hv Hin.
  assert (Hw : withoutOdometry fs' ∈ map withoutOdometry sets).
  { rewrite <- Hm. apply list_elem_of_fmap. eauto. }
  apply list_elem_of_fmap in Hw as (fs & Heq & Hfs).
  eapply validFrameSet_without; eauto.
Qed.

(** What the initialisation of a well-formed rig ends in. *)
Lemma initialise_shape s :
  wellFormed s ->
  exists r,
    initialise s = Ok r /\
    heap (state_of r) = heap s /\
    map withoutOdometry (m_framesets (state_of r))
      = map withoutOdometry (m_framesets s) /\
    match r with
    | Seeded s' => forall fs, fs ∈ m_framesets s' -> sharedRecord fs
    | NoCompleteFrameSet _ => True
    end.
Proof.
  intros WF. pose proof WF as (Hn & He & Hv).
  destruct (initialise_entry s WF) as (s1 & Hc1 & Hf1 & Hx1 & Hh1 & Hinit).
  assert (Hn1 : (1 <= length (m_cameras s1))%nat) by (now rewrite Hc1).
  assert (He1 : length (m_extrinsics s1) = length (m_cameras s1)).
  { now rewrite Hx1, length_insert, Hc1. }
  assert (Hv1 : forall fs, fs ∈ m_framesets s1 ->
                           validFrameSet (length (m_cameras s1)) fs).
  { now rewrite Hf1, Hc1. }
  destruct (loop_selected s1 Hn1 He1 Hv1)
    as ([[s2 min] best] & Hfold & Hag & Hsel).
  cbn [fst snd] in *. pose proof Hag as (Hc2 & Hh2 & Hl2 & H02 & Hm2).
  assert (H0 : m_extrinsics s2 !! 0%nat = Some Matrix4d_Identity).
  { rewrite H02, Hx1. apply list_lookup_insert_eq. lia. }
  rewrite Hinit, Hfold. cbn [mbind result_bind].
  destruct Hsel as [(-> & _)
                   |(jb & fsb & sb & Hjb & Hfsb & Hcompb & Htryb & HltM
                      & Hodo & Hall)].
  - rewrite IEEE.feq_DBL_MAX. eexists. split; [reflexivity|].
    cbn [state_of heap m_framesets print]. repeat split; congruence.
  - rewrite (IEEE.flt_not_feq _ _ HltM).
    destruct (tryHypothesis_total s1 Hn1 He1 Hv1 s1 fsb (agrees_refl s1))
      as (sb' & Tb & eb & Htryb' & Hhyp & HTlen & _).
    { apply Hv1. eapply list_elem_of_lookup_2; eauto. }
    rewrite Htryb in Htryb'. injection Htryb' as <- <- <-.
    rewrite seeded_extrinsics by congruence.
    cbn [mbind result_bind m_framesets set_extrinsics].
    destruct (mapM_total (finalOdometry best) (m_framesets s2)) as [F HF].
    { intros a Ha.
      apply (finalOdometry_total best a (length (m_cameras s1))).
      - eapply agrees_valid; eauto.
      - exact HTlen.
      - intros f Hf0. now apply (Hodo a f). }
    rewrite HF. cbn [mbind result_bind]. eexists. split; [reflexivity|].
    cbn [state_of heap m_framesets set_framesets set_extrinsics].
    apply mapM_Forall2 in HF.
    split; [congruence|]. split.
    + rewrite <- Hf1, <- Hm2. clear -HF.
      induction HF as [|fs fs' l l' Hfs _ IH]; [reflexivity|].
      cbn [map]. apply finalOdometry_shape in Hfs as [-> _]. now f_equal.
    + intros fs' Hfs'. apply list_elem_of_lookup in Hfs' as [i Hi].
      destruct (Forall2_lookup_r _ _ _ _ _ HF Hi) as (fs & _ & Hfs).
      now apply finalOdometry_shape in Hfs.
Qed.

Lemma observed_without s s' :
  m_cameras s' = m_cameras s ->
  map withoutOdometry (m_framesets s') = map withoutOdometry (m_framesets s) ->
  observed s -> observed s'.
Proof.
  intros Hc Hm Hobs i Hi. rewrite Hc in Hi.
  destruct (Hobs i Hi) as (fs & f & p & a & Hfs & Hf & Hid & Hp & Ha).
  assert (Hw : withoutOdometry fs ∈ map withoutOdometry (m_framesets s')).
  { rewrite Hm. apply list_elem_of_fmap. eauto. }
  apply list_elem_of_fmap in Hw as (fs' & Heq & Hfs').
  assert (Hg : Frame_set_odometry f None
               ∈ map (fun f => Frame_set_odometry f None) (frames fs')).
  { replace (map (fun f => Frame_set_odometry f None) (frames fs'))
      with (frames (withoutOdometry fs')) by reflexivity.
    rewrite <- Heq. cbn [withoutOdometry frames].
    apply list_elem_of_fmap. eauto. }
  apply list_elem_of_fmap in Hg as (f' & Hfeq & Hf').
  exists fs', f', p, a. split; [exact Hfs'|]. split; [exact Hf'|].
  assert (Hcam : cameraId f' = cameraId f) by (now injection Hfeq).
  assert (Hfe : features2D f' = features2D f) by (now injection Hfeq).
  rewrite Hcam, Hfe. auto.
Qed.

(** X13.  On a well-formed rig of which every camera is observed (it has,
    in some frame set, a frame with a 2D feature that has a scene point,
    so that its rotation block is a block of the problem when
    [SetParameterization] is called), [run] does not throw.  It writes the
    extrinsic poses and the odometry of the frames, and prints; it leaves
    the cameras, the reference graph, the Feature3D map, the scene points,
    the distance travelled, and the time stamp, camera pose and 2D features
    of every frame as they were.  When the initialisation has installed a
    seed, the frames of every frame set end with one common odometry
    record. *)
Theorem run_keeps_scene s :
  wellFormed s -> observed s ->
  exists s',
    run s = Ok s' /\
    sameRig s s' /\ heap s' = heap s /\
    map withoutOdometry (m_framesets s') = map withoutOdometry (m_framesets s) /\
    (forall r, initialise s = Ok (Seeded r) ->
       forall fs, fs ∈ m_framesets s' -> sharedRecord fs).
Proof.
  intros WF Hobs. pose proof WF as (Hn & He & Hv).
  destruct (initialise_shape s WF) as (r & Hinit & Hh & Hm & Hshared).
  pose proof (initialise_sameRig s r Hinit) as Hrig.
  unfold run. rewrite Hinit. cbn [mbind result_bind].
  destruct r as [s0|s0]; cbn [state_of] in *.
  - exists s0. split; [reflexivity|]. do 3 (split; [assumption|]).
    intros r Hr. discriminate Hr.
  - pose proof Hrig as (Hc0 & _ & _ & _ & _ & _ & _ & Hl0).
    assert (Htr : tracked s0).
    { split; [congruence|]. intros fs f Hfs Hf.
      destruct (without_valid (length (m_cameras s)) _ _ fs Hm Hv Hfs)
        as [_ Hall].
      destruct (Hall f Hf) as [Hc _]. rewrite Hc0. split; [exact Hc|].
      destruct (Hshared fs Hfs) as [odo Hodo]. now rewrite (Hodo f Hf). }
    pose proof (observed_without s s0 Hc0 Hm Hobs) as Hobs0.
    destruct (optimize_total s0 false Htr Hobs0) as [s1 Hopt].
    rewrite Hopt. cbn [mbind result_bind].
    destruct (optimize_shape s0 false s1 Hopt)
      as (T & problem & solved & Hp & Hrig1 & Hsets & Hheap).
    eexists. split; [reflexivity|].
    assert (Hinfo : forall l, sameRig s1 (info s1 l) /\
                      heap (info s1 l) = heap s1 /\
                      m_framesets (info s1 l) = m_framesets s1).
    { intros l. split; [apply info_sameRig|].
      unfold info. destruct (m_verbose s1); split; reflexivity. }
    match goal with
    | |- context [info s1 ?l] => destruct (Hinfo l) as (Hri & -> & ->)
    end.
    split; [eauto using sameRig_trans|]. split; [|split].
    + rewrite Hheap, <- Hh. apply refinedHeap_fixed.
      intros a. eapply ceresProblem_fixed_points; eauto.
    + rewrite Hsets, refinedFrameSets_without. exact Hm.
    + intros _ _ fs Hfs. rewrite Hsets in Hfs.
      apply elem_of_lookup_imap in Hfs as (i & fs0 & -> & Hfs0).
      apply refinedFrameSet_shared, Hshared.
      eapply list_elem_of_lookup_2; eauto.
Qed.

End Generic.

Lemma optimize_keeps_witness :
  optimize (E := Toy.externals) (C := Toy.shifting) Toy.seeded false
    = Ok Toy.refined /\
  sameRig Toy.seeded Toy.refined /\
  map withoutOdometry (m_framesets Toy.refined)
    = map withoutOdometry (m_framesets Toy.seeded) /\
  Forall2 (fun fs fs' =>
             Forall2 (fun f f' => odo_timeStamp <$> odometry f'
                                  = odo_timeStamp <$> odometry f)
                     (frames fs) (frames fs'))
          (m_framesets Toy.seeded) (m_framesets Toy.refined) /\
  (forall a : addr,
     observations (E := Toy.externals) <$> heap Toy.refined !! a
     = observations (E := Toy.externals) <$> heap Toy.seeded !! a) /\
  (false = false -> heap Toy.refined = heap Toy.seeded).
Proof.
  assert (H : optimize (E := Toy.externals) (C := Toy.shifting) Toy.seeded
                false = Ok Toy.refined) by by_evaluation.
  split; [exact H|].
  exact (optimize_keeps (E := Toy.externals) (C := Toy.shifting)
           Toy.seeded false Toy.refined H).
Defined.

Lemma run_keeps_scene_witness :
  exists s',
    run (E := Toy.externals) (C := Toy.shifting) Toy.rig = Ok s' /\
    sameRig Toy.rig s' /\ heap s' = heap Toy.rig /\
    map withoutOdometry (m_framesets s')
      = map withoutOdometry (m_framesets Toy.rig) /\
    (forall r, initialise Toy.rig = Ok (Seeded r) ->
       forall fs, fs ∈ m_framesets s' -> sharedRecord fs).
Proof.
  apply (run_keeps_scene (E := Toy.externals) (C := Toy.shifting) Toy.rig).
  - unfold Toy.rig. wellFormed_by_cases.
  - intros i Hi. cbn in Hi.
    destruct i as [|[|i]]; [| |lia].
    + exists {| frames := [Toy.shot 0 0 1; Toy.shot 1 3 2]; timestamp := 0 |},
        (Toy.shot 0 0 1).
      eexists _, 1%positive. split; [apply list_elem_of_here|].
      split; [apply list_elem_of_here|]. split; [reflexivity|].
      split; [apply list_elem_of_here|reflexivity].
    + exists {| frames := [Toy.shot 0 0 1; Toy.shot 1 3 2]; timestamp := 0 |},
        (Toy.shot 1 3 2).
      eexists _, 2%positive. split; [apply list_elem_of_here|].
      split; [apply list_elem_of_further, list_elem_of_here|].
      split; [reflexivity|].
      split; [apply list_elem_of_here|reflexivity].
Defined.

Example run_unobserved :
  wellFormed Toy.bare /\
  (exists r, initialise Toy.bare = Ok (Seeded r)) /\
  run (C := Toy.resting) Toy.bare = Throw ceres_fatal.
Proof.
  split; [unfold Toy.bare; wellFormed_by_cases|].
  split.
  - assert (H : match initialise Toy.bare with
                | Ok (Seeded _) => true
                | _ => false
                end = true) by by_evaluation.
    destruct (initialise Toy.bare) as [[r|r]|]; try discriminate H. eauto.
  - by_evaluation.
Qed.

End RunFacts.

(** ** The reprojection-error statistics over all frame sets *)

Module GlobalStatisticsFacts.
Import FrameSetFacts InitialisationFacts StatisticsFacts.

Lemma fold_left_fmap {A B C} (f : A -> C -> A) (g : B -> C) l a :
  fold_left (fun a b => f a (g b)) l a = fold_left f (map g l) a.
Proof. revert a. induction l as [|b l IH]; intros a; simpl; auto. Qed.

Lemma fold_left_count (ns : list nat) k :
  fold_left Nat.add ns k = (k + list_sum ns)%nat.
Proof.
  revert k. induction ns as [|n ns IH]; intros k; simpl; [lia|].
  rewrite IH. lia.
Qed.

Section Generic.
Context {E : Externals}.

Lemma frameStats_count errors : featureCount (frameStats errors) = length errors.
Proof.
  unfold frameStats. cbv zeta.
  destruct (Nat.eqb_spec (length errors) 0) as [->|_]; reflexivity.
Qed.

(** The statistics of one frame under the extrinsics [T]: the count is
    the number of features with a scene point, and a frame without any
    reports zeros. *)
Lemma frameReprojectionError_ref_count s frame cam T st :
  frameReprojectionError_ref s frame cam T = Ok st ->
  featureCount st = length (observed s frame) /\
  (observed s frame = [] -> st = Stats_zero).
Proof.
  unfold frameReprojectionError_ref. intros H. bind_in H.
  injection H as <-. rewrite frameStats_count. split.
  - eapply mapM_length; eauto.
  - intros Hnil. rewrite Hnil in Eb. injection Eb as <-. reflexivity.
Qed.

(** X14.  The statistics over all frame sets: the count is the number of
    2D features with a scene point in all frames, and zeros are returned
    when there is none.  Otherwise the minimum and the maximum are taken
    over the minima and maxima reported per frame, and a frame without
    such features reports 0 for both: with one such frame the reported
    minimum is not above 0, whatever the errors are.  The reported maximum
    is never below [DBL_MIN]. *)
Theorem reprojectionError_totals s st :
  reprojectionError s = Ok st ->
  featureCount st = length (concat (map (observed s) (allFrames s))) /\
  (featureCount st = 0%nat -> st = Stats_zero) /\
  (featureCount st <> 0%nat ->
     IEEE.flt (maxError st) DBL_MIN = false /\
     forall f, f ∈ allFrames s -> observed s f = [] ->
       IEEE.flt IEEE.dzero (minError st) = false).
Proof.
  unfold reprojectionError. intros H. bind_in H. rename a into per.
  cbv zeta in H. apply mapM_Forall2 in Eb.
  assert (Hper : Forall2 (fun f stf =>
                   featureCount stf = length (observed s f) /\
                   (observed s f = [] -> stf = Stats_zero))
                   (allFrames s) per).
  { eapply Forall2_impl; [exact Eb|]. intros f stf Hf. cbv beta in Hf.
    do 2 bind_in Hf.
    eapply frameReprojectionError_ref_count; eauto. }
  assert (Hcount : fold_left (fun c stf => (c + featureCount stf)%nat) per 0%nat
                   = length (concat (map (observed s) (allFrames s)))).
  { rewrite (fold_left_fmap Nat.add featureCount), fold_left_count.
    clear -Hper. induction Hper as [|f stf l l' [Hf _] _ IH]; [reflexivity|].
    cbn [map concat list_sum]. rewrite length_app, <- Hf.
    cbn [Nat.add] in IH. rewrite <- IH. reflexivity. }
  rewrite Hcount in H.
  destruct (Nat.eqb_spec (length (concat (map (observed s) (allFrames s)))) 0)
    as [H0|Hn]; injection H as <-.
  - split; [now rewrite H0|]. split; [reflexivity|]. intros Habs.
    now destruct Habs.
  - cbn [featureCount minError maxError].
    split; [reflexivity|]. split; [intros Habs; now rewrite Habs in Hn|].
    intros _. split.
    + rewrite (fold_left_fmap
                 (fun m e => if IEEE.flt m e then e else m) maxError).
      change (fold_left (fun m e => if IEEE.flt m e then e else m)
                (map maxError per) DBL_MIN)
        with (fold_left maxStep (map maxError per) DBL_MIN).
      now destruct (maxStep_fold (map maxError per) DBL_MIN eq_refl)
        as (_ & _ & Hge & _).
    + intros f Hf Hnil.
      rewrite (fold_left_fmap
                 (fun m e => if IEEE.fgt m e then e else m) minError).
      change (fold_left (fun m e => if IEEE.fgt m e then e else m)
                (map minError per) IEEE.DBL_MAX)
        with (fold_left minStep (map minError per) IEEE.DBL_MAX).
      destruct (minStep_fold (map minError per) IEEE.DBL_MAX
                  IEEE.is_nan_DBL_MAX) as (_ & _ & _ & Hlow).
      apply Hlow. apply list_elem_of_lookup in Hf as [i Hi].
      destruct (Forall2_lookup_l _ _ _ _ _ Hper Hi) as (stf & Hstf & _ & Hz).
      rewrite (Hz Hnil) in Hstf.
      apply list_elem_of_fmap. exists Stats_zero.
      split; [reflexivity|]. eapply list_elem_of_lookup_2; eauto.
Qed.

End Generic.

(** One frame with one feature, of error 1, ... *)
Definition exOne : Calibration (E := Toy.externals) :=
  set_framesets Toy.seeded
    (map (fun fs =>
            {| frames := List.filter (fun f => (cameraId f =? 1)%nat)
                                     (frames fs);
               timestamp := timestamp fs |})
         (take 1 (m_framesets Toy.seeded))).

(** ... and the same with a second frame, which has no feature. *)
Definition exGappy : Calibration (E := Toy.externals) :=
  set_framesets exOne
    (m_framesets exOne ++
     [ {| frames := [Toy.frameAt 0 9]; timestamp := 9 |} ]).

(** The frame without features brings the reported minimum from 1 to 0. *)
Example reprojectionError_featureless_frame :
  reprojectionError exOne
  = Ok {| minError := S754_finite false 4503599627370496 (-52);
          maxError := S754_finite false 4503599627370496 (-52);
          avgError := S754_finite false 4503599627370496 (-52);
          featureCount := 1 |} /\
  reprojectionError exGappy
  = Ok {| minError := IEEE.dzero;
          maxError := S754_finite false 4503599627370496 (-52);
          avgError := S754_finite false 4503599627370496 (-52);
          featureCount := 1 |}.
Proof. split; by_evaluation. Qed.

Lemma reprojectionError_totals_witness :
  let st := {| minError := IEEE.dzero;
               maxError := S754_finite false 4503599627370496 (-52);
               avgError := S754_finite false 4503599627370496 (-52);
               featureCount := 1 |} in
  featureCount st
    = length (concat (map (observed exGappy) (allFrames exGappy))) /\
  (featureCount st = 0%nat -> st = Stats_zero) /\
  (featureCount st <> 0%nat ->
     IEEE.flt (maxError st) DBL_MIN = false /\
     forall f, f ∈ allFrames exGappy -> observed exGappy f = [] ->
       IEEE.flt IEEE.dzero (minError st) = false).
Proof.
  apply (reprojectionError_totals (E := Toy.externals) exGappy).
  by_evaluation.
Defined.

End GlobalStatisticsFacts.

(** ** The choice among the candidates of the place recogniser *)

Module CandidateFacts.
Import FrameSetFacts LocalisationFacts.

Section Generic.
Context {E : Externals}.




Section Candidates.
Variables (frame : Frame) (rk : list (IEEE.float32 * IEEE.float32))
          (thr : IEEE.double) (s0 : Calibration).






End Candidates.


End Generic.



End CandidateFacts.

(** ** The order of the loaded frame sets *)

Module MergeOrderFacts.
Import FrameSetFacts PersistenceFacts.

Section Generic.
Context {E : Externals}.

(** Every camera's first segment is stored in the order of time, without
    two frames at the same time. *)
Definition chronological (graph : SparseGraph) : Prop :=
  forall i a b fa fb ta tb,
    (a < b)%nat ->
    firstSegment graph i !! a = Some fa -> firstSegment graph i !! b = Some fb ->
    stamped ta fa -> stamped tb fb -> ta < tb.

(** The frames at and after the marks are later than [lb]. *)
Definition pendingAfter (graph : SparseGraph) (mark : list nat) (lb : Z)
    : Prop :=
  forall i k f t,
    (i < length graph)%nat -> (markOf mark i <= k)%nat ->
    firstSegment graph i !! k = Some f -> stamped t f -> lb < t.

Lemma stamped_inj t t' f : stamped t f -> stamped t' f -> t = t'.
Proof. intros (p & Hp & <-) (p' & Hp' & <-). congruence. Qed.

Lemma loadLoop_ascending fuel graph : forall mark framesets lb loaded,
  readable graph -> chronological graph -> length mark = length graph ->
  pendingAfter graph mark lb ->
  rest graph mark <> [] \/ lb < UINT64_MAX ->
  loadLoop fuel graph mark framesets = Ok (Some loaded) ->
  exists sets,
    loaded = framesets ++ sets /\
    Forall (fun fs => lb < timestamp fs) sets /\
    ascending (fun a b => timestamp a < timestamp b) sets.
Proof.
  induction fuel as [|fuel IH];
    intros mark framesets lb loaded Hg Hch Hlen Hpend Hlb H; [discriminate|].
  cbn [loadLoop] in H.
  destruct (nextTimestamp_spec graph mark Hg) as (ts & Hts & Hlow & Hsel).
  rewrite Hts in H. cbn [mbind result_bind] in H.
  destruct (takeFronts_spec graph mark ts Hg Hlen)
    as (taken & mark' & Htake & Hlen' & Htaken & Hadv & Hperm & Hnil).
  rewrite Htake in H. cbn [mbind result_bind] in H.
  destruct (allTaken_spec graph mark' Hg) as (b & Hall & Hb).
  rewrite Hall in H. cbn [mbind result_bind] in H.
  (* the time stamp is later than the bound *)
  assert (Hlt : lb < ts).
  { destruct Hsel as [->|(i & f & Hi & Hf & Hst)].
    - destruct Hlb as [Hrest|Hlb]; [|exact Hlb].
      destruct (rest graph mark) as [|f tl] eqn:Er; [congruence|].
      assert (Hin : f ∈ rest graph mark) by (rewrite Er; constructor).
      unfold rest in Hin. apply list_elem_of_In, in_concat in Hin
        as (l & Hl & Hin).
      apply in_map_iff in Hl as (i & <- & Hi). apply in_seq in Hi.
      apply list_elem_of_In, list_elem_of_lookup in Hin as [k Hk].
      rewrite lookup_drop in Hk.
      destruct (firstSegment_readable graph i f Hg) as (p & Hp & Hr).
      { eapply list_elem_of_lookup_2; eauto. }
      assert (Hst : stamped (timeStamp p) f) by (now exists p).
      specialize (Hpend i (markOf mark i + k)%nat f _ ltac:(lia) ltac:(lia)
                   Hk Hst). lia.
    - eapply (Hpend i (markOf mark i) f ts); eauto. }
  (* what is left is later than the time stamp *)
  assert (Hpend' : pendingAfter graph mark' ts).
  { intros i k f t Hi Hk Hf Hst. rewrite (Hadv i Hi) in Hk.
    unfold advanced in Hk.
    destruct (hit graph mark ts i) as [f0|] eqn:Eh.
    - apply hit_front in Eh as [Hf0 Hst0].
      eapply (Hch i (markOf mark i) k f0 f); eauto; lia.
    - destruct (decide (k = markOf mark i)) as [->|Hne].
      + destruct (Hlow i f Hi Hf) as (p & Hp & Hle).
        destruct Hst as (p' & Hp' & <-).
        assert (p' = p) by congruence. subst p'.
        destruct (decide (ts = timeStamp p)) as [Heq|Hneq]; [|lia].
        exfalso.
        assert (Hh : hit graph mark ts i = Some f).
        { apply hit_front. split; [exact Hf|]. now exists p. }
        congruence.
      + destruct (lookup_lt_is_Some_2 (firstSegment graph i)
                    (markOf mark i)) as [f0 Hf0].
        { apply lookup_lt_Some in Hf. lia. }
        destruct (Hlow i f0 Hi Hf0) as (p0 & Hp0 & Hle0).
        assert (Hst0 : stamped (timeStamp p0) f0) by (now exists p0).
        pose proof (Hch i (markOf mark i) k f0 f _ _ ltac:(lia) Hf0 Hf
                      Hst0 Hst). lia. }
  destruct b.
  - injection H as <-. eexists. split; [reflexivity|].
    split; [repeat constructor; exact Hlt|]. simpl. auto.
  - assert (Hrest : rest graph mark' <> []).
    { intros Habs. apply Hb in Habs. discriminate. }
    destruct (IH mark' _ ts loaded Hg Hch Hlen' Hpend' (or_introl Hrest) H)
      as (sets' & -> & Hall' & Hasc').
    exists ({| frames := taken; timestamp := ts |} :: sets').
    split; [now rewrite <- app_assoc|]. split.
    + constructor; [exact Hlt|].
      eapply Forall_impl; [exact Hall'|]. intros fs Hfs. cbv beta in *. lia.
    + cbn [ascending]. split; [exact Hall'|exact Hasc'].
Qed.

(** X16.  When every camera's frames are stored in the order of time,
    [loadFrameSets] builds the frame sets in the order of time: their time
    stamps increase strictly along the list. *)
Theorem loadFrameSets_chronological s filename graph s' :
  readable graph -> chronological graph ->
  loadFrameSets s filename graph = Ok (Some s') ->
  ascending (fun a b => timestamp a < timestamp b) (m_framesets s').
Proof.
  intros Hg Hch. unfold loadFrameSets. cbv zeta. intros H.
  destruct (loadLoop _ graph _ []) as [[loaded|]|] eqn:El; try discriminate.
  cbn [mbind result_bind] in H. injection H as <-.
  destruct (loadLoop_ascending (S (frameCount graph)) graph
              (replicate (length graph) 0%nat) [] (-1) loaded Hg Hch)
    as (sets & -> & _ & Hasc).
  - apply length_replicate.
  - intros i k f t Hi _ Hf (p & Hp & <-).
    destruct (firstSegment_readable graph i f Hg) as (p' & Hp' & Hr).
    { eapply list_elem_of_lookup_2; eauto. }
    assert (p' = p) by congruence. subst p'. lia.
  - right. unfold UINT64_MAX. lia.
  - exact El.
  - unfold info. now destruct (m_verbose _).
Qed.

End Generic.

(** Two cameras with two frames each; both have a frame at time 7. *)
Definition exGraph : SparseGraph (E := Toy.externals) :=
  [ [[Toy.frameAt 0 5; Toy.frameAt 0 7]];
    [[Toy.frameAt 1 7; Toy.frameAt 1 9]] ].

Definition exLoaded : Calibration (E := Toy.externals) :=
  set_framesets Toy.start
    [ {| frames := [Toy.frameAt 0 5]; timestamp := 5 |};
      {| frames := [Toy.frameAt 0 7; Toy.frameAt 1 7]; timestamp := 7 |};
      {| frames := [Toy.frameAt 1 9]; timestamp := 9 |} ].

Example loadFrameSets_exGraph :
  loadFrameSets Toy.start "sets.sg" exGraph = Ok (Some exLoaded).
Proof. by_evaluation. Qed.

Lemma readable_exGraph : readable exGraph.
Proof.
  intros i segments Hi.
  destruct i as [|[|i]]; simpl in Hi; try discriminate; injection Hi as <-;
    (split; [discriminate|]); intros f Hf; simpl in Hf;
    repeat (apply elem_of_cons in Hf as [->|Hf];
            [eexists; split; [reflexivity|]; unfold UINT64_MAX; simpl; lia|]);
    inversion Hf.
Qed.

Lemma chronological_exGraph : chronological exGraph.
Proof.
  intros i a b fa fb ta tb Hab Ha Hb (pa & Hpa & <-) (pb & Hpb & <-).
  destruct i as [|[|i]]; destruct a as [|[|a]]; destruct b as [|[|b]];
    simpl in Ha, Hb; try lia; try discriminate;
    injection Ha as <-; injection Hb as <-;
    injection Hpa as <-; injection Hpb as <-; simpl; lia.
Qed.

Lemma loadFrameSets_chronological_witness :
  loadFrameSets Toy.start "sets.sg" exGraph = Ok (Some exLoaded) /\
  ascending (fun a b => timestamp a < timestamp b) (m_framesets exLoaded).
Proof.
  assert (H : loadFrameSets Toy.start "sets.sg" exGraph = Ok (Some exLoaded))
    by by_evaluation.
  split; [exact H|].
  exact (loadFrameSets_chronological Toy.start "sets.sg" exGraph exLoaded
           readable_exGraph chronological_exGraph H).
Defined.

End MergeOrderFacts.

(** ** Recording frame sets for saving *)

Module RecordingFacts.
Import FrameSetFacts LocalisationFacts PersistenceFacts.

Lemma ascending_sublist {A} (R : A -> A -> Prop) l1 l2 :
  l1 `sublist_of` l2 -> ascending R l2 -> ascending R l1.
Proof.
  induction 1 as [|x l1 l2 Hsub IH|x l1 l2 Hsub IH]; intros Hasc.
  - exact I.
  - destruct Hasc as [Hall Hasc]. split; [|now apply IH].
    rewrite Forall_forall in *. intros y Hy. apply Hall.
    eapply elem_of_sublist; eauto.
  - destruct Hasc as [_ Hasc]. now apply IH.
Qed.

Lemma ascending_seq a m : ascending lt (seq a m).
Proof.
  revert a. induction m as [|m IH]; intros a; simpl; [exact I|].
  split; [|apply IH]. apply Forall_forall. intros y Hy.
  apply elem_of_seq in Hy. lia.
Qed.

Lemma ascending_snoc {A} (R : A -> A -> Prop) l x :
  ascending R l -> Forall (fun a => R a x) l -> ascending R (l ++ [x]).
Proof.
  induction l as [|a l IH]; intros Hasc Hall; simpl; [auto|].
  destruct Hasc as [Ha Hasc]. apply Forall_cons in Hall as [Hax Hall].
  split; [|now apply IH]. apply Forall_app. split; [exact Ha|].
  now repeat constructor.
Qed.

Section Generic.
Context {E : Externals}.

(** X17.  [addFrameSet] keeps the frame sets fit for saving when it is
    called with increasing time stamps: if the frame sets held are
    restorable and the time stamp of the call is later than theirs, the
    frame sets after the call are restorable too.  (None are held by a new
    object or after [reset].) *)
Theorem addFrameSet_restorable s images ts pre s' :
  restorable (length (m_cameras s)) (m_framesets s) ->
  (forall fs, fs ∈ m_framesets s -> timestamp fs < ts) ->
  0 <= ts <= UINT64_MAX ->
  addFrameSet s images ts pre = Ok s' ->
  restorable (length (m_cameras s')) (m_framesets s').
Proof.
  intros [Hasc Hall] Hlater Hts H.
  destruct (addFrameSet_cases _ _ _ _ _ H)
    as [(_ & Hc & _) [Hsame|(s1 & localized & Hloc & Hcount & Happ)]];
    cbn [m_cameras set_framesets] in Hc; rewrite Hc.
  { rewrite Hsame. split; assumption. }
  rewrite Happ. split.
  - apply ascending_snoc; [exact Hasc|]. apply Forall_forall. exact Hlater.
  - intros fs Hfs. apply elem_of_app in Hfs as [Hfs|Hfs]; [now apply Hall|].
    apply list_elem_of_singleton in Hfs as ->. cbn [frames timestamp].
    pose proof (localizeAll_spec _ _ _ _ _ _ Hloc) as [_ Hids].
    split. { intros Hnil. rewrite Hnil in Hcount. simpl in Hcount. lia. }
    split; [exact Hts|].
    assert (Hsub : map cameraId (List.filter has_camera localized)
                    `sublist_of` seq 0 (length (m_cameras s))).
    { rewrite <- Hids. apply filter_map_sublist. }
    split. { eapply ascending_sublist; [exact Hsub|apply ascending_seq]. }
    intros f Hf. split.
    + assert (Hin : cameraId f ∈ seq 0 (length (m_cameras s))).
      { eapply elem_of_sublist; [|exact Hsub].
        apply list_elem_of_fmap. eauto. }
      apply elem_of_seq in Hin. lia.
    + pose proof (has_camera_filter _ _ Hf) as Hcam.
      apply list_elem_of_In, filter_In in Hf as [Hf _].
      apply list_elem_of_In in Hf.
      now destruct (localizeAll_frames _ _ _ _ _ _ Hloc f Hf Hcam) as [? _].
Qed.

End Generic.

Lemma addFrameSet_restorable_witness :
  addFrameSet (E := Toy.externals) Toy.start [Toy.view 0; Toy.view 0] 0 false
    = Ok Toy.first /\
  restorable (length (m_cameras Toy.first)) (m_framesets Toy.first).
Proof.
  assert (H : addFrameSet (E := Toy.externals) Toy.start
                [Toy.view 0; Toy.view 0] 0 false = Ok Toy.first)
    by by_evaluation.
  split; [exact H|].
  apply (addFrameSet_restorable (E := Toy.externals) Toy.start
           [Toy.view 0; Toy.view 0] 0 false Toy.first).
  - split; [exact I|]. intros fs Hfs. inversion Hfs.
  - intros fs Hfs. inversion Hfs.
  - unfold UINT64_MAX. lia.
  - exact H.
Defined.

End RecordingFacts.

(** ** The distance travelled, away from the origin *)

Module DistanceFacts.
Import OdometryFacts.

Section Generic.
Context {E : Externals}.

(** The sample is not at [(0, 0)], as the guard of [addOdometry] tests
    it. *)
Definition offOrigin (p : IEEE.double * IEEE.double) : bool :=
  IEEE.fne (fst p) IEEE.dzero || IEEE.fne (snd p) IEEE.dzero.

Lemma segments_off_origin rest : forall d p,
  offOrigin p = true -> Forall (fun q => offOrigin q = true) rest ->
  fold_left
    (fun '(d, (px, py)) '(x, y) =>
       (if IEEE.fne px IEEE.dzero || IEEE.fne py IEEE.dzero
        then IEEE.dadd d (hypot (SFsub IEEE.dprec IEEE.demax x px)
                                (SFsub IEEE.dprec IEEE.demax y py))
        else d,
        (x, y)))
    rest (d, p)
  = fold_left
      (fun '(d, (px, py)) '(x, y) =>
         (IEEE.dadd d (hypot (SFsub IEEE.dprec IEEE.demax x px)
                             (SFsub IEEE.dprec IEEE.demax y py)),
          (x, y)))
      rest (d, p).
Proof.
  induction rest as [|[x y] rest IH]; intros d [px py] Hp Hall;
    [reflexivity|].
  apply Forall_cons in Hall as [Hq Hall]. cbn [fold_left].
  unfold offOrigin in Hp. cbn [fst snd] in Hp. rewrite Hp.
  now apply IH.
Qed.

(** X18.  From a state whose odometer is at rest (a new object, or after
    [reset]), the distance accumulated by a sequence of [addOdometry]
    calls is the length of the path through the samples, provided no
    sample lies at [(0, 0)].  Yaw and time stamp play no part. *)
Theorem addOdometries_off_origin s samples :
  m_x_last s = IEEE.dzero -> m_y_last s = IEEE.dzero ->
  m_distance s = IEEE.dzero ->
  Forall (fun '(x, y, _, _) => offOrigin (x, y) = true) samples ->
  m_distance (addOdometries s samples)
  = pathLength (map (fun '(x, y, _, _) => (x, y)) samples).
Proof.
  intros Hx Hy Hd Hall.
  destruct (addOdometries_state s samples IEEE.dzero Hd) as [-> _].
  cbv zeta. rewrite Hx, Hy.
  assert (Hall' : Forall (fun q => offOrigin q = true)
                    (map (fun '(x, y, _, _) => (x, y)) samples)).
  { apply Forall_fmap. eapply Forall_impl; [exact Hall|].
    now intros [[[x y] yaw] t]. }
  match goal with
  | |- (fold_left _ ?l1 _).1 = pathLength ?l2 =>
      change l1 with l2; generalize dependent l2
  end.
  intros l Hl. destruct l as [|[x y] rest]; [reflexivity|].
  apply Forall_cons in Hl as [Hp Hrest].
  cbn [fold_left pathLength].
  replace (IEEE.fne IEEE.dzero IEEE.dzero || IEEE.fne IEEE.dzero IEEE.dzero)
    with false by reflexivity.
  now rewrite segments_off_origin.
Qed.

End Generic.

Lemma addOdometries_off_origin_witness :
  m_distance
    (addOdometries (E := Toy.externals) (reset Toy.rig)
       [(IEEE.dbl 1, IEEE.dbl 1, IEEE.dzero, 0);
        (IEEE.dbl 4, IEEE.dbl 5, IEEE.dzero, 1)])
  = pathLength (E := Toy.externals) (map (fun '(x, y, _, _) => (x, y))
       [(IEEE.dbl 1, IEEE.dbl 1, IEEE.dzero, 0);
        (IEEE.dbl 4, IEEE.dbl 5, IEEE.dzero, 1)]).
Proof.
  apply (addOdometries_off_origin (E := Toy.externals) (reset Toy.rig)).
  - reflexivity.
  - reflexivity.
  - reflexivity.
  - repeat constructor; vm_compute; reflexivity.
Defined.

End DistanceFacts.

(** ** One scene point per reference point, shared by the frames *)

Module SharedInstanceFacts.
Import FrameSetFacts FeatureMapFacts SceneMapFacts LocalisationFacts.

Section Generic.
Context {E : Externals}.

(** [estimateCameraPose] up to its loop "store inlier 2D-3D
    correspondences": the list that loop runs over, [bestCorr2D3D], as
    pairs of the position of a 2D feature in the frame and the scene point
    of the reference map it was matched to.  The loop is not reached when
    fewer than [k_minCorrespondences2D3D] inliers were found. *)
Definition inlierCorrespondences (s : Calibration) (image : Image)
    (frame : Frame) (preprocess : bool) : result (list (nat * addr)) :=
  let scaledReprojErrorThresh :=
    IEEE.ddiv k_reprojErrorThresh k_nominalFocalLength in
  let imageProc := if preprocess then equalizeHist image else image in
  let detected := surf_detectAndCompute imageProc in
  let frame :=
    Frame_set_features frame
      (features2D frame ++
       imap (fun i kd => {| keypoint := fst kd; descriptor := snd kd;
                            index := i; feature3D := None |}) detected) in
  let candidates := locrec_knnMatch (features2D frame) k_nearestImageMatches in
  rkeypoints ← mapM (fun kd => cam ← at_ (m_cameras s) (cameraId frame);
                               Ok (rectifyImagePoint cam (fst kd))) detected;
  '(s, best) ← foldM (tryCandidate frame rkeypoints scaledReprojErrorThresh)
                  candidates
                  (s, {| bestInlierCount := 0; bestCorr2D3D := [];
                         best_rvec := Vector3d_Zero;
                         best_tvec := Vector3d_Zero |});
  if (bestInlierCount best <? k_minCorrespondences2D3D)%nat then Ok []
  else Ok (bestCorr2D3D best).

(** "Every reference point that has a scene point in the map of [s] has
    the same one in the map of [s']": what holds from one state to a later
    one as long as [reset] is not called. *)
Definition keepsInstances (s s' : Calibration) : Prop :=
  forall k a, m_feature3DMap s !! k = Some a -> m_feature3DMap s' !! k = Some a.

(** "No 2D feature is matched to two reference points." *)
Definition oneEach (corr : list (nat * addr)) : Prop :=
  forall q k k', (q, k) ∈ corr -> (q, k') ∈ corr -> k = k'.

Lemma keepsInstances_refl s : keepsInstances s s.
Proof. intros k a H. exact H. Qed.

Lemma keepsInstances_trans s1 s2 s3 :
  keepsInstances s1 s2 -> keepsInstances s2 s3 -> keepsInstances s1 s3.
Proof. intros H1 H2 k a H. apply H2, H1, H. Qed.

Lemma sameScene_keepsInstances s s' : sameScene s s' -> keepsInstances s s'.
Proof. intros [Hm _] k a H. now rewrite Hm. Qed.

Lemma NoDup_oneEach corr : NoDup (map fst corr) -> oneEach corr.
Proof.
  induction corr as [|[q0 k0] corr IH]; intros Hnd q k k' H1 H2.
  { inversion H1. }
  cbn [map fst] in Hnd. apply NoDup_cons in Hnd as [Hnot Hnd].
  assert (Hfst : forall x, (q0, x) ∈ corr -> False).
  { intros x Hx. apply Hnot, list_elem_of_fmap. exists (q0, x). auto. }
  apply elem_of_cons in H1 as [H1|H1];
    apply elem_of_cons in H2 as [H2|H2]; simplify_eq.
  - reflexivity.
  - destruct (Hfst _ H2).
  - destruct (Hfst _ H1).
  - eapply IH; eauto.
Qed.

Lemma at_int_elem {A} (l : list A) i x :
  at_int l i = Ok x -> x ∈ l /\ (Z.to_nat i < length l)%nat.
Proof.
  unfold at_int, at_. destruct (i <? 0); [discriminate|].
  destruct (l !! Z.to_nat i) eqn:El; [|discriminate]. intros [= <-].
  split; [eapply list_elem_of_lookup_2; eauto|eapply lookup_lt_Some; eauto].
Qed.

(** The correspondences name features of the frame. *)
Lemma correspondences_positions s frame trainFrame rk matches corr ip sp :
  correspondences s frame trainFrame rk matches = Ok (corr, ip, sp) ->
  forall q k, (q, k) ∈ corr -> (q < length (features2D frame))%nat.
Proof.
  revert corr ip sp. induction matches as [|m rest IH]; intros corr ip sp H.
  { injection H as <- _ _. intros q k Hin. inversion Hin. }
  cbn [correspondences] in H.
  destruct (at_int (features2D frame) (queryIdx m)) as [f|] eqn:Ef;
    [|discriminate].
  cbn [mbind result_bind] in H.
  destruct (at_int (features2D trainFrame) (trainIdx m)) as [t|];
    [|discriminate].
  cbn [mbind result_bind] in H.
  destruct (feature3D t) as [p3D|]; [|eauto].
  destruct (at_int rk (queryIdx m)) as [p|]; [|discriminate].
  cbn [mbind result_bind] in H.
  destruct (correspondences s frame trainFrame rk rest)
    as [[[corr0 ip0] sp0]|]; [|discriminate].
  cbn [mbind result_bind] in H. injection H as <- _ _.
  intros q k [[= -> ->]|Hin]%elem_of_cons.
  - now apply at_int_elem in Ef.
  - eapply IH; eauto.
Qed.

Definition positioned (frame : Frame) (best : Best) : Prop :=
  forall q k, (q, k) ∈ bestCorr2D3D best ->
    (q < length (features2D frame))%nat.

Lemma tryCandidate_positioned frame rk thr s best fid s' best' :
  tryCandidate frame rk thr (s, best) fid = Ok (s', best') ->
  positioned frame best -> positioned frame best'.
Proof.
  unfold tryCandidate. intros H Hp.
  destruct (at_ (m_refGraph s) (cameraIdx fid)) as [segments|]; [|discriminate].
  cbn [mbind result_bind] in H.
  destruct (at_ segments (segmentIdx fid)) as [segment|]; [|discriminate].
  cbn [mbind result_bind] in H.
  destruct (at_ segment (frameIdx fid)) as [trainFrame|]; [|discriminate].
  cbn [mbind result_bind] in H.
  destruct (Matcher.matchFeatures _ _ _) as [[matches warnings]|]; [|discriminate].
  cbn [mbind result_bind] in H.
  destruct (_ <? _)%nat; [now injection H as _ <-|].
  destruct (correspondences _ _ _ _ _) as [[[corr ip] sp]|] eqn:Ec;
    [|discriminate].
  cbn [mbind result_bind] in H.
  destruct (_ <? _)%nat; [now injection H as _ <-|].
  destruct (solvePnPRansac _ _ _) as [[rvec tvec] inliers].
  destruct (_ <? _)%nat; [now injection H as _ <-|].
  destruct (_ <? _)%nat; [|now injection H as _ <-].
  destruct (mapM _ _) as [bestCorr|] eqn:Em; [|discriminate].
  cbn [mbind result_bind] in H. injection H as _ <-.
  intros q k Hin. cbn [bestCorr2D3D] in Hin.
  destruct (RunFacts.mapM_elem_inv _ _ _ _ Em Hin) as (j & _ & Hj).
  apply at_int_elem in Hj as [Hj _].
  eapply correspondences_positions; eauto.
Qed.

Lemma candidates_positioned frame rk thr cands s best s' best' :
  foldM (tryCandidate frame rk thr) cands (s, best) = Ok (s', best') ->
  positioned frame best -> positioned frame best'.
Proof.
  intros H Hp. change best' with (s', best').2.
  eapply (foldM_invariant (fun st => positioned frame st.2)); [| |exact H].
  - exact Hp.
  - intros [sa ba] fid [sb bb] Ha Hf. cbn [snd] in *.
    eapply tryCandidate_positioned; eauto.
Qed.

Lemma storeCorrespondences_snoc ts s frame corr c :
  storeCorrespondences ts s frame (corr ++ [c]) =
  storeStep ts (storeCorrespondences ts s frame corr) c.
Proof. unfold storeCorrespondences. now rewrite fold_left_app. Qed.

Lemma detection_set f g a :
  detection g = detection f ->
  Point2DFeature_set_feature3D g a = Point2DFeature_set_feature3D f a.
Proof.
  unfold detection, Point2DFeature_set_feature3D. intros [= -> -> ->].
  reflexivity.
Qed.

(** The store loop: the map keeps what it had, and the feature of every
    correspondence ends up with the scene point that the map holds for
    its reference point. *)
Lemma storeCorrespondences_attached ts s frame corr :
  oneEach corr ->
  (forall q k, (q, k) ∈ corr -> (q < length (features2D frame))%nat) ->
  keepsInstances s (storeCorrespondences ts s frame corr).1 /\
  forall q k, (q, k) ∈ corr ->
    exists f a,
      features2D frame !! q = Some f /\
      m_feature3DMap (storeCorrespondences ts s frame corr).1 !! k = Some a /\
      features2D (storeCorrespondences ts s frame corr).2 !! q
        = Some (Point2DFeature_set_feature3D f (Some a)).
Proof.
  induction corr as [|[q k] corr IH] using rev_ind; intros Hone Hpos.
  { split; [apply keepsInstances_refl|]. intros q k Hin. inversion Hin. }
  destruct IH as [IHk IHa].
  { intros q' k1 k2 H1 H2. apply (Hone q'); apply elem_of_app; now left. }
  { intros q' k' Hin. apply (Hpos q' k'), elem_of_app. now left. }
  rewrite storeCorrespondences_snoc.
  pose proof (storeCorrespondences_features ts s frame corr) as [Hdet _].
  destruct (storeCorrespondences ts s frame corr) as [s1 f1].
  cbn [fst snd] in *. unfold storeStep.
  destruct (storeCorrespondence s1 _ k) as [s2 a] eqn:Es.
  destruct (storeCorrespondence_map _ _ _ _ _ Es) as [Hk Hmono].
  cbn [fst snd features2D Frame_set_features].
  split.
  { eapply keepsInstances_trans; [exact IHk|exact Hmono]. }
  intros q' k' [Hin|Hin%list_elem_of_singleton]%elem_of_app.
  - destruct (IHa q' k' Hin) as (f & a' & Hf & Ha' & Hatt).
    exists f, a'. split; [exact Hf|]. split; [now apply Hmono|].
    destruct (decide (q' = q)) as [->|Hne].
    + assert (k' = k).
      { apply (Hone q); apply elem_of_app; [now left|right; constructor]. }
      subst k'. apply Hmono in Ha'. rewrite Hk in Ha'. injection Ha' as ->.
      rewrite list_lookup_alter_eq, Hatt. reflexivity.
    + rewrite list_lookup_alter_ne by congruence. exact Hatt.
  - injection Hin as -> ->.
    destruct (lookup_lt_is_Some_2 (features2D frame) q) as [f Hf].
    { apply (Hpos q k), elem_of_app. right. constructor. }
    assert (Hg : exists g, features2D f1 !! q = Some g /\
                           detection g = detection f).
    { assert (Hl : map detection (features2D f1) !! q = Some (detection f)).
      { rewrite Hdet, list_lookup_fmap, Hf. reflexivity. }
      rewrite list_lookup_fmap in Hl.
      destruct (features2D f1 !! q) as [g|]; [|discriminate].
      exists g. split; [reflexivity|]. cbn in Hl. congruence. }
    destruct Hg as (g & Hg & Hgd).
    exists f, a. split; [exact Hf|]. split; [exact Hk|].
    rewrite list_lookup_alter_eq, Hg. cbn. f_equal.
    now apply detection_set.
Qed.

(** Where [estimateCameraPose] returns, the list of the store loop is
    defined. *)
Lemma estimateCameraPose_inlierCorrespondences s image ts frame pre r :
  estimateCameraPose s image ts frame pre = Ok r ->
  exists corr, inlierCorrespondences s image frame pre = Ok corr.
Proof.
  unfold estimateCameraPose, inlierCorrespondences. cbv zeta. intros H.
  bind_in H. cbn [mbind result_bind]. bind_in H.
  cbn [mbind result_bind]. destruct a0 as [s1 best].
  destruct (bestInlierCount best <? k_minCorrespondences2D3D)%nat; eauto.
Qed.

(** One call of [estimateCameraPose]: the map keeps the scene points it
    had, and every 2D feature of an inlier correspondence is kept in the
    frame, attached to the scene point that the map holds for the
    reference point of the correspondence. *)
Lemma estimateCameraPose_attaches s image ts frame pre corr s' frame' :
  inlierCorrespondences s image frame pre = Ok corr ->
  estimateCameraPose s image ts frame pre = Ok (s', frame') ->
  oneEach corr ->
  keepsInstances s s' /\
  forall q k, (q, k) ∈ corr ->
    exists f a,
      detectedFeatures frame image pre !! q = Some f /\
      m_feature3DMap s' !! k = Some a /\
      Point2DFeature_set_feature3D f (Some a) ∈ features2D frame'.
Proof.
  unfold estimateCameraPose, inlierCorrespondences, detectedFeatures.
  cbv zeta. intros Hc H Hone.
  bind_in H. cbn [mbind result_bind] in Hc.
  bind_in H. cbn [mbind result_bind] in Hc. destruct a0 as [s1 best].
  pose proof (candidates_sameScene _ _ _ _ _ _ _ _ Eb0) as Hs1.
  pose proof (candidates_positioned _ _ _ _ _ _ _ _ Eb0) as Hpos.
  destruct (_ <? _)%nat.
  { injection H as <- <-. injection Hc as <-.
    split; [now apply sameScene_keepsInstances|].
    intros q k Hin. inversion Hin. }
  injection Hc as <-.
  match type of H with
  | context [storeCorrespondences ts ?sa ?fa ?ca] =>
      destruct (storeCorrespondences_attached ts sa fa ca Hone)
        as [Hkeep Hatt];
      [|destruct (storeCorrespondences ts sa fa ca) as [s2 frame2]]
  end.
  { cbn [features2D Frame_set_camera Frame_set_features].
    apply Hpos. intros q k Hin. inversion Hin. }
  cbn [fst snd features2D Frame_set_camera Frame_set_features] in Hkeep, Hatt.
  assert (Hfin : sameScene s2 s' /\
                 frame' = Frame_set_features frame2
                            (List.filter has_feature3D (features2D frame2))).
  { destruct (m_verbose s2).
    - bind_in H. bind_in H. injection H as <- <-. split; [|reflexivity].
      repeat (eapply sameScene_trans; [|apply print_sameScene]).
      apply sameScene_refl.
    - injection H as <- <-. split; [apply sameScene_refl|reflexivity]. }
  destruct Hfin as [Hs2 ->].
  split.
  { eapply keepsInstances_trans; [apply sameScene_keepsInstances, Hs1|].
    eapply keepsInstances_trans;
      [|apply sameScene_keepsInstances, Hs2].
    eapply keepsInstances_trans; [|exact Hkeep].
    apply sameScene_keepsInstances, info_sameScene. }
  intros q k Hin. destruct (Hatt q k Hin) as (f & x & Hf & Ha & Hq).
  exists f, x. split; [exact Hf|]. split.
  { destruct Hs2 as [-> _]. exact Ha. }
  cbn [features2D Frame_set_features].
  apply list_elem_of_In, filter_In. split; [|reflexivity].
  apply list_elem_of_In. eapply list_elem_of_lookup_2; eauto.
Qed.

(** A thread that runs its whole store loop without being interrupted
    does to the shared state and to its frame what the loop of
    [estimateCameraPose] does: the executions in which the threads take
    turns, as in [localizeAll], are among the interleavings. *)
Lemma storeInterleaved_thread ts corr : forall s frames t frame,
  frames !! t = Some frame ->
  storeInterleaved ts (s, frames)
    (map (fun c : nat * addr => (t, c.1, c.2)) corr)
  = ((storeCorrespondences ts s frame corr).1,
     <[t := (storeCorrespondences ts s frame corr).2]> frames).
Proof.
  unfold storeInterleaved, storeCorrespondences.
  induction corr as [|[q k] corr IH]; intros s frames t frame Ht.
  - cbn [map fold_left fst snd]. now rewrite list_insert_id.
  - cbn [map fold_left fst snd]. rewrite Ht.
    destruct (storeStep ts (s, frame) (q, k)) as [s' frame'].
    rewrite (IH s' (<[t := frame']> frames) t frame').
    + now rewrite list_insert_insert_eq.
    + apply list_lookup_insert_eq. eapply lookup_lt_Some; eauto.
Qed.
Lemma storeCorrespondences_keepsInstances ts s frame corr :
  keepsInstances s (storeCorrespondences ts s frame corr).1.
Proof.
  unfold storeCorrespondences.
  apply (fold_left_invariant (fun st => keepsInstances s st.1)).
  - apply keepsInstances_refl.
  - intros [s1 f1] [q k] H1. unfold storeStep. cbn [fst] in *.
    destruct (storeCorrespondence s1 _ k) as [s2 a] eqn:Es.
    destruct (storeCorrespondence_map _ _ _ _ _ Es) as [_ Hmono].
    eapply keepsInstances_trans; [exact H1|exact Hmono].
Qed.

(** Whatever it matches, [estimateCameraPose] replaces no scene point of
    the map, and neither do [addFrameSet] and its localisations: only
    [reset], which empties the map, does. *)
Lemma estimateCameraPose_keepsInstances s image ts frame pre s' frame' :
  estimateCameraPose s image ts frame pre = Ok (s', frame') ->
  keepsInstances s s'.
Proof.
  unfold estimateCameraPose. cbv zeta. intros H.
  bind_in H. bind_in H. destruct a0 as [s1 best].
  apply candidates_sameScene, sameScene_keepsInstances in Eb0.
  destruct (_ <? _)%nat.
  { injection H as <- <-. exact Eb0. }
  match type of H with
  | context [storeCorrespondences ts ?sa ?fa ?ca] =>
      pose proof (storeCorrespondences_keepsInstances ts sa fa ca) as Hk;
      destruct (storeCorrespondences ts sa fa ca) as [s2 frame2]
  end.
  cbn [fst] in Hk.
  assert (Hfin : sameScene s2 s').
  { destruct (m_verbose s2).
    - bind_in H. bind_in H. injection H as <- _.
      repeat (eapply sameScene_trans; [|apply print_sameScene]).
      apply sameScene_refl.
    - injection H as <- _. apply sameScene_refl. }
  eapply keepsInstances_trans; [exact Eb0|].
  eapply keepsInstances_trans; [|apply sameScene_keepsInstances, Hfin].
  eapply keepsInstances_trans; [|exact Hk].
  apply sameScene_keepsInstances, info_sameScene.
Qed.

Lemma localizeAll_keepsInstances s images ts pre s' localized :
  localizeAll s images ts pre = Ok (s', localized) -> keepsInstances s s'.
Proof.
  unfold localizeAll. intros H. change s' with (s', localized).1.
  eapply (foldM_invariant (fun st => keepsInstances s st.1)); [| |exact H].
  - apply keepsInstances_refl.
  - intros [sa la] i [sb lb] Ha Hf. cbn [fst] in *.
    bind_in Hf. bind_in Hf. destruct a0 as [s2 f2].
    injection Hf as <- _. eapply keepsInstances_trans; [exact Ha|].
    eapply estimateCameraPose_keepsInstances; eauto.
Qed.

Lemma addFrameSet_keepsInstances s images ts pre s' :
  addFrameSet s images ts pre = Ok s' -> keepsInstances s s'.
Proof.
  unfold addFrameSet. intros H.
  destruct (negb _).
  { injection H as <-. apply sameScene_keepsInstances, print_sameScene. }
  bind_in H. destruct a as [s1 localized].
  apply localizeAll_keepsInstances in Eb.
  destruct (_ <? _)%nat. { now injection H as <-. }
  bind_in H. destruct a as [s2 add].
  assert (H2 : sameScene s1 s2).
  { unfold keyFrameGate in Eb0. destruct (last (m_framesets s1)).
    - bind_in Eb0. bind_in Eb0. bind_in Eb0.
      destruct (_ && _); injection Eb0 as <- _;
        [apply sameScene_refl|apply info_sameScene].
    - injection Eb0 as <- _. apply sameScene_refl. }
  eapply keepsInstances_trans; [exact Eb|].
  eapply keepsInstances_trans; [apply sameScene_keepsInstances, H2|].
  destruct add; cbn [negb] in H; injection H as <-;
    [|apply keepsInstances_refl].
  apply sameScene_keepsInstances.
  eapply sameScene_trans; [|apply info_sameScene]. split; reflexivity.
Qed.

(** C6.  Take two calls of [estimateCameraPose], for any cameras and any
    images, the second in a state whose map still has the scene points
    that the first call left in it (no [reset] in between; the other
    operations keep them).  Every 2D feature that the second call matched
    as an inlier to a point [k] of the reference map is kept in its frame
    and attached to the scene point [a] that the shared map holds under
    [k]: the one the map already had for [k], if any, and a new one
    otherwise.  Every 2D feature that the first call matched to the same
    [k] is attached, in its frame, to that same [a]. *)
Theorem estimateCameraPose_shared_instance
    s1 image1 ts1 frame1 pre1 corr1 s1' frame1'
    s2 image2 ts2 frame2 pre2 corr2 s2' frame2' :
  inlierCorrespondences s1 image1 frame1 pre1 = Ok corr1 ->
  estimateCameraPose s1 image1 ts1 frame1 pre1 = Ok (s1', frame1') ->
  keepsInstances s1' s2 ->
  inlierCorrespondences s2 image2 frame2 pre2 = Ok corr2 ->
  estimateCameraPose s2 image2 ts2 frame2 pre2 = Ok (s2', frame2') ->
  oneEach corr1 -> oneEach corr2 ->
  forall q2 k, (q2, k) ∈ corr2 ->
    exists f2 a,
      detectedFeatures frame2 image2 pre2 !! q2 = Some f2 /\
      m_feature3DMap s2' !! k = Some a /\
      Point2DFeature_set_feature3D f2 (Some a) ∈ features2D frame2' /\
      (forall b, m_feature3DMap s2 !! k = Some b -> a = b) /\
      (forall q1, (q1, k) ∈ corr1 ->
         exists f1,
           detectedFeatures frame1 image1 pre1 !! q1 = Some f1 /\
           Point2DFeature_set_feature3D f1 (Some a) ∈ features2D frame1').
Proof.
  intros Hc1 He1 Hkeep Hc2 He2 Hone1 Hone2 q2 k Hin2.
  destruct (estimateCameraPose_attaches _ _ _ _ _ _ _ _ Hc1 He1 Hone1)
    as [_ Hatt1].
  destruct (estimateCameraPose_attaches _ _ _ _ _ _ _ _ Hc2 He2 Hone2)
    as [Hkeep2 Hatt2].
  destruct (Hatt2 q2 k Hin2) as (f2 & a & Hf2 & Ha & Hq2).
  exists f2, a. do 3 (split; [assumption|]). split.
  - intros b Hb. apply Hkeep2 in Hb. congruence.
  - intros q1 Hin1. destruct (Hatt1 q1 k Hin1) as (f1 & b & Hf1 & Hb & Hq1).
    apply Hkeep, Hkeep2 in Hb. rewrite Ha in Hb. injection Hb as <-.
    eauto.
Qed.

End Generic.

#[local] Existing Instance Toy.externals.

(** The localisation of camera 0 in the view 0 from [Toy.start], and the
    one of camera 1 in the view 1 after the frame set of the view 0 has
    been added. *)
Definition blank (i : nat) : Frame :=
  {| cameraId := i; camera := None; odometry := None; features2D := [] |}.

Definition shotA : Calibration * Frame :=
  Eval vm_compute in
    match estimateCameraPose Toy.start (Toy.view 0) 0 (blank 0) false with
    | Ok r => r
    | Throw _ => (Toy.start, blank 0)
    end.

Definition shotB : Calibration * Frame :=
  Eval vm_compute in
    match estimateCameraPose Toy.first (Toy.view 1) 1 (blank 1) false with
    | Ok r => r
    | Throw _ => (Toy.first, blank 1)
    end.

Definition corrA : list (nat * addr) :=
  Eval vm_compute in
    match inlierCorrespondences Toy.start (Toy.view 0) (blank 0) false with
    | Ok r => r
    | Throw _ => []
    end.

Definition corrB : list (nat * addr) :=
  Eval vm_compute in
    match inlierCorrespondences Toy.first (Toy.view 1) (blank 1) false with
    | Ok r => r
    | Throw _ => []
    end.
(** The map point at address 2 is seen by camera 0 in the first frame set
    (feature 1 of the view 0) and by camera 1 in the second (feature 0 of
    the view 1): both features carry the scene point that the map holds
    for it. *)
Lemma estimateCameraPose_shared_instance_witness :
  exists f2 a,
    detectedFeatures (blank 1) (Toy.view 1) false !! 0%nat = Some f2 /\
    m_feature3DMap shotB.1 !! 2%positive = Some a /\
    Point2DFeature_set_feature3D f2 (Some a) ∈ features2D shotB.2 /\
    (forall b, m_feature3DMap Toy.first !! 2%positive = Some b -> a = b) /\
    (forall q1, (q1, 2%positive) ∈ corrA ->
       exists f1,
         detectedFeatures (blank 0) (Toy.view 0) false !! q1 = Some f1 /\
         Point2DFeature_set_feature3D f1 (Some a) ∈ features2D shotA.2).
Proof.
  apply (estimateCameraPose_shared_instance
           Toy.start (Toy.view 0) 0 (blank 0) false corrA shotA.1 shotA.2
           Toy.first (Toy.view 1) 1 (blank 1) false corrB shotB.1 shotB.2).
  - by_evaluation.
  - by_evaluation.
  - assert (H : m_feature3DMap Toy.first = m_feature3DMap shotA.1)
      by by_evaluation.
    intros k a Hk. rewrite H. exact Hk.
  - by_evaluation.
  - by_evaluation.
  - apply NoDup_oneEach, (bool_decide_unpack _). vm_compute. reflexivity.
  - apply NoDup_oneEach, (bool_decide_unpack _). vm_compute. reflexivity.
  - apply list_elem_of_here.
Defined.

Example shared_instance_addresses :
  m_feature3DMap shotB.1 !! 2%positive = Some 32%positive /\
  feature3D <$> features2D shotA.2 !! 1%nat = Some (Some 32%positive) /\
  feature3D <$> features2D shotB.2 !! 0%nat = Some (Some 32%positive).
Proof. repeat split; vm_compute; reflexivity. Qed.

End SharedInstanceFacts.
